(** * A shallow embedding of the Lexer repository

    The Python sources [Parser.py], [AST.py], [NFA.py], [DFA.py] and [Lex.py]
    are translated function by function.  Python strings are sequences of
    Unicode code points, Python exceptions are values of [exn], Python sets
    of state ids are [gset nat], insertion-ordered dictionaries are
    association lists, and the dictionary of epsilon closures is a [gmap]. *)

From stdpp Require Import gmap list sorting strings.

Local Open Scope nat_scope.
#[local] Set Warnings "-clear-no-such-hyp".

(** ** Python values *)

(** A Python [str] is a sequence of code points; a character is a string of
    length one. *)
Abbreviation pystr := (list N).

Definition py (s : string) : pystr :=
  map Ascii.N_of_ascii (String.list_ascii_of_string s).

(** Exceptions the translated code can raise.  [OutOfFuel] is not a Python
    exception: it marks a bounded loop of the model that ran out of steps,
    and the totality lemmas below show where it cannot happen. *)
Inductive exn :=
  | IndexError | StopIteration | TypeError | KeyError | ValueError
  | AttributeError | OutOfFuel.

Inductive result (A : Type) :=
  | Ok (a : A)
  | Raise (e : exn).
Arguments Ok {A} a.
Arguments Raise {A} e.

#[global] Instance result_ret : MRet result := λ A a, Ok a.
#[global] Instance result_bind : MBind result := λ A B k r,
  match r with
  | Ok a => k a
  | Raise e => Raise e
  end.

Definition of_option {A} (e : exn) (o : option A) : result A :=
  match o with
  | Some a => Ok a
  | None => Raise e
  end.

Definition str_eqb (a b : pystr) : bool := bool_decide (a = b).

(** ** String primitives *)

Module Str.

(** [s.startswith(p)] *)
Fixpoint startswith (p s : pystr) : bool :=
  match p, s with
  | [], _ => true
  | _ :: _, [] => false
  | a :: p', b :: s' => bool_decide (a = b) && startswith p' s'
  end.

(** [sub in s] *)
Fixpoint contains (sub s : pystr) : bool :=
  startswith sub s ||
  match s with
  | [] => false
  | _ :: s' => contains sub s'
  end.

(** [s.replace(old, new)] for a non-empty [old] (every call site passes a
    literal of one to three characters): scan left to right, replace each
    occurrence met and resume after it.  [skip] counts the characters of
    the occurrence still to be dropped. *)
Fixpoint replace_go (old new : pystr) (skip : nat) (s : pystr) : pystr :=
  match s with
  | [] => []
  | c :: rest =>
    match skip with
    | S k => replace_go old new k rest
    | O =>
      if startswith old s
      then new ++ replace_go old new (length old - 1) rest
      else c :: replace_go old new 0 rest
    end
  end.

Definition replace (old new s : pystr) : pystr := replace_go old new 0 s.

(** [sep.join(l)] *)
Fixpoint join (sep : pystr) (l : list pystr) : pystr :=
  match l with
  | [] => []
  | [x] => x
  | x :: l' => x ++ sep ++ join sep l'
  end.

(** [s.split(sep)] for a one-character separator; the result is never
    empty. [cur] is the piece being read. *)
Fixpoint split_go (sep : N) (cur : pystr) (s : pystr) : list pystr :=
  match s with
  | [] => [cur]
  | c :: s' =>
    if bool_decide (c = sep) then cur :: split_go sep [] s'
    else split_go sep (cur ++ [c]) s'
  end.

Definition split (sep : N) (s : pystr) : list pystr := split_go sep [] s.

(** [s.count(c)] for a one-character [c] *)
Definition count (c : N) (s : pystr) : nat :=
  length (filter (λ x, x = c) s).

(** [s.rfind(c)] for a one-character [c]: the last index, or -1. *)
Fixpoint rfind_go (c : N) (i : nat) (s : pystr) (last : Z) : Z :=
  match s with
  | [] => last
  | x :: s' =>
    rfind_go c (S i) s' (if bool_decide (x = c) then Z.of_nat i else last)
  end.

Definition rfind (c : N) (s : pystr) : Z := rfind_go c 0 s (-1)%Z.

(** [str(n)] for a non-negative integer: decimal digits, most significant
    first. *)
Definition digit (d : nat) : N := (48 + N.of_nat d)%N.

Fixpoint str_go (fuel n : nat) (acc : pystr) : pystr :=
  match fuel with
  | O => acc
  | S f =>
    let acc' := digit (n mod 10) :: acc in
    if n / 10 =? 0 then acc' else str_go f (n / 10) acc'
  end.

Definition str (n : nat) : pystr := str_go (S n) n [].

(** [str(z)] for any integer *)
Definition strZ (z : Z) : pystr :=
  if bool_decide (z < 0)%Z then 45%N :: str (Z.to_nat (- z))
  else str (Z.to_nat z).

(** [int(s)] on strings of ASCII decimal digits, the only strings the
    translated code converts (the pieces of a group name [setToStr]
    wrote).  Outside them the model does not follow Python: a sign,
    surrounding blanks, digit separators and the digits of other
    scripts, which [int] reads, are taken as a [ValueError] here. *)
Definition digit_val (c : N) : option nat :=
  if bool_decide (48 ≤ c ∧ c ≤ 57)%N then Some (N.to_nat (c - 48)) else None.

Fixpoint int_go (acc : nat) (s : pystr) : result nat :=
  match s with
  | [] => Ok acc
  | c :: s' =>
    match digit_val c with
    | Some d => int_go (10 * acc + d) s'
    | None => Raise ValueError
    end
  end.

Definition int (s : pystr) : result nat :=
  match s with
  | [] => Raise ValueError
  | _ => int_go 0 s
  end.

(** Lexicographic order on code points, the order of [sorted] on strings. *)
Fixpoint leb (a b : pystr) : bool :=
  match a, b with
  | [], _ => true
  | _ :: _, [] => false
  | x :: a', y :: b' =>
    if bool_decide (x = y) then leb a' b' else bool_decide (x < y)%N
  end.

End Str.

(** ** Regex tokens ([Regex.py], [Parser.py]) *)

(** The seven operator objects [Parser.py] creates at module level; every
    [Operator] the parser handles is one of them. *)
Inductive Operator :=
  | STAR | PLUS | MAYBE | UNION | CONCAT | L_BRACK | R_BRACK.

#[global] Instance Operator_eq_dec : EqDecision Operator.
Proof. solve_decision. Defined.

(** The glyph each operator is built from: [Operator("*")], ... *)
Definition op (o : Operator) : pystr :=
  match o with
  | STAR => py "*" | PLUS => py "+" | MAYBE => py "?" | UNION => py "|"
  | CONCAT => py "." | L_BRACK => py "(" | R_BRACK => py ")"
  end.

(** Modelled from the spec: the [priority] attribute of [Operator], whose
    class ([Regex.py]) is not among the sources.  The repetition operators
    share the highest rank, concatenation binds tighter than union, union is
    the lowest operator; the brackets rank below every operator, which is
    what makes the pop loops of [toPrenexHelper] stop at an open bracket. *)
Definition priority (o : Operator) : nat :=
  match o with
  | STAR | PLUS | MAYBE => 3
  | CONCAT => 2
  | UNION => 1
  | L_BRACK | R_BRACK => 0
  end.

(** An item of the list [preprocess] returns: [Character(chr)] or one of the operators. *)
Inductive item :=
  | Character (chr : pystr)
  | Op (o : Operator).

#[global] Instance item_eq_dec : EqDecision item.
Proof. solve_decision. Defined.

Definition isCharacter (t : item) : bool :=
  match t with Character _ => true | Op _ => false end.

(** [t == o] for a module-level operator [o] *)
Definition is_op (o : Operator) (t : item) : bool := bool_decide (t = Op o).

(** The code points the parser names. *)
Definition epsilon : N := 949%N.     (* ε *)
Definition quote : N := 39%N.        (* ' *)
Definition space : N := 32%N.
Definition newline : N := 10%N.      (* \n *)
Definition tab : N := 9%N.           (* \t *)
Definition carriage : N := 13%N.     (* \r *)
Definition underscore : N := 95%N.

Definition EPS : pystr := Eval cbv in py "eps".

Module Parser.

(** The test of one loop round of [addConcatOp]: is a [CONCAT] appended
    after [a] when [b] follows?  The branches are those of the source, in
    order. *)
Definition needsConcat (a b : item) : bool :=
  if isCharacter a && isCharacter b then true            (* ab *)
  else if isCharacter a && is_op L_BRACK b then true     (* a( *)
  else if is_op R_BRACK a && isCharacter b then true     (* )a *)
  else if is_op R_BRACK a && is_op L_BRACK b then true   (* )( *)
  else if is_op STAR a && isCharacter b then true        (* *a *)
  else if is_op PLUS a && isCharacter b then true        (* +a *)
  else if is_op MAYBE a && isCharacter b then true       (* ?a *)
  else if is_op STAR a && is_op L_BRACK b then true      (* *( *)
  else if is_op PLUS a && is_op L_BRACK b then true      (* +( *)
  else if is_op MAYBE a && is_op L_BRACK b then true     (* ?( *)
  else false.

(** The [for i in range(len(rlist) - 1)] loop. *)
Fixpoint addConcatLoop (rlist : list item) : list item :=
  match rlist with
  | a :: (b :: _) as rest =>
    (if needsConcat a b then [a; Op CONCAT] else [a]) ++ addConcatLoop rest
  | _ => []
  end.

(** [Parser.addConcatOp].  On the empty list the loop does not run, [i]
    stays 0 and [rlist[i + 1]] raises. *)
Definition addConcatOp (rlist : list item) : result (list item) :=
  match rlist with
  | [_] => Ok rlist
  | _ =>
    lst ← of_option IndexError (last rlist);
    Ok (addConcatLoop rlist ++ [lst])
  end.

(** [range(ord(first), ord(last))] *)
Definition ordRange (first last : N) : list N :=
  N.of_nat <$> seq (N.to_nat first) (N.to_nat last - N.to_nat first).

(** The character a quoted literal stands for: the four whitespace
    characters keep their quotes. *)
Definition quoted (c : N) : item :=
  if bool_decide (c = newline) then Character [quote; newline; quote]
  else if bool_decide (c = tab) then Character [quote; tab; quote]
  else if bool_decide (c = carriage) then Character [quote; carriage; quote]
  else if bool_decide (c = space) then Character [quote; space; quote]
  else Character [c].

(** The [while i < len(regex)] loop of [preprocess].  [skip] is the number
    of characters the index still jumps over: a quoted literal advances
    [i] by three and a range by five, whatever the skipped characters
    are. *)
Fixpoint classify (skip : nat) (regex : pystr) : result (list item) :=
  match regex with
  | [] => Ok []
  | c :: rest =>
    match skip with
    | S k => classify k rest
    | O =>
      if bool_decide (c = quote) then
        match rest with
        | [] => Raise IndexError
        | x :: _ => ts ← classify 2 rest; Ok (quoted x :: ts)
        end
      else if bool_decide (c = 40%N) then ts ← classify 0 rest; Ok (Op L_BRACK :: ts)
      else if bool_decide (c = 41%N) then ts ← classify 0 rest; Ok (Op R_BRACK :: ts)
      else if bool_decide (c = 42%N) then ts ← classify 0 rest; Ok (Op STAR :: ts)
      else if bool_decide (c = 43%N) then ts ← classify 0 rest; Ok (Op PLUS :: ts)
      else if bool_decide (c = 63%N) then ts ← classify 0 rest; Ok (Op MAYBE :: ts)
      else if bool_decide (c = 124%N) then ts ← classify 0 rest; Ok (Op UNION :: ts)
      else if bool_decide (c = 46%N) then ts ← classify 0 rest; Ok (Op CONCAT :: ts)
      else if bool_decide (c = 91%N) then
        match rest with
        | first :: _ :: lst :: _ =>
          ts ← classify 4 rest;
          Ok ([Op L_BRACK]
              ++ concat ((λ j, [Character [j]; Op UNION]) <$> ordRange first lst)
              ++ [Character [lst]; Op R_BRACK] ++ ts)
        | _ => Raise IndexError
        end
      else ts ← classify 0 rest; Ok (Character [c] :: ts)
    end
  end.

(** [Parser.preprocess] *)
Definition preprocess (regex : pystr) : result (list item) :=
  let regex := Str.replace EPS [epsilon] regex in
  rlist ← classify 0 regex;
  addConcatOp rlist.

(** [while stack[-1] != L_BRACK: out.append(stack.pop())] followed by
    [stack.pop()].  The top of the stack is the head of the list. *)
Fixpoint popToBracket (stack : list Operator) (out : list item)
  : result (list Operator * list item) :=
  match stack with
  | [] => Raise IndexError
  | o :: stack' =>
    if bool_decide (o ≠ L_BRACK) then popToBracket stack' (out ++ [Op o])
    else Ok (stack', out)
  end.

(** [while cmp(regex[i].priority, stack[-1].priority): out.append(stack.pop())],
    [cmp] being [<=] for [STAR] and [<] otherwise. *)
Fixpoint popWhile (cmp : nat → nat → bool) (cur : Operator)
    (stack : list Operator) (out : list item)
  : result (list Operator * list item) :=
  match stack with
  | [] => Raise IndexError
  | o :: stack' =>
    if cmp (priority cur) (priority o)
    then popWhile cmp cur stack' (out ++ [Op o])
    else Ok (stack, out)
  end.

(** One round of the main loop of [toPrenexHelper]. *)
Definition shunt (t : item) (stack : list Operator) (out : list item)
  : result (list Operator * list item) :=
  match t with
  | Character _ => Ok (stack, out ++ [t])
  | Op o =>
    if bool_decide (o = L_BRACK) then Ok (o :: stack, out)
    else if bool_decide (o = R_BRACK) then popToBracket stack out
    else
      '(stack', out') ←
        (if bool_decide (o = STAR) then popWhile Nat.leb o stack out
         else popWhile Nat.ltb o stack out);
      Ok (o :: stack', out')
  end.

Fixpoint shuntAll (regex : list item) (stack : list Operator)
    (out : list item) : result (list Operator * list item) :=
  match regex with
  | [] => Ok (stack, out)
  | t :: regex' =>
    '(stack', out') ← shunt t stack out;
    shuntAll regex' stack' out'
  end.

(** The prenex keyword of one output item; brackets match no branch. *)
Definition keyword (t : item) : pystr :=
  match t with
  | Op o =>
    if str_eqb (op o) (py ".") then py "CONCAT "
    else if str_eqb (op o) (py "|") then py "UNION "
    else if str_eqb (op o) (py "*") then py "STAR "
    else if str_eqb (op o) (py "+") then py "PLUS "
    else if str_eqb (op o) (py "?") then py "MAYBE "
    else []
  | Character chr => chr ++ [space]
  end.

(** [Parser.toPrenexHelper].  Operators left on the stack when the input
    ends are added with [out += stack.pop()], which needs an iterable
    right-hand side: with a plain [Operator] object it raises. *)
Definition toPrenexHelper (regex : list item) : result pystr :=
  '(stack, out) ← shuntAll regex [] [];
  if bool_decide (0 < length stack) then Raise TypeError
  else
    let prefix := concat (keyword <$> reverse out) in
    let prefix := Str.replace [space; newline; space] [newline] prefix in
    let prefix := Str.replace [space; carriage; space] [carriage] prefix in
    let prefix := Str.replace [space; tab; space] [tab] prefix in
    Ok (Str.replace [epsilon] EPS (removelast prefix)).

Definition swapBracket (x : item) : item :=
  if is_op L_BRACK x then Op R_BRACK
  else if is_op R_BRACK x then Op L_BRACK
  else x.

(** [Parser.toPrenex] *)
Definition toPrenex (regex : pystr) : result pystr :=
  rlist ← preprocess regex;
  let infix_list := swapBracket <$> reverse rlist in
  let infix_list := [Op L_BRACK] ++ infix_list ++ [Op R_BRACK] in
  toPrenexHelper infix_list.

End Parser.

(** ** Expression trees ([AST.py]) *)

(** [Node]: the token, the declared number of children and the children
    built so far (the graphviz label only serves the drawing). *)
#[warnings="-register-all"]
Inductive Node := mkNode {
  token : pystr;
  num_children : nat;
  children : list Node
}.

Module AST.

(** The first loop of [customSplit]: cut at the spaces outside quotes. *)
Fixpoint splitLoop (tokens : list pystr) (tok : pystr) (in_quotes : bool)
    (prenex : pystr) : list pystr :=
  match prenex with
  | [] => tokens ++ [tok]
  | char :: rest =>
    let in_quotes :=
      if bool_decide (char = quote) then negb in_quotes else in_quotes in
    if bool_decide (char = space) && negb in_quotes
    then splitLoop (tokens ++ [tok]) [] in_quotes rest
    else splitLoop tokens (tok ++ [char]) in_quotes rest
  end.

Definition isQuoted (tok : pystr) : bool :=
  bool_decide (length tok = 3) && bool_decide (tok !! 0 = Some quote)
  && bool_decide (tok !! 2 = Some quote).

(** One round of the second loop, at position [k] of the list the loop
    is rewriting: [tokens[tokens.index(token)] = token[1]]. *)
Definition unquoteAt (tokens : list pystr) (k : nat) : list pystr :=
  match tokens !! k with
  | Some tok =>
    if isQuoted tok then
      match list_find (λ t, t = tok) tokens, tok !! 1 with
      | Some (j, _), Some c => <[j := [c]]> tokens
      | _, _ => tokens
      end
    else tokens
  | None => tokens
  end.

(** [AST.customSplit] *)
Definition customSplit (prenex : pystr) : list pystr :=
  let tokens := splitLoop [] [] false prenex in
  foldl unquoteAt tokens (seq 0 (length tokens)).

Definition STAR_kw : pystr := Eval cbv in py "STAR".
Definition PLUS_kw : pystr := Eval cbv in py "PLUS".
Definition MAYBE_kw : pystr := Eval cbv in py "MAYBE".
Definition UNION_kw : pystr := Eval cbv in py "UNION".
Definition CONCAT_kw : pystr := Eval cbv in py "CONCAT".
Definition VOID : pystr := Eval cbv in py "void".

(** The number of children [createNode] declares for a token. *)
Definition arity (tok : pystr) : nat :=
  if bool_decide (tok ∈ [STAR_kw; PLUS_kw; MAYBE_kw]) then 1
  else if bool_decide (tok ∈ [UNION_kw; CONCAT_kw]) then 2
  else 0.

(** [AST.createNode] *)
Definition createNode (tok : pystr) : Node := mkNode tok (arity tok) [].

(** The loop [for _ in range(node.num_children)] of [fromPrenex], given
    the function that parses one child. *)
Definition buildKids (parse : list pystr → result (Node * list pystr))
  : nat → list pystr → list Node → result (list Node * list pystr) :=
  fix build (n : nat) (tokens : list pystr) (kids : list Node) :=
    match n with
    | O => Ok (kids, tokens)
    | S n' =>
      '(kid, tokens') ← parse tokens;
      build n' tokens' (kids ++ [kid])
    end.

(** [AST.fromPrenex], reading from the token iterator [tokens] and
    returning the node with what is left of the iterator.  [next] on an
    exhausted iterator raises [StopIteration].  [fuel] bounds the depth of
    the recursion. *)
Fixpoint fromPrenexFuel (fuel : nat) (tokens : list pystr)
  : result (Node * list pystr) :=
  match fuel with
  | O => Raise OutOfFuel
  | S f =>
    match tokens with
    | [] => Raise StopIteration
    | tok :: rest =>
      let node := createNode tok in
      '(kids, rest') ←
        buildKids (fromPrenexFuel f) (num_children node) rest (children node);
      Ok (mkNode (token node) (num_children node) kids, rest')
    end
  end.

(** Every call consumes a token before it recurses, so the depth never
    exceeds the number of tokens. *)
Definition fromPrenex (tokens : list pystr) : result (Node * list pystr) :=
  fromPrenexFuel (S (length tokens)) tokens.

(** [self.nodes]: every node, in the order the calls created them. *)
Fixpoint nodes (root : Node) : list Node :=
  root :: concat ((fix go (l : list Node) : list (list Node) :=
                     match l with
                     | [] => []
                     | kid :: l' => nodes kid :: go l'
                     end) (children root)).

(** [AST(prenex)], [fromPrenex()] and [getRoot()] in a row, as
    [NFA.fromPrenex] runs them. *)
Definition parse (prenex : pystr) : result (option Node) :=
  '(root, _) ← fromPrenex (customSplit prenex);
  Ok (head (nodes root)).

End AST.

(** ** Thompson construction ([NFA.py]) *)

(** An automaton as the program reads it at one moment.  The attribute
    [epsilonClosures] refers to a dictionary object, and every automaton
    built without an explicit dictionary refers to the one default object
    of [__init__], which [NFA.fromPrenex] writes into at every build: the
    field holds what that object holds when the record is read.  The record
    a build returns stands for its automaton until the next build;
    [NFA.aliased] gives the automaton as it reads afterwards. *)
Record NFA := mkNFA {
  nfa_q0 : nat;
  nfa_qf : nat;
  nfa_states : list nat;
  nfa_transitions : list (nat * pystr * nat);
  epsilonClosures : gmap nat (gset nat)
}.

Module NFA.

(** [NFA.next] *)
Definition next (nfa : NFA) (from_state : nat) (on_chr : pystr) : gset nat :=
  list_to_set
    ((λ t, t.2) <$>
       filter (λ t, t.1.1 = from_state ∧ t.1.2 = on_chr) (nfa_transitions nfa)).

(** [computeEpsilonClosureHelper].  [visited] and
    [self.currentEpsilonClosure] are emptied together and receive the same
    elements, so one set stands for both.  A nested call is made on the
    target of a transition that is not yet visited, so the depth is at
    most one more than the number of transitions. *)
Fixpoint computeEpsilonClosureHelper (fuel : nat) (nfa : NFA) (state : nat)
    (visited : gset nat) : result (gset nat) :=
  match fuel with
  | O => Raise OutOfFuel
  | S f =>
    let visited := visited ∪ {[state]} in
    foldl (λ acc next_state,
             visited ← acc;
             if bool_decide (next_state ∉ visited)
             then computeEpsilonClosureHelper f nfa next_state visited
             else Ok visited)
          (Ok visited) (elements (next nfa state EPS))
  end.

(** [NFA.computeEpsilonClosure] *)
Definition computeEpsilonClosure (nfa : NFA) (state : nat) : result (gset nat) :=
  computeEpsilonClosureHelper (S (length (nfa_transitions nfa))) nfa state ∅.

(** [NFA.isFinal] *)
Definition isFinal (nfa : NFA) (state : nat) : bool :=
  bool_decide (state = nfa_qf nfa).

(** A nested call of [acceptsHelper].  The helper is declared with the
    three parameters [(self, expr, state)] and calls itself with two
    arguments, [(expr[1:], next_state)] and [(expr, next_state)]: the
    call binds them to [self] and [expr], finds no argument for [state]
    and raises [TypeError] before the body runs. *)
Definition acceptsHelperNested (expr : pystr) (next_state : nat) : result bool :=
  Raise TypeError.

(** [for next_state in ...: if acceptsHelper(...): return True]: whether
    some call returned [True], the calls after it not being made. *)
Definition anyCall (call : nat → result bool) (next_states : list nat)
  : result bool :=
  foldl (λ acc next_state,
           found ← acc;
           if (found : bool) then Ok true else call next_state)
        (Ok false) next_states.

(** [acceptsHelper(self, expr, state)], the call [accepts] makes. *)
Definition acceptsHelper (nfa : NFA) (expr : pystr) (state : nat) : result bool :=
  match expr with
  | [] =>
    if isFinal nfa state then Ok true
    else
      closure ← of_option KeyError (epsilonClosures nfa !! state);
      Ok (existsb (isFinal nfa) (elements closure))
  | c :: rest =>
    found ← anyCall (acceptsHelperNested rest) (elements (next nfa state [c]));
    if (found : bool) then Ok true
    else
      found ← anyCall (acceptsHelperNested expr) (elements (next nfa state EPS));
      if (found : bool) then Ok true else Ok false
  end.

(** [NFA.accepts] *)
Definition accepts (nfa : NFA) (str : pystr) : result bool :=
  acceptsHelper nfa str (nfa_q0 nfa).

Section Thompson.
(** The dictionary object that is the default value of the
    [epsilonCloures] parameter: every automaton built without an
    explicit dictionary refers to this one object. *)
Variable shared : gmap nat (gset nat).

(** The combinators read and advance the global [curr_state_idx]. *)
Definition atomNFA (ch : pystr) (idx : nat) : NFA * nat :=
  let q0 := idx in
  let qf := idx + 1 in
  (mkNFA q0 qf [q0; qf] [(q0, ch, qf)] shared, idx + 2).

Definition concatNFA (nfa1 nfa2 : NFA) : NFA :=
  let q0 := nfa_q0 nfa1 in
  let qf := nfa_qf nfa2 in
  mkNFA q0 qf (nfa_states nfa1 ++ nfa_states nfa2)
    ([(nfa_qf nfa1, EPS, nfa_q0 nfa2)]
       ++ nfa_transitions nfa1 ++ nfa_transitions nfa2) shared.

Definition unionNFA (nfa1 nfa2 : NFA) (idx : nat) : NFA * nat :=
  let q0 := idx in
  let qf := idx + 1 in
  (mkNFA q0 qf ([q0; qf] ++ nfa_states nfa1 ++ nfa_states nfa2)
     ([(q0, EPS, nfa_q0 nfa1); (q0, EPS, nfa_q0 nfa2);
       (nfa_qf nfa1, EPS, qf); (nfa_qf nfa2, EPS, qf)]
        ++ nfa_transitions nfa1 ++ nfa_transitions nfa2) shared,
   idx + 2).

Definition starNFA (nfa : NFA) (idx : nat) : NFA * nat :=
  let q0 := idx in
  let qf := idx + 1 in
  (mkNFA q0 qf ([q0; qf] ++ nfa_states nfa)
     ([(q0, EPS, nfa_q0 nfa); (nfa_qf nfa, EPS, qf); (q0, EPS, qf);
       (nfa_qf nfa, EPS, nfa_q0 nfa)] ++ nfa_transitions nfa) shared,
   idx + 2).

Definition plusNFA (nfa : NFA) (idx : nat) : NFA * nat :=
  let q0 := idx in
  let qf := idx + 1 in
  (mkNFA q0 qf ([q0; qf] ++ nfa_states nfa)
     ([(q0, EPS, nfa_q0 nfa); (nfa_qf nfa, EPS, qf);
       (nfa_qf nfa, EPS, nfa_q0 nfa)] ++ nfa_transitions nfa) shared,
   idx + 2).

Definition maybeNFA (nfa : NFA) : NFA :=
  mkNFA (nfa_q0 nfa) (nfa_qf nfa) (nfa_states nfa)
    ([(nfa_q0 nfa, EPS, nfa_qf nfa)] ++ nfa_transitions nfa) shared.

(** [NFA.isAtom] *)
Definition isAtom (tok : pystr) : bool :=
  if bool_decide (length tok = 0) then false
  else if bool_decide (length tok = 1) then true
  else if bool_decide (tok !! 0 = Some quote) && bool_decide (last tok = Some quote)
          && bool_decide (length tok = 3) then true
  else bool_decide (tok ∈ [EPS; AST.VOID]).

(** A combinator handed [None] fails on its first attribute access. *)
Definition deref (nfa : option NFA) : result NFA :=
  of_option AttributeError nfa.

(** [root.children[i]] *)
Definition child (root : Node) (i : nat) : result Node :=
  of_option IndexError (children root !! i).

(** [NFA.fromAST]; the function falls off its end, returning [None],
    on a token that is neither an atom nor a keyword.  The second
    component is [curr_state_idx]. *)
Fixpoint fromAST (root : Node) (idx : nat) : result (option NFA * nat) :=
  if isAtom (token root) then
    let '(nfa, idx) := atomNFA (token root) idx in Ok (Some nfa, idx)
  else if str_eqb (token root) AST.STAR_kw then
    match children root with
    | [] => Raise IndexError
    | kid :: _ =>
      '(nfa, idx) ← fromAST kid idx;
      nfa ← deref nfa;
      let '(nfa, idx) := starNFA nfa idx in Ok (Some nfa, idx)
    end
  else if str_eqb (token root) AST.PLUS_kw then
    match children root with
    | [] => Raise IndexError
    | kid :: _ =>
      '(nfa, idx) ← fromAST kid idx;
      nfa ← deref nfa;
      let '(nfa, idx) := plusNFA nfa idx in Ok (Some nfa, idx)
    end
  else if str_eqb (token root) AST.MAYBE_kw then
    match children root with
    | [] => Raise IndexError
    | kid :: _ =>
      '(nfa, idx) ← fromAST kid idx;
      nfa ← deref nfa;
      Ok (Some (maybeNFA nfa), idx)
    end
  else if str_eqb (token root) AST.CONCAT_kw then
    match children root with
    | [] => Raise IndexError
    | kid1 :: rest =>
      '(nfa1, idx) ← fromAST kid1 idx;
      match rest with
      | [] => Raise IndexError
      | kid2 :: _ =>
        '(nfa2, idx) ← fromAST kid2 idx;
        nfa1 ← deref nfa1;
        nfa2 ← deref nfa2;
        Ok (Some (concatNFA nfa1 nfa2), idx)
      end
    end
  else if str_eqb (token root) AST.UNION_kw then
    match children root with
    | [] => Raise IndexError
    | kid1 :: rest =>
      '(nfa1, idx) ← fromAST kid1 idx;
      match rest with
      | [] => Raise IndexError
      | kid2 :: _ =>
        '(nfa2, idx) ← fromAST kid2 idx;
        nfa1 ← deref nfa1;
        nfa2 ← deref nfa2;
        let '(nfa, idx) := unionNFA nfa1 nfa2 idx in Ok (Some nfa, idx)
      end
    end
  else Ok (None, idx).

(** The loop of [NFA.fromPrenex] that fills the dictionary of the
    automaton, one state after the other. *)
Definition withClosures (nfa : NFA) : result NFA :=
  closures ←
    foldl (λ acc state,
             closures ← acc;
             closure ← computeEpsilonClosure nfa state;
             Ok (<[state := closure]> closures))
          (Ok (epsilonClosures nfa)) (nfa_states nfa);
  Ok (mkNFA (nfa_q0 nfa) (nfa_qf nfa) (nfa_states nfa)
        (nfa_transitions nfa) closures).

(** The part of [NFA.fromPrenex] after the tree is there:
    [curr_state_idx] restarts at 0. *)
Definition fromRoot (root : option Node) : result NFA :=
  match root with
  | None => Raise AttributeError
  | Some root =>
    '(nfa, _) ← fromAST root 0;
    nfa ← deref nfa;
    withClosures nfa
  end.

(** [NFA.fromPrenex].  The dictionary of the automaton returned is the
    shared object, in its new state. *)
Definition fromPrenex (prenex : pystr) : result NFA :=
  root ← AST.parse prenex;
  fromRoot root.

End Thompson.

(** An automaton built earlier, read when the dictionary all automata
    share holds [shared]: its own attributes are the ones it was built
    with, its closures are whatever the later builds left under its
    ids. *)
Definition aliased (nfa : NFA) (shared : gmap nat (gset nat)) : NFA :=
  mkNFA (nfa_q0 nfa) (nfa_qf nfa) (nfa_states nfa) (nfa_transitions nfa) shared.

End NFA.

(** ** Subset construction ([DFA.py]) *)

(** [DFA[S]]; [dfa_sink] is [None] until a sink is set.  The values of [S]
    are the states proper: [None] is no state, it is what [next] returns
    for a transition that is not defined. *)
Record DFA (S : Type) := mkDFA {
  dfa_q0 : S;
  dfa_qfs : list S;
  dfa_states : list S;
  dfa_transitions : list (S * pystr * S);
  dfa_sink : option S
}.
Arguments mkDFA {S} _ _ _ _ _.
Arguments dfa_q0 {S} _.
Arguments dfa_qfs {S} _.
Arguments dfa_states {S} _.
Arguments dfa_transitions {S} _.
Arguments dfa_sink {S} _.

(** [DFAMapper], the class local to [fromNFA]: it numbers the values it is
    shown in the order it meets them.  The values are the group strings and
    [None]. *)
Record DFAMapper := mkMapper {
  counter : nat;
  mapping : gmap (option pystr) nat
}.

Module DFA.

Section Generic.
Context {S : Type} `{EqDecision S}.

(** [DFA.next]: the target of the first matching transition, [None]
    when there is none. *)
Fixpoint lookupTransition (transitions : list (S * pystr * S))
    (from_state : S) (on_chr : pystr) : option S :=
  match transitions with
  | [] => None
  | (state, c, next_state) :: rest =>
    if bool_decide (state = from_state) && str_eqb c on_chr
    then Some next_state
    else lookupTransition rest from_state on_chr
  end.

Definition next (dfa : DFA S) (from_state : S) (on_chr : pystr) : option S :=
  lookupTransition (dfa_transitions dfa) from_state on_chr.

(** [DFA.isFinal] *)
Definition isFinal (dfa : DFA S) (state : S) : bool :=
  bool_decide (state ∈ dfa_qfs dfa).

(** The loop of [DFA.accepts] from the state it has reached. *)
Fixpoint acceptsFrom (dfa : DFA S) (state : S) (str : pystr) : bool :=
  match str with
  | [] => isFinal dfa state
  | c :: rest =>
    match next dfa state [c] with
    | None => false
    | Some state' => acceptsFrom dfa state' rest
    end
  end.

(** [DFA.accepts] *)
Definition accepts (dfa : DFA S) (str : pystr) : bool :=
  acceptsFrom dfa (dfa_q0 dfa) str.

(** [DFA.map].  The function is applied to [self.q0], to the final
    states, to the states, to both ends of every transition and at last
    to [self.sink], which may be [None]; [f] may keep a state of its own
    and may raise. *)
Context {T St : Type}.
Variable f : option S → St → result (T * St).

Fixpoint mapList (l : list S) (st : St) : result (list T * St) :=
  match l with
  | [] => Ok ([], st)
  | x :: l' =>
    '(y, st) ← f (Some x) st;
    '(ys, st) ← mapList l' st;
    Ok (y :: ys, st)
  end.

Fixpoint mapTransitions (l : list (S * pystr * S)) (st : St)
  : result (list (T * pystr * T) * St) :=
  match l with
  | [] => Ok ([], st)
  | (q0, c, q1) :: l' =>
    '(r0, st) ← f (Some q0) st;
    '(r1, st) ← f (Some q1) st;
    '(rs, st) ← mapTransitions l' st;
    Ok ((r0, c, r1) :: rs, st)
  end.

Definition map (dfa : DFA S) (st : St) : result (DFA T * St) :=
  '(q0, st) ← f (Some (dfa_q0 dfa)) st;
  '(qfs, st) ← mapList (dfa_qfs dfa) st;
  '(states, st) ← mapList (dfa_states dfa) st;
  '(transitions, st) ← mapTransitions (dfa_transitions dfa) st;
  '(sink, st) ← f (dfa_sink dfa) st;
  Ok (mkDFA q0 qfs states transitions (Some sink), st).
End Generic.

(** [DFA.setToStr] *)
Definition setToStr (states : gset nat) : pystr :=
  Str.join [underscore] (Str.str <$> merge_sort le (elements states)).

(** [DFA.strToSet] *)
Definition strToSet (str : pystr) : result (gset nat) :=
  ints ← mapM Str.int (filter (λ state, 0 < length state) (Str.split underscore str));
  Ok (list_to_set ints).

(** [DFA.getAlphabet]: the symbols other than ['eps'], without
    repetition, sorted. *)
Definition getAlphabet (nfa : NFA) : list pystr :=
  merge_sort (λ a b, Is_true (Str.leb a b))
    (remove_dups (filter (λ c, c ≠ EPS) ((λ t, t.1.2) <$> nfa_transitions nfa))).

(** The two inner loops of the construction: the group reached from
    [last_group] on [ch]. *)
Definition nextStateGroup (nfa : NFA) (last_group ch : pystr) : result (gset nat) :=
  group ← strToSet last_group;
  foldl (λ acc state,
           next_state_group ← acc;
           foldl (λ acc next_state,
                    next_state_group ← acc;
                    closure ← of_option KeyError (epsilonClosures nfa !! next_state);
                    Ok (next_state_group ∪ closure))
                 (Ok next_state_group) (elements (NFA.next nfa state ch)))
        (Ok ∅) (elements group).

(** The body of [for ch in alphabet], on the pair of [dfa.states] and
    [dfa.transitions].  The list [last_groups] starts with the same
    element as [dfa.states] and grows by the same appends, so the model
    keeps one list for both. *)
Definition visit (nfa : NFA) (last_group : pystr)
    (acc : result (list pystr * list (pystr * pystr * pystr))) (ch : pystr)
  : result (list pystr * list (pystr * pystr * pystr)) :=
  '(states, transitions) ← acc;
  next_state_group ← nextStateGroup nfa last_group ch;
  let name := setToStr next_state_group in
  let states := if bool_decide (name ∉ states) then states ++ [name] else states in
  Ok (states, transitions ++ [(last_group, ch, name)]).

(** The state of [for last_group in last_groups]: the position reached
    in the list, with [dfa.states] and [dfa.transitions]. *)
Abbreviation frontier :=
  (result (nat * list pystr * list (pystr * pystr * pystr))).

(** One round of the loop; when the list has no element at the position,
    the loop is over and nothing changes. *)
Definition exploreStep (nfa : NFA) (alphabet : list pystr) (st : frontier)
  : frontier :=
  '(i, states, transitions) ← st;
  match states !! i with
  | None => Ok (i, states, transitions)
  | Some last_group =>
    '(states, transitions) ←
      foldl (visit nfa last_group) (Ok (states, transitions)) alphabet;
    Ok (S i, states, transitions)
  end.

Definition finished (st : frontier) : bool :=
  match st with
  | Ok (i, states, _) => bool_decide (states !! i = None)
  | Raise _ => true
  end.

(** Up to [2 ^ n] rounds, stopping as soon as the loop is over. *)
Fixpoint exploreRounds (n : nat) (nfa : NFA) (alphabet : list pystr)
    (st : frontier) : frontier :=
  if finished st then st
  else
    match n with
    | O => exploreStep nfa alphabet st
    | S n' =>
      exploreRounds n' nfa alphabet (exploreRounds n' nfa alphabet st)
    end.

(** Every group is a union of values of the dictionary of closures, so
    over the union [U] of all values there are at most [2 ^ size U]
    groups, and as many rounds. *)
Definition universe (nfa : NFA) : gset nat :=
  ⋃ ((map_to_list (epsilonClosures nfa)).*2).

Definition explore (nfa : NFA) (alphabet : list pystr) (q0_group : pystr)
  : result (list pystr * list (pystr * pystr * pystr)) :=
  '(i, states, transitions) ←
    exploreRounds (size (universe nfa)) nfa alphabet (Ok (0, [q0_group], []));
  match states !! i with
  | None => Ok (states, transitions)
  | Some _ => Raise OutOfFuel
  end.

(** [fromNFA] up to the choice of the final states: the automaton over
    group strings. *)
Definition subsets (nfa : NFA) : result (DFA pystr) :=
  let alphabet := getAlphabet nfa in
  closure ← of_option KeyError (epsilonClosures nfa !! nfa_q0 nfa);
  let q0_group := setToStr closure in
  '(states, transitions) ← explore nfa alphabet q0_group;
  let qfs := filter (λ state, Is_true (Str.contains (Str.str (nfa_qf nfa)) state)) states in
  Ok (mkDFA q0_group qfs states transitions None).

(** [DFAMapper.get_mapping] *)
Definition get_mapping (x : option pystr) (m : DFAMapper) : result (nat * DFAMapper) :=
  match mapping m !! x with
  | Some n => Ok (n, m)
  | None => Ok (counter m, mkMapper (counter m + 1) (<[x := counter m]> (mapping m)))
  end.

(** [dfa.map(DFAMapper().get_mapping)] *)
Definition renumber (dfa : DFA pystr) : result (DFA nat * DFAMapper) :=
  map get_mapping dfa (mkMapper 0 ∅).

(** The first state that loops on every symbol and is not final. *)
Definition isSink (alphabet : list pystr) (dfa : DFA nat) (state : nat) : bool :=
  forallb (λ ch, bool_decide (next dfa state ch = Some state)) alphabet
  && negb (isFinal dfa state).

Definition setSink (alphabet : list pystr) (dfa : DFA nat) : DFA nat :=
  match List.find (isSink alphabet dfa) (dfa_states dfa) with
  | Some state =>
    mkDFA (dfa_q0 dfa) (dfa_qfs dfa) (dfa_states dfa) (dfa_transitions dfa) (Some state)
  | None => dfa
  end.

(** [if dfa.sink is None]: a new state, and a transition to it wherever
    one is missing. *)
Definition fillRow (sink state : nat) (dfa : DFA nat) (ch : pystr) : DFA nat :=
  match next dfa state ch with
  | None =>
    mkDFA (dfa_q0 dfa) (dfa_qfs dfa) (dfa_states dfa)
      (dfa_transitions dfa ++ [(state, ch, sink)]) (dfa_sink dfa)
  | Some _ => dfa
  end.

Definition addSink (alphabet : list pystr) (dfa : DFA nat) : DFA nat :=
  match dfa_sink dfa with
  | None =>
    let sink := length (dfa_states dfa) + 1 in
    let dfa := mkDFA (dfa_q0 dfa) (dfa_qfs dfa) (dfa_states dfa ++ [sink])
                 (dfa_transitions dfa) (Some sink) in
    foldl (λ dfa state, foldl (fillRow sink state) dfa alphabet) dfa (dfa_states dfa)
  | Some _ => dfa
  end.

(** [DFA.fromNFA] *)
Definition fromNFA (nfa : NFA) : result (DFA nat) :=
  let alphabet := getAlphabet nfa in
  dfa ← subsets nfa;
  '(dfa, _) ← renumber dfa;
  let dfa := setSink alphabet dfa in
  Ok (addSink alphabet dfa).

(** [DFA.fromPrenex], with the shared dictionary of closures in the state
    it is in before the call. *)
Definition fromPrenex (shared : gmap nat (gset nat)) (prenex : pystr)
  : result (DFA nat) :=
  nfa ← NFA.fromPrenex shared prenex;
  fromNFA nfa.

End DFA.

(** ** The lexer ([Lex.py]) *)

(** Insertion-ordered dictionaries: association lists whose keys are
    distinct.  [d[k] = v] keeps the place of a key that is there and appends
    a new one. *)
Fixpoint dictSet {K V} `{EqDecision K} (k : K) (v : V) (d : list (K * V))
  : list (K * V) :=
  match d with
  | [] => [(k, v)]
  | (k', v') :: d' =>
    if bool_decide (k' = k) then (k', v) :: d' else (k', v') :: dictSet k v d'
  end.

(** [d[k].append(x)] on a [defaultdict(list)] *)
Fixpoint dictAppend {K V} `{EqDecision K} (k : K) (x : V) (d : list (K * list V))
  : list (K * list V) :=
  match d with
  | [] => [(k, [x])]
  | (k', xs) :: d' =>
    if bool_decide (k' = k) then (k', xs ++ [x]) :: d'
    else (k', xs) :: dictAppend k x d'
  end.

(** The dictionaries of configurations live in a store, so that the caller
    and the lexer can hold the same object. *)
Abbreviation configs := (list (pystr * pystr)).
Abbreviation store := (gmap nat configs).

Record Lexer := mkLexer {
  configurations : nat;
  dfas : list (pystr * DFA nat)
}.

(** What [lex] returns: the list of tokens or a message. *)
Inductive lexOutput :=
  | Tokens (output : list (option pystr * pystr))
  | Message (msg : pystr).

Module Lexer.

(** The chain of [replace] calls of the constructor. *)
Definition escape (regex : pystr) : pystr :=
  Str.replace (py "\+") (py "'+'")
    (Str.replace (py "\*") (py "'*'")
       (Str.replace (py "\)") (py "')'")
          (Str.replace (py "\(") (py "'('") regex))).

(** One round of the first loop, at entry [k] of the dictionary at
    [self_configurations]. *)
Definition escapeAt (self_configurations : nat) (h : store) (k : nat) : store :=
  match h !! self_configurations with
  | Some d =>
    match d !! k with
    | Some (tok, regex) => <[self_configurations := dictSet tok (escape regex) d]> h
    | None => h
    end
  | None => h
  end.

(** One round of the second loop: [counter], [self.dfas] and the shared
    dictionary of closures are carried along. *)
Definition build (acc : result (nat * list (pystr * DFA nat) * gmap nat (gset nat)))
    (entry : pystr * pystr)
  : result (nat * list (pystr * DFA nat) * gmap nat (gset nat)) :=
  '(counter, dfas, shared) ← acc;
  let '(tok, regex) := entry in
  prenex ← Parser.toPrenex regex;
  nfa ← NFA.fromPrenex shared prenex;
  dfa ← DFA.fromNFA nfa;
  '(dfa, _) ← DFA.map (λ x (_ : unit),
                         match x with
                         | Some x => Ok (x + counter, ())
                         | None => Raise TypeError
                         end) dfa ();
  Ok (counter + length (nfa_states nfa), dictSet tok dfa dfas, epsilonClosures nfa).

(** [Lexer.__init__], called with the dictionary stored at
    [configurations]; [shared] is the dictionary of closures all automata
    share.  The store is returned whether or not the constructor raises. *)
Definition init (shared : gmap nat (gset nat)) (configurations : nat) (h : store)
  : store * result (Lexer * gmap nat (gset nat)) :=
  match h !! configurations with
  | None => (h, Raise AttributeError)
  | Some d =>
    let h := foldl (escapeAt configurations) h (seq 0 (length d)) in
    (h,
     match h !! configurations with
     | None => Raise AttributeError
     | Some d =>
       '(_, dfas, shared) ← foldl build (Ok (0, [], shared)) d;
       Ok (mkLexer configurations dfas, shared)
     end)
  end.

(** [Lexer.getLongestMatch] *)
Definition longer (tok : pystr) (acc : option pystr * nat) (mtch : nat)
  : option pystr * nat :=
  if bool_decide (acc.2 ≤ mtch) then (Some tok, mtch) else acc.

Definition getLongestMatch (matchesDict : list (pystr * list nat))
  : option (option pystr * nat) :=
  if bool_decide (length matchesDict = 0) then None
  else
    Some (foldl (λ acc entry, foldl (longer entry.1) acc entry.2)
            (None, 0) (reverse matchesDict)).

(** The inner [while] of [lex] for one automaton, on what is left of the
    word from [curr_idx] on.  It returns the dictionary of matches, the
    index it stopped at and whether it stopped in a sink. *)
Fixpoint walk (tok : pystr) (dfa : DFA nat) (rest : pystr) (curr_idx : nat)
    (curr_state : nat) (matches : list (pystr * list nat))
  : list (pystr * list nat) * nat * bool :=
  match rest with
  | [] => (matches, curr_idx, false)
  | curr_char :: rest' =>
    let curr_state := DFA.next dfa curr_state [curr_char] in
    let matches :=
      match curr_state with
      | Some state =>
        if bool_decide (state ∈ dfa_qfs dfa)
        then dictAppend tok curr_idx matches else matches
      | None => matches
      end in
    match curr_state with
    | None => (matches, curr_idx, true)
    | Some state =>
      if bool_decide (Some state = dfa_sink dfa) then (matches, curr_idx, true)
      else walk tok dfa rest' (S curr_idx) state matches
    end
  end.

(** The [for token, dfa in self.dfas.items()] loop of one round. *)
Fixpoint scan (n_dfas : nat) (todo : list (pystr * DFA nat)) (word : pystr)
    (start_idx : nat) (matches : list (pystr * list nat))
    (num_sinks failed_curr_idx : nat) : list (pystr * list nat) * nat :=
  match todo with
  | [] => (matches, failed_curr_idx)
  | (tok, dfa) :: todo' =>
    let '(matches, curr_idx, sunk) :=
      walk tok dfa (drop start_idx word) start_idx (dfa_q0 dfa) matches in
    let num_sinks := if sunk then num_sinks + 1 else num_sinks in
    let failed_curr_idx := failed_curr_idx `max` curr_idx in
    if bool_decide (num_sinks = n_dfas) then (matches, failed_curr_idx)
    else scan n_dfas todo' word start_idx matches num_sinks failed_curr_idx
  end.

(** The loop that counts the lines up to the failed index. *)
Fixpoint countLines (i : nat) (word : pystr) (failed_curr_idx line : nat) : nat :=
  match word with
  | [] => line
  | char :: rest =>
    let line := if bool_decide (char = newline) then line + 1 else line in
    if bool_decide (i = failed_curr_idx) then line
    else countLines (S i) rest failed_curr_idx line
  end.

Definition noViable (column : pystr) (line : nat) : pystr :=
  py "No viable alternative at character " ++ column ++ py ", line "
    ++ Str.str line.

(** The [except] branch of [lex]. *)
Definition failure (word : pystr) (failed_curr_idx : nat) : pystr :=
  if bool_decide (Str.count newline word = 0) then
    if bool_decide (failed_curr_idx = length word)
    then noViable (py "EOF") 0
    else noViable (Str.str failed_curr_idx) 0
  else
    let line := countLines 0 word failed_curr_idx 0 in
    if bool_decide (failed_curr_idx = length word)
    then noViable (py "EOF") line
    else
      let failed_curr_idx :=
        (Z.of_nat failed_curr_idx
         - Str.rfind newline (take failed_curr_idx word))%Z in
      noViable (Str.strZ failed_curr_idx) line.

(** One round of the outer [while] of [lex]: the token emitted and the
    next start, or the message. *)
Definition round (self : Lexer) (word : pystr) (start_idx : nat)
  : (option pystr * pystr) * nat + pystr :=
  let '(matches, failed_curr_idx) :=
    scan (length (dfas self)) (dfas self) word start_idx [] 0 0 in
  match getLongestMatch matches with
  | Some (longestToken, longestIdx) =>
    inl ((longestToken, take (longestIdx + 1 - start_idx) (drop start_idx word)),
         longestIdx + 1)
  | None => inr (failure word failed_curr_idx)
  end.

Fixpoint lexLoop (fuel : nat) (self : Lexer) (word : pystr) (start_idx : nat)
    (output : list (option pystr * pystr)) : result lexOutput :=
  match fuel with
  | O => Raise OutOfFuel
  | S fuel' =>
    if bool_decide (start_idx < length word) then
      match round self word start_idx with
      | inl (emitted, start_idx') =>
        lexLoop fuel' self word start_idx' (output ++ [emitted])
      | inr msg => Ok (Message msg)
      end
    else Ok (Tokens output)
  end.

(** [Lexer.lex]: every round moves the start forward, so there are at
    most as many rounds as characters. *)
Definition lex (self : Lexer) (word : pystr) : result lexOutput :=
  lexLoop (S (length word)) self word 0 [].

End Lexer.

(** ** Notions the statements below are phrased with *)

(** The prenex token sequence of a tree: every node before its children. *)
Fixpoint preorder (root : Node) : list pystr :=
  token root :: concat ((fix go (l : list Node) : list (list pystr) :=
                           match l with
                           | [] => []
                           | kid :: l' => preorder kid :: go l'
                           end) (children root)).

(** A tree all of whose declared children are built. *)
#[warnings="-register-all"]
Inductive wellFormed : Node → Prop :=
  | wellFormed_node tok kids :
      length kids = AST.arity tok →
      Forall wellFormed kids →
      wellFormed (mkNode tok (AST.arity tok) kids).

Fixpoint height (n : Node) : nat :=
  S (foldr max 0 ((fix go (l : list Node) : list nat :=
                     match l with
                     | [] => []
                     | kid :: l' => height kid :: go l'
                     end) (children n))).

Definition leaf : Node := AST.createNode (py "a").

(** The state a walk from [state] over [str] ends in, if every step is
    defined. *)
Fixpoint walk {S} `{EqDecision S} (dfa : DFA S) (state : S) (str : pystr)
  : option S :=
  match str with
  | [] => Some state
  | c :: rest =>
    match DFA.next dfa state [c] with
    | None => None
    | Some state' => walk dfa state' rest
    end
  end.

(** What reading an operator does to the stack according to a comparison
    [cmp] of ranks: the entries taken off are the longest run from the top
    whose rank [p] satisfies [cmp (priority o) p], the others stay. *)
Fixpoint poppedRun (cmp : nat → nat → bool) (o : Operator) (stack : list Operator)
  : list Operator :=
  match stack with
  | [] => []
  | top :: stack' =>
    if cmp (priority o) (priority top) then top :: poppedRun cmp o stack' else []
  end.

Fixpoint keptStack (cmp : nat → nat → bool) (o : Operator) (stack : list Operator)
  : list Operator :=
  match stack with
  | [] => []
  | top :: stack' =>
    if cmp (priority o) (priority top) then keptStack cmp o stack' else stack
  end.

(** The repetition operators. *)
Definition isRepetition (o : Operator) : bool :=
  match o with STAR | PLUS | MAYBE => true | _ => false end.

(** The binary operators. *)
Definition isBinary (o : Operator) : bool :=
  match o with CONCAT | UNION => true | _ => false end.

(** A regex that holds one of the four escaped operator sequences. *)
Definition hasEscape (regex : pystr) : bool :=
  Str.contains (py "\(") regex || Str.contains (py "\)") regex
  || Str.contains (py "\*") regex || Str.contains (py "\+") regex.

(** The candidate endpoints of one automaton: the indices at which its
    walk over [rest], started at index [curr_idx] in [state], stands on a
    final state, up to the step that reaches the sink or is undefined. *)
Fixpoint endpointsFrom (dfa : DFA nat) (rest : pystr) (curr_idx state : nat)
  : list nat :=
  match rest with
  | [] => []
  | c :: rest' =>
    match DFA.next dfa state [c] with
    | None => []
    | Some state' =>
      (if bool_decide (state' ∈ dfa_qfs dfa) then [curr_idx] else [])
      ++ (if bool_decide (Some state' = dfa_sink dfa) then []
          else endpointsFrom dfa rest' (S curr_idx) state')
    end
  end.

Definition endpoints (dfa : DFA nat) (word : pystr) (start_idx : nat) : list nat :=
  endpointsFrom dfa (drop start_idx word) start_idx (dfa_q0 dfa).

(** The states transitions lead to. *)
Definition targets (nfa : NFA) : gset nat :=
  list_to_set ((λ t, t.2) <$> nfa_transitions nfa).

(** What the Thompson combinators maintain, [lo] and [hi] being the values
    of [curr_state_idx] before and after the construction: the ids used
    are those from [lo] up to [hi - 1], the last one is the accept state,
    and all ends of transitions are states of the automaton. *)
Record thompson (lo hi : nat) (nfa : NFA) : Prop := mkThompson {
  thompson_fresh : lo + 2 ≤ hi;
  thompson_qf : S (nfa_qf nfa) = hi;
  thompson_q0 : lo ≤ nfa_q0 nfa < hi;
  thompson_range : Forall (λ s, lo ≤ s < hi) (nfa_states nfa);
  thompson_q0_state : nfa_q0 nfa ∈ nfa_states nfa;
  thompson_qf_state : nfa_qf nfa ∈ nfa_states nfa;
  thompson_ends :
    Forall (λ t, t.1.1 ∈ nfa_states nfa ∧ t.2 ∈ nfa_states nfa)
      (nfa_transitions nfa)
}.

Definition isDigit (c : N) : Prop := (48 ≤ c ≤ 57)%N.

Definition sortedIds (group : gset nat) : list nat := merge_sort le (elements group).

(** All subsets of the ids of a list. *)
Fixpoint allSubsets (l : list nat) : list (gset nat) :=
  match l with
  | [] => [∅]
  | x :: l' => allSubsets l' ++ ((λ group, {[x]} ∪ group) <$> allSubsets l')
  end.

(** A name the worklist loop can produce over the ids of [W]. *)
Definition named (W : gset nat) (g : pystr) : Prop :=
  ∃ group : gset nat, group ⊆ W ∧ g = DFA.setToStr group.

(** What the worklist loop maintains at position [i] of [dfa.states]. *)
Record explored (W : gset nat) (i : nat) (states : list pystr) : Prop := mkExplored {
  explored_named : Forall (named W) states;
  explored_nodup : NoDup states;
  explored_le : i ≤ length states
}.

Definition exploredFrontier (W : gset nat) (st : DFA.frontier) : Prop :=
  match st with
  | Ok (i, states, _) => explored W i states
  | Raise _ => True
  end.

(** The rows the worklist loop has written when it stands at position
    [i]: every state before [i] has a transition on every symbol. *)
Definition rows (alphabet : list pystr) (i : nat) (states : list pystr)
    (transitions : list (pystr * pystr * pystr)) : Prop :=
  ∀ j g ch, j < i → states !! j = Some g → ch ∈ alphabet →
    ∃ g', (g, ch, g') ∈ transitions.

Definition rowsFrontier (alphabet : list pystr) (st : DFA.frontier) : Prop :=
  match st with
  | Ok (i, states, transitions) => rows alphabet i states transitions
  | Raise _ => True
  end.

(** The ids up to [qf]. *)
Definition upTo (qf : nat) : gset nat := list_to_set (seq 0 (S qf)).

(** What [NFA.fromPrenex] returns once the tree is there. *)
Record built (nfa : NFA) : Prop := mkBuilt {
  built_thompson : thompson 0 (S (nfa_qf nfa)) nfa;
  built_closures : ∀ s, s ∈ nfa_states nfa →
    ∃ c, epsilonClosures nfa !! s = Some c ∧ s ∈ c ∧ c ⊆ {[s]} ∪ targets nfa
}.

(** The mapper never gives one number to two values, and gives numbers
    below its counter. *)
Record mapperOk (m : DFAMapper) : Prop := mkMapperOk {
  mapper_lt : ∀ x n, mapping m !! x = Some n → n < counter m;
  mapper_inj : ∀ x y n, mapping m !! x = Some n → mapping m !! y = Some n → x = y
}.

Definition extends (m m' : DFAMapper) : Prop := mapping m ⊆ mapping m'.

(** The number of a value, once the mapper knows it. *)
Definition numbered (m : DFAMapper) (g : pystr) (n : nat) : Prop :=
  mapping m !! Some g = Some n.

Definition numberedTransition (m : DFAMapper)
    (t : pystr * pystr * pystr) (t' : nat * pystr * nat) : Prop :=
  numbered m t.1.1 t'.1.1 ∧ t.1.2 = t'.1.2 ∧ numbered m t.2 t'.2.

(** [getLongestMatch] reads the dictionary from its last entry to its
    first. *)
Definition longest (m : list (pystr * list nat)) : option pystr * nat :=
  foldr (λ entry acc, foldl (Lexer.longer entry.1) acc entry.2) (None, 0) m.

(** The largest endpoint of a dictionary of matches, 0 when there is
    none. *)
Definition maxAll (m : list (pystr * list nat)) : nat :=
  foldr max 0 (concat m.*2).

(** In a dictionary of matches every category present holds an endpoint,
    and no endpoint lies before the start of the round. *)
Definition matchesFrom (start : nat) (m : list (pystr * list nat)) : Prop :=
  Forall (λ e, e.2 ≠ [] ∧ Forall (λ x, start ≤ x) e.2) m.

(** What one automaton adds to the dictionary of matches. *)
Definition appendAll (tok : pystr) (l : list nat) (m : list (pystr * list nat))
  : list (pystr * list nat) :=
  foldl (λ m i, dictAppend tok i m) m l.

(** The dictionary of matches one round builds: the categories that
    recorded an endpoint, in the order of the configuration. *)
Definition recorded (dfas : list (pystr * DFA nat)) (word : pystr) (start : nat)
  : list (pystr * list nat) :=
  omap (λ entry, match endpoints entry.2 word start with
                 | [] => None
                 | l => Some (entry.1, l)
                 end) dfas.

(** The token the selection of [getLongestMatch] picks at [start] among
    the candidates the automata record there: it ends at the greatest
    endpoint any category recorded, under the first category of the
    configuration that recorded that endpoint. *)
Definition selected (self : Lexer) (word : pystr) (start : nat)
    (e : option pystr * pystr) : Prop :=
  ∃ earlier tok dfa later longestIdx,
    dfas self = earlier ++ (tok, dfa) :: later ∧
    longestIdx ∈ endpoints dfa word start ∧
    Forall (λ entry, Forall (λ idx, idx ≤ longestIdx)
                       (endpoints entry.2 word start)) (dfas self) ∧
    Forall (λ entry, longestIdx ∉ endpoints entry.2 word start) earlier ∧
    e = (Some tok, take (longestIdx + 1 - start) (drop start word)).

(** A run of selections: from [start], at a position inside the word each
    time, the selected token is emitted and the next position is the one
    behind its lexeme, up to the position [stop]. *)
Inductive selections (self : Lexer) (word : pystr)
  : nat → list (option pystr * pystr) → nat → Prop :=
  | selections_nil start : selections self word start [] start
  | selections_cons start e output stop :
      start < length word →
      selected self word start e →
      selections self word (start + length e.2) output stop →
      selections self word start (e :: output) stop.

Definition escapeEntry (entry : pystr * pystr) : pystr * pystr :=
  (entry.1, Lexer.escape entry.2).

(** The whole pipeline on one regex, as the lexer runs it for a category:
    regex, prenex, tree, automaton, deterministic automaton. *)
Definition compile (shared : gmap nat (gset nat)) (regex : pystr)
  : result (DFA nat) :=
  prenex ← Parser.toPrenex regex;
  DFA.fromPrenex shared prenex.

(** The characters a one-character regex cannot use for themselves: the
    quote, the operator glyphs, the open square bracket, the space and the
    symbol [ε]. *)
Definition reserved : list N :=
  [quote; 40; 41; 42; 43; 63; 124; 46; 91; space; epsilon]%N.

(** The automaton of a regex accepts the string [c] and nothing else. *)
Definition acceptsOnly (shared : gmap nat (gset nat)) (regex : pystr) (c : N)
  : Prop :=
  ∃ dfa, compile shared regex = Ok dfa ∧
         ∀ word, DFA.accepts dfa word = bool_decide (word = [c]).

(** A lexer built from a dictionary of configurations in a fresh store. *)
Definition lexerOf (configurations : configs) : result Lexer :=
  '(self, _) ← (Lexer.init ∅ 0 {[0 := configurations]}).2;
  Ok self.

(** Induction on trees, with the property available on all children. *)
Section NodeInd.
Variable P : Node → Prop.
Hypothesis H : ∀ tok n kids, Forall P kids → P (mkNode tok n kids).
Fixpoint Node_ind' (n : Node) : P n :=
  match n with
  | mkNode tok k kids =>
    H tok k kids ((fix go (l : list Node) : Forall P l :=
                     match l with
                     | [] => @List.Forall_nil _ P
                     | x :: l' => @List.Forall_cons _ P x l' (Node_ind' x) (go l')
                     end) kids)
  end.
End NodeInd.

(** ** Notions for the further properties *)

(** What the second loop of [customSplit] makes of one token. *)
Definition unquote (tok : pystr) : pystr :=
  if AST.isQuoted tok then
    match tok !! 1 with
    | Some c => [c]
    | None => tok
    end
  else tok.

(** A token of a prenex string as [toPrenexHelper] writes them: a word
    without space and quote, or one character between quotes. *)
Definition plainOrQuoted (tok : pystr) : Prop :=
  ((space ∉ tok) ∧ (quote ∉ tok)) ∨ (∃ c, c ≠ quote ∧ tok = [quote; c; quote]).

(** The list [addConcatOp] returns for a list that is not empty: the items
    in their order, with a [CONCAT] after every item whose successor calls
    for one. *)
Fixpoint glue (rlist : list item) : list item :=
  match rlist with
  | [] => []
  | a :: rest =>
    match rest with
    | [] => [a]
    | b :: _ => (if Parser.needsConcat a b then [a; Op CONCAT] else [a]) ++ glue rest
    end
  end.

(** No two neighbours of the list call for a [CONCAT] between them. *)
Definition concatFree (l : list item) : Prop :=
  ∀ i a b, l !! i = Some a → l !! S i = Some b → Parser.needsConcat a b = false.

(** One epsilon transition. *)
Definition epsStep (nfa : NFA) (a b : nat) : Prop := b ∈ NFA.next nfa a EPS.

(** The shape of a Thompson automaton built with [curr_state_idx] going
    from [lo] to [hi]: its states are the ids from [lo] to [hi - 1], each
    once; the initial and the accept state differ; no transition enters the
    initial state and none leaves the accept state. *)
Record thompsonShape (lo hi : nat) (nfa : NFA) : Prop := mkThompsonShape {
  shape_states : nfa_states nfa ≡ₚ seq lo (hi - lo);
  shape_distinct : nfa_q0 nfa ≠ nfa_qf nfa;
  shape_initial : Forall (λ t, t.2 ≠ nfa_q0 nfa) (nfa_transitions nfa);
  shape_accept : Forall (λ t, t.1.1 ≠ nfa_qf nfa) (nfa_transitions nfa)
}.

(** The trees [fromAST] turns into an automaton: an atom at every leaf it
    reaches, one child under a repetition keyword, two under [CONCAT] and
    [UNION]; children beyond those are not looked at. *)
Inductive regexTree : Node → Prop :=
  | regexTree_atom tok n kids :
      NFA.isAtom tok = true → regexTree (mkNode tok n kids)
  | regexTree_unary tok n kid kids :
      tok ∈ [AST.STAR_kw; AST.PLUS_kw; AST.MAYBE_kw] →
      regexTree kid → regexTree (mkNode tok n (kid :: kids))
  | regexTree_binary tok n kid1 kid2 kids :
      tok ∈ [AST.CONCAT_kw; AST.UNION_kw] →
      regexTree kid1 → regexTree kid2 →
      regexTree (mkNode tok n (kid1 :: kid2 :: kids)).

(** The closure the dictionary of the automaton records for a state, the
    empty set where it records none. *)
Definition closureOf (nfa : NFA) (state : nat) : gset nat :=
  default ∅ (epsilonClosures nfa !! state).

(** The states a set of states leads to on a symbol: the recorded closures
    of the targets of the transitions on that symbol. *)
Definition stepSet (nfa : NFA) (group : gset nat) (ch : pystr) : gset nat :=
  ⋃ (closureOf nfa <$>
       elements (⋃ ((λ state, NFA.next nfa state ch) <$> elements group))).

(** The set of states reached from a set of states over a word, one
    character after the other. *)
Definition simulate (nfa : NFA) (group : gset nat) (word : pystr) : gset nat :=
  foldl (λ group c, stepSet nfa group [c]) group word.

(** The runs of the automaton: [nfaRun nfa s w x] when a path from [s] to
    [x] spells the word [w], its epsilon transitions spelling nothing and
    every other transition the one character it is labelled with. *)
Inductive nfaRun (nfa : NFA) : nat → pystr → nat → Prop :=
  | nfaRun_nil s : nfaRun nfa s [] s
  | nfaRun_eps s t w x :
      t ∈ NFA.next nfa s EPS → nfaRun nfa t w x → nfaRun nfa s w x
  | nfaRun_chr s c t w x :
      t ∈ NFA.next nfa s [c] → nfaRun nfa t w x → nfaRun nfa s (c :: w) x.

(** The words the automaton accepts. *)
Definition nfaAccepts (nfa : NFA) (word : pystr) : Prop :=
  nfaRun nfa (nfa_q0 nfa) word (nfa_qf nfa).

(** Runs that start with a transition on a character and follow epsilon
    transitions after each character. *)
Fixpoint charRun (nfa : NFA) (s : nat) (word : pystr) (x : nat) : Prop :=
  match word with
  | [] => s = x
  | c :: word' =>
    ∃ t y, t ∈ NFA.next nfa s [c] ∧ rtc (epsStep nfa) t y ∧ charRun nfa y word' x
  end.

(** What the worklist loop keeps true of the transitions it has written:
    both ends are states of the list, the symbol is of the alphabet, and
    the target is the name of the set the source leads to. *)
Definition edges (nfa : NFA) (alphabet : list pystr) (states : list pystr)
    (transitions : list (pystr * pystr * pystr)) : Prop :=
  ∀ g ch g', (g, ch, g') ∈ transitions →
    g ∈ states ∧ g' ∈ states ∧ ch ∈ alphabet ∧
    ∃ group, DFA.strToSet g = Ok group ∧ g' = DFA.setToStr (stepSet nfa group ch).

Definition edgesFrontier (nfa : NFA) (alphabet : list pystr) (st : DFA.frontier)
  : Prop :=
  match st with
  | Ok (i, states, transitions) => edges nfa alphabet states transitions
  | Raise _ => True
  end.

(** Every endpoint a dictionary of matches holds under a category was
    recorded by an automaton of that category. *)
Definition matchesOf (dfas : list (pystr * DFA nat)) (word : pystr) (start : nat)
    (m : list (pystr * list nat)) : Prop :=
  Forall (λ e, Forall (λ idx, ∃ dfa, (e.1, dfa) ∈ dfas
                              ∧ idx ∈ endpoints dfa word start) e.2) m.

(** What [lex] keeps true of the tokens it has emitted: the lexeme is not
    empty and an automaton of the category accepts it. *)
Definition emittedBy (self : Lexer) (e : option pystr * pystr) : Prop :=
  e.2 ≠ [] ∧
  ∃ tok dfa, e.1 = Some tok ∧ (tok, dfa) ∈ dfas self ∧ DFA.accepts dfa e.2 = true.

(** An entry of [self.dfas] stands for an entry of the configurations: the
    same category, and an automaton that accepts what the automaton
    compiled from the regex accepts, whatever the dictionary of closures
    held when it was compiled. *)
Definition compiledFrom (entry : pystr * DFA nat) (cfg : pystr * pystr) : Prop :=
  entry.1 = cfg.1 ∧
  ∃ shared dfa, compile shared cfg.2 = Ok dfa ∧
                ∀ word, DFA.accepts entry.2 word = DFA.accepts dfa word.

(** The mapper has given out the numbers below its counter, one for each
    value it was shown, and was shown values of [K] only. *)
Definition mapperKeys (K : gset (option pystr)) (m : DFAMapper) : Prop :=
  counter m = size (mapping m) ∧ dom (mapping m) ⊆ K.


(** The words made of any number of words of [L], one after the other. *)
Inductive starOf (L : pystr → Prop) : pystr → Prop :=
  | starOf_nil : starOf L []
  | starOf_app w1 w2 : L w1 → starOf L w2 → starOf L (w1 ++ w2).

(** The words a tree stands for, read the way [fromAST] reads it: the
    atom [eps] stands for the empty word and an atom of one character for
    that character (any other atom, [void] among them, for no word); the
    keywords stand for repetition, repetition at least once, option,
    concatenation and union of what the first child, or the first two
    children, stand for; any other token stands for no word. *)
Fixpoint lang (root : Node) (w : pystr) : Prop :=
  if NFA.isAtom (token root) then
    (token root = EPS ∧ w = []) ∨ (∃ c, token root = [c] ∧ w = [c])
  else if str_eqb (token root) AST.STAR_kw then
    match children root with
    | kid :: _ => starOf (lang kid) w
    | [] => False
    end
  else if str_eqb (token root) AST.PLUS_kw then
    match children root with
    | kid :: _ => ∃ w1 w2, w = w1 ++ w2 ∧ lang kid w1 ∧ starOf (lang kid) w2
    | [] => False
    end
  else if str_eqb (token root) AST.MAYBE_kw then
    match children root with
    | kid :: _ => w = [] ∨ lang kid w
    | [] => False
    end
  else if str_eqb (token root) AST.CONCAT_kw then
    match children root with
    | kid1 :: kid2 :: _ => ∃ w1 w2, w = w1 ++ w2 ∧ lang kid1 w1 ∧ lang kid2 w2
    | _ => False
    end
  else if str_eqb (token root) AST.UNION_kw then
    match children root with
    | kid1 :: kid2 :: _ => lang kid1 w ∨ lang kid2 w
    | _ => False
    end
  else False.

(** Runs over a list of transitions. *)
Inductive run (T : list (nat * pystr * nat)) : nat → pystr → nat → Prop :=
  | run_nil s : run T s [] s
  | run_eps s t w x : (s, EPS, t) ∈ T → run T t w x → run T s w x
  | run_chr s c t w x : (s, [c], t) ∈ T → run T t w x → run T s (c :: w) x.

(** What the combinators rely on in an automaton they are given: its
    initial and its accept state are two ids of the range, every transition
    runs between ids of the range, none enters the initial state and none
    leaves the accept state. *)
Record frame (lo hi q0 qf : nat) (T : list (nat * pystr * nat)) : Prop := mkFrame {
  frame_q0 : lo ≤ q0 < hi;
  frame_qf : lo ≤ qf < hi;
  frame_distinct : q0 ≠ qf;
  frame_ends : ∀ s l t, (s, l, t) ∈ T → (lo ≤ s < hi) ∧ (lo ≤ t < hi);
  frame_initial : ∀ s l, (s, l, q0) ∉ T;
  frame_accept : ∀ l t, (qf, l, t) ∉ T
}.

(** The sink of the automaton is a dead end: it is not final, and a
    transition that leaves it, if there is one, leads back to it. *)
Definition absorbing (dfa : DFA nat) : Prop :=
  ∀ sink, dfa_sink dfa = Some sink →
    (sink ∉ dfa_qfs dfa) ∧
    ∀ ch, DFA.next dfa sink ch = None ∨ DFA.next dfa sink ch = Some sink.

(** The token the longest-match rule picks at the head of [rest]: its
    lexeme is a prefix of [rest] that is not empty and that the automaton
    of its category accepts, no automaton of the lexer accepts a longer
    prefix, and no category before its own accepts the lexeme. *)
Definition maximalMunch (self : Lexer) (rest : pystr) (e : option pystr * pystr)
  : Prop :=
  ∃ earlier tok dfa later,
    dfas self = earlier ++ (tok, dfa) :: later ∧
    e.1 = Some tok ∧
    e.2 ≠ [] ∧ e.2 `prefix_of` rest ∧
    DFA.accepts dfa e.2 = true ∧
    Forall (λ entry, DFA.accepts entry.2 e.2 = false) earlier ∧
    Forall (λ entry, ∀ n, length e.2 < n ≤ length rest →
                          DFA.accepts entry.2 (take n rest) = false) (dfas self).

(** The list of tokens the longest-match rule cuts a word into. *)
Inductive munches (self : Lexer) : pystr → list (option pystr * pystr) → Prop :=
  | munches_nil : munches self [] []
  | munches_cons e rest output :
      maximalMunch self (e.2 ++ rest) e → munches self rest output →
      munches self (e.2 ++ rest) (e :: output).

(** * Properties *)

(** ** Examples *)

Example toPrenex_ex1 : Parser.toPrenex (py "(a|b)*c") = Ok (py "CONCAT STAR UNION a b c").
Proof. vm_compute. reflexivity. Qed.
Example toPrenex_ex2 : Parser.toPrenex (py "[0-3]+' 'eps?") = Ok (py "CONCAT CONCAT PLUS UNION UNION UNION 0 1 2 3 ' ' MAYBE eps").
Proof. vm_compute. reflexivity. Qed.
Example toPrenex_ex3 : Parser.toPrenex (py "a*+") = Ok (py "STAR a PLUS").
Proof. vm_compute. reflexivity. Qed.
Example toPrenex_ex4 : Parser.toPrenex (py "") = Raise IndexError.
Proof. vm_compute. reflexivity. Qed.

Example customSplit_ex : AST.customSplit (py "CONCAT ' ' a") = [py "CONCAT"; py " "; py "a"].
Proof. vm_compute. reflexivity. Qed.

(** ** Strings *)

Lemma startswith_spec p s : Str.startswith p s = true ↔ ∃ r, s = p ++ r.
Proof.
  revert s. induction p as [|a p IH]; intros s; simpl.
  - split; [eauto|done].
  - destruct s as [|b s]; [split; [done|intros [r Hr]; done]|].
    rewrite andb_true_iff, bool_decide_eq_true, IH. split.
    + intros [-> [r ->]]. eauto.
    + intros [r [= -> ->]]. eauto.
Qed.

Lemma startswith_app p r : Str.startswith p (p ++ r) = true.
Proof. apply startswith_spec. eauto. Qed.

Lemma startswith_short p s : length s < length p → Str.startswith p s = false.
Proof.
  intros Hl. apply not_true_is_false. intros [r ->]%startswith_spec.
  rewrite length_app in Hl. lia.
Qed.

Lemma contains_spec sub s : Str.contains sub s = true ↔ ∃ p r, s = p ++ sub ++ r.
Proof.
  induction s as [|c s IH]; simpl.
  - rewrite orb_false_r, startswith_spec. split.
    + intros [r ->]. by exists [], r.
    + intros (p & r & Heq). destruct p; [by exists r|done].
  - rewrite orb_true_iff, startswith_spec, IH. split.
    + intros [[r ->]|(p & r & ->)]; [by exists [], r | by exists (c :: p), r].
    + intros (p & r & Heq). destruct p as [|c' p]; [left; by exists r|].
      injection Heq as -> ->. right. eauto.
Qed.

Lemma contains_short sub s : length s < length sub → Str.contains sub s = false.
Proof.
  intros Hl. apply not_true_is_false. intros (p & r & ->)%contains_spec.
  rewrite !length_app in Hl. lia.
Qed.

Lemma replace_go_drop old new k s :
  Str.replace_go old new k s = Str.replace old new (drop k s).
Proof.
  revert k. induction s as [|c s IH]; intros [|k]; simpl; done.
Qed.

Lemma replace_nil old new : Str.replace old new [] = [].
Proof. done. Qed.

Lemma replace_cons old new c rest :
  Str.replace old new (c :: rest) =
  if Str.startswith old (c :: rest)
  then new ++ Str.replace old new (drop (length old - 1) rest)
  else c :: Str.replace old new rest.
Proof.
  unfold Str.replace at 1. cbn [Str.replace_go].
  destruct (Str.startswith old (c :: rest)); [|done]. by rewrite replace_go_drop.
Qed.

(** The part of a string after an occurrence found at its head. *)
Lemma replace_occurrence old new c old' r :
  old = c :: old' →
  Str.replace old new (old ++ r) = new ++ Str.replace old new r.
Proof.
  intros ->. change ((c :: old') ++ r) with (c :: (old' ++ r)) at 1.
  rewrite replace_cons.
  assert (Str.startswith (c :: old') (c :: old' ++ r) = true) as ->
    by apply (startswith_app (c :: old') r).
  simpl. by rewrite Nat.sub_0_r, drop_app_length.
Qed.

Lemma replace_absent old new s :
  Str.contains old s = false → Str.replace old new s = s.
Proof.
  induction s as [|c s IH]; [done|]. simpl. intros [H1 H2]%orb_false_iff.
  rewrite replace_cons. cbn [Str.startswith] in *. rewrite H1. by rewrite IH.
Qed.

Lemma replace_short old new s : length s < length old → Str.replace old new s = s.
Proof. intros. by apply replace_absent, contains_short. Qed.

Lemma list_length_ind {A} (P : list A → Prop) :
  (∀ l, (∀ l', length l' < length l → P l') → P l) → ∀ l, P l.
Proof.
  intros H l. remember (length l) as n eqn:Hn. revert l Hn.
  induction n as [n IH] using lt_wf_ind. intros l ->. apply H.
  intros l' Hl. by eapply IH.
Qed.

Lemma length_replace_ge old new s :
  0 < length old ≤ length new → length s ≤ length (Str.replace old new s).
Proof.
  intros Hl. induction s as [s IH] using list_length_ind.
  destruct s as [|c s]; [done|]. rewrite replace_cons.
  destruct (Str.startswith old (c :: s)) eqn:E.
  - apply startswith_spec in E as [r E]. rewrite length_app.
    destruct old as [|o old]; simpl in *.
    + lia.
    + injection E as -> ->. rewrite Nat.sub_0_r, drop_app_length.
      specialize (IH r ltac:(simpl; rewrite length_app; lia)).
      rewrite length_app. lia.
  - simpl. specialize (IH s ltac:(simpl; lia)). lia.
Qed.

Lemma length_replace_gt old new s :
  0 < length old < length new → Str.contains old s = true →
  length s < length (Str.replace old new s).
Proof.
  intros Hl. induction s as [|c s IH]; intros Hc.
  - rewrite contains_short in Hc; [done|simpl; lia].
  - rewrite replace_cons. destruct (Str.startswith old (c :: s)) eqn:E.
    + apply startswith_spec in E as [r E]. rewrite length_app.
      destruct old as [|o old]; simpl in *.
      * lia.
      * injection E as -> ->. rewrite Nat.sub_0_r, drop_app_length, length_app.
        pose proof (length_replace_ge (o :: old) new r ltac:(simpl; lia)). lia.
    + cbn [Str.contains] in Hc. rewrite E in Hc. simpl in *. apply IH in Hc. lia.
Qed.

(** ** Decimal numerals and group names *)

Lemma div10_lt n : n / 10 ≠ 0 → n / 10 < n.
Proof.
  intros H. assert (10 ≤ n).
  { destruct (decide (n < 10)) as [Hlt|]; [|lia]. by rewrite Nat.div_small in H. }
  apply Nat.div_lt; lia.
Qed.

Lemma div10_small n : n / 10 = 0 → n mod 10 = n.
Proof. intros H. pose proof (Nat.div_mod_eq n 10). lia. Qed.

Lemma str_go_app n : ∀ fuel acc,
  n < fuel →
  Str.str_go fuel n acc =
  (if n / 10 =? 0 then [] else Str.str_go n (n / 10) []) ++ Str.digit (n mod 10) :: acc.
Proof.
  induction n as [n IH] using lt_wf_ind. intros fuel acc Hf.
  destruct fuel as [|fuel]; [lia|]. cbn [Str.str_go].
  destruct (n / 10 =? 0) eqn:E; [done|].
  apply Nat.eqb_neq in E.
  assert (n / 10 < n) as Hlt by (by apply div10_lt).
  rewrite (IH (n / 10) Hlt fuel) by lia.
  rewrite (IH (n / 10) Hlt n []) by lia.
  by rewrite <- app_assoc.
Qed.

Lemma str_unfold n :
  Str.str n = if n / 10 =? 0 then [Str.digit n]
              else Str.str (n / 10) ++ [Str.digit (n mod 10)].
Proof.
  unfold Str.str at 1. rewrite str_go_app by lia.
  destruct (n / 10 =? 0) eqn:E.
  - apply Nat.eqb_eq in E. by rewrite (div10_small n E).
  - apply Nat.eqb_neq in E. unfold Str.str.
    rewrite (str_go_app (n / 10) n) by (by apply div10_lt).
    rewrite (str_go_app (n / 10) (S (n / 10))) by lia. done.
Qed.

Lemma digit_isDigit d : d < 10 → isDigit (Str.digit d).
Proof. unfold isDigit, Str.digit. lia. Qed.

Lemma digit_val_digit d : d < 10 → Str.digit_val (Str.digit d) = Some d.
Proof.
  intros Hd. unfold Str.digit_val. rewrite bool_decide_eq_true_2 by (by apply digit_isDigit).
  f_equal. unfold Str.digit. lia.
Qed.

Lemma str_digits n : Forall isDigit (Str.str n).
Proof.
  induction n as [n IH] using lt_wf_ind. rewrite str_unfold.
  destruct (n / 10 =? 0) eqn:E.
  - apply Nat.eqb_eq in E. constructor; [|constructor]. apply digit_isDigit.
    pose proof (div10_small n E). pose proof (Nat.mod_upper_bound n 10). lia.
  - apply Nat.eqb_neq in E. apply Forall_app. split.
    + apply IH. by apply div10_lt.
    + constructor; [|constructor]. apply digit_isDigit, Nat.mod_upper_bound. lia.
Qed.

Lemma str_nonempty n : Str.str n ≠ [].
Proof. rewrite str_unfold. destruct (n / 10 =? 0); [done|]. by destruct (Str.str (n / 10)). Qed.

Lemma str_no_underscore n : underscore ∉ Str.str n.
Proof.
  intros Hin. pose proof (str_digits n) as Hd.
  eapply Forall_forall in Hd; [|exact Hin]. unfold isDigit, underscore in Hd. lia.
Qed.

Lemma int_go_app s1 s2 : ∀ acc,
  Str.int_go acc (s1 ++ s2) = Str.int_go acc s1 ≫= λ a, Str.int_go a s2.
Proof.
  induction s1 as [|c s1 IH]; intros acc; [done|]. simpl.
  destruct (Str.digit_val c); [apply IH|done].
Qed.

Lemma int_go_str n : Str.int_go 0 (Str.str n) = Ok n.
Proof.
  induction n as [n IH] using lt_wf_ind. rewrite str_unfold.
  pose proof (Nat.div_mod_eq n 10). pose proof (Nat.mod_upper_bound n 10 ltac:(lia)).
  destruct (n / 10 =? 0) eqn:E.
  - apply Nat.eqb_eq in E. pose proof (div10_small n E).
    simpl. rewrite digit_val_digit by lia. f_equal; lia.
  - apply Nat.eqb_neq in E. rewrite int_go_app, IH by (by apply div10_lt).
    change (Ok (n / 10) ≫= _) with (Str.int_go (n / 10) [Str.digit (n mod 10)]).
    cbn [Str.int_go]. rewrite digit_val_digit by lia. f_equal; lia.
Qed.

Lemma int_str n : Str.int (Str.str n) = Ok n.
Proof.
  unfold Str.int. pose proof (str_nonempty n). pose proof (int_go_str n).
  by destruct (Str.str n).
Qed.

Lemma str_inj m n : Str.str m = Str.str n → m = n.
Proof. intros H. pose proof (int_str m) as Hm. rewrite H, int_str in Hm. by injection Hm. Qed.

Lemma length_str n :
  length (Str.str n) = if n / 10 =? 0 then 1 else S (length (Str.str (n / 10))).
Proof.
  rewrite str_unfold. destruct (n / 10 =? 0); [done|].
  rewrite length_app. simpl. lia.
Qed.

Lemma length_str_mono m n : m ≤ n → length (Str.str m) ≤ length (Str.str n).
Proof.
  revert m. induction n as [n IH] using lt_wf_ind. intros m Hmn.
  rewrite (length_str m), (length_str n).
  destruct (m / 10 =? 0) eqn:Em, (n / 10 =? 0) eqn:En; try lia.
  - apply Nat.eqb_neq in Em. apply Nat.eqb_eq in En.
    pose proof (Nat.Div0.div_le_mono m n 10 Hmn). lia.
  - apply Nat.eqb_neq in En. apply le_n_S, IH.
    + by apply div10_lt.
    + by apply Nat.Div0.div_le_mono.
Qed.

(** An occurrence in a string of the length of the pattern is the whole
    string. *)
Lemma contains_same_length sub s :
  length s ≤ length sub → Str.contains sub s = true → s = sub.
Proof.
  intros Hl (p & r & ->)%contains_spec. rewrite !length_app in Hl.
  destruct p, r; simpl in *; try lia. by rewrite app_nil_r.
Qed.

Lemma contains_tail sub c s : Str.contains sub s = true → Str.contains sub (c :: s) = true.
Proof. intros H. simpl. rewrite H. apply orb_true_r. Qed.

Lemma prefix_before_sep (sep : N) sub : ∀ A B r,
  sep ∉ sub → sub ++ r = A ++ sep :: B → ∃ r', A = sub ++ r'.
Proof.
  induction sub as [|s sub IH]; intros A B r Hsep Heq; [by exists A|].
  apply not_elem_of_cons in Hsep as [Hne Hsep].
  destruct A as [|a A]; simplify_eq/=.
  destruct (IH A B r Hsep ltac:(done)) as [r' ->]. by exists r'.
Qed.

Lemma contains_app_sep (sep : N) sub A B :
  sep ∉ sub → sub ≠ [] →
  Str.contains sub (A ++ sep :: B) = true →
  Str.contains sub A = true ∨ Str.contains sub B = true.
Proof.
  intros Hsep Hne. induction A as [|a A IH]; cbn [app Str.contains].
  - intros [Hsw|Hc]%orb_true_iff; [|by right].
    apply startswith_spec in Hsw as [r Hr]. destruct sub as [|s sub]; [done|].
    injection Hr as -> _. exfalso. apply Hsep. by left.
  - intros [Hsw|Hc]%orb_true_iff.
    + left. apply startswith_spec in Hsw as [r Hr].
      destruct (prefix_before_sep sep sub (a :: A) B r Hsep) as [r' Hr']; [done|].
      apply orb_true_iff. left. apply startswith_spec. by exists r'.
    + destruct (IH Hc) as [H|H]; [left|by right].
      apply orb_true_iff. by right.
Qed.

Lemma contains_join (sep : N) sub l :
  sep ∉ sub → sub ≠ [] →
  Str.contains sub (Str.join [sep] l) = true →
  ∃ x, x ∈ l ∧ Str.contains sub x = true.
Proof.
  intros Hsep Hne. induction l as [|x l IH]; cbn [Str.join].
  - intros H. rewrite contains_short in H; [done|]. destruct sub; [done|simpl; lia].
  - destruct l as [|y l].
    + intros H. exists x. split; [by left|done].
    + intros [H|H]%contains_app_sep; [| |done..].
      * exists x. split; [by left|done].
      * destruct (IH H) as (z & Hz & Hc). exists z. split; [by right|done].
Qed.

Lemma join_elem (sep : pystr) x l :
  x ∈ l → ∃ p r, Str.join sep l = p ++ x ++ r.
Proof.
  induction l as [|y l IH]; [by intros ?%elem_of_nil|].
  intros [->|Hx]%elem_of_cons; cbn [Str.join].
  - destruct l as [|z l]; [exists [], []; by rewrite app_nil_r|].
    by exists [], (sep ++ Str.join sep (z :: l)).
  - destruct (IH Hx) as (p & r & Hj). destruct l as [|z l]; [by apply elem_of_nil in Hx|].
    rewrite Hj. exists (y ++ sep ++ p), r. by rewrite <- !app_assoc.
Qed.

(** The test [str(qf) in name] on the name of a group whose ids do not
    exceed [qf]. *)
Lemma contains_str_join qf (l : list nat) :
  Forall (λ m, m ≤ qf) l →
  Str.contains (Str.str qf) (Str.join [underscore] (Str.str <$> l)) = true ↔ qf ∈ l.
Proof.
  intros Hall. split.
  - intros (x & Hx & Hc)%contains_join; [|apply str_no_underscore|apply str_nonempty].
    apply list_elem_of_fmap in Hx as (m & -> & Hm).
    eapply Forall_forall in Hall; [|exact Hm]. simpl in Hall.
    apply contains_same_length in Hc.
    + apply str_inj in Hc. by subst.
    + by apply length_str_mono.
  - intros Hin. apply contains_spec.
    apply (join_elem [underscore] (Str.str qf)). by apply list_elem_of_fmap_2.
Qed.

Lemma split_go_app (sep : N) x : ∀ cur rest,
  sep ∉ x →
  Str.split_go sep cur (x ++ rest) = Str.split_go sep (cur ++ x) rest.
Proof.
  induction x as [|c x IH]; intros cur rest Hsep; [by rewrite app_nil_r|].
  apply not_elem_of_cons in Hsep as [Hne Hsep]. cbn [app Str.split_go].
  rewrite bool_decide_eq_false_2 by done. rewrite IH by done.
  by rewrite <- app_assoc.
Qed.

Lemma split_join (sep : N) l :
  Forall (λ x, sep ∉ x) l → l ≠ [] → Str.split sep (Str.join [sep] l) = l.
Proof.
  unfold Str.split. induction l as [|x l IH]; [done|]. intros Hall _.
  apply Forall_cons in Hall as [Hx Hall]. cbn [Str.join].
  destruct l as [|y l].
  - rewrite <- (app_nil_r x) at 1. rewrite split_go_app by done. done.
  - rewrite split_go_app by done. cbn [app Str.split_go].
    rewrite bool_decide_eq_true_2 by done. f_equal. by apply IH.
Qed.

(** ** Group names *)

Lemma mapM_int_str (l : list nat) : mapM Str.int (Str.str <$> l) = Ok l.
Proof.
  induction l as [|n l IH]; [done|]. rewrite fmap_cons. cbn [mapM].
  rewrite int_str. cbn [mbind result_bind]. fold (mapM Str.int (Str.str <$> l)).
  by rewrite IH.
Qed.

Lemma filter_Forall {A} (P : A → Prop) `{∀ x, Decision (P x)} (l : list A) :
  Forall P l → filter P l = l.
Proof.
  induction 1 as [|x l Hx _ IH]; [done|]. by rewrite filter_cons_True, IH.
Qed.

Lemma sortedIds_elem x group : x ∈ sortedIds group ↔ x ∈ group.
Proof. unfold sortedIds. by rewrite merge_sort_Permutation, elem_of_elements. Qed.

Lemma list_to_set_sortedIds group : list_to_set (sortedIds group) = group.
Proof. apply set_eq. intros x. by rewrite elem_of_list_to_set, sortedIds_elem. Qed.

(** [strToSet] reads back the group [setToStr] wrote. *)
Lemma strToSet_setToStr (group : gset nat) :
  DFA.strToSet (DFA.setToStr group) = Ok group.
Proof.
  unfold DFA.strToSet, DFA.setToStr. fold (sortedIds group).
  destruct (sortedIds group) as [|n l] eqn:E.
  - cbn. f_equal. rewrite <- (list_to_set_sortedIds group), E. done.
  - rewrite split_join.
    + rewrite filter_Forall.
      * rewrite mapM_int_str. cbn [mbind result_bind]. f_equal.
        by rewrite <- E, list_to_set_sortedIds.
      * apply Forall_fmap, Forall_forall. intros m _. simpl.
        pose proof (str_nonempty m). destruct (Str.str m); [done|simpl; lia].
    + apply Forall_fmap, Forall_forall. intros m _. apply str_no_underscore.
    + done.
Qed.

(** On the name of a group of ids up to [qf], the substring test of
    [fromNFA] is membership of [qf]. *)
Lemma contains_setToStr qf (group : gset nat) :
  (∀ x, x ∈ group → x ≤ qf) →
  Str.contains (Str.str qf) (DFA.setToStr group) = true ↔ qf ∈ group.
Proof.
  intros Hle. unfold DFA.setToStr. fold (sortedIds group).
  rewrite contains_str_join, sortedIds_elem; [done|].
  apply Forall_forall. intros x Hx. by apply Hle, sortedIds_elem.
Qed.

(** ** Thompson automata *)

Lemma fromAST_unfold shared root idx :
  NFA.fromAST shared root idx =
  if NFA.isAtom (token root) then
    let '(nfa, idx) := NFA.atomNFA shared (token root) idx in Ok (Some nfa, idx)
  else if str_eqb (token root) AST.STAR_kw then
    match children root with
    | [] => Raise IndexError
    | kid :: _ =>
      '(nfa, idx) ← NFA.fromAST shared kid idx;
      nfa ← NFA.deref nfa;
      let '(nfa, idx) := NFA.starNFA shared nfa idx in Ok (Some nfa, idx)
    end
  else if str_eqb (token root) AST.PLUS_kw then
    match children root with
    | [] => Raise IndexError
    | kid :: _ =>
      '(nfa, idx) ← NFA.fromAST shared kid idx;
      nfa ← NFA.deref nfa;
      let '(nfa, idx) := NFA.plusNFA shared nfa idx in Ok (Some nfa, idx)
    end
  else if str_eqb (token root) AST.MAYBE_kw then
    match children root with
    | [] => Raise IndexError
    | kid :: _ =>
      '(nfa, idx) ← NFA.fromAST shared kid idx;
      nfa ← NFA.deref nfa;
      Ok (Some (NFA.maybeNFA shared nfa), idx)
    end
  else if str_eqb (token root) AST.CONCAT_kw then
    match children root with
    | [] => Raise IndexError
    | kid1 :: rest =>
      '(nfa1, idx) ← NFA.fromAST shared kid1 idx;
      match rest with
      | [] => Raise IndexError
      | kid2 :: _ =>
        '(nfa2, idx) ← NFA.fromAST shared kid2 idx;
        nfa1 ← NFA.deref nfa1;
        nfa2 ← NFA.deref nfa2;
        Ok (Some (NFA.concatNFA shared nfa1 nfa2), idx)
      end
    end
  else if str_eqb (token root) AST.UNION_kw then
    match children root with
    | [] => Raise IndexError
    | kid1 :: rest =>
      '(nfa1, idx) ← NFA.fromAST shared kid1 idx;
      match rest with
      | [] => Raise IndexError
      | kid2 :: _ =>
        '(nfa2, idx) ← NFA.fromAST shared kid2 idx;
        nfa1 ← NFA.deref nfa1;
        nfa2 ← NFA.deref nfa2;
        let '(nfa, idx) := NFA.unionNFA shared nfa1 nfa2 idx in Ok (Some nfa, idx)
      end
    end
  else Ok (None, idx).
Proof. by destruct root. Qed.

Lemma thompson_widen lo hi lo' hi' (l : list nat) :
  lo' ≤ lo → hi ≤ hi' →
  Forall (λ s, lo ≤ s < hi) l → Forall (λ s, lo' ≤ s < hi') l.
Proof.
  intros ?? HF. eapply Forall_impl; [exact HF|]. intros s Hs. simpl in *. lia.
Qed.

Lemma ends_widen (l1 l2 : list nat) (ts : list (nat * pystr * nat)) :
  l1 ⊆ l2 →
  Forall (λ t, t.1.1 ∈ l1 ∧ t.2 ∈ l1) ts → Forall (λ t, t.1.1 ∈ l2 ∧ t.2 ∈ l2) ts.
Proof.
  intros Hsub HF. eapply Forall_impl; [exact HF|]. intros t [??]. split; by apply Hsub.
Qed.

Ltac thompson_tac :=
  repeat match goal with
  | |- Forall _ (_ :: _) => apply Forall_cons; split
  | |- Forall _ (_ ++ _) => apply Forall_app; split
  | |- Forall _ [] => apply Forall_nil_2
  | |- _ ∧ _ => split
  | |- _ ∈ _ => set_solver
  | |- _ ≤ _ => simpl; lia
  | |- _ < _ => simpl; lia
  | |- _ = _ => simpl; lia
  | |- Forall (λ s, _ ≤ s < _) _ => eapply thompson_widen; [| |eassumption]; lia
  | |- Forall (λ t, _ ∈ _ ∧ _ ∈ _) _ => eapply ends_widen; [|eassumption]; set_solver
  end.

Lemma atomNFA_thompson shared ch idx :
  thompson idx (idx + 2) (NFA.atomNFA shared ch idx).1.
Proof. constructor; simpl; thompson_tac. Qed.

Lemma starNFA_thompson shared nfa lo idx :
  thompson lo idx nfa → thompson lo (idx + 2) (NFA.starNFA shared nfa idx).1.
Proof.
  intros [H1 H2 [H3 H3'] H4 H5 H6 H7].
  constructor; simpl; thompson_tac.
Qed.

Lemma plusNFA_thompson shared nfa lo idx :
  thompson lo idx nfa → thompson lo (idx + 2) (NFA.plusNFA shared nfa idx).1.
Proof.
  intros [H1 H2 [H3 H3'] H4 H5 H6 H7].
  constructor; simpl; thompson_tac.
Qed.

Lemma maybeNFA_thompson shared nfa lo idx :
  thompson lo idx nfa → thompson lo idx (NFA.maybeNFA shared nfa).
Proof.
  intros [H1 H2 [H3 H3'] H4 H5 H6 H7].
  constructor; simpl; thompson_tac.
Qed.

Lemma concatNFA_thompson shared nfa1 nfa2 lo mid hi :
  thompson lo mid nfa1 → thompson mid hi nfa2 →
  thompson lo hi (NFA.concatNFA shared nfa1 nfa2).
Proof.
  intros [H1 H2 [H3 H3'] H4 H5 H6 H7] [G1 G2 [G3 G3'] G4 G5 G6 G7].
  constructor; simpl; thompson_tac.
Qed.

Lemma unionNFA_thompson shared nfa1 nfa2 lo mid hi :
  thompson lo mid nfa1 → thompson mid hi nfa2 →
  thompson lo (hi + 2) (NFA.unionNFA shared nfa1 nfa2 hi).1.
Proof.
  intros [H1 H2 [H3 H3'] H4 H5 H6 H7] [G1 G2 [G3 G3'] G4 G5 G6 G7].
  constructor; simpl; thompson_tac.
Qed.

Lemma fromAST_thompson shared root : ∀ idx nfa idx',
  NFA.fromAST shared root idx = Ok (Some nfa, idx') → thompson idx idx' nfa.
Proof.
  induction root as [tok n kids IH] using Node_ind'. intros idx nfa idx'.
  rewrite fromAST_unfold. cbn [token children].
  destruct (NFA.isAtom tok).
  { intros [= <- <-]. apply atomNFA_thompson. }
  destruct (str_eqb tok AST.STAR_kw).
  { destruct kids as [|kid kids]; [done|]. apply Forall_cons in IH as [IH _].
    destruct (NFA.fromAST shared kid idx) as [[[nfa1|] idx1]|] eqn:E1; [|done..].
    apply IH in E1. cbn. intros [= <- <-]. by apply starNFA_thompson. }
  destruct (str_eqb tok AST.PLUS_kw).
  { destruct kids as [|kid kids]; [done|]. apply Forall_cons in IH as [IH _].
    destruct (NFA.fromAST shared kid idx) as [[[nfa1|] idx1]|] eqn:E1; [|done..].
    apply IH in E1. cbn. intros [= <- <-]. by apply plusNFA_thompson. }
  destruct (str_eqb tok AST.MAYBE_kw).
  { destruct kids as [|kid kids]; [done|]. apply Forall_cons in IH as [IH _].
    destruct (NFA.fromAST shared kid idx) as [[[nfa1|] idx1]|] eqn:E1; [|done..].
    apply IH in E1. cbn. intros [= <- <-]. by apply maybeNFA_thompson. }
  destruct (str_eqb tok AST.CONCAT_kw).
  { destruct kids as [|kid1 kids]; [done|]. apply Forall_cons in IH as [IH1 IH].
    destruct (NFA.fromAST shared kid1 idx) as [[nfa1 idx1]|] eqn:E1; [|done].
    cbn. destruct kids as [|kid2 kids]; [done|]. apply Forall_cons in IH as [IH2 _].
    destruct (NFA.fromAST shared kid2 idx1) as [[nfa2 idx2]|] eqn:E2; [|done].
    cbn. destruct nfa1 as [nfa1|]; [|done]. destruct nfa2 as [nfa2|]; [|done].
    apply IH1 in E1. apply IH2 in E2. cbn. intros [= <- <-].
    by eapply concatNFA_thompson. }
  destruct (str_eqb tok AST.UNION_kw).
  { destruct kids as [|kid1 kids]; [done|]. apply Forall_cons in IH as [IH1 IH].
    destruct (NFA.fromAST shared kid1 idx) as [[nfa1 idx1]|] eqn:E1; [|done].
    cbn. destruct kids as [|kid2 kids]; [done|]. apply Forall_cons in IH as [IH2 _].
    destruct (NFA.fromAST shared kid2 idx1) as [[nfa2 idx2]|] eqn:E2; [|done].
    cbn. destruct nfa1 as [nfa1|]; [|done]. destruct nfa2 as [nfa2|]; [|done].
    apply IH1 in E1. apply IH2 in E2. cbn. intros [= <- <-].
    by eapply unionNFA_thompson. }
  done.
Qed.

(** *** Epsilon closures *)

Lemma next_targets nfa state ch : NFA.next nfa state ch ⊆ targets nfa.
Proof.
  unfold NFA.next, targets. intros x. rewrite !elem_of_list_to_set.
  intros (t & -> & Ht)%list_elem_of_fmap. apply list_elem_of_filter in Ht as [_ Ht].
  by apply list_elem_of_fmap_2.
Qed.

Lemma closureHelper_sub fuel nfa : ∀ state visited v,
  NFA.computeEpsilonClosureHelper fuel nfa state visited = Ok v →
  visited ⊆ v ∧ state ∈ v ∧ v ⊆ visited ∪ {[state]} ∪ targets nfa.
Proof.
  induction fuel as [|fuel IH]; intros state visited v; [done|].
  cbn [NFA.computeEpsilonClosureHelper].
  pose proof (next_targets nfa state EPS) as Hnext.
  assert (Forall (λ x, x ∈ targets nfa) (elements (NFA.next nfa state EPS))) as Hall.
  { apply Forall_forall. intros x Hx. apply Hnext. by apply elem_of_elements. }
  revert Hall. generalize (elements (NFA.next nfa state EPS)) as l. clear Hnext.
  assert (∀ l acc v, Forall (λ x, x ∈ targets nfa) l →
    foldl (λ acc next_state,
             visited ← acc;
             if bool_decide (next_state ∉ visited)
             then NFA.computeEpsilonClosureHelper fuel nfa next_state visited
             else Ok visited) (Ok acc) l = Ok v →
    acc ⊆ v ∧ v ⊆ acc ∪ targets nfa) as Hfold.
  { induction l as [|x l IHl]; intros acc v' Hall; cbn [foldl].
    - intros [= <-]. set_solver.
    - apply Forall_cons in Hall as [Hx Hall]. cbn [mbind result_bind].
      case_bool_decide.
      + destruct (NFA.computeEpsilonClosureHelper fuel nfa x acc) as [acc'|e] eqn:E.
        * apply IH in E as (H1 & H2 & H3). intros Hf. apply IHl in Hf as [H4 H5]; [|done].
          set_solver.
        * intros Hf. exfalso. clear -Hf. induction l as [|y l IHl']; [done|]. by apply IHl'.
      + intros Hf. apply IHl in Hf; [|done]. set_solver. }
  intros l Hall Hf. apply Hfold in Hf as [H1 H2]; [|done]. set_solver.
Qed.

Lemma computeEpsilonClosure_sub nfa state v :
  NFA.computeEpsilonClosure nfa state = Ok v →
  state ∈ v ∧ v ⊆ {[state]} ∪ targets nfa.
Proof.
  intros H. apply closureHelper_sub in H as (_ & H2 & H3). split; [done|]. set_solver.
Qed.

Lemma withClosures_spec nfa nfa' :
  NFA.withClosures nfa = Ok nfa' →
  nfa_q0 nfa' = nfa_q0 nfa ∧ nfa_qf nfa' = nfa_qf nfa ∧
  nfa_states nfa' = nfa_states nfa ∧ nfa_transitions nfa' = nfa_transitions nfa ∧
  ∀ s, s ∈ nfa_states nfa →
       ∃ c, epsilonClosures nfa' !! s = Some c ∧ s ∈ c ∧ c ⊆ {[s]} ∪ targets nfa.
Proof.
  unfold NFA.withClosures.
  assert (∀ l (m0 m : gmap nat (gset nat)),
    foldl (λ acc state,
             closures ← acc;
             closure ← NFA.computeEpsilonClosure nfa state;
             Ok (<[state := closure]> closures)) (Ok m0) l = Ok m →
    ∀ s, (s ∈ l → ∃ c, m !! s = Some c ∧ s ∈ c ∧ c ⊆ {[s]} ∪ targets nfa) ∧
         (s ∉ l → m !! s = m0 !! s)) as Hfold.
  { induction l as [|x l IHl]; intros m0 m; cbn [foldl].
    - intros [= <-] s. split; [by intros ?%elem_of_nil|done].
    - cbn [mbind result_bind].
      destruct (NFA.computeEpsilonClosure nfa x) as [c|e] eqn:E.
      + intros Hf s. pose proof (IHl _ _ Hf s) as [H1 H2].
        apply computeEpsilonClosure_sub in E as [E1 E2]. split.
        * intros Hs. destruct (decide (s ∈ l)) as [Hl|Hl]; [by apply H1|].
          apply elem_of_cons in Hs as [->|Hs]; [|done].
          rewrite H2, lookup_insert_eq by done. eauto.
        * intros Hs. apply not_elem_of_cons in Hs as [Hne Hs].
          rewrite H2 by done. by rewrite lookup_insert_ne.
      + intros Hf. exfalso. clear -Hf. induction l as [|y l IHl']; [done|]. by apply IHl'. }
  destruct (foldl _ _ (nfa_states nfa)) as [m|e] eqn:E; [|done].
  cbn. intros [= <-]. cbn. split_and!; try done.
  intros s Hs. by apply (Hfold _ _ _ E s).
Qed.

(** *** The depth-first search returns *)

Lemma size_targets nfa : size (targets nfa) ≤ length (nfa_transitions nfa).
Proof.
  unfold targets. rewrite <- (length_fmap (λ t : nat * pystr * nat, t.2)).
  generalize ((λ t : nat * pystr * nat, t.2) <$> nfa_transitions nfa) as l.
  induction l as [|x l IH]; cbn [list_to_set length].
  - by rewrite size_empty.
  - rewrite size_union_alt, size_singleton.
    assert (size (list_to_set (C:=gset nat) l ∖ {[x]}) ≤ size (list_to_set (C:=gset nat) l))
      by (apply subseteq_size; set_solver).
    lia.
Qed.

(** Every nested call visits a target of a transition that was not visited
    before, so a fuel above the number of unvisited targets is enough. *)
Lemma closureHelper_total nfa fuel : ∀ state visited,
  size (targets nfa ∖ (visited ∪ {[state]})) < fuel →
  ∃ v, NFA.computeEpsilonClosureHelper fuel nfa state visited = Ok v.
Proof.
  induction fuel as [|fuel IH]; intros state visited Hfuel; [lia|].
  cbn [NFA.computeEpsilonClosureHelper].
  pose proof (next_targets nfa state EPS) as Hnext.
  assert (Forall (λ x, x ∈ targets nfa) (elements (NFA.next nfa state EPS))) as Hall.
  { apply Forall_forall. intros x Hx. apply Hnext. by apply elem_of_elements. }
  revert Hall. generalize (elements (NFA.next nfa state EPS)) as l. clear Hnext.
  assert (size (targets nfa ∖ (visited ∪ {[state]})) ≤ fuel) as Hacc by lia.
  revert Hacc. generalize (visited ∪ {[state]}) as acc. clear Hfuel.
  intros acc Hacc l. revert acc Hacc.
  induction l as [|x l IHl]; intros acc Hacc Hall; cbn [foldl]; [by eauto|].
  apply Forall_cons in Hall as [Hx Hall]. cbn [mbind result_bind].
  case_bool_decide as Hin.
  - destruct (IH x acc) as [acc' Hacc'].
    { eapply Nat.lt_le_trans; [|exact Hacc]. apply subset_size. set_solver. }
    rewrite Hacc'. apply IHl; [|done].
    apply closureHelper_sub in Hacc' as (Hsub & _ & _).
    etrans; [|exact Hacc]. apply subseteq_size. set_solver.
  - by apply IHl.
Qed.

Lemma computeEpsilonClosure_total nfa state :
  ∃ v, NFA.computeEpsilonClosure nfa state = Ok v.
Proof.
  apply closureHelper_total. apply Nat.lt_succ_r.
  etrans; [|apply size_targets]. apply subseteq_size. set_solver.
Qed.

Lemma withClosures_total nfa : ∃ nfa', NFA.withClosures nfa = Ok nfa'.
Proof.
  unfold NFA.withClosures.
  assert (∀ l (m0 : gmap nat (gset nat)), ∃ m,
    foldl (λ acc state,
             closures ← acc;
             closure ← NFA.computeEpsilonClosure nfa state;
             Ok (<[state := closure]> closures)) (Ok m0) l = Ok m) as Hfold.
  { induction l as [|x l IHl]; intros m0; cbn [foldl]; [by eauto|].
    cbn [mbind result_bind]. destruct (computeEpsilonClosure_total nfa x) as [c ->].
    cbn. apply IHl. }
  destruct (Hfold (nfa_states nfa) (epsilonClosures nfa)) as [m ->]. cbn. eauto.
Qed.

(** Once the combinators have built an automaton, [NFA.fromPrenex]
    returns it with its closures. *)
Lemma fromRoot_total shared root nfa0 hi :
  NFA.fromAST shared root 0 = Ok (Some nfa0, hi) →
  ∃ nfa, NFA.fromRoot shared (Some root) = Ok nfa ∧
         nfa_q0 nfa = nfa_q0 nfa0 ∧ nfa_qf nfa = nfa_qf nfa0 ∧
         nfa_states nfa = nfa_states nfa0 ∧
         nfa_transitions nfa = nfa_transitions nfa0.
Proof.
  intros H. unfold NFA.fromRoot. rewrite H. cbn.
  destruct (withClosures_total nfa0) as [nfa Hnfa]. exists nfa. split; [done|].
  apply withClosures_spec in Hnfa. tauto.
Qed.

(** ** The worklist loop of the subset construction *)

(** Loops that thread a value through a body that may raise. *)
Section FoldResult.
Context {A B : Type} (f : A → B → result A).

Lemma foldl_raise e (l : list B) :
  foldl (λ acc b, a ← acc; f a b) (Raise e) l = Raise e.
Proof. by induction l. Qed.

Lemma foldl_result_inv (P : A → Prop) (l : list B) : ∀ a a',
  P a →
  (∀ a b a', b ∈ l → P a → f a b = Ok a' → P a') →
  foldl (λ acc b, a ← acc; f a b) (Ok a) l = Ok a' → P a'.
Proof.
  induction l as [|b l IH]; intros a a' Ha Hstep; cbn [foldl].
  - by intros [= <-].
  - cbn [mbind result_bind]. destruct (f a b) as [a1|e] eqn:E.
    + apply IH.
      * eapply Hstep; [by left|done..].
      * intros a0 b0 a0' Hb0. apply Hstep. by right.
    + by rewrite foldl_raise.
Qed.

Lemma foldl_result_total (P : A → Prop) (l : list B) : ∀ a,
  P a →
  (∀ a b, b ∈ l → P a → ∃ a', f a b = Ok a' ∧ P a') →
  ∃ a', foldl (λ acc b, a ← acc; f a b) (Ok a) l = Ok a' ∧ P a'.
Proof.
  induction l as [|b l IH]; intros a Ha Hstep; cbn [foldl]; [by eauto|].
  cbn [mbind result_bind].
  destruct (Hstep a b) as (a1 & -> & Ha1); [by left|done|].
  apply IH; [done|]. intros a0 b0 Hb0. apply Hstep. by right.
Qed.
End FoldResult.

Section Worklist.
Variable nfa : NFA.
Variable alphabet : list pystr.
(** A set that holds every closure the construction can look up. *)
Variable W : gset nat.
Hypothesis closures_in_W : ∀ t c,
  t ∈ targets nfa → epsilonClosures nfa !! t = Some c → c ⊆ W.

Lemma nextStateGroup_sub last_group ch group :
  DFA.nextStateGroup nfa last_group ch = Ok group → group ⊆ W.
Proof.
  unfold DFA.nextStateGroup. destruct (DFA.strToSet last_group) as [G|]; [|done].
  cbn [mbind result_bind].
  apply (foldl_result_inv _ (λ g : gset nat, g ⊆ W)); [set_solver|].
  intros g state g' _ Hg.
  apply (foldl_result_inv _ (λ g : gset nat, g ⊆ W)); [done|].
  intros g1 t g2 Ht Hg1.
  destruct (epsilonClosures nfa !! t) as [c|] eqn:E; [|done].
  cbn. intros [= <-]. apply elem_of_elements, next_targets in Ht.
  pose proof (closures_in_W t c Ht E). set_solver.
Qed.

Lemma nextStateGroup_total last_group ch G :
  DFA.strToSet last_group = Ok G →
  (∀ t, t ∈ targets nfa → is_Some (epsilonClosures nfa !! t)) →
  ∃ group, DFA.nextStateGroup nfa last_group ch = Ok group.
Proof.
  intros HG Hdom. unfold DFA.nextStateGroup. rewrite HG. cbn [mbind result_bind].
  edestruct (foldl_result_total
    (λ next_state_group state,
       foldl (λ acc next_state,
                next_state_group ← acc;
                closure ← of_option KeyError (epsilonClosures nfa !! next_state);
                Ok (next_state_group ∪ closure))
             (Ok next_state_group) (elements (NFA.next nfa state ch)))
    (λ _, True) (elements G) ∅) as (g & Hg & _); [done| |by eauto].
  intros g state _ _.
  edestruct (foldl_result_total
    (λ next_state_group next_state,
       closure ← of_option KeyError (epsilonClosures nfa !! next_state);
       Ok (next_state_group ∪ closure))
    (λ _, True) (elements (NFA.next nfa state ch)) g) as (g' & Hg' & _); [done| |by eauto].
  intros g1 t Ht _. apply elem_of_elements, next_targets, Hdom in Ht as [c ->].
  cbn. eauto.
Qed.

Lemma visit_explored last_group i states transitions ch states' transitions' :
  explored W i states →
  DFA.visit nfa last_group (Ok (states, transitions)) ch = Ok (states', transitions') →
  explored W i states' ∧ states `prefix_of` states'.
Proof.
  intros [H1 H2 H3]. unfold DFA.visit. cbn [mbind result_bind].
  destruct (DFA.nextStateGroup nfa last_group ch) as [group|] eqn:E; [|done].
  apply nextStateGroup_sub in E. cbn. intros [= <- <-]. case_bool_decide as Hin.
  - split; [|by apply prefix_app_r].
    constructor.
    + apply Forall_app. split; [done|]. constructor; [|done]. by exists group.
    + apply NoDup_app. split_and!; [done| |apply NoDup_singleton].
      intros x Hx ->%list_elem_of_singleton. done.
    + rewrite length_app. lia.
  - split; [by constructor|done].
Qed.

Lemma row_explored last_group i : ∀ states transitions states' transitions',
  explored W i states →
  foldl (DFA.visit nfa last_group) (Ok (states, transitions)) alphabet
    = Ok (states', transitions') →
  explored W i states' ∧ states `prefix_of` states'.
Proof.
  induction alphabet as [|ch chs IH]; intros states transitions states' transitions' Hex;
    cbn [foldl].
  - intros [= <- <-]. done.
  - destruct (DFA.visit nfa last_group (Ok (states, transitions)) ch)
      as [[states1 transitions1]|e] eqn:E.
    + apply (visit_explored _ i) in E as [E1 E2]; [|done].
      intros Hf. apply IH in Hf as [F1 F2]; [|done]. split; [done|].
      by etrans.
    + intros Hf. exfalso. clear -Hf. induction chs as [|c chs IHc]; [done|].
      by apply IHc.
Qed.

Lemma exploreStep_explored i states transitions i' states' transitions' :
  explored W i states →
  DFA.exploreStep nfa alphabet (Ok (i, states, transitions))
    = Ok (i', states', transitions') →
  explored W i' states' ∧ states `prefix_of` states'.
Proof.
  intros Hex. unfold DFA.exploreStep. cbn [mbind result_bind].
  destruct (states !! i) as [last_group|] eqn:Ei.
  - destruct (foldl _ _ alphabet) as [[states1 transitions1]|] eqn:E; [|done].
    cbn. intros [= <- <- <-]. apply (row_explored _ i) in E as [[H1 H2 H3] Hpre]; [|done].
    split; [|done]. constructor; [done..|].
    apply lookup_lt_Some in Ei. apply prefix_length in Hpre. lia.
  - by intros [= <- <- <-].
Qed.

(** Rounds keep what every single round keeps. *)
Lemma exploreRounds_ind (P : DFA.frontier → Prop) :
  (∀ st, P st → P (DFA.exploreStep nfa alphabet st)) →
  ∀ n st, P st → P (DFA.exploreRounds n nfa alphabet st).
Proof.
  intros Hstep. induction n as [|n IH]; intros st Hst; cbn [DFA.exploreRounds];
    destruct (DFA.finished st); auto.
Qed.

Lemma exploreStep_frontier st :
  exploredFrontier W st → exploredFrontier W (DFA.exploreStep nfa alphabet st).
Proof.
  destruct st as [[[i states] transitions]|e]; [|done]. intros Hex.
  destruct (DFA.exploreStep nfa alphabet _) as [[[i' states'] transitions']|e] eqn:E;
    [|done].
  by apply exploreStep_explored in E as [? _].
Qed.

Lemma explore_named q0_group states transitions :
  named W q0_group →
  DFA.explore nfa alphabet q0_group = Ok (states, transitions) →
  Forall (named W) states ∧ NoDup states.
Proof.
  intros Hq0. unfold DFA.explore.
  pose proof (exploreRounds_ind (exploredFrontier W) exploreStep_frontier
                (size (DFA.universe nfa)) (Ok (0, [q0_group], []))) as Hinv.
  destruct (DFA.exploreRounds _ _ _ _) as [[[i states1] transitions1]|e]; [|done].
  cbn [mbind result_bind]. destruct (states1 !! i); [done|]. intros [= <- <-].
  destruct Hinv as [H1 H2 _]; [|done]. constructor.
  - by constructor.
  - apply NoDup_singleton.
  - simpl. lia.
Qed.
End Worklist.

(** ** The worklist loop ends *)

Lemma allSubsets_length l : length (allSubsets l) = 2 ^ length l.
Proof.
  induction l as [|x l IH]; [done|]. cbn [allSubsets length].
  rewrite length_app, length_fmap, IH, Nat.pow_succ_r'. lia.
Qed.

Lemma allSubsets_elem l (group : gset nat) :
  group ⊆ list_to_set l → group ∈ allSubsets l.
Proof.
  revert group. induction l as [|x l IH]; intros group Hsub; cbn [allSubsets].
  - assert (group = ∅) as -> by set_solver. by left.
  - apply elem_of_app. destruct (decide (x ∈ group)) as [Hx|Hx].
    + right. apply list_elem_of_fmap. exists (group ∖ {[x]}). split.
      * apply set_eq. intros y. destruct (decide (y = x)); set_solver.
      * apply IH. set_solver.
    + left. apply IH. set_solver.
Qed.

Lemma named_bound W states :
  Forall (named W) states → NoDup states → length states ≤ 2 ^ size W.
Proof.
  intros Hnamed Hnd. unfold size, set_size. cbn. rewrite <- allSubsets_length.
  rewrite <- (length_fmap DFA.setToStr). apply submseteq_length, NoDup_submseteq; [done|].
  intros g Hg. eapply Forall_forall in Hnamed; [|exact Hg].
  destruct Hnamed as (group & Hsub & ->). apply list_elem_of_fmap_2, allSubsets_elem.
  intros x Hx. apply elem_of_list_to_set, elem_of_elements. by apply Hsub.
Qed.

Lemma lookup_universe nfa t c :
  epsilonClosures nfa !! t = Some c → c ⊆ DFA.universe nfa.
Proof.
  intros Hc x Hx. unfold DFA.universe. apply elem_of_union_list. exists c.
  split; [|done]. apply list_elem_of_fmap. exists (t, c). split; [done|].
  by apply elem_of_map_to_list.
Qed.

Section Rounds.
Variable nfa : NFA.
Variable alphabet : list pystr.

Lemma finished_step st :
  DFA.finished st = true → DFA.exploreStep nfa alphabet st = st.
Proof.
  destruct st as [[[i states] transitions]|e]; [|done]. cbn.
  intros H%bool_decide_eq_true. by rewrite H.
Qed.

Lemma finished_iter k st :
  DFA.finished st = true → Nat.iter k (DFA.exploreStep nfa alphabet) st = st.
Proof.
  intros Hf. induction k as [|k IH]; [done|].
  rewrite Nat.iter_succ, IH. by apply finished_step.
Qed.

Lemma exploreRounds_iter n : ∀ st,
  DFA.exploreRounds n nfa alphabet st = Nat.iter (2 ^ n) (DFA.exploreStep nfa alphabet) st.
Proof.
  induction n as [|n IH]; intros st; cbn [DFA.exploreRounds];
    destruct (DFA.finished st) eqn:E.
  - by rewrite finished_iter.
  - done.
  - by rewrite finished_iter.
  - rewrite !IH, Nat.pow_succ_r', <- Nat.iter_add. f_equal. lia.
Qed.

Hypothesis closures_defined : ∀ t,
  t ∈ targets nfa → is_Some (epsilonClosures nfa !! t).

Let W := DFA.universe nfa.

Lemma universe_closures t c :
  t ∈ targets nfa → epsilonClosures nfa !! t = Some c → c ⊆ W.
Proof. intros _. apply lookup_universe. Qed.

Lemma visit_total last_group states transitions ch :
  named W last_group →
  ∃ states' transitions',
    DFA.visit nfa last_group (Ok (states, transitions)) ch = Ok (states', transitions').
Proof.
  intros (group & _ & ->). unfold DFA.visit. cbn [mbind result_bind].
  destruct (nextStateGroup_total nfa (DFA.setToStr group) ch group) as [g ->];
    [apply strToSet_setToStr|done|].
  cbn. eauto.
Qed.

Lemma row_total last_group : ∀ states transitions,
  named W last_group →
  ∃ states' transitions',
    foldl (DFA.visit nfa last_group) (Ok (states, transitions)) alphabet
      = Ok (states', transitions').
Proof.
  induction alphabet as [|ch chs IH]; intros states transitions Hg; cbn [foldl]; [by eauto|].
  destruct (visit_total last_group states transitions ch Hg) as (s1 & t1 & ->).
  by apply IH.
Qed.

Lemma iter_progress q0_group m :
  named W q0_group →
  ∃ i states transitions,
    Nat.iter m (DFA.exploreStep nfa alphabet) (Ok (0, [q0_group], []))
      = Ok (i, states, transitions) ∧
    explored W i states ∧ (i = m ∨ states !! i = None).
Proof.
  intros Hq0. induction m as [|m (i & states & transitions & Heq & Hex & Hi)].
  - exists 0, [q0_group], []. split_and!; [done| |by left]. constructor.
    + by constructor.
    + apply NoDup_singleton.
    + simpl. lia.
  - rewrite Nat.iter_succ, Heq. destruct (states !! i) as [g|] eqn:Eg.
    + destruct Hi as [->|Hi]; [|done].
      assert (named W g) as Hg.
      { destruct Hex as [Hn _ _]. eapply Forall_forall in Hn; [done|].
        by eapply list_elem_of_lookup_2. }
      destruct (row_total g states transitions Hg) as (s1 & t1 & Hrow).
      assert (DFA.exploreStep nfa alphabet (Ok (m, states, transitions))
              = Ok (S m, s1, t1)) as Hstep.
      { unfold DFA.exploreStep. cbn [mbind result_bind]. by rewrite Eg, Hrow. }
      exists (S m), s1, t1. split_and!; [done| |by left].
      by apply (exploreStep_explored nfa alphabet W universe_closures) in Hstep as [? _].
    + exists i, states, transitions. split_and!; [|done|by right].
      apply finished_step. cbn. by apply bool_decide_eq_true.
Qed.

(** The loop returns, and never for want of rounds. *)
Lemma explore_total q0_group :
  named W q0_group →
  ∃ states transitions, DFA.explore nfa alphabet q0_group = Ok (states, transitions).
Proof.
  intros Hq0. unfold DFA.explore. rewrite exploreRounds_iter. fold W.
  destruct (iter_progress q0_group (2 ^ size W) Hq0)
    as (i & states & transitions & -> & Hex & Hi).
  cbn [mbind result_bind].
  assert (states !! i = None) as ->; [|by eauto].
  destruct Hi as [->|Hi]; [|done]. apply lookup_ge_None.
  destruct Hex as [H1 H2 H3]. pose proof (named_bound W states H1 H2). lia.
Qed.
End Rounds.

(** ** Final states of the subset construction *)

Lemma elem_of_upTo x qf : x ∈ upTo qf ↔ x ≤ qf.
Proof. unfold upTo. rewrite elem_of_list_to_set, elem_of_seq. lia. Qed.

Lemma fromRoot_built shared root nfa :
  NFA.fromRoot shared (Some root) = Ok nfa → built nfa.
Proof.
  unfold NFA.fromRoot.
  destruct (NFA.fromAST shared root 0) as [[[nfa0|] hi]|] eqn:E; [|done..].
  cbn. intros Hw. apply fromAST_thompson in E.
  apply withClosures_spec in Hw as (Hq0 & Hqf & Hst & Htr & Hcl).
  destruct E as [H1 H2 H3 H4 H5 H6 H7]. constructor.
  - rewrite Hqf, H2. constructor; rewrite ?Hq0, ?Hqf, ?Hst, ?Htr; done.
  - intros s Hs. rewrite Hst in Hs. destruct (Hcl s Hs) as (c & ? & ? & ?).
    exists c. split_and!; [done..|]. unfold targets in *. by rewrite Htr.
Qed.

Lemma built_targets nfa t : built nfa → t ∈ targets nfa → t ∈ nfa_states nfa.
Proof.
  intros [[_ _ _ _ _ _ Hends] _]. unfold targets. rewrite elem_of_list_to_set.
  intros (tr & -> & Htr)%list_elem_of_fmap.
  eapply Forall_forall in Hends; [|exact Htr]. by destruct Hends.
Qed.

Lemma built_state_le nfa s : built nfa → s ∈ nfa_states nfa → s ≤ nfa_qf nfa.
Proof.
  intros [[_ _ _ Hrange _ _ _] _] Hs.
  eapply Forall_forall in Hrange; [|exact Hs]. simpl in Hrange. lia.
Qed.

Lemma built_closure_upTo nfa s c :
  built nfa → s ∈ nfa_states nfa → epsilonClosures nfa !! s = Some c →
  c ⊆ upTo (nfa_qf nfa).
Proof.
  intros Hb Hs Hc. destruct (built_closures _ Hb s Hs) as (c' & Hc' & _ & Hsub).
  rewrite Hc in Hc'. injection Hc' as <-. intros x Hx. apply elem_of_upTo.
  apply Hsub in Hx. apply elem_of_union in Hx as [->%elem_of_singleton|Hx].
  - by apply built_state_le.
  - by apply built_state_le, built_targets.
Qed.

Lemma subsets_named nfa dfa :
  built nfa → DFA.subsets nfa = Ok dfa →
  Forall (named (upTo (nfa_qf nfa))) (dfa_states dfa) ∧ NoDup (dfa_states dfa) ∧
  dfa_qfs dfa =
    filter (λ state, Is_true (Str.contains (Str.str (nfa_qf nfa)) state)) (dfa_states dfa).
Proof.
  intros Hb. unfold DFA.subsets.
  destruct (epsilonClosures nfa !! nfa_q0 nfa) as [c0|] eqn:E0; [|done].
  cbn [of_option mbind result_bind].
  destruct (DFA.explore nfa _ _) as [[states transitions]|] eqn:E; [|done].
  cbn. intros [= <-]. cbn. 
  apply (explore_named nfa _ (upTo (nfa_qf nfa))) in E as [H1 H2]; [done| |].
  - intros t c Ht. apply built_closure_upTo; [done|]. by apply built_targets.
  - exists c0. split; [|done]. eapply built_closure_upTo; [done| |done].
    by destruct Hb as [[]].
Qed.

(** In the automaton over group names, a state is final exactly when the
    set its name stands for holds [qf]. *)
Lemma subsets_final nfa dfa g :
  built nfa → DFA.subsets nfa = Ok dfa → g ∈ dfa_states dfa →
  ∃ group, DFA.strToSet g = Ok group ∧ (g ∈ dfa_qfs dfa ↔ nfa_qf nfa ∈ group).
Proof.
  intros Hb Hs Hg. destruct (subsets_named nfa dfa Hb Hs) as (Hnamed & _ & ->).
  eapply Forall_forall in Hnamed; [|exact Hg]. destruct Hnamed as (group & Hsub & ->).
  exists group. split; [apply strToSet_setToStr|].
  rewrite list_elem_of_filter, Is_true_true, contains_setToStr.
  - tauto.
  - intros x Hx. by apply elem_of_upTo, Hsub.
Qed.

Lemma subsets_total nfa : built nfa → ∃ dfa, DFA.subsets nfa = Ok dfa.
Proof.
  intros Hb. unfold DFA.subsets.
  assert (nfa_q0 nfa ∈ nfa_states nfa) as Hq0 by (by destruct Hb as [[]]).
  destruct (built_closures _ Hb _ Hq0) as (c0 & Hc0 & _ & _). rewrite Hc0.
  cbn [of_option mbind result_bind].
  destruct (explore_total nfa (DFA.getAlphabet nfa)) with (q0_group := DFA.setToStr c0)
    as (states & transitions & ->).
  - intros t Ht. apply built_targets in Ht; [|done].
    destruct (built_closures _ Hb _ Ht) as (c & -> & _). by eexists.
  - exists c0. split; [|done]. by eapply lookup_universe.
  - cbn. eauto.
Qed.

(** ** Numbering the groups *)

Lemma get_mapping_spec x m :
  mapperOk m →
  ∃ n m', DFA.get_mapping x m = Ok (n, m') ∧ mapperOk m' ∧ extends m m' ∧
          mapping m' !! x = Some n.
Proof.
  intros [Hlt Hinj]. unfold DFA.get_mapping.
  destruct (mapping m !! x) as [n|] eqn:E.
  - exists n, m. split_and!; [done|by constructor|by unfold extends|done].
  - eexists _, _. split; [done|]. cbn. split_and!.
    + constructor; cbn.
      * intros y n. rewrite lookup_insert. case_decide; [intros [= <-]; lia|].
        intros Hy%Hlt. lia.
      * intros y z n. rewrite !lookup_insert.
        repeat case_decide; simplify_eq; try done.
        -- intros [= <-] Hz%Hlt. lia.
        -- intros Hy%Hlt [= <-]. lia.
        -- apply Hinj.
    + unfold extends. cbn. by apply insert_subseteq.
    + by rewrite lookup_insert_eq.
Qed.

Lemma numbered_extends m m' g n : extends m m' → numbered m g n → numbered m' g n.
Proof. unfold extends, numbered. intros Hsub Hn. by eapply lookup_weaken. Qed.

Lemma extends_trans m1 m2 m3 : extends m1 m2 → extends m2 m3 → extends m1 m3.
Proof. unfold extends. intros. by etrans. Qed.

Lemma extends_refl m : extends m m.
Proof. by unfold extends. Qed.

Ltac extends_tac :=
  solve [repeat first [eassumption | apply extends_refl
                      | eapply extends_trans; [eassumption|]]].

Lemma mapList_spec l : ∀ m,
  mapperOk m →
  ∃ ns m', DFA.mapList DFA.get_mapping l m = Ok (ns, m') ∧ mapperOk m' ∧
           extends m m' ∧ Forall2 (numbered m') l ns.
Proof.
  induction l as [|g l IH]; intros m Hm; cbn [DFA.mapList].
  - exists [], m. split_and!; [done|done|extends_tac|constructor].
  - destruct (get_mapping_spec (Some g) m Hm) as (n & m1 & -> & Hm1 & He1 & Hn).
    cbn [mbind result_bind].
    destruct (IH m1 Hm1) as (ns & m2 & -> & Hm2 & He2 & Hns).
    cbn. exists (n :: ns), m2. split_and!; [done|done|extends_tac|].
    constructor; [|done]. by eapply numbered_extends.
Qed.

Lemma mapTransitions_spec l : ∀ m,
  mapperOk m →
  ∃ ts m', DFA.mapTransitions DFA.get_mapping l m = Ok (ts, m') ∧ mapperOk m' ∧
           extends m m' ∧ Forall2 (numberedTransition m') l ts.
Proof.
  induction l as [|[[g c] g'] l IH]; intros m Hm; cbn [DFA.mapTransitions].
  - exists [], m. split_and!; [done|done|extends_tac|constructor].
  - destruct (get_mapping_spec (Some g) m Hm) as (n & m1 & -> & Hm1 & He1 & Hn).
    cbn [mbind result_bind].
    destruct (get_mapping_spec (Some g') m1 Hm1) as (n' & m2 & -> & Hm2 & He2 & Hn').
    cbn [mbind result_bind].
    destruct (IH m2 Hm2) as (ts & m3 & -> & Hm3 & He3 & Hts).
    cbn. exists ((n, c, n') :: ts), m3.
    split_and!; [done|done|extends_tac|].
    constructor; [|done]. split_and!; cbn; [|done|].
    + eapply numbered_extends; [|exact Hn]. extends_tac.
    + by eapply numbered_extends.
Qed.

Lemma Forall2_numbered_extends m m' l ns :
  extends m m' → Forall2 (numbered m) l ns → Forall2 (numbered m') l ns.
Proof.
  intros He HF. eapply Forall2_impl; [exact HF|]. intros ???. by eapply numbered_extends.
Qed.

(** [dfa.map(DFAMapper().get_mapping)] always returns: all states and
    final states carry the number of their name, two names never share a
    number, and the sink becomes a number even when it was [None]. *)
Lemma renumber_spec (dfa : DFA pystr) :
  ∃ dfa' m,
    DFA.renumber dfa = Ok (dfa', m) ∧ mapperOk m ∧
    Forall2 (numbered m) (dfa_states dfa) (dfa_states dfa') ∧
    Forall2 (numbered m) (dfa_qfs dfa) (dfa_qfs dfa') ∧
    Forall2 (numberedTransition m) (dfa_transitions dfa) (dfa_transitions dfa') ∧
    numbered m (dfa_q0 dfa) (dfa_q0 dfa') ∧
    ∃ sink, dfa_sink dfa' = Some sink ∧ mapping m !! dfa_sink dfa = Some sink.
Proof.
  unfold DFA.renumber, DFA.map.
  assert (mapperOk (mkMapper 0 ∅)) as Hm0 by (constructor; cbn; by setoid_rewrite lookup_empty).
  destruct (get_mapping_spec (Some (dfa_q0 dfa)) _ Hm0) as (n0 & m1 & -> & Hm1 & He1 & Hn0).
  cbn [mbind result_bind].
  destruct (mapList_spec (dfa_qfs dfa) m1 Hm1) as (qfs & m2 & -> & Hm2 & He2 & Hqfs).
  cbn [mbind result_bind].
  destruct (mapList_spec (dfa_states dfa) m2 Hm2) as (sts & m3 & -> & Hm3 & He3 & Hsts).
  cbn [mbind result_bind].
  destruct (mapTransitions_spec (dfa_transitions dfa) m3 Hm3) as (ts & m4 & -> & Hm4 & He4 & Hts).
  cbn [mbind result_bind].
  destruct (get_mapping_spec (dfa_sink dfa) m4 Hm4) as (sk & m5 & -> & Hm5 & He5 & Hsk).
  cbn. eexists _, _. split; [done|]. cbn.
  assert (extends m3 m5) by (extends_tac).
  assert (extends m2 m5) by (extends_tac).
  assert (extends m1 m5) by (extends_tac).
  split_and!; [done| | | | |by eauto].
  - by apply (Forall2_numbered_extends m3).
  - by apply (Forall2_numbered_extends m2).
  - eapply Forall2_impl; [exact Hts|]. intros t t' (Ht1 & Ht2 & Ht3).
    split_and!; [|done|]; by apply (numbered_extends m4).
  - by apply (numbered_extends m1).
Qed.

Lemma setSink_fields alphabet (dfa : DFA nat) :
  is_Some (dfa_sink dfa) →
  let dfa' := DFA.setSink alphabet dfa in
  dfa_q0 dfa' = dfa_q0 dfa ∧ dfa_qfs dfa' = dfa_qfs dfa ∧
  dfa_states dfa' = dfa_states dfa ∧ dfa_transitions dfa' = dfa_transitions dfa ∧
  is_Some (dfa_sink dfa').
Proof.
  intros Hs. unfold DFA.setSink. by destruct (List.find _ _).
Qed.

Lemma addSink_Some alphabet (dfa : DFA nat) :
  is_Some (dfa_sink dfa) → DFA.addSink alphabet dfa = dfa.
Proof. intros [s Hs]. unfold DFA.addSink. by rewrite Hs. Qed.

(** [fromNFA] returns as soon as the automaton over group names is there;
    states and final states are those the numbering produced. *)
Lemma fromNFA_renumbered nfa dfaS :
  DFA.subsets nfa = Ok dfaS →
  ∃ dfaN m dfa,
    DFA.renumber dfaS = Ok (dfaN, m) ∧ DFA.fromNFA nfa = Ok dfa ∧
    dfa_q0 dfa = dfa_q0 dfaN ∧ dfa_qfs dfa = dfa_qfs dfaN ∧
    dfa_states dfa = dfa_states dfaN ∧
    dfa_transitions dfa = dfa_transitions dfaN ∧ is_Some (dfa_sink dfa).
Proof.
  intros Hs. unfold DFA.fromNFA. rewrite Hs. cbn [mbind result_bind].
  destruct (renumber_spec dfaS) as (dfaN & m & Hr & _ & _ & _ & _ & _ & sink & Hsink & _).
  rewrite Hr. cbn [mbind result_bind].
  assert (is_Some (dfa_sink dfaN)) as Hsome by (by rewrite Hsink).
  destruct (setSink_fields (DFA.getAlphabet nfa) dfaN Hsome) as (H1 & H2 & H3 & H4 & H5).
  rewrite (addSink_Some _ _ H5). by exists dfaN, m, (DFA.setSink (DFA.getAlphabet nfa) dfaN).
Qed.

(** Right after the build, whatever the tree and whatever the shared
    dictionary held before, [fromNFA] returns; every state of the result is
    the number of a group name, that name reads back as a set of ids of the
    automaton, and the state is final exactly when that set holds the
    accept state [qf], in the automaton over names as well as in the
    numbered one: [qf] is the largest id, so the test [str(nfa.qf) in state]
    finds it in a name only where the group holds it. *)
Lemma fresh_final_iff_group_holds_qf
    (shared : gmap nat (gset nat)) (root : Node) (nfa : NFA) :
  NFA.fromRoot shared (Some root) = Ok nfa →
  ∃ dfaS dfa,
    DFA.subsets nfa = Ok dfaS ∧ DFA.fromNFA nfa = Ok dfa ∧
    length (dfa_states dfa) = length (dfa_states dfaS) ∧
    ∀ i g, dfa_states dfaS !! i = Some g →
      ∃ n group,
        dfa_states dfa !! i = Some n ∧
        DFA.strToSet g = Ok group ∧
        (g ∈ dfa_qfs dfaS ↔ nfa_qf nfa ∈ group) ∧
        (DFA.isFinal dfa n = true ↔ nfa_qf nfa ∈ group).
Proof.
  intros Hb%fromRoot_built.
  destruct (subsets_total nfa Hb) as [dfaS Hs].
  destruct (fromNFA_renumbered nfa dfaS Hs) as (dfaN & m & dfa & Hr & Hf & _ & Hqfs & Hst & _).
  destruct (renumber_spec dfaS) as (dfaN' & m' & Hr' & Hm & Hstates & Hfinals & _).
  rewrite Hr in Hr'. injection Hr' as <- <-.
  exists dfaS, dfa. split_and!; [done..| |].
  - rewrite Hst. symmetry. by eapply Forall2_length.
  - intros i g Hg.
    destruct (Forall2_lookup_l _ _ _ _ _ Hstates Hg) as (n & Hn & Hgn).
    destruct (subsets_final nfa dfaS g Hb Hs) as (group & Hgroup & Hfinal);
      [by eapply list_elem_of_lookup_2|].
    exists n, group. rewrite Hst. split_and!; [done..|].
    rewrite <- Hfinal. unfold DFA.isFinal. rewrite bool_decide_eq_true, Hqfs. split.
    + intros Hin. apply list_elem_of_lookup_1 in Hin as [j Hj].
      destruct (Forall2_lookup_r _ _ _ _ _ Hfinals Hj) as (g' & Hg' & Hgn').
      assert (Some g' = Some g) as [= ->] by (eapply (mapper_inj m); eassumption).
      by eapply list_elem_of_lookup_2.
    + intros Hin. apply list_elem_of_lookup_1 in Hin as [j Hj].
      destruct (Forall2_lookup_l _ _ _ _ _ Hfinals Hj) as (n' & Hn' & Hgn').
      unfold numbered in *. rewrite Hgn in Hgn'. injection Hgn' as <-.
      by eapply list_elem_of_lookup_2.
Qed.

(** C1. The test [str(nfa.qf) in state] looks for the digits of [qf] in
    the name of the group, and the closures come from the dictionary all
    automata share.  Build the automaton of [CONCAT a b] (accept state 3),
    then the automaton of a longer expression, which leaves [1, 2, 12, 13]
    under id 1, then call [fromNFA] on the first: the group [1_2_12_13]
    reached on [a] is final, its name holding the digit 3, though the set
    it reads back as does not hold the accept state; the automaton
    returned accepts [a]. *)
Theorem stale_closures_make_a_group_without_qf_final :
  ∃ n1 n2 dfaS dfa group,
    NFA.fromPrenex ∅ (py "CONCAT a b") = Ok n1 ∧
    NFA.fromPrenex (epsilonClosures n1)
      (py "CONCAT a STAR CONCAT c CONCAT d CONCAT e CONCAT f g") = Ok n2 ∧
    DFA.subsets (NFA.aliased n1 (epsilonClosures n2)) = Ok dfaS ∧
    DFA.fromNFA (NFA.aliased n1 (epsilonClosures n2)) = Ok dfa ∧
    nfa_qf n1 = 3 ∧
    py "1_2_12_13" ∈ dfa_states dfaS ∧
    py "1_2_12_13" ∈ dfa_qfs dfaS ∧
    DFA.strToSet (py "1_2_12_13") = Ok group ∧
    (nfa_qf n1 ∉ group) ∧
    DFA.next dfa (dfa_q0 dfa) (py "a") = Some 1 ∧
    DFA.isFinal dfa 1 = true ∧
    DFA.accepts dfa (py "a") = true.
Proof.
  eexists _, _, _, _, _.
  split; [vm_compute; reflexivity|]. split; [vm_compute; reflexivity|].
  split; [vm_compute; reflexivity|]. split; [vm_compute; reflexivity|].
  split; [reflexivity|].
  split; [apply (bool_decide_unpack _); vm_compute; exact I|].
  split; [apply (bool_decide_unpack _); vm_compute; exact I|].
  split; [vm_compute; reflexivity|].
  split; [apply (bool_decide_unpack _); vm_compute; exact I|].
  split; [vm_compute; reflexivity|]. split; vm_compute; reflexivity.
Qed.

(** ** Every state has its row *)

Lemma visit_grows nfa last_group states transitions ch states' transitions' :
  DFA.visit nfa last_group (Ok (states, transitions)) ch = Ok (states', transitions') →
  states `prefix_of` states' ∧
  ∃ g', transitions' = transitions ++ [(last_group, ch, g')].
Proof.
  unfold DFA.visit. cbn [mbind result_bind].
  destruct (DFA.nextStateGroup nfa last_group ch) as [group|]; [|done].
  cbn. intros [= <- <-]. split; [|by eauto].
  case_bool_decide; [by apply prefix_app_r|done].
Qed.

Lemma row_grows nfa last_group alphabet : ∀ states transitions states' transitions',
  foldl (DFA.visit nfa last_group) (Ok (states, transitions)) alphabet
    = Ok (states', transitions') →
  states `prefix_of` states' ∧ transitions `prefix_of` transitions' ∧
  ∀ ch, ch ∈ alphabet → ∃ g', (last_group, ch, g') ∈ transitions'.
Proof.
  induction alphabet as [|ch chs IH]; intros states transitions states' transitions';
    cbn [foldl].
  - intros [= <- <-]. split_and!; [done..|]. by intros ch ?%elem_of_nil.
  - destruct (DFA.visit nfa last_group (Ok (states, transitions)) ch)
      as [[states1 transitions1]|e] eqn:E.
    + apply visit_grows in E as [E1 [g1 ->]].
      intros Hf. apply IH in Hf as (F1 & F2 & F3). split_and!.
      * by etrans.
      * etrans; [|exact F2]. by apply prefix_app_r.
      * intros c [->|Hc]%elem_of_cons; [|by apply F3]. exists g1.
        destruct F2 as [k ->]. rewrite !elem_of_app, list_elem_of_singleton. auto.
    + intros Hf. exfalso. clear -Hf. induction chs as [|c chs IHc]; [done|].
      by apply IHc.
Qed.

Lemma exploreStep_rows nfa alphabet st :
  rowsFrontier alphabet st → rowsFrontier alphabet (DFA.exploreStep nfa alphabet st).
Proof.
  destruct st as [[[i states] transitions]|e]; [|done]. intros Hrows.
  unfold DFA.exploreStep. cbn [mbind result_bind].
  destruct (states !! i) as [last_group|] eqn:Ei; [|done].
  destruct (foldl _ _ alphabet) as [[states1 transitions1]|] eqn:E; [|done].
  cbn. apply row_grows in E as (E1 & E2 & E3).
  intros j g ch Hj Hg Hch.
  assert (states !! j = Some g) as Hg'.
  { destruct E1 as [k ->]. rewrite lookup_app_l in Hg; [done|].
    apply lookup_lt_Some in Ei. lia. }
  destruct (decide (j = i)) as [->|Hne].
  - rewrite Ei in Hg'. injection Hg' as <-. by apply E3.
  - destruct (Hrows j g ch) as [g' Hin]; [lia|done..|]. exists g'.
    destruct E2 as [k ->]. apply elem_of_app. by left.
Qed.

Lemma explore_rows nfa alphabet q0_group states transitions :
  DFA.explore nfa alphabet q0_group = Ok (states, transitions) →
  ∀ g ch, g ∈ states → ch ∈ alphabet → ∃ g', (g, ch, g') ∈ transitions.
Proof.
  unfold DFA.explore.
  pose proof (exploreRounds_ind nfa alphabet (rowsFrontier alphabet)
                (exploreStep_rows nfa alphabet)
                (size (DFA.universe nfa)) (Ok (0, [q0_group], []))) as Hinv.
  destruct (DFA.exploreRounds _ _ _ _) as [[[i states1] transitions1]|e]; [|done].
  cbn [mbind result_bind]. destruct (states1 !! i) eqn:Ei; [done|]. intros [= <- <-].
  intros g ch [j Hj]%list_elem_of_lookup_1 Hch.
  apply (Hinv ltac:(intros ? ? ? ?; lia) j g ch); [|done..].
  apply lookup_ge_None in Ei. apply lookup_lt_Some in Hj. lia.
Qed.

(** The automaton over group names has a transition for every state and
    every symbol of the alphabet. *)
Lemma subsets_rows nfa dfa :
  DFA.subsets nfa = Ok dfa →
  ∀ g ch, g ∈ dfa_states dfa → ch ∈ DFA.getAlphabet nfa →
    ∃ g', (g, ch, g') ∈ dfa_transitions dfa.
Proof.
  unfold DFA.subsets.
  destruct (epsilonClosures nfa !! nfa_q0 nfa) as [c0|]; [|done].
  cbn [of_option mbind result_bind].
  destruct (DFA.explore nfa _ _) as [[states transitions]|] eqn:E; [|done].
  cbn. intros [= <-]. cbn. by eapply explore_rows.
Qed.

Lemma subsets_sink nfa dfa : DFA.subsets nfa = Ok dfa → dfa_sink dfa = None.
Proof.
  unfold DFA.subsets.
  destruct (epsilonClosures nfa !! nfa_q0 nfa) as [c0|]; [|done].
  cbn [of_option mbind result_bind].
  destruct (DFA.explore nfa _ _) as [[states transitions]|]; [|done].
  cbn. by intros [= <-].
Qed.

Lemma str_eqb_refl s : str_eqb s s = true.
Proof. unfold str_eqb. by apply bool_decide_eq_true_2. Qed.

Lemma lookupTransition_is_Some {S} `{EqDecision S}
    (transitions : list (S * pystr * S)) state ch state' :
  (state, ch, state') ∈ transitions →
  is_Some (DFA.lookupTransition transitions state ch).
Proof.
  induction transitions as [|[[s c] s'] l IH]; [by intros ?%elem_of_nil|].
  cbn [DFA.lookupTransition]. intros [[= -> -> ->]|Hin]%elem_of_cons.
  - by rewrite bool_decide_eq_true_2, str_eqb_refl by done.
  - destruct (_ && _); [done|]. by apply IH.
Qed.

Lemma lookupTransition_None {S} `{EqDecision S}
    (transitions : list (S * pystr * S)) state ch :
  Forall (λ t, t.1.1 ≠ state) transitions →
  DFA.lookupTransition transitions state ch = None.
Proof.
  induction 1 as [|[[s c] s'] l Hne _ IH]; [done|]. cbn [DFA.lookupTransition].
  simpl in Hne. by rewrite bool_decide_eq_false_2.
Qed.

(** X11. Whatever automaton [fromNFA] returns, every state of its list
    has a transition on every symbol of the alphabet: the worklist loop
    writes a full row for each group it visits, and it visits them all. *)
Lemma fromNFA_rows nfa dfa :
  DFA.fromNFA nfa = Ok dfa →
  ∀ state ch, state ∈ dfa_states dfa → ch ∈ DFA.getAlphabet nfa →
    is_Some (DFA.next dfa state ch).
Proof.
  intros Hf. destruct (DFA.subsets nfa) as [dfaS|e] eqn:Hs;
    [|by unfold DFA.fromNFA in Hf; rewrite Hs in Hf].
  destruct (fromNFA_renumbered nfa dfaS Hs)
    as (dfaN & m & dfa' & Hr & Hf' & _ & _ & Hst & Htr & _).
  rewrite Hf in Hf'. injection Hf' as <-.
  destruct (renumber_spec dfaS) as (dfaN' & m' & Hr' & Hm & Hstates & _ & Htrans & _).
  rewrite Hr in Hr'. injection Hr' as <- <-.
  intros state ch Hstate Hch. rewrite Hst in Hstate. unfold DFA.next. rewrite Htr.
  apply list_elem_of_lookup_1 in Hstate as [j Hj].
  destruct (Forall2_lookup_r _ _ _ _ _ Hstates Hj) as (g & Hg & Hgn).
  destruct (subsets_rows nfa dfaS Hs g ch) as [g' Hin];
    [by eapply list_elem_of_lookup_2|done|].
  apply list_elem_of_lookup_1 in Hin as [k Hk].
  destruct (Forall2_lookup_l _ _ _ _ _ Htrans Hk) as ([[n c] n'] & Hk' & Hn & Hc & Hn').
  cbn in Hn, Hc, Hn'. subst c. unfold numbered in *. rewrite Hgn in Hn. injection Hn as <-.
  eapply lookupTransition_is_Some. by eapply list_elem_of_lookup_2.
Qed.

Lemma fromNFA_rows_witness :
  match NFA.fromPrenex ∅ (py "CONCAT a b") with
  | Ok nfa =>
    match DFA.fromNFA nfa with
    | Ok dfa =>
      ∀ state ch, state ∈ dfa_states dfa → ch ∈ DFA.getAlphabet nfa →
        is_Some (DFA.next dfa state ch)
    | Raise _ => False
    end
  | Raise _ => False
  end.
Proof.
  destruct (NFA.fromPrenex ∅ (py "CONCAT a b")) as [nfa|e] eqn:E1;
    [|vm_compute in E1; discriminate].
  destruct (DFA.fromNFA nfa) as [dfa|e] eqn:E2.
  - exact (fromNFA_rows nfa dfa E2).
  - vm_compute in E1. injection E1 as <-. vm_compute in E2. discriminate.
Defined.

(** X12. The sink attribute of the automaton [fromNFA] returns is never
    [None]: when the scan finds a state that is not final and loops on
    every symbol, it is that state; otherwise it is the number the
    numbering gave to [None], which is no state and has no transition, and
    the branch that would add a sink does not run. *)
Lemma fromNFA_sink nfa dfa :
  DFA.fromNFA nfa = Ok dfa →
  ∃ sink, dfa_sink dfa = Some sink ∧
    ((sink ∈ dfa_states dfa ∧ DFA.isFinal dfa sink = false ∧
      ∀ ch, ch ∈ DFA.getAlphabet nfa → DFA.next dfa sink ch = Some sink)
     ∨ ((sink ∉ dfa_states dfa) ∧ (∀ ch, DFA.next dfa sink ch = None) ∧
        Forall (λ state, DFA.isSink (DFA.getAlphabet nfa) dfa state = false)
          (dfa_states dfa))).
Proof.
  unfold DFA.fromNFA. destruct (DFA.subsets nfa) as [dfaS|e] eqn:Hs; [|done].
  cbn [mbind result_bind].
  destruct (renumber_spec dfaS)
    as (dfaN & m & Hr & Hm & Hstates & _ & Htrans & _ & sk & Hsk & Hnone).
  rewrite Hr. cbn [mbind result_bind]. rewrite (subsets_sink _ _ Hs) in Hnone.
  unfold DFA.setSink. destruct (List.find _ _) as [state|] eqn:Efind.
  - cbn. intros [= <-]. exists state. split; [done|]. left.
    apply find_some in Efind as [Hin Hsink]. apply list_elem_of_In in Hin.
    unfold DFA.isSink in Hsink. apply andb_true_iff in Hsink as [Hloop Hfin].
    split_and!; [done|by apply negb_true_iff in Hfin|].
    intros ch Hch. rewrite forallb_forall in Hloop.
    apply list_elem_of_In, Hloop in Hch. by apply bool_decide_eq_true in Hch.
  - unfold DFA.addSink. rewrite Hsk. intros [= <-]. exists sk. split; [done|]. right.
    split_and!.
    + intros [j Hj]%list_elem_of_lookup_1.
      destruct (Forall2_lookup_r _ _ _ _ _ Hstates Hj) as (g & _ & Hg).
      by pose proof (mapper_inj m Hm _ _ _ Hg Hnone).
    + intros ch. apply lookupTransition_None. apply Forall_forall.
      intros [[n c] n'] [k Hk]%list_elem_of_lookup_1. cbn. intros ->.
      destruct (Forall2_lookup_r _ _ _ _ _ Htrans Hk) as ([[g c'] g'] & _ & Hg & _).
      cbn in Hg. by pose proof (mapper_inj m Hm _ _ _ Hg Hnone).
    + apply Forall_forall. intros state Hin. apply list_elem_of_In in Hin.
      by eapply find_none in Efind.
Qed.

Lemma fromNFA_sink_witness :
  match NFA.fromPrenex ∅ (py "CONCAT a b") with
  | Ok nfa =>
    match DFA.fromNFA nfa with
    | Ok dfa =>
      ∃ sink, dfa_sink dfa = Some sink ∧
        ((sink ∈ dfa_states dfa ∧ DFA.isFinal dfa sink = false ∧
          ∀ ch, ch ∈ DFA.getAlphabet nfa → DFA.next dfa sink ch = Some sink)
         ∨ ((sink ∉ dfa_states dfa) ∧ (∀ ch, DFA.next dfa sink ch = None) ∧
            Forall (λ state, DFA.isSink (DFA.getAlphabet nfa) dfa state = false)
              (dfa_states dfa)))
    | Raise _ => False
    end
  | Raise _ => False
  end.
Proof.
  destruct (NFA.fromPrenex ∅ (py "CONCAT a b")) as [nfa|e] eqn:E1;
    [|vm_compute in E1; discriminate].
  destruct (DFA.fromNFA nfa) as [dfa|e] eqn:E2.
  - exact (fromNFA_sink nfa dfa E2).
  - vm_compute in E1. injection E1 as <-. vm_compute in E2. discriminate.
Defined.

(** ** Longest match, earliest category *)

Lemma foldl_reverse {A B} (f : B → A → B) (a : B) (l : list A) :
  foldl f a (reverse l) = foldr (λ x acc, f acc x) a l.
Proof.
  induction l as [|x l IH]; [done|].
  rewrite reverse_cons, foldl_app. simpl. by rewrite IH.
Qed.

Lemma getLongestMatch_longest m :
  Lexer.getLongestMatch m = if bool_decide (length m = 0) then None else Some (longest m).
Proof.
  unfold Lexer.getLongestMatch, longest. case_bool_decide; [done|].
  by rewrite foldl_reverse.
Qed.

Lemma le_foldr_max x l : x ∈ l → x ≤ foldr max 0 l.
Proof.
  induction l as [|z l IH]; [by intros ?%elem_of_nil|].
  intros [->|Hy]%elem_of_cons; simpl; [lia|]. apply IH in Hy. lia.
Qed.

Lemma foldr_max_le x l : Forall (λ y, y ≤ x) l → foldr max 0 l ≤ x.
Proof. induction 1; simpl; [lia|]. apply Nat.max_lub; lia. Qed.

Lemma foldr_max_elem l : l ≠ [] → foldr max 0 l ∈ l.
Proof.
  induction l as [|z l IH]; [done|]. intros _. simpl.
  destruct l as [|y l]; [simpl; rewrite Nat.max_0_r; by left|].
  specialize (IH ltac:(done)).
  destruct (Nat.max_spec z (foldr max 0 (y :: l))) as [[_ ->]|[_ ->]];
    [by right | by left].
Qed.

Lemma longer_fold tok l : ∀ acc,
  foldl (Lexer.longer tok) acc l =
  if bool_decide (Exists (λ x, acc.2 ≤ x) l) then (Some tok, foldr max 0 l) else acc.
Proof.
  induction l as [|x l IH]; intros [t0 i0].
  - rewrite bool_decide_eq_false_2; [done|]. by intros ?%Exists_nil.
  - cbn [foldl foldr]. unfold Lexer.longer at 2. cbn [snd].
    case_bool_decide as Hx; rewrite IH; cbn [snd].
    + rewrite (bool_decide_eq_true_2 (Exists _ (x :: l))) by (by left).
      case_bool_decide as Hl; f_equal.
      * apply Exists_exists in Hl as (y & Hy & Hxy).
        apply le_foldr_max in Hy. lia.
      * apply not_Exists_Forall in Hl; [|intros ?; apply _].
        assert (foldr max 0 l ≤ x); [|lia]. apply foldr_max_le.
        eapply Forall_impl; [exact Hl|]. simpl. lia.
    + case_bool_decide as Hl.
      * rewrite (bool_decide_eq_true_2 (Exists _ (x :: l))) by (by right).
        f_equal. apply Exists_exists in Hl as (y & Hy & Hxy).
        apply le_foldr_max in Hy. lia.
      * rewrite bool_decide_eq_false_2; [done|].
        intros [?|?]%Exists_cons; [lia|done].
Qed.

Lemma longest_snd m : (longest m).2 = maxAll m.
Proof.
  induction m as [|[tok l] m IH]; [done|].
  unfold maxAll in *. cbn [longest foldr fmap list_fmap concat snd fst].
  fold (longest m). rewrite longer_fold, IH.
  assert (∀ l1 l2, foldr max 0 (l1 ++ l2) = foldr max 0 l1 `max` foldr max 0 l2) as Happ.
  { intros l1 l2. induction l1 as [|a l1 IH1]; simpl; [done|]. rewrite IH1. lia. }
  rewrite Happ. case_bool_decide as Hl; cbn [snd].
  - apply Exists_exists in Hl as (y & Hy & Hxy). apply le_foldr_max in Hy. lia.
  - apply not_Exists_Forall in Hl; [|intros ?; apply _].
    assert (foldr max 0 l ≤ foldr max 0 (concat m.*2)); [|lia].
    apply foldr_max_le. eapply Forall_impl; [exact Hl|]. simpl. lia.
Qed.

Lemma longest_empty m : Forall (λ e, e.2 = []) m → longest m = (None, 0).
Proof.
  induction 1 as [|[tok l] m Hl _ IH]; [done|]. simpl in Hl. subst l.
  cbn [longest foldr snd fst foldl]. exact IH.
Qed.

(** The entry that wins: the first one that holds the largest endpoint. *)
Lemma longest_spec m :
  Exists (λ e, e.2 ≠ []) m →
  ∃ pre tok l post,
    m = pre ++ (tok, l) :: post ∧
    longest m = (Some tok, maxAll m) ∧
    maxAll m ∈ l ∧
    Forall (λ e, maxAll m ∉ e.2) pre.
Proof.
  induction m as [|[tok l] m IH]; intros Hex; [by apply Exists_nil in Hex|].
  pose proof (longest_snd ((tok, l) :: m)) as Hmax.
  cbn [longest foldr snd fst] in *. fold (longest m) in *.
  rewrite longer_fold in *. rewrite longest_snd in *.
  case_bool_decide as Hl; cbn [snd] in Hmax.
  - exists [], tok, l, m. rewrite <- Hmax. split_and!; [done..| |done].
    apply foldr_max_elem. intros ->. by apply Exists_nil in Hl.
  - apply not_Exists_Forall in Hl; [|intros ?; apply _].
    destruct (decide (Exists (λ e, e.2 ≠ []) m)) as [Hm|Hm].
    + destruct (IH Hm) as (pre & tok' & l' & post & -> & Hlong & Hin & Hpre).
      exists ((tok, l) :: pre), tok', l', post. rewrite <- Hmax, longest_snd.
      split_and!; [done|done|done|]. constructor; [|done]. simpl.
      intros Hin'. eapply Forall_forall in Hl; [|exact Hin']. simpl in Hl. lia.
    + apply not_Exists_Forall in Hm; [|intros ?; apply _].
      assert (Forall (λ e : pystr * list nat, e.2 = []) m) as Hm'.
      { eapply Forall_impl; [exact Hm|]. simpl. intros e He.
        destruct (e.2); [done|]. by destruct He. }
      apply Exists_cons in Hex as [Hex|Hex]; simpl in Hex.
      * destruct l as [|x l]; [done|]. apply Forall_cons in Hl as [Hx _].
        simpl in Hx. pose proof (longest_empty m Hm') as Hle.
        rewrite <- longest_snd, Hle in Hx. simpl in Hx. lia.
      * exfalso. apply Exists_exists in Hex as (e & He & Hne).
        eapply Forall_forall in Hm'; [|exact He]. done.
Qed.

Lemma walk_matches tok dfa rest : ∀ idx st m,
  (Lexer.walk tok dfa rest idx st m).1.1 = appendAll tok (endpointsFrom dfa rest idx st) m.
Proof.
  induction rest as [|c rest IH]; intros idx st m; [done|].
  cbn [Lexer.walk endpointsFrom]. destruct (DFA.next dfa st [c]) as [st'|]; [|done].
  unfold appendAll. rewrite foldl_app. fold (appendAll tok).
  case_bool_decide; case_bool_decide; try done; by rewrite IH.
Qed.

Lemma scan_matches n todo word start : ∀ m ns failed,
  ns + length todo ≤ n →
  (Lexer.scan n todo word start m ns failed).1 =
  foldl (λ m entry, appendAll entry.1 (endpoints entry.2 word start) m) m todo.
Proof.
  induction todo as [|[tok dfa] todo IH]; intros m ns failed Hn; [done|].
  cbn [Lexer.scan foldl fst snd length] in *.
  pose proof (walk_matches tok dfa (drop start word) start (dfa_q0 dfa) m) as Hw.
  destruct (Lexer.walk tok dfa (drop start word) start (dfa_q0 dfa) m)
    as [[m' idx'] sunk]. cbn [fst] in Hw. subst m'. fold (endpoints dfa word start).
  case_bool_decide as Hbreak.
  - destruct todo; [done|]. destruct sunk; simpl in *; lia.
  - apply IH. destruct sunk; lia.
Qed.

Lemma dictAppend_fresh {K V} `{EqDecision K} (k : K) (x : V) m :
  k ∉ m.*1 → dictAppend k x m = m ++ [(k, [x])].
Proof.
  induction m as [|[k' xs] m IH]; [done|]. rewrite fmap_cons, not_elem_of_cons.
  intros [Hne Hk]. cbn [dictAppend]. rewrite bool_decide_eq_false_2 by done.
  by rewrite IH.
Qed.

Lemma dictAppend_last {K V} `{EqDecision K} (k : K) (x : V) m xs :
  k ∉ m.*1 → dictAppend k x (m ++ [(k, xs)]) = m ++ [(k, xs ++ [x])].
Proof.
  induction m as [|[k' xs'] m IH].
  - intros _. simpl. by rewrite bool_decide_eq_true_2.
  - rewrite fmap_cons, not_elem_of_cons. intros [Hne Hk]. cbn [dictAppend app].
    rewrite bool_decide_eq_false_2 by done. by rewrite IH.
Qed.

Lemma appendAll_last tok l : ∀ m xs,
  tok ∉ m.*1 → appendAll tok l (m ++ [(tok, xs)]) = m ++ [(tok, xs ++ l)].
Proof.
  induction l as [|y l IH]; intros m xs Hk; [by rewrite app_nil_r|].
  unfold appendAll. cbn [foldl]. rewrite dictAppend_last by done.
  change (foldl _ ?m l) with (appendAll tok l m).
  rewrite IH by done. by rewrite <- app_assoc.
Qed.

Lemma appendAll_fresh tok l m :
  tok ∉ m.*1 →
  appendAll tok l m = match l with [] => m | _ => m ++ [(tok, l)] end.
Proof.
  intros Hk. destruct l as [|x l]; [done|]. unfold appendAll. cbn [foldl].
  rewrite dictAppend_fresh by done.
  change (foldl _ ?m l) with (appendAll tok l m). by rewrite appendAll_last.
Qed.

Lemma fold_recorded todo word start : ∀ m,
  NoDup todo.*1 → (∀ k, k ∈ todo.*1 → k ∉ m.*1) →
  foldl (λ m entry, appendAll entry.1 (endpoints entry.2 word start) m) m todo =
  m ++ recorded todo word start.
Proof.
  induction todo as [|[tok dfa] todo IH]; intros m Hnd Hfresh.
  { by rewrite app_nil_r. }
  rewrite fmap_cons in Hnd. apply NoDup_cons in Hnd as [Htok Hnd].
  cbn [foldl fst snd recorded omap list_omap]. fold (recorded todo word start).
  rewrite appendAll_fresh by (apply Hfresh; by left).
  destruct (endpoints dfa word start) as [|x l] eqn:E.
  - apply IH; [done|]. intros k Hk. apply Hfresh. by right.
  - rewrite IH; [by rewrite <- app_assoc|done|].
    intros k Hk. rewrite fmap_app, elem_of_app. intros [Hm|Hm].
    + by apply (Hfresh k); [right|].
    + apply list_elem_of_singleton in Hm. simpl in Hm. by subst.
Qed.

Lemma scan_recorded (self : Lexer) word start :
  NoDup (dfas self).*1 →
  (Lexer.scan (length (dfas self)) (dfas self) word start [] 0 0).1 =
  recorded (dfas self) word start.
Proof.
  intros Hnd. rewrite scan_matches by lia. rewrite fold_recorded; [done..|].
  intros k _. apply not_elem_of_nil.
Qed.

Lemma omap_split {A B} (f : A → option B) (l : list A) : ∀ a y b,
  omap f l = a ++ y :: b →
  ∃ l1 x l2, l = l1 ++ x :: l2 ∧ omap f l1 = a ∧ f x = Some y ∧ omap f l2 = b.
Proof.
  induction l as [|x l IH]; intros a y b Heq; [by destruct a|].
  cbn [omap list_omap] in Heq. fold (omap f l) in Heq.
  destruct (f x) as [z|] eqn:Ex.
  - destruct a as [|a0 a]; simplify_eq/=.
    + exists [], x, l. by rewrite Ex.
    + apply IH in H0 as (l1 & x' & l2 & -> & <- & Hx' & <-).
      exists (x :: l1), x', l2. cbn [omap list_omap app]. by rewrite Ex.
  - apply IH in Heq as (l1 & x' & l2 & -> & <- & Hx' & <-).
    exists (x :: l1), x', l2. cbn [omap list_omap app]. by rewrite Ex.
Qed.

Lemma elem_of_concat {A} (x : A) (l : list A) (ls : list (list A)) :
  x ∈ l → l ∈ ls → x ∈ concat ls.
Proof.
  intros Hx. induction ls as [|l0 ls IH]; [by intros ?%elem_of_nil|].
  intros [->|Hl]%elem_of_cons; simpl; apply elem_of_app; auto.
Qed.

(** The round that finds a candidate emits the greatest endpoint, under
    the first category that recorded it. *)
Lemma round_longest (self : Lexer) word start_idx :
  NoDup (dfas self).*1 →
  Exists (λ entry, endpoints entry.2 word start_idx ≠ []) (dfas self) →
  ∃ earlier tok dfa later longestIdx,
    dfas self = earlier ++ (tok, dfa) :: later ∧
    longestIdx ∈ endpoints dfa word start_idx ∧
    Forall (λ entry, Forall (λ idx, idx ≤ longestIdx)
                       (endpoints entry.2 word start_idx)) (dfas self) ∧
    Forall (λ entry, longestIdx ∉ endpoints entry.2 word start_idx) earlier ∧
    Lexer.round self word start_idx =
      inl ((Some tok, take (longestIdx + 1 - start_idx) (drop start_idx word)),
           longestIdx + 1).
Proof.
  intros Hnd Hex. unfold Lexer.round.
  pose proof (scan_recorded self word start_idx Hnd) as Hscan.
  destruct (Lexer.scan _ _ _ _ _ _ _) as [matches failed]. cbn [fst] in Hscan.
  subst matches. set (m := recorded (dfas self) word start_idx).
  assert (Exists (λ e : pystr * list nat, e.2 ≠ []) m) as Hm.
  { apply Exists_exists in Hex as ([tok dfa] & Hin & Hne). apply Exists_exists.
    exists (tok, endpoints dfa word start_idx). split; [|done].
    apply list_elem_of_omap. exists (tok, dfa). split; [done|]. simpl in *.
    by destruct (endpoints dfa word start_idx). }
  destruct (longest_spec m Hm) as (pre & tok & l & post & Hsplit & Hlong & Hin & Hpre).
  rewrite getLongestMatch_longest, Hlong.
  rewrite bool_decide_eq_false_2 by (rewrite Hsplit, length_app; simpl; lia).
  apply omap_split in Hsplit as (earlier & [tok' dfa] & later & Hdfas & Hearlier & Hx & Hlater).
  cbn [fst snd] in Hx. destruct (endpoints dfa word start_idx) as [|x l'] eqn:El; [done|].
  injection Hx as Ht Hl. subst tok l.
  exists earlier, tok', dfa, later, (maxAll m). rewrite El. split_and!; [done|done| | |done].
  - apply Forall_forall. intros [tok2 dfa2] Hin'. apply Forall_forall. intros idx Hidx.
    cbn [snd] in Hidx. apply le_foldr_max.
    apply (elem_of_concat _ (endpoints dfa2 word start_idx)); [done|].
    apply (list_elem_of_fmap_2' snd _ (tok2, endpoints dfa2 word start_idx)); [|done].
    apply list_elem_of_omap. exists (tok2, dfa2). split; [done|]. simpl.
    destruct (endpoints dfa2 word start_idx); [by apply elem_of_nil in Hidx|done].
  - apply Forall_forall. intros [tok2 dfa2] Hin' Hidx. cbn [snd] in Hidx.
    assert ((tok2, endpoints dfa2 word start_idx) ∈ pre) as Hp.
    { rewrite <- Hearlier. apply list_elem_of_omap. exists (tok2, dfa2). split; [done|].
      simpl. destruct (endpoints dfa2 word start_idx); [by apply elem_of_nil in Hidx|done]. }
    eapply Forall_forall in Hpre; [|exact Hp]. done.
Qed.

(** ** [lex] returns *)

Lemma endpointsFrom_ge dfa rest : ∀ idx st,
  Forall (λ x, idx ≤ x) (endpointsFrom dfa rest idx st).
Proof.
  induction rest as [|c rest IH]; intros idx st; cbn [endpointsFrom]; [done|].
  destruct (DFA.next dfa st [c]) as [st'|]; [|done].
  apply Forall_app. split.
  - case_bool_decide; [|done]. by repeat constructor.
  - case_bool_decide; [done|]. eapply Forall_impl; [apply IH|]. simpl. lia.
Qed.

Lemma dictAppend_matchesFrom start tok x m :
  start ≤ x → matchesFrom start m → matchesFrom start (dictAppend tok x m).
Proof.
  intros Hx. unfold matchesFrom. induction 1 as [|[k xs] m [Hne Hxs] Hm IH].
  - repeat constructor; done.
  - cbn [dictAppend]. case_bool_decide; constructor; try done. simpl in *. split.
    + by destruct xs.
    + apply Forall_app. by repeat constructor.
Qed.

Lemma appendAll_matchesFrom start tok l : ∀ m,
  Forall (λ x, start ≤ x) l → matchesFrom start m → matchesFrom start (appendAll tok l m).
Proof.
  induction l as [|x l IH]; intros m Hl Hm; [done|].
  apply Forall_cons in Hl as [Hx Hl]. unfold appendAll. cbn [foldl].
  apply IH; [done|]. by apply dictAppend_matchesFrom.
Qed.

Lemma scan_matchesFrom (self : Lexer) word start :
  matchesFrom start (Lexer.scan (length (dfas self)) (dfas self) word start [] 0 0).1.
Proof.
  rewrite scan_matches by lia.
  assert (matchesFrom start []) as Hnil by constructor.
  revert Hnil. generalize (@nil (pystr * list nat)) as m.
  induction (dfas self) as [|[tok dfa] todo IH]; intros m Hm; [done|].
  cbn [foldl fst snd]. apply IH. apply appendAll_matchesFrom; [|done].
  apply endpointsFrom_ge.
Qed.

Lemma maxAll_ge start m : m ≠ [] → matchesFrom start m → start ≤ maxAll m.
Proof.
  destruct m as [|[tok l] m]; [done|]. intros _ [[Hne Hl] _]%Forall_cons.
  simpl in *. destruct l as [|x l]; [done|]. apply Forall_cons in Hl as [Hx _].
  unfold maxAll. cbn. lia.
Qed.

(** A round that emits a token moves the start forward. *)
Lemma round_progress self word start emitted start' :
  Lexer.round self word start = inl (emitted, start') → start < start'.
Proof.
  unfold Lexer.round. pose proof (scan_matchesFrom self word start) as Hm.
  destruct (Lexer.scan _ _ _ _ _ _ _) as [matches failed]. cbn [fst] in Hm.
  rewrite getLongestMatch_longest. case_bool_decide as Hlen; [done|].
  pose proof (longest_snd matches) as Hmax.
  destruct (longest matches) as [tok idx]. cbn [snd] in Hmax. subst idx.
  intros [= _ <-]. enough (start ≤ maxAll matches) by lia.
  apply maxAll_ge; [|done]. by destruct matches.
Qed.

Lemma lexLoop_total self word fuel : ∀ start output,
  length word - start < fuel →
  ∃ out, Lexer.lexLoop fuel self word start output = Ok out.
Proof.
  induction fuel as [|fuel IH]; intros start output Hfuel; [lia|].
  cbn [Lexer.lexLoop]. case_bool_decide as Hlt; [|by eauto].
  destruct (Lexer.round self word start) as [[emitted start']|msg] eqn:Er; [|by eauto].
  apply round_progress in Er. apply IH. lia.
Qed.

(** X16. Whatever the automata and the word, [lex] returns, with the
    tokens or with a message: every round that emits a token moves the
    start forward by at least one character, so the rounds never outnumber
    the characters. *)
Lemma lex_total self word : ∃ out, Lexer.lex self word = Ok out.
Proof. apply lexLoop_total. lia. Qed.

(** ** The automaton of a one-character regex *)

Section Atom.
Variable c : N.
Hypothesis c_free : c ∉ reserved.

Lemma c_neq x : x ∈ reserved → c ≠ x.
Proof. intros Hx ->. done. Qed.

Lemma preprocess_char : Parser.preprocess [c] = Ok [Character [c]].
Proof.
  unfold Parser.preprocess. rewrite replace_short by (simpl; lia).
  cbn [Parser.classify].
  rewrite !bool_decide_eq_false_2 by (apply c_neq; unfold reserved; set_solver).
  done.
Qed.

Lemma toPrenex_char : Parser.toPrenex [c] = Ok [c].
Proof.
  unfold Parser.toPrenex. rewrite preprocess_char. cbn [mbind result_bind].
  unfold Parser.toPrenexHelper.
  change (Parser.shuntAll _ [] []) with (Ok ([] : list Operator, [Character [c]])).
  cbn [mbind result_bind length].
  rewrite (bool_decide_eq_false_2 (0 < 0)) by lia.
  change (concat _) with [c; space].
  rewrite (replace_short [space; newline; space]) by (simpl; lia).
  rewrite (replace_short [space; carriage; space]) by (simpl; lia).
  rewrite (replace_short [space; tab; space]) by (simpl; lia).
  cbn [removelast].
  unfold Str.replace. cbn [Str.replace_go Str.startswith].
  rewrite bool_decide_eq_false_2; [done|].
  intros Heq. symmetry in Heq. revert Heq. apply c_neq. unfold reserved. set_solver.
Qed.

Lemma arity_char : AST.arity [c] = 0.
Proof.
  unfold AST.arity.
  rewrite !bool_decide_eq_false_2; [done|..];
    intros H; repeat (apply elem_of_cons in H as [H|H]; [discriminate|]);
    by apply elem_of_nil in H.
Qed.

Lemma customSplit_char : AST.customSplit [c] = [[c]].
Proof.
  unfold AST.customSplit. cbn [AST.splitLoop].
  rewrite (bool_decide_eq_false_2 (c = quote))
    by (apply c_neq; unfold reserved; set_solver).
  rewrite (bool_decide_eq_false_2 (c = space))
    by (apply c_neq; unfold reserved; set_solver).
  cbn [andb app length seq foldl]. unfold AST.unquoteAt. cbn [lookup list_lookup].
  unfold AST.isQuoted. by rewrite (bool_decide_eq_false_2 (length [c] = 3)).
Qed.

Lemma parse_char : AST.parse [c] = Ok (Some (mkNode [c] 0 [])).
Proof.
  unfold AST.parse, AST.fromPrenex. rewrite customSplit_char.
  cbn [length AST.fromPrenexFuel AST.createNode num_children token children].
  rewrite arity_char. done.
Qed.

Variable shared : gmap nat (gset nat).

(** The automaton [NFA.fromPrenex] returns for the token [c]. *)
Let closures : gmap nat (gset nat) := <[1 := {[1]}]> (<[0 := {[0]}]> shared).
Let atom : NFA := mkNFA 0 1 [0; 1] [(0, [c], 1)] closures.

Lemma c_not_eps : [c] ≠ EPS.
Proof. done. Qed.

Lemma next_atom_eps s : NFA.next (mkNFA 0 1 [0; 1] [(0, [c], 1)] shared) s EPS = ∅.
Proof.
  unfold NFA.next. cbn [nfa_transitions].
  rewrite filter_cons_False, filter_nil; [done|]. cbn. intros [_ ?]. done.
Qed.

Lemma closure_atom s :
  NFA.computeEpsilonClosure (mkNFA 0 1 [0; 1] [(0, [c], 1)] shared) s = Ok {[s]}.
Proof.
  unfold NFA.computeEpsilonClosure. cbn [nfa_transitions length NFA.computeEpsilonClosureHelper].
  rewrite next_atom_eps, elements_empty. cbn [foldl]. f_equal. set_solver.
Qed.

Lemma fromPrenex_char : NFA.fromPrenex shared [c] = Ok atom.
Proof.
  unfold NFA.fromPrenex. rewrite parse_char. cbn [mbind result_bind].
  unfold NFA.fromRoot. rewrite fromAST_unfold. cbn [token].
  assert (NFA.isAtom [c] = true) as ->.
  { unfold NFA.isAtom. rewrite (bool_decide_eq_false_2 (length [c] = 0)) by done.
    by rewrite (bool_decide_eq_true_2 (length [c] = 1)). }
  cbn [NFA.atomNFA mbind result_bind NFA.deref of_option Nat.add].
  unfold NFA.withClosures. cbn [nfa_states foldl epsilonClosures mbind result_bind].
  rewrite !closure_atom. cbn [mbind result_bind]. done.
Qed.

Lemma next_atom_0 : NFA.next atom 0 [c] = {[1]}.
Proof.
  unfold NFA.next. cbn [nfa_transitions atom].
  rewrite filter_cons_True, filter_nil by done. cbn. set_solver.
Qed.

Lemma next_atom_1 : NFA.next atom 1 [c] = ∅.
Proof.
  unfold NFA.next. cbn [nfa_transitions atom].
  rewrite filter_cons_False, filter_nil; [done|]. cbn. intros [? _]. done.
Qed.

Lemma getAlphabet_atom : DFA.getAlphabet atom = [[c]].
Proof.
  unfold DFA.getAlphabet. cbn [nfa_transitions atom fmap list_fmap fst snd].
  rewrite filter_cons_True, filter_nil by done. done.
Qed.

Lemma group_0 : DFA.nextStateGroup atom (py "0") [c] = Ok {[1]}.
Proof.
  unfold DFA.nextStateGroup.
  replace (DFA.strToSet (py "0")) with (Ok ({[0]} : gset nat)) by (by vm_compute).
  cbn [mbind result_bind]. rewrite elements_singleton. cbn [foldl mbind result_bind].
  rewrite next_atom_0, elements_singleton. cbn [foldl mbind result_bind epsilonClosures atom].
  unfold closures. rewrite lookup_insert_eq. cbn. f_equal; set_solver.
Qed.

Lemma group_1 : DFA.nextStateGroup atom (py "1") [c] = Ok ∅.
Proof.
  unfold DFA.nextStateGroup.
  replace (DFA.strToSet (py "1")) with (Ok ({[1]} : gset nat)) by (by vm_compute).
  cbn [mbind result_bind]. rewrite elements_singleton. cbn [foldl mbind result_bind].
  by rewrite next_atom_1, elements_empty.
Qed.

Lemma group_empty : DFA.nextStateGroup atom [] [c] = Ok ∅.
Proof.
  unfold DFA.nextStateGroup.
  replace (DFA.strToSet []) with (Ok (∅ : gset nat)) by (by vm_compute).
  cbn [mbind result_bind]. by rewrite elements_empty.
Qed.

Let s0 : pystr := py "0".
Let s1 : pystr := py "1".

Lemma visit_0 :
  DFA.visit atom s0 (Ok ([s0], [])) [c] = Ok ([s0; s1], [(s0, [c], s1)]).
Proof.
  unfold DFA.visit, s0, s1. cbn [mbind result_bind]. rewrite group_0.
  cbn [mbind result_bind].
  replace (DFA.setToStr {[1]}) with (py "1") by (by vm_compute).
  by replace (bool_decide (py "1" ∉ [py "0"])) with true by (by vm_compute).
Qed.

Lemma visit_1 :
  DFA.visit atom s1 (Ok ([s0; s1], [(s0, [c], s1)])) [c]
  = Ok ([s0; s1; []], [(s0, [c], s1); (s1, [c], [])]).
Proof.
  unfold DFA.visit, s0, s1. cbn [mbind result_bind]. rewrite group_1.
  cbn [mbind result_bind].
  replace (DFA.setToStr ∅) with ([] : pystr) by (by vm_compute).
  by replace (bool_decide ([] ∉ [py "0"; py "1"])) with true by (by vm_compute).
Qed.

Lemma visit_2 :
  DFA.visit atom [] (Ok ([s0; s1; []], [(s0, [c], s1); (s1, [c], [])])) [c]
  = Ok ([s0; s1; []], [(s0, [c], s1); (s1, [c], []); ([], [c], [])]).
Proof.
  unfold DFA.visit, s0, s1. cbn [mbind result_bind]. rewrite group_empty.
  cbn [mbind result_bind].
  replace (DFA.setToStr ∅) with ([] : pystr) by (by vm_compute).
  by replace (bool_decide ([] ∉ [py "0"; py "1"; []])) with false by (by vm_compute).
Qed.

Lemma three_rounds :
  Nat.iter 3 (DFA.exploreStep atom [[c]]) (Ok (0, [s0], []))
  = Ok (3, [s0; s1; []], [(s0, [c], s1); (s1, [c], []); ([], [c], [])]).
Proof.
  cbn [Nat.iter nat_rect]. unfold DFA.exploreStep at 3.
  cbn [mbind result_bind lookup list_lookup foldl]. rewrite visit_0.
  cbn [mbind result_bind]. unfold DFA.exploreStep at 2.
  cbn [mbind result_bind lookup list_lookup foldl]. rewrite visit_1.
  cbn [mbind result_bind]. unfold DFA.exploreStep at 1.
  cbn [mbind result_bind lookup list_lookup foldl]. rewrite visit_2.
  done.
Qed.

Lemma universe_atom : 2 ≤ size (DFA.universe atom).
Proof.
  assert (({[0; 1]} : gset nat) ⊆ DFA.universe atom) as Hsub.
  { assert ({[0]} ⊆ DFA.universe atom)
      by (apply (lookup_universe atom 0); cbn; unfold closures;
          by rewrite lookup_insert_ne, lookup_insert_eq).
    assert ({[1]} ⊆ DFA.universe atom)
      by (apply (lookup_universe atom 1); cbn; unfold closures;
          by rewrite lookup_insert_eq).
    set_solver. }
  apply subseteq_size in Hsub. rewrite size_union, !size_singleton in Hsub by set_solver.
  done.
Qed.

Lemma explore_atom :
  DFA.explore atom [[c]] s0
  = Ok ([s0; s1; []], [(s0, [c], s1); (s1, [c], []); ([], [c], [])]).
Proof.
  unfold DFA.explore. rewrite exploreRounds_iter.
  assert (3 ≤ 2 ^ size (DFA.universe atom)) as Hle.
  { pose proof universe_atom as Hu.
    pose proof (Nat.pow_le_mono_r 2 _ _ ltac:(lia) Hu) as Hp. simpl in Hp. lia. }
  replace (2 ^ size (DFA.universe atom)) with ((2 ^ size (DFA.universe atom) - 3) + 3) by lia.
  rewrite Nat.iter_add. fold s0. rewrite three_rounds, finished_iter by done.
  done.
Qed.

(** The automaton over group names and the numbered one. *)
Let atomDFA : DFA nat :=
  mkDFA 0 [1] [0; 1; 2] [(0, [c], 1); (1, [c], 2); (2, [c], 2)] (Some 2).

Lemma next_atomDFA sink state x :
  DFA.next (mkDFA 0 [1] [0; 1; 2] [(0, [c], 1); (1, [c], 2); (2, [c], 2)] sink) state [x] =
  if bool_decide (x = c) then
    match state with 0 => Some 1 | 1 => Some 2 | 2 => Some 2 | _ => None end
  else None.
Proof.
  unfold DFA.next. cbn [dfa_transitions DFA.lookupTransition]. unfold str_eqb.
  destruct (decide (x = c)) as [->|Hx].
  - rewrite !(bool_decide_eq_true_2 ([c] = [c])), (bool_decide_eq_true_2 (c = c)) by done.
    by destruct state as [|[|[|]]].
  - rewrite !(bool_decide_eq_false_2 ([c] = [x])), (bool_decide_eq_false_2 (x = c))
      by congruence.
    by rewrite !andb_false_r.
Qed.

Lemma renumber_atom :
  DFA.renumber
    (mkDFA s0 [s1] [s0; s1; []] [(s0, [c], s1); (s1, [c], []); ([], [c], [])] None)
  = Ok (mkDFA 0 [1] [0; 1; 2] [(0, [c], 1); (1, [c], 2); (2, [c], 2)] (Some 3),
        mkMapper 4 (<[None := 3]> (<[Some [] := 2]> (<[Some s1 := 1]> (<[Some s0 := 0]> ∅))))).
Proof. vm_compute. reflexivity. Qed.

Lemma fromNFA_atom : DFA.fromNFA atom = Ok atomDFA.
Proof.
  unfold DFA.fromNFA, DFA.subsets. rewrite getAlphabet_atom.
  cbn [epsilonClosures nfa_q0 nfa_qf atom]. unfold closures at 1.
  rewrite lookup_insert_ne, lookup_insert_eq by done.
  cbn [of_option mbind result_bind].
  replace (DFA.setToStr {[0]}) with s0 by (by vm_compute).
  rewrite explore_atom. cbn [mbind result_bind].
  replace (filter _ [s0; s1; []]) with [s1] by (by vm_compute).
  rewrite renumber_atom. cbn [mbind result_bind]. unfold DFA.setSink, DFA.isSink.
  cbn [dfa_states List.find forallb].
  rewrite !next_atomDFA, !(bool_decide_eq_true_2 (c = c)) by done.
  reflexivity.
Qed.

Lemma compile_char : compile shared [c] = Ok atomDFA.
Proof.
  unfold compile, DFA.fromPrenex. rewrite toPrenex_char. cbn [mbind result_bind].
  rewrite fromPrenex_char. cbn [mbind result_bind]. apply fromNFA_atom.
Qed.

Lemma sink_rejects word : DFA.acceptsFrom atomDFA 2 word = false.
Proof.
  induction word as [|x word IH]; [done|]. cbn [DFA.acceptsFrom].
  unfold atomDFA at 1. rewrite next_atomDFA. by case_bool_decide.
Qed.

Lemma accepts_atomDFA word : DFA.accepts atomDFA word = bool_decide (word = [c]).
Proof.
  unfold DFA.accepts. cbn [dfa_q0 atomDFA].
  destruct word as [|x word]; [done|]. cbn [DFA.acceptsFrom].
  unfold atomDFA at 1. rewrite next_atomDFA. case_bool_decide as Hx.
  - subst x. destruct word as [|y word].
    + by rewrite bool_decide_eq_true_2.
    + rewrite bool_decide_eq_false_2 by done. cbn [DFA.acceptsFrom].
      unfold atomDFA at 1. rewrite next_atomDFA. case_bool_decide; [|done].
      apply sink_rejects.
  - rewrite bool_decide_eq_false_2; [done|]. congruence.
Qed.
End Atom.

(** C4, as the code has it.  For every character [c] other than the
    quote, the operator glyphs, the open square bracket, the space and the
    symbol [ε], compiling the one-character regex [c] returns an
    automaton, whatever the shared dictionary held before, and that
    automaton accepts the string [c] and no other string, the empty one
    included. *)
Theorem one_character_regex_accepts_only_itself
    (shared : gmap nat (gset nat)) (c : N) :
  c ∉ reserved → acceptsOnly shared [c] c.
Proof.
  intros Hc. eexists. split; [by apply compile_char|]. by apply accepts_atomDFA.
Qed.

Lemma one_character_regex_accepts_only_itself_witness :
  acceptsOnly ∅ (py "a") 97%N.
Proof.
  apply (one_character_regex_accepts_only_itself ∅ 97%N).
  unfold reserved. vm_compute. intros H.
  repeat (apply elem_of_cons in H as [H|H]; [discriminate|]).
  by apply elem_of_nil in H.
Defined.

(** C4, as the claim words it, fails for characters that are literal
    characters to [preprocess]: for the space no automaton is built at all,
    and the automaton of [ε] accepts the empty string. *)
Lemma space_and_epsilon_are_not_accepted :
  ¬ acceptsOnly ∅ [space] space ∧ ¬ acceptsOnly ∅ [epsilon] epsilon ∧
  Parser.preprocess [space] = Ok [Character [space]] ∧
  compile ∅ [space] = Raise AttributeError.
Proof.
  split_and!.
  - intros (dfa & Hdfa & _). vm_compute in Hdfa. discriminate.
  - intros (dfa & Hdfa & Hacc). vm_compute in Hdfa. injection Hdfa as <-.
    specialize (Hacc []). vm_compute in Hacc. discriminate.
  - reflexivity.
  - vm_compute. reflexivity.
Qed.

(** ** The sink of the automaton returned *)

(** C2 at the regex [a*].  Its automaton has two states, both final, so the
    scan for a sink finds none; the sink attribute is nevertheless not
    [None], since the numbering gave [None] the number 2; the branch that
    would add a sink state does not run, and the automaton returned names
    as its sink a number that is not among its states and from which no
    transition leaves. *)
Theorem star_sink_is_no_state :
  ∃ dfa,
    DFA.fromPrenex ∅ (py "STAR a") = Ok dfa ∧
    dfa = mkDFA 0 [0; 1] [0; 1] [(0, py "a", 1); (1, py "a", 1)] (Some 2) ∧
    dfa_sink dfa = Some 2 ∧ (2 ∉ dfa_states dfa) ∧
    DFA.next dfa 2 (py "a") = None.
Proof.
  eexists. split; [vm_compute; reflexivity|]. split_and!; [reflexivity..| |reflexivity].
  cbn. intros H. repeat (apply elem_of_cons in H as [H|H]; [discriminate|]).
  by apply elem_of_nil in H.
Qed.

(** ** The message of a failed round *)

(** On a word without newline the message carries the failed index
    itself, which counts from 0. *)
Lemma failure_single_line word failed_curr_idx :
  Str.count newline word = 0 → failed_curr_idx ≠ length word →
  Lexer.failure word failed_curr_idx = Lexer.noViable (Str.str failed_curr_idx) 0.
Proof.
  intros Hc Hne. unfold Lexer.failure.
  by rewrite bool_decide_eq_true_2, bool_decide_eq_false_2.
Qed.

(** On a word with a newline the message carries the distance from the
    last newline before the failed index, which counts from 1, and the
    number of newlines up to and including the failed index. *)
Lemma failure_multi_line word failed_curr_idx :
  Str.count newline word ≠ 0 → failed_curr_idx ≠ length word →
  Lexer.failure word failed_curr_idx =
  Lexer.noViable
    (Str.strZ (Z.of_nat failed_curr_idx
               - Str.rfind newline (take failed_curr_idx word)))
    (Lexer.countLines 0 word failed_curr_idx 0).
Proof.
  intros Hc Hne. unfold Lexer.failure.
  by rewrite bool_decide_eq_false_2, bool_decide_eq_false_2.
Qed.

Lemma failure_eof word :
  Lexer.failure word (length word) =
  Lexer.noViable (py "EOF")
    (if bool_decide (Str.count newline word = 0) then 0
     else Lexer.countLines 0 word (length word) 0).
Proof.
  unfold Lexer.failure. case_bool_decide; by rewrite bool_decide_eq_true_2.
Qed.

(** C5 at the word [b] for the single category [A] with regex [a].  No
    category records a candidate, the furthest index reached is 0, and the
    message names character 0: the index itself, not the column 1.  With a
    newline after it, the same failure at the same place is reported as
    character 1. *)
Theorem single_line_failure_reports_index :
  ∃ self,
    lexerOf [(py "A", py "a")] = Ok self ∧
    Lexer.lex self (py "b") =
      Ok (Message (py "No viable alternative at character 0, line 0")) ∧
    Lexer.lex self (py "b" ++ [newline]) =
      Ok (Message (py "No viable alternative at character 1, line 0")).
Proof. eexists. split_and!; vm_compute; reflexivity. Qed.

(** ** The operator stack of the prenex conversion *)

Lemma popWhile_run cmp o stack out :
  cmp (priority o) 0 = false →
  L_BRACK ∈ stack →
  Parser.popWhile cmp o stack out =
  Ok (keptStack cmp o stack, out ++ (Op <$> poppedRun cmp o stack)).
Proof.
  intros Hcmp. revert out. induction stack as [|top stack IH]; intros out Hin.
  - by apply elem_of_nil in Hin.
  - simpl. destruct (cmp (priority o) (priority top)) eqn:E.
    + apply elem_of_cons in Hin as [Heq|Hin].
      { subst top. simpl in E. rewrite Hcmp in E. discriminate. }
      rewrite IH by done. by rewrite <- app_assoc.
    + by rewrite fmap_nil, app_nil_r.
Qed.

(** C6, as the code has it.  When an operator other than a bracket is read
    and an open bracket is on the stack, the entries popped before it is
    pushed are those of rank equal to or higher than its own when the
    operator is [STAR], and those of strictly higher rank for every other
    operator: [PLUS] and [MAYBE] as well as [CONCAT] and [UNION]. *)
Theorem shunt_pops_equal_rank_for_star_only (o : Operator)
    (stack : list Operator) (out : list item) :
  isRepetition o || isBinary o = true →
  L_BRACK ∈ stack →
  Parser.shunt (Op o) stack out =
    let cmp := if bool_decide (o = STAR) then Nat.leb else Nat.ltb in
    Ok (o :: keptStack cmp o stack, out ++ (Op <$> poppedRun cmp o stack)).
Proof.
  intros Ho Hin. unfold Parser.shunt.
  rewrite (bool_decide_eq_false_2 (o = L_BRACK)) by (by intros ->).
  rewrite (bool_decide_eq_false_2 (o = R_BRACK)) by (by intros ->).
  destruct (bool_decide (o = STAR)); simpl; rewrite popWhile_run; try done.
  all: by destruct o.
Qed.

Lemma shunt_pops_equal_rank_for_star_only_witness :
  Parser.shunt (Op PLUS) [STAR; L_BRACK] [] = Ok ([PLUS; STAR; L_BRACK], []) ∧
  Parser.shunt (Op STAR) [PLUS; L_BRACK] [] = Ok ([STAR; L_BRACK], [Op PLUS]).
Proof.
  split.
  - apply (shunt_pops_equal_rank_for_star_only PLUS [STAR; L_BRACK] []);
      [reflexivity | repeat constructor].
  - apply (shunt_pops_equal_rank_for_star_only STAR [PLUS; L_BRACK] []);
      [reflexivity | repeat constructor].
Defined.

(** C6, as the claim words it, fails: [PLUS] is a repetition operator and
    the [STAR] (or the other [PLUS]) on top of the stack has its rank, yet
    reading [PLUS] does not pop it, so the result is not the one popping on
    equal rank gives. *)
Lemma plus_does_not_pop_equal_rank :
  isRepetition PLUS = true ∧ priority STAR = priority PLUS ∧
  Parser.shunt (Op PLUS) [STAR; L_BRACK] [] ≠
    Ok (PLUS :: keptStack Nat.leb PLUS [STAR; L_BRACK],
        [] ++ (Op <$> poppedRun Nat.leb PLUS [STAR; L_BRACK])) ∧
  Parser.shunt (Op PLUS) [PLUS; L_BRACK] [] ≠
    Ok (PLUS :: keptStack Nat.leb PLUS [PLUS; L_BRACK],
        [] ++ (Op <$> poppedRun Nat.leb PLUS [PLUS; L_BRACK])).
Proof. split_and!; [reflexivity..| |]; vm_compute; discriminate. Qed.

Example toPrenex_plus_star :
  Parser.toPrenex (py "a+*") = Ok (py "STAR PLUS a") ∧
  Parser.toPrenex (py "a*+") = Ok (py "STAR a PLUS").
Proof. split; vm_compute; reflexivity. Qed.

(** ** The reserved word [eps] *)

Lemma replace_eps_context p s :
  Str.replace EPS [epsilon] (p ++ EPS ++ s) =
  Str.replace EPS [epsilon] (p ++ [epsilon] ++ s).
Proof.
  induction p as [p IH] using list_length_ind. destruct p as [|c p'].
  - rewrite !app_nil_l. rewrite (replace_occurrence EPS _ 101%N [112%N; 115%N]) by done.
    simpl app at 2. by rewrite replace_cons.
  - change ((c :: p') ++ ?x) with (c :: (p' ++ x)). rewrite !replace_cons.
    assert (Str.startswith EPS (c :: p' ++ EPS ++ s)
            = Str.startswith EPS (c :: p' ++ [epsilon] ++ s)) as Hsw.
    { apply eq_true_iff_eq. rewrite !startswith_spec. unfold EPS, epsilon.
      split; intros [r Hr]; destruct p' as [|x [|y p'']]; simplify_eq/=; eauto. }
    rewrite <- Hsw. destruct (Str.startswith EPS (c :: p' ++ EPS ++ s)) eqn:E.
    + apply startswith_spec in E as [r Hr]. unfold EPS in Hr.
      destruct p' as [|x [|y p'']]; simplify_eq/=.
      f_equal. apply IH. simpl. lia.
    + f_equal. apply IH. simpl. lia.
Qed.

Lemma replace_eps_head r a X :
  Str.replace EPS [epsilon] r = a :: X → a ≠ epsilon →
  ∃ r', r = a :: r' ∧ X = Str.replace EPS [epsilon] r'.
Proof.
  destruct r as [|c r']; [done|]. rewrite replace_cons.
  destruct (Str.startswith EPS (c :: r')); intros [= <- <-] Hne; [done|eauto].
Qed.

Lemma replace_eps_complete r :
  Str.contains EPS (Str.replace EPS [epsilon] r) = false.
Proof.
  induction r as [r IH] using list_length_ind. destruct r as [|c r']; [done|].
  rewrite replace_cons. destruct (Str.startswith EPS (c :: r')) eqn:E.
  - apply startswith_spec in E as [r E]. unfold EPS in E. injection E as -> ->.
    change (drop _ _) with r. cbn [app Str.contains].
    rewrite IH by (simpl; lia). done.
  - cbn [Str.contains]. rewrite IH by (simpl; lia). rewrite orb_false_r.
    apply not_true_is_false. intros [X HX]%startswith_spec. unfold EPS in HX.
    injection HX as -> HX.
    apply replace_eps_head in HX as (r1 & -> & HX); [|done].
    symmetry in HX. apply replace_eps_head in HX as (r2 & -> & HX); [|done].
    done.
Qed.

(** C8. [preprocess] first rewrites the whole regex string, replacing every
    occurrence of the three characters [eps] with the symbol [ε], and only
    then classifies characters: the string that is classified holds no
    [eps] any more, and an [eps] gives the same result as an [ε] written
    in its place whatever stands before and after it, quotes and letters
    included. *)
Theorem preprocess_replaces_eps_before_classifying (regex : pystr) :
  (∃ regex',
     Parser.preprocess regex = (Parser.classify 0 regex' ≫= Parser.addConcatOp) ∧
     Str.contains EPS regex' = false ∧
     regex' = Str.replace EPS [epsilon] regex) ∧
  ∀ before after,
    regex = before ++ EPS ++ after →
    Parser.preprocess regex = Parser.preprocess (before ++ [epsilon] ++ after).
Proof.
  split.
  - exists (Str.replace EPS [epsilon] regex). split_and!; [done| |done].
    apply replace_eps_complete.
  - intros before after ->. unfold Parser.preprocess. by rewrite replace_eps_context.
Qed.

Lemma preprocess_replaces_eps_before_classifying_witness :
  Parser.preprocess (py "'eps'") = Parser.preprocess (py "'" ++ [epsilon] ++ py "'") ∧
  Parser.preprocess (py "'eps'") = Ok [Character [epsilon]] ∧
  Parser.preprocess (py "steps") =
    Ok [Character (py "s"); Op CONCAT; Character (py "t"); Op CONCAT; Character [epsilon]].
Proof.
  split_and!; [|reflexivity..].
  apply (proj2 (preprocess_replaces_eps_before_classifying (py "'eps'")) (py "'") (py "'")).
  reflexivity.
Defined.

(** ** The constructor of the lexer and the dictionary of its caller *)

Lemma dictSet_unique {K V} `{EqDecision K} (d : list (K * V)) k i v v' :
  NoDup d.*1 → d !! i = Some (k, v) → dictSet k v' d = <[i := (k, v')]> d.
Proof.
  revert i. induction d as [|[k0 v0] d IH]; intros i Hnd Hi; [done|].
  apply NoDup_cons in Hnd as [Hk0 Hnd]. destruct i as [|i]; simpl in *.
  - injection Hi as -> ->. by rewrite bool_decide_eq_true_2.
  - rewrite bool_decide_eq_false_2.
    + f_equal. by apply IH.
    + intros ->. apply Hk0. apply list_elem_of_lookup_2 in Hi.
      by apply (list_elem_of_fmap_2 fst) in Hi.
Qed.

Lemma escapeAt_loop l (h : store) d k :
  h !! l = Some d → NoDup d.*1 → k ≤ length d →
  foldl (Lexer.escapeAt l) h (seq 0 k) =
  <[l := (escapeEntry <$> take k d) ++ drop k d]> h.
Proof.
  intros Hl Hnd. induction k as [|k IH]; intros Hk.
  - simpl. rewrite drop_0. by rewrite insert_id.
  - rewrite seq_S, foldl_app, IH by lia. simpl. unfold Lexer.escapeAt.
    rewrite lookup_insert_eq.
    destruct (lookup_lt_is_Some_2 d k ltac:(lia)) as [[tok regex] Hd].
    assert (((escapeEntry <$> take k d) ++ drop k d) !! k = Some (tok, regex)) as Hk'.
    { rewrite lookup_app_r; rewrite length_fmap, length_take; [|lia].
      replace (k - k `min` length d) with 0 by lia. by rewrite lookup_drop, Nat.add_0_r. }
    rewrite Hk'. rewrite insert_insert_eq. f_equal.
    rewrite (dictSet_unique _ _ k regex); [|by rewrite fmap_app, <- list_fmap_compose, <- fmap_app, take_drop|done].
    rewrite insert_app_r_alt; rewrite length_fmap, length_take; [|lia].
    replace (k - k `min` length d) with 0 by lia.
    rewrite (take_S_r _ _ _ Hd), fmap_app, <- app_assoc. f_equal.
    rewrite (drop_S _ _ _ Hd). done.
Qed.

Lemma init_store shared l (h : store) d :
  h !! l = Some d → NoDup d.*1 →
  (Lexer.init shared l h).1 = <[l := escapeEntry <$> d]> h.
Proof.
  intros Hl Hnd. unfold Lexer.init. rewrite Hl. simpl.
  rewrite (escapeAt_loop l h d) by done. by rewrite firstn_all, drop_all, app_nil_r.
Qed.

Lemma escape_longer regex :
  hasEscape regex = true → length regex < length (Lexer.escape regex).
Proof.
  unfold hasEscape, Lexer.escape. intros H.
  pose proof (λ o n s (H : 0 < length o ≤ length n), length_replace_ge o n s H) as Hge.
  pose proof (λ o n s (H : 0 < length o < length n), length_replace_gt o n s H) as Hgt.
  set (r1 := Str.replace (py "\(") (py "'('") regex) in *.
  set (r2 := Str.replace (py "\)") (py "')'") r1) in *.
  set (r3 := Str.replace (py "\*") (py "'*'") r2) in *.
  assert (length regex ≤ length r1) as H1 by (apply Hge; simpl; lia).
  assert (length r1 ≤ length r2) as H2 by (apply Hge; simpl; lia).
  assert (length r2 ≤ length r3) as H3 by (apply Hge; simpl; lia).
  assert (length r3 ≤ length (Str.replace (py "\+") (py "'+'") r3)) as H4 by (apply Hge; simpl; lia).
  destruct (Str.contains (py "\(") regex) eqn:E1.
  { pose proof (Hgt (py "\(") (py "'('") regex ltac:(simpl; lia) E1). fold r1 in H0. lia. }
  assert (r1 = regex) as Hr1 by (by apply replace_absent).
  destruct (Str.contains (py "\)") regex) eqn:E2.
  { rewrite <- Hr1 in E2. pose proof (Hgt (py "\)") (py "')'") r1 ltac:(simpl; lia) E2). fold r2 in H0. lia. }
  assert (r2 = regex) as Hr2 by (unfold r2; rewrite Hr1; by apply replace_absent).
  destruct (Str.contains (py "\*") regex) eqn:E3.
  { rewrite <- Hr2 in E3. pose proof (Hgt (py "\*") (py "'*'") r2 ltac:(simpl; lia) E3). fold r3 in H0. lia. }
  assert (r3 = regex) as Hr3 by (unfold r3; rewrite Hr2; by apply replace_absent).
  simpl in H. rewrite <- Hr3 in H.
  pose proof (Hgt (py "\+") (py "'+'") r3 ltac:(simpl; lia) H). lia.
Qed.

(** C9. The constructor works on the dictionary object it is given: when
    it is over, whether it returned or raised, the dictionary of the caller
    holds under every key, at the same place, the regex with the escaped
    sequences replaced by quoted literals; that string differs from the
    original one as soon as the original holds an escaped sequence; the
    keys and their order are as before, no other object of the store has
    changed, and the lexer returned refers to that same dictionary. *)
Theorem init_rewrites_the_callers_dictionary
    (shared : gmap nat (gset nat)) (configurations_ref : nat) (h : store)
    (d : configs) :
  h !! configurations_ref = Some d →
  NoDup d.*1 →
  let after := Lexer.init shared configurations_ref h in
  ∃ d',
    after.1 = <[configurations_ref := d']> h ∧
    d'.*1 = d.*1 ∧
    d'.*2 = Lexer.escape <$> d.*2 ∧
    (∀ i tok regex,
       d !! i = Some (tok, regex) → hasEscape regex = true →
       d' !! i ≠ Some (tok, regex)) ∧
    (∀ self shared', after.2 = Ok (self, shared') →
       configurations self = configurations_ref).
Proof.
  intros Hl Hnd after. exists (escapeEntry <$> d). split_and!.
  - by apply init_store.
  - rewrite <- list_fmap_compose. by apply list_fmap_ext.
  - rewrite <- !list_fmap_compose. by apply list_fmap_ext.
  - intros i tok regex Hi Hesc. rewrite list_lookup_fmap, Hi. simpl.
    unfold escapeEntry. simpl. intros [= Heq].
    apply escape_longer in Hesc. rewrite Heq in Hesc. lia.
  - intros self shared'. unfold after, Lexer.init. rewrite Hl. simpl.
    destruct (foldl (Lexer.escapeAt _) _ _ !! _) as [d2|]; [|done].
    destruct (foldl Lexer.build _ d2) as [[[c ds] sh]|]; [|done].
    simpl. by intros [= <- _].
Qed.

Lemma init_rewrites_the_callers_dictionary_witness :
  let h : store := {[ 7 := [(py "LP", py "\("); (py "A", py "a\*b")] ]} in
  (Lexer.init ∅ 7 h).1 !! 7 = Some [(py "LP", py "'('"); (py "A", py "a'*'b")].
Proof.
  intros h.
  destruct (init_rewrites_the_callers_dictionary ∅ 7 h
              [(py "LP", py "\("); (py "A", py "a\*b")])
    as (d' & Hst & Hk & Hv & _); [reflexivity | by vm_compute; repeat constructor; set_solver |].
  rewrite Hst, lookup_insert_eq. f_equal.
  destruct d' as [|[k1 v1] [|[k2 v2] [|]]]; try done.
  vm_compute in Hk, Hv. by simplify_eq.
Defined.

(** ** Parsing prenex token streams *)

Lemma preorder_eq tok n kids : preorder (mkNode tok n kids) = tok :: concat (preorder <$> kids).
Proof. reflexivity. Qed.

Lemma fromPrenexFuel_S f tok rest :
  AST.fromPrenexFuel (S f) (tok :: rest) =
  '(kids, rest') ← AST.buildKids (AST.fromPrenexFuel f) (AST.arity tok) rest [];
  Ok (mkNode tok (AST.arity tok) kids, rest').
Proof. reflexivity. Qed.


(* soundness *)
Lemma fromPrenexFuel_sound f : ∀ tokens node rest,
  AST.fromPrenexFuel f tokens = Ok (node, rest) →
  wellFormed node ∧ tokens = preorder node ++ rest.
Proof.
  induction f as [|f IH]; intros tokens node rest; [done|].
  destruct tokens as [|tok tl]; [done|].
  rewrite fromPrenexFuel_S.
  assert (Hb : ∀ n toks kids kids' rest',
    AST.buildKids (AST.fromPrenexFuel f) n toks kids = Ok (kids', rest') →
    ∃ new, kids' = kids ++ new ∧ length new = n ∧ Forall wellFormed new
           ∧ toks = concat (preorder <$> new) ++ rest').
  { induction n as [|n IHn]; intros toks kids kids' rest' Hk; simpl in Hk.
    - injection Hk as <- <-. exists []. by rewrite app_nil_r.
    - destruct (AST.fromPrenexFuel f toks) as [[kid toks']|] eqn:E; [|done].
      simpl in Hk. apply IH in E as [Hwf ->].
      apply IHn in Hk as (new & -> & Hl & Hall & ->).
      exists (kid :: new). rewrite <- app_assoc. simpl. rewrite Hl.
      split_and!; auto. by rewrite app_assoc. }
  destruct (AST.buildKids (AST.fromPrenexFuel f) (AST.arity tok) tl []) as [[kids rest']|] eqn:E; [|done].
  simpl. intros [= <- <-]. apply Hb in E as (new & -> & Hl & Hall & ->).
  split; [by constructor|]. rewrite preorder_eq. done.
Qed.

Lemma height_eq tok n kids : height (mkNode tok n kids) = S (foldr max 0 (height <$> kids)).
Proof. reflexivity. Qed.

Lemma fromPrenexFuel_complete node : wellFormed node → ∀ f rest,
  height node ≤ f → AST.fromPrenexFuel f (preorder node ++ rest) = Ok (node, rest).
Proof.
  induction node as [tok n kids IH] using Node_ind'.
  intros Hwf f rest Hf. inversion Hwf as [tok' kids' Hlen Hall]; subst.
  rewrite height_eq in Hf. destruct f as [|f]; [lia|].
  rewrite preorder_eq. simpl app. rewrite fromPrenexFuel_S.
  assert (Hb : ∀ new, Forall wellFormed new → Forall (λ k, ∀ f rest, height k ≤ f → AST.fromPrenexFuel f (preorder k ++ rest) = Ok (k, rest)) new →
     foldr max 0 (height <$> new) ≤ f → ∀ acc,
     AST.buildKids (AST.fromPrenexFuel f) (length new) (concat (preorder <$> new) ++ rest) acc = Ok (acc ++ new, rest)).
  { induction new as [|k new IHnew]; intros Hw Hi Hh acc; simpl.
    - by rewrite app_nil_r.
    - apply Forall_cons in Hw as [Hw1 Hw2]. apply Forall_cons in Hi as [Hi1 Hi2].
      simpl in Hh. apply Nat.max_lub_iff in Hh as [Hh1 Hh2].
      rewrite <- app_assoc. rewrite Hi1 by done. simpl.
      rewrite IHnew by done. by rewrite <- app_assoc. }
  rewrite <- Hlen. rewrite Hb; auto.
  - eapply Forall_impl; [apply Forall_and; split; [exact Hall | exact IH]|].
    simpl. intros k [Hk1 Hk2]. auto.
  - lia.
Qed.

Lemma height_le_preorder node : height node ≤ length (preorder node).
Proof.
  induction node as [tok n kids IH] using Node_ind'.
  rewrite height_eq, preorder_eq. simpl. apply le_n_S.
  induction IH as [|k kids Hk _ IHk]; [simpl; lia|].
  rewrite !fmap_cons. cbn [foldr concat].
  rewrite length_app. apply Nat.max_lub; lia.
Qed.

Lemma leaf_wf : wellFormed leaf.
Proof. by apply (wellFormed_node (py "a") []). Qed.

Lemma fromPrenexFuel_fails f : ∀ tokens e,
  length tokens < f →
  AST.fromPrenexFuel f tokens = Raise e →
  e = StopIteration ∧
  ∃ node missing, wellFormed node ∧ missing ≠ [] ∧ tokens ++ missing = preorder node.
Proof.
  induction f as [|f IH]; intros tokens e Hlen; [lia|].
  destruct tokens as [|tok tl].
  { intros [= <-]. split; [done|]. exists leaf, [py "a"]. split_and!; [apply leaf_wf|done..]. }
  rewrite fromPrenexFuel_S. simpl in Hlen.
  assert (Hb : ∀ n toks acc e, length toks < f →
    AST.buildKids (AST.fromPrenexFuel f) n toks acc = Raise e →
    e = StopIteration ∧ ∃ new missing, length new = n ∧ Forall wellFormed new
       ∧ missing ≠ [] ∧ toks ++ missing = concat (preorder <$> new)).
  { induction n as [|n IHn]; intros toks acc e' Hl Hk; simpl in Hk; [done|].
    destruct (AST.fromPrenexFuel f toks) as [[kid toks']|e''] eqn:E; simpl in Hk.
    - pose proof (fromPrenexFuel_sound _ _ _ _ E) as [Hwf ->].
      rewrite length_app in Hl.
      apply IHn in Hk as (-> & new & missing & Hn & Hall & Hm & Heq); [|lia].
      split; [done|]. exists (kid :: new), missing. simpl.
      split_and!; auto. by rewrite <- app_assoc, Heq.
    - injection Hk as ->. apply IH in E as (-> & node & missing & Hwf & Hm & Heq); [|done].
      split; [done|]. exists (node :: replicate n leaf), (missing ++ concat (preorder <$> replicate n leaf)).
      simpl. rewrite length_replicate. split_and!; auto.
      + constructor; [done|]. apply Forall_replicate, leaf_wf.
      + destruct missing; done.
      + by rewrite app_assoc, Heq. }
  destruct (AST.buildKids (AST.fromPrenexFuel f) (AST.arity tok) tl []) as [[kids rest']|e'] eqn:E; [done|].
  simpl. intros [= <-]. apply Hb in E as (-> & new & missing & Hn & Hall & Hm & Heq); [|lia].
  split; [done|]. exists (mkNode tok (AST.arity tok) new), missing.
  split_and!; [by constructor|done|]. rewrite preorder_eq. simpl. by rewrite Heq.
Qed.

(** C7. [AST.fromPrenex] reads the tokens from left to right, as many
    children per node as the token of the node declares.  It returns a tree
    with what is left of the stream exactly when the stream starts with the
    prenex sequence of a tree all of whose children are built, tokens after
    that sequence being left unread; it fails, and then with the
    [StopIteration] of the exhausted iterator, exactly when the stream ends
    before such a tree is complete, that is, when tokens are missing at its
    end. *)
Theorem fromPrenex_fails_exactly_when_exhausted (tokens : list pystr) :
  (∀ node rest,
     AST.fromPrenex tokens = Ok (node, rest) ↔
     wellFormed node ∧ tokens = preorder node ++ rest) ∧
  (∀ e,
     AST.fromPrenex tokens = Raise e ↔
     e = StopIteration ∧
     ∃ node missing,
       wellFormed node ∧ missing ≠ [] ∧ tokens ++ missing = preorder node).
Proof.
  assert (Hok : ∀ node rest, wellFormed node → tokens = preorder node ++ rest →
                 AST.fromPrenex tokens = Ok (node, rest)).
  { intros node rest Hwf ->. apply fromPrenexFuel_complete; [done|].
    pose proof (height_le_preorder node). rewrite length_app. lia. }
  split.
  - intros node rest. split; [apply fromPrenexFuel_sound|]. intros [? ?]. by apply Hok.
  - intros e. split.
    + apply fromPrenexFuel_fails. lia.
    + intros (-> & node & missing & Hwf & Hm & Heq).
      destruct (AST.fromPrenex tokens) as [[node' rest]|e] eqn:E.
      * apply fromPrenexFuel_sound in E as [Hwf' ->].
        pose proof (fromPrenexFuel_complete node Hwf (height node + height node') [] ltac:(lia)) as H1.
        pose proof (fromPrenexFuel_complete node' Hwf' (height node + height node') (rest ++ missing) ltac:(lia)) as H2.
        rewrite app_nil_r, <- Heq, <- app_assoc, H2 in H1.
        injection H1 as -> Hnil. destruct rest, missing; done.
      * f_equal. eapply fromPrenexFuel_fails; [|exact E]. lia.
Qed.

Lemma fromPrenex_fails_exactly_when_exhausted_witness :
  AST.fromPrenex [py "UNION"; py "a"; py "b"; py "c"] =
    Ok (mkNode (py "UNION") 2 [mkNode (py "a") 0 []; mkNode (py "b") 0 []], [py "c"]) ∧
  AST.fromPrenex [py "UNION"; py "a"] = Raise StopIteration.
Proof.
  split.
  - apply (proj1 (fromPrenex_fails_exactly_when_exhausted _)). split; [|reflexivity].
    apply (wellFormed_node (py "UNION") [_; _]); [reflexivity|].
    repeat constructor; by apply (wellFormed_node _ []).
  - apply (proj2 (fromPrenex_fails_exactly_when_exhausted _)). split; [reflexivity|].
    exists (mkNode (py "UNION") 2 [mkNode (py "a") 0 []; mkNode (py "b") 0 []]), [py "b"].
    split_and!; [|done|reflexivity].
    apply (wellFormed_node (py "UNION") [_; _]); [reflexivity|].
    repeat constructor; by apply (wellFormed_node _ []).
Defined.

(** ** Acceptance by a deterministic automaton *)

Section Accepts.
Context {S : Type} `{EqDecision S}.
Implicit Types (dfa : DFA S) (state : S) (str : pystr).

Lemma acceptsFrom_walk dfa state str :
  DFA.acceptsFrom dfa state str =
  match walk dfa state str with
  | Some state' => DFA.isFinal dfa state'
  | None => false
  end.
Proof.
  revert state. induction str as [|c rest IH]; intros state; simpl; [done|].
  destruct (DFA.next dfa state [c]); [apply IH | done].
Qed.

Lemma walk_app dfa state pre post :
  walk dfa state (pre ++ post) = walk dfa state pre ≫= λ state', walk dfa state' post.
Proof.
  revert state. induction pre as [|c pre IH]; intros state; simpl; [done|].
  destruct (DFA.next dfa state [c]); [apply IH | done].
Qed.

Lemma walk_undefined dfa state pre c post state' :
  walk dfa state pre = Some state' →
  DFA.next dfa state' [c] = None →
  walk dfa state (pre ++ c :: post) = None.
Proof. intros Hpre Hnone. rewrite walk_app, Hpre. simpl. by rewrite Hnone. Qed.

(** C10. [DFA.accepts] returns a boolean on every automaton and every
    string: the answer is whether the walk from [q0] is defined all along
    and ends in a final state, and a walk that meets a pair of state and
    symbol without transition makes the answer [False], whatever follows
    in the string. *)
Theorem accepts_total_undefined_rejects dfa str :
  DFA.accepts dfa str =
    match walk dfa (dfa_q0 dfa) str with
    | Some state => DFA.isFinal dfa state
    | None => false
    end ∧
  ∀ pre c post state,
    str = pre ++ c :: post →
    walk dfa (dfa_q0 dfa) pre = Some state →
    DFA.next dfa state [c] = None →
    DFA.accepts dfa str = false.
Proof.
  split; [apply acceptsFrom_walk|].
  intros pre c post state -> Hpre Hnone. unfold DFA.accepts.
  by rewrite acceptsFrom_walk, (walk_undefined _ _ _ _ _ _ Hpre Hnone).
Qed.
End Accepts.

Lemma accepts_total_undefined_rejects_witness :
  let dfa := mkDFA 0 [1] [0; 1] [(0, py "a", 1)] None in
  DFA.accepts dfa (py "ab") = false ∧ DFA.accepts dfa (py "a") = true.
Proof.
  intros dfa. split; [|reflexivity].
  apply (proj2 (accepts_total_undefined_rejects dfa (py "ab")) (py "a") 98%N [] 1);
    reflexivity.
Defined.

(** * Further properties *)

(** ** Splitting a prenex string ([AST.customSplit]) *)

Lemma isQuoted_middle tok : AST.isQuoted tok = true → ∃ c, tok !! 1 = Some c.
Proof.
  unfold AST.isQuoted. rewrite !andb_true_iff, !bool_decide_eq_true.
  intros [[Hlen _] _]. destruct tok as [|a [|c tok]]; [done..|]. by exists c.
Qed.

Lemma isQuoted_unquote tok : AST.isQuoted (unquote tok) = false.
Proof.
  unfold unquote. destruct (AST.isQuoted tok) eqn:E; [|done].
  by destruct (isQuoted_middle tok E) as [c ->].
Qed.

Lemma list_find_first {A} `{EqDecision A} (x : A) (pre post : list A) :
  x ∉ pre → list_find (λ t, t = x) (pre ++ x :: post) = Some (length pre, x).
Proof.
  intros Hpre. apply list_find_Some. split_and!.
  - by rewrite lookup_app_r, Nat.sub_diag by lia.
  - done.
  - intros j y Hj Hlt ->. rewrite lookup_app_l in Hj by done.
    by apply list_elem_of_lookup_2 in Hj.
Qed.

Lemma unquoteAt_step pre tok post :
  Forall (λ t, AST.isQuoted t = false) pre →
  AST.unquoteAt (pre ++ tok :: post) (length pre) = pre ++ unquote tok :: post.
Proof.
  intros Hpre. unfold AST.unquoteAt, unquote.
  rewrite lookup_app_r, Nat.sub_diag by lia. cbn [lookup list_lookup].
  destruct (AST.isQuoted tok) eqn:E; [|done].
  destruct (isQuoted_middle tok E) as [c Hc]. rewrite Hc.
  rewrite list_find_first.
  - by rewrite insert_app_r_alt, Nat.sub_diag by lia.
  - intros Hin. eapply Forall_forall in Hpre; [|exact Hin]. congruence.
Qed.

Lemma unquote_loop post : ∀ pre,
  Forall (λ t, AST.isQuoted t = false) pre →
  foldl AST.unquoteAt (pre ++ post) (seq (length pre) (length post))
    = pre ++ (unquote <$> post).
Proof.
  induction post as [|tok post IH]; intros pre Hpre; [done|].
  cbn [length seq foldl]. rewrite unquoteAt_step by done.
  replace (pre ++ unquote tok :: post) with ((pre ++ [unquote tok]) ++ post)
    by (by rewrite <- app_assoc).
  replace (S (length pre)) with (length (pre ++ [unquote tok]))
    by (rewrite length_app; simpl; lia).
  rewrite IH.
  - by rewrite <- app_assoc.
  - apply Forall_app. split; [done|]. repeat constructor. apply isQuoted_unquote.
Qed.

Lemma customSplit_map prenex :
  AST.customSplit prenex = unquote <$> AST.splitLoop [] [] false prenex.
Proof.
  unfold AST.customSplit. cbv zeta.
  exact (unquote_loop (AST.splitLoop [] [] false prenex) [] (Forall_nil_2 _)).
Qed.

(** X1. The second loop of [customSplit] rewrites the list it iterates
    over through [tokens.index(token)], the first position that holds the
    token.  Whatever the string, the result is the list of pieces of the
    first loop with every piece of the form ['c'] replaced by [c], repeated
    pieces included: no piece of that form is left and no other piece is
    touched. *)
Theorem customSplit_unquotes_every_piece (prenex : pystr) :
  AST.customSplit prenex = unquote <$> AST.splitLoop [] [] false prenex ∧
  Forall (λ tok, AST.isQuoted tok = false) (AST.customSplit prenex).
Proof.
  rewrite customSplit_map. split; [done|].
  apply Forall_fmap, Forall_forall. intros tok _. apply isQuoted_unquote.
Qed.

Lemma splitLoop_plain tok : ∀ tokens cur rest,
  space ∉ tok → quote ∉ tok →
  AST.splitLoop tokens cur false (tok ++ rest)
    = AST.splitLoop tokens (cur ++ tok) false rest.
Proof.
  induction tok as [|c tok IH]; intros tokens cur rest Hs Hq.
  { by rewrite app_nil_r. }
  apply not_elem_of_cons in Hs as [Hs1 Hs2]. apply not_elem_of_cons in Hq as [Hq1 Hq2].
  cbn [app AST.splitLoop].
  rewrite (bool_decide_eq_false_2 (c = quote)), (bool_decide_eq_false_2 (c = space))
    by done.
  cbn [andb]. rewrite IH by done. by rewrite <- app_assoc.
Qed.

Lemma splitLoop_quoted c : ∀ tokens cur rest,
  c ≠ quote →
  AST.splitLoop tokens cur false ([quote; c; quote] ++ rest)
    = AST.splitLoop tokens (cur ++ [quote; c; quote]) false rest.
Proof.
  intros tokens cur rest Hc. cbn [app AST.splitLoop].
  rewrite (bool_decide_eq_true_2 (quote = quote)) by done.
  rewrite (bool_decide_eq_false_2 (quote = space)) by done.
  rewrite (bool_decide_eq_false_2 (c = quote)) by done.
  cbn [negb andb]. rewrite andb_false_r. by rewrite <- !app_assoc.
Qed.

Lemma splitLoop_token tok tokens cur rest :
  plainOrQuoted tok →
  AST.splitLoop tokens cur false (tok ++ rest)
    = AST.splitLoop tokens (cur ++ tok) false rest.
Proof.
  intros [[Hs Hq]|(c & Hc & ->)]; [by apply splitLoop_plain|by apply splitLoop_quoted].
Qed.

Lemma splitLoop_join toks : ∀ tokens tok,
  Forall plainOrQuoted toks → plainOrQuoted tok →
  AST.splitLoop tokens [] false (Str.join [space] (tok :: toks))
    = tokens ++ tok :: toks.
Proof.
  induction toks as [|tok' toks IH]; intros tokens tok Hall Htok.
  - cbn [Str.join]. rewrite <- (app_nil_r tok) at 1.
    by rewrite splitLoop_token.
  - apply Forall_cons in Hall as [Htok' Hall].
    change (Str.join [space] (tok :: tok' :: toks))
      with (tok ++ [space] ++ Str.join [space] (tok' :: toks)).
    rewrite splitLoop_token by done. cbn [app AST.splitLoop].
    rewrite (bool_decide_eq_false_2 (space = quote)) by done.
    rewrite (bool_decide_eq_true_2 (space = space)) by done. cbn [negb andb].
    rewrite IH by done. by rewrite <- app_assoc.
Qed.

(** X2. Reading back a prenex string.  When words without space and quote
    and single characters written between quotes (the space among them) are
    joined with spaces, [customSplit] returns the words as they are and the
    characters without their quotes, in the same order. *)
Theorem customSplit_reads_back_joined_tokens (toks : list pystr) :
  toks ≠ [] → Forall plainOrQuoted toks →
  AST.customSplit (Str.join [space] toks) = unquote <$> toks.
Proof.
  intros Hne Hall. rewrite customSplit_map.
  destruct toks as [|tok toks]; [done|]. apply Forall_cons in Hall as [Htok Hall].
  by rewrite splitLoop_join.
Qed.

Lemma customSplit_reads_back_joined_tokens_witness :
  AST.customSplit (py "CONCAT a ' '") = [py "CONCAT"; py "a"; py " "].
Proof.
  apply (customSplit_reads_back_joined_tokens [py "CONCAT"; py "a"; py "' '"]).
  - done.
  - apply Forall_cons. split;
      [left; split; apply (bool_decide_unpack _); vm_compute; exact I|].
    apply Forall_cons. split;
      [left; split; apply (bool_decide_unpack _); vm_compute; exact I|].
    apply Forall_cons. split; [|apply Forall_nil_2].
    right. exists space. split; [done|reflexivity].
Defined.

(** ** Inserting the concatenation operator ([Parser.addConcatOp]) *)

Lemma addConcatLoop_cons2 a b l :
  Parser.addConcatLoop (a :: b :: l) =
  (if Parser.needsConcat a b then [a; Op CONCAT] else [a]) ++ Parser.addConcatLoop (b :: l).
Proof. reflexivity. Qed.

Lemma glue_cons2 a b l :
  glue (a :: b :: l) =
  (if Parser.needsConcat a b then [a; Op CONCAT] else [a]) ++ glue (b :: l).
Proof. reflexivity. Qed.

Lemma addConcatOp_glue a rlist :
  Parser.addConcatOp (a :: rlist) = Ok (glue (a :: rlist)).
Proof.
  destruct rlist as [|b rlist]; [done|].
  unfold Parser.addConcatOp. rewrite last_cons_cons.
  assert (∀ l x, ∃ y, last (x :: l) = Some y ∧
            Parser.addConcatLoop (x :: l) ++ [y] = glue (x :: l)) as Hgen.
  { induction l as [|z l IH]; intros x; [by exists x|].
    destruct (IH z) as (y & Hy & Heq). exists y. rewrite last_cons_cons.
    split; [done|]. rewrite addConcatLoop_cons2, glue_cons2.
    rewrite <- app_assoc. by rewrite Heq. }
  destruct (Hgen rlist b) as (y & -> & Heq). cbn [of_option mbind result_bind].
  rewrite addConcatLoop_cons2, glue_cons2. rewrite <- app_assoc. by rewrite Heq.
Qed.

Lemma needsConcat_concat_r a : Parser.needsConcat a (Op CONCAT) = false.
Proof. by destruct a as [chr|[]]. Qed.

Lemma needsConcat_concat_l b : Parser.needsConcat (Op CONCAT) b = false.
Proof. by destruct b as [chr|[]]. Qed.

Lemma glue_head a rest : ∃ tl, glue (a :: rest) = a :: tl.
Proof.
  destruct rest as [|b rest]; [by exists []|]. rewrite glue_cons2.
  destruct (Parser.needsConcat a b); eauto.
Qed.

Lemma glue_filter rlist :
  filter (λ t, t ≠ Op CONCAT) (glue rlist) = filter (λ t, t ≠ Op CONCAT) rlist.
Proof.
  induction rlist as [|a [|b rest] IH]; [done..|].
  rewrite glue_cons2, filter_app, IH, (filter_cons _ a (b :: rest)).
  destruct (Parser.needsConcat a b).
  - rewrite !filter_cons, filter_nil. destruct (decide (a ≠ Op CONCAT)); [|done].
    by destruct (decide (Op CONCAT ≠ Op CONCAT)).
  - rewrite filter_cons, filter_nil. by destruct (decide (a ≠ Op CONCAT)).
Qed.

Lemma concatFree_cons a b l :
  Parser.needsConcat a b = false → concatFree (b :: l) → concatFree (a :: b :: l).
Proof.
  intros Hab Hl [|i] x y; cbn.
  - by intros [= <-] [= <-].
  - apply Hl.
Qed.

Lemma glue_concatFree rlist : concatFree (glue rlist).
Proof.
  induction rlist as [|a [|b rest] IH].
  - by intros [|i] x y.
  - intros [|i] x y; [by intros _ ?|]. by intros ?.
  - rewrite glue_cons2. destruct (glue_head b rest) as [tl Htl]. rewrite Htl in *.
    destruct (Parser.needsConcat a b) eqn:E; cbn [app].
    + apply concatFree_cons; [apply needsConcat_concat_r|].
      apply concatFree_cons; [apply needsConcat_concat_l|done].
    + by apply concatFree_cons.
Qed.

Lemma glue_fixed l : concatFree l → glue l = l.
Proof.
  induction l as [|a [|b rest] IH]; intros Hl; [done..|].
  rewrite glue_cons2, (Hl 0 a b) by done. cbn [app]. f_equal. apply IH.
  intros i x y. apply (Hl (S i)).
Qed.

(** X3. [addConcatOp] raises [IndexError] on the empty list.  On any other
    list it returns the items in their order with nothing but [CONCAT]
    operators added: after it no item is followed by one that calls for a
    [CONCAT] between them (two literals, a literal or a closing bracket or
    a repetition operator before a literal or an opening bracket), and a
    second pass changes nothing. *)
Theorem addConcatOp_separates_neighbours (rlist : list item) :
  match rlist with
  | [] => Parser.addConcatOp rlist = Raise IndexError
  | _ :: _ =>
    ∃ out, Parser.addConcatOp rlist = Ok out ∧
      filter (λ t, t ≠ Op CONCAT) out = filter (λ t, t ≠ Op CONCAT) rlist ∧
      length rlist ≤ length out ∧
      concatFree out ∧
      Parser.addConcatOp out = Ok out
  end.
Proof.
  destruct rlist as [|a rlist]; [done|]. exists (glue (a :: rlist)).
  split; [apply addConcatOp_glue|]. split; [apply glue_filter|].
  split_and!.
  - generalize (a :: rlist). clear. induction l as [|x [|y l] IH]; [done..|].
    rewrite glue_cons2, length_app. cbn [length] in *.
    destruct (Parser.needsConcat x y); cbn [length]; lia.
  - apply glue_concatFree.
  - destruct (glue_head a rlist) as [tl Htl]. rewrite Htl, addConcatOp_glue, <- Htl.
    f_equal. apply glue_fixed, glue_concatFree.
Qed.

(** ** Group names and the alphabet ([DFA.setToStr], [DFA.strToSet], [DFA.getAlphabet]) *)

(** X4. The name [setToStr] gives a set of state ids reads back, with
    [strToSet], as that set, the empty set (whose name is the empty string)
    included; two sets have the same name only when they are equal. *)
Theorem group_name_reads_back (group group' : gset nat) :
  DFA.strToSet (DFA.setToStr group) = Ok group ∧
  (DFA.setToStr group = DFA.setToStr group' ↔ group = group').
Proof.
  split; [apply strToSet_setToStr|]. split; [|by intros ->].
  intros Heq. pose proof (strToSet_setToStr group) as H1.
  rewrite Heq, strToSet_setToStr in H1. by injection H1.
Qed.

Lemma leb_refl a : Str.leb a a = true.
Proof. induction a as [|x a IH]; [done|]. simpl. by rewrite bool_decide_eq_true_2. Qed.

Lemma leb_total a : ∀ b, Str.leb a b = true ∨ Str.leb b a = true.
Proof.
  induction a as [|x a IH]; intros [|y b]; simpl; auto.
  destruct (decide (x = y)) as [->|Hne].
  - rewrite !bool_decide_eq_true_2 by done. apply IH.
  - rewrite (bool_decide_eq_false_2 (x = y)), (bool_decide_eq_false_2 (y = x)) by done.
    rewrite !bool_decide_eq_true. lia.
Qed.

Lemma leb_trans a : ∀ b c, Str.leb a b = true → Str.leb b c = true → Str.leb a c = true.
Proof.
  induction a as [|x a IH]; intros [|y b] [|z c]; simpl; try done.
  repeat case_bool_decide; subst; try done; eauto; rewrite ?bool_decide_eq_true; try lia.
  all: intros; lia.
Qed.

#[local] Instance leb_Total : Total (λ a b, Is_true (Str.leb a b)).
Proof. intros a b. rewrite !Is_true_true. apply leb_total. Qed.

#[local] Instance leb_Transitive : Transitive (λ a b, Is_true (Str.leb a b)).
Proof. intros a b c. rewrite !Is_true_true. apply leb_trans. Qed.

Lemma elem_of_getAlphabet nfa c :
  c ∈ DFA.getAlphabet nfa ↔ c ≠ EPS ∧ ∃ q0 q1, (q0, c, q1) ∈ nfa_transitions nfa.
Proof.
  unfold DFA.getAlphabet.
  rewrite merge_sort_Permutation, elem_of_remove_dups, list_elem_of_filter.
  rewrite list_elem_of_fmap. split.
  - intros (Hc & [[q0 c'] q1] & -> & Hin). split; [done|]. by exists q0, q1.
  - intros (Hc & q0 & q1 & Hin). split; [done|]. by exists (q0, c, q1).
Qed.

(** X5. The alphabet [getAlphabet] returns holds exactly the symbols other
    than ['eps'] that label a transition of the automaton, each once, in
    the order of [sorted]. *)
Theorem getAlphabet_symbols_once_sorted (nfa : NFA) :
  (∀ c, c ∈ DFA.getAlphabet nfa ↔
        c ≠ EPS ∧ ∃ q0 q1, (q0, c, q1) ∈ nfa_transitions nfa) ∧
  NoDup (DFA.getAlphabet nfa) ∧
  StronglySorted (λ a b, Is_true (Str.leb a b)) (DFA.getAlphabet nfa).
Proof.
  split_and!; [apply elem_of_getAlphabet|unfold DFA.getAlphabet..].
  - rewrite merge_sort_Permutation. apply NoDup_remove_dups.
  - apply StronglySorted_merge_sort; apply _.
Qed.

(** ** Epsilon closures ([NFA.computeEpsilonClosure]) *)

(** What one call of the helper adds to [visited]: states reachable from
    [state], and with each of them its epsilon successors. *)
Lemma closureHelper_closed nfa fuel : ∀ state visited v,
  NFA.computeEpsilonClosureHelper fuel nfa state visited = Ok v →
  visited ∪ {[state]} ⊆ v ∧
  (∀ x, x ∈ v → x ∉ visited → rtc (epsStep nfa) state x) ∧
  (∀ x y, x ∈ v → x ∉ visited → epsStep nfa x y → y ∈ v).
Proof.
  induction fuel as [|fuel IH]; intros state visited v; [done|].
  cbn [NFA.computeEpsilonClosureHelper].
  assert (∀ l acc v,
    (∀ x, x ∈ l → epsStep nfa state x) →
    visited ∪ {[state]} ⊆ acc →
    (∀ x, x ∈ acc → x ∉ visited → rtc (epsStep nfa) state x) →
    (∀ x y, x ∈ acc → x ∉ visited ∪ {[state]} → epsStep nfa x y → y ∈ acc) →
    foldl (λ acc next_state,
             visited ← acc;
             if bool_decide (next_state ∉ visited)
             then NFA.computeEpsilonClosureHelper fuel nfa next_state visited
             else Ok visited) (Ok acc) l = Ok v →
    acc ⊆ v ∧ (∀ x, x ∈ l → x ∈ v) ∧
    (∀ x, x ∈ v → x ∉ visited → rtc (epsStep nfa) state x) ∧
    (∀ x y, x ∈ v → x ∉ visited ∪ {[state]} → epsStep nfa x y → y ∈ v)) as Hfold.
  { induction l as [|n l IHl]; intros acc v' Hl Hsub Hreach Hclosed; cbn [foldl].
    - intros [= <-]. split_and!; [done| |done..]. by intros x ?%elem_of_nil.
    - cbn [mbind result_bind]. case_bool_decide as Hn.
      + destruct (NFA.computeEpsilonClosureHelper fuel nfa n acc) as [acc'|e] eqn:E.
        * apply IH in E as (E1 & E2 & E3). intros Hf.
          apply IHl in Hf as (F1 & F2 & F3 & F4).
          -- split_and!; [set_solver| |done..].
             intros x [->|Hx]%elem_of_cons; [set_solver|by apply F2].
          -- intros x Hx. apply Hl. by right.
          -- set_solver.
          -- intros x Hx Hv. destruct (decide (x ∈ acc)) as [Ha|Ha]; [by apply Hreach|].
             eapply rtc_l; [apply Hl; by left|]. by apply E2.
          -- intros x y Hx Hv Hxy. destruct (decide (x ∈ acc)) as [Ha|Ha].
             ++ apply E1, elem_of_union_l. by eapply Hclosed.
             ++ by eapply E3.
        * intros Hf. exfalso. clear -Hf. induction l as [|y l IHl']; [done|]. by apply IHl'.
      + intros Hf. apply IHl in Hf as (F1 & F2 & F3 & F4); [|by intros x Hx; apply Hl; right|done..].
        split_and!; [done| |done..].
        intros x [->|Hx]%elem_of_cons; [|by apply F2].
        by apply F1.
  }
  intros Hf. apply Hfold in Hf as (F1 & F2 & F3 & F4).
  - split_and!; [done..|].
    intros x y Hx Hv Hxy. destruct (decide (x = state)) as [->|Hne].
    + apply F2. by apply elem_of_elements.
    + eapply F4; [done| |done]. set_solver.
  - intros x Hx. by apply elem_of_elements in Hx.
  - done.
  - intros x [Hx|Hx%elem_of_singleton]%elem_of_union Hv; [done|]. subst x. apply rtc_refl.
  - intros x y Hx Hv. set_solver.
Qed.

Lemma computeEpsilonClosure_reach nfa state v :
  NFA.computeEpsilonClosure nfa state = Ok v →
  ∀ x, x ∈ v ↔ rtc (epsStep nfa) state x.
Proof.
  intros Hv. apply closureHelper_closed in Hv as (H1 & H2 & H3). intros x. split.
  - intros Hx. apply H2; [done|]. apply not_elem_of_empty.
  - revert x. apply (rtc_ind_r (λ z, z ∈ v) state); [set_solver|].
    intros y z _ Hyz Hy. eapply H3; [exact Hy|apply not_elem_of_empty|done].
Qed.

(** X6. On every automaton and every state, [computeEpsilonClosure]
    returns, and the set it returns holds exactly the states that are
    reached from the state by epsilon transitions alone, the state itself
    included; cycles of epsilon transitions do not keep the search from
    ending. *)
Theorem computeEpsilonClosure_is_the_reachable_set (nfa : NFA) (state : nat) :
  ∃ closure,
    NFA.computeEpsilonClosure nfa state = Ok closure ∧
    ∀ x, x ∈ closure ↔ rtc (epsStep nfa) state x.
Proof.
  destruct (computeEpsilonClosure_total nfa state) as [v Hv]. exists v.
  split; [done|]. by apply computeEpsilonClosure_reach.
Qed.

(** The dictionary [fromPrenex] fills holds, for every state, the set
    [computeEpsilonClosure] returns for it. *)
Lemma withClosures_lookup nfa nfa' :
  NFA.withClosures nfa = Ok nfa' →
  ∀ s, s ∈ nfa_states nfa →
    ∃ c, epsilonClosures nfa' !! s = Some c ∧ NFA.computeEpsilonClosure nfa s = Ok c.
Proof.
  unfold NFA.withClosures.
  assert (∀ l (m0 m : gmap nat (gset nat)),
    foldl (λ acc state,
             closures ← acc;
             closure ← NFA.computeEpsilonClosure nfa state;
             Ok (<[state := closure]> closures)) (Ok m0) l = Ok m →
    ∀ s, (s ∈ l → ∃ c, m !! s = Some c ∧ NFA.computeEpsilonClosure nfa s = Ok c) ∧
         (s ∉ l → m !! s = m0 !! s)) as Hfold.
  { induction l as [|x l IHl]; intros m0 m; cbn [foldl].
    - intros [= <-] s. split; [by intros ?%elem_of_nil|done].
    - cbn [mbind result_bind].
      destruct (NFA.computeEpsilonClosure nfa x) as [c|e] eqn:E.
      + intros Hf s. pose proof (IHl _ _ Hf s) as [H1 H2]. split.
        * intros Hs. destruct (decide (s ∈ l)) as [Hl|Hl]; [by apply H1|].
          apply elem_of_cons in Hs as [->|Hs]; [|done].
          rewrite H2, lookup_insert_eq by done. eauto.
        * intros [Hne Hl]%not_elem_of_cons. rewrite H2 by done.
          by rewrite lookup_insert_ne.
      + intros Hf. exfalso. clear -Hf. cbn in Hf.
        induction l as [|y l IHl']; [done|]. by apply IHl'. }
  destruct (foldl _ _ (nfa_states nfa)) as [m|e] eqn:E; [|done].
  cbn. intros [= <-] s Hs. cbn. by apply (Hfold _ _ _ E s).
Qed.

(** ** The shape of Thompson automata ([NFA.fromAST] and its combinators) *)

(** Induction over the automata [fromAST] builds: a property that holds of
    the automaton of an atom and that every combinator carries over from
    its arguments holds of every automaton returned. *)
Lemma fromAST_combinators shared (P : nat → nat → NFA → Prop) :
  (∀ ch idx, P idx (idx + 2) (NFA.atomNFA shared ch idx).1) →
  (∀ nfa lo idx, thompson lo idx nfa → P lo idx nfa →
     P lo (idx + 2) (NFA.starNFA shared nfa idx).1) →
  (∀ nfa lo idx, thompson lo idx nfa → P lo idx nfa →
     P lo (idx + 2) (NFA.plusNFA shared nfa idx).1) →
  (∀ nfa lo idx, thompson lo idx nfa → P lo idx nfa →
     P lo idx (NFA.maybeNFA shared nfa)) →
  (∀ nfa1 nfa2 lo mid hi, thompson lo mid nfa1 → thompson mid hi nfa2 →
     P lo mid nfa1 → P mid hi nfa2 → P lo hi (NFA.concatNFA shared nfa1 nfa2)) →
  (∀ nfa1 nfa2 lo mid hi, thompson lo mid nfa1 → thompson mid hi nfa2 →
     P lo mid nfa1 → P mid hi nfa2 →
     P lo (hi + 2) (NFA.unionNFA shared nfa1 nfa2 hi).1) →
  ∀ root idx nfa idx',
    NFA.fromAST shared root idx = Ok (Some nfa, idx') → P idx idx' nfa.
Proof.
  intros Hatom Hstar Hplus Hmaybe Hconcat Hunion.
  induction root as [tok n kids IH] using Node_ind'. intros idx nfa idx'.
  rewrite fromAST_unfold. cbn [token children].
  destruct (NFA.isAtom tok).
  { intros [= <- <-]. apply Hatom. }
  destruct (str_eqb tok AST.STAR_kw).
  { destruct kids as [|kid kids]; [done|]. apply Forall_cons in IH as [IH _].
    destruct (NFA.fromAST shared kid idx) as [[[nfa1|] idx1]|] eqn:E1; [|done..].
    cbn. intros [= <- <-]. apply Hstar; [by eapply fromAST_thompson|by apply IH]. }
  destruct (str_eqb tok AST.PLUS_kw).
  { destruct kids as [|kid kids]; [done|]. apply Forall_cons in IH as [IH _].
    destruct (NFA.fromAST shared kid idx) as [[[nfa1|] idx1]|] eqn:E1; [|done..].
    cbn. intros [= <- <-]. apply Hplus; [by eapply fromAST_thompson|by apply IH]. }
  destruct (str_eqb tok AST.MAYBE_kw).
  { destruct kids as [|kid kids]; [done|]. apply Forall_cons in IH as [IH _].
    destruct (NFA.fromAST shared kid idx) as [[[nfa1|] idx1]|] eqn:E1; [|done..].
    cbn. intros [= <- <-]. apply Hmaybe; [by eapply fromAST_thompson|by apply IH]. }
  destruct (str_eqb tok AST.CONCAT_kw).
  { destruct kids as [|kid1 kids]; [done|]. apply Forall_cons in IH as [IH1 IH].
    destruct (NFA.fromAST shared kid1 idx) as [[nfa1 idx1]|] eqn:E1; [|done].
    cbn. destruct kids as [|kid2 kids]; [done|]. apply Forall_cons in IH as [IH2 _].
    destruct (NFA.fromAST shared kid2 idx1) as [[nfa2 idx2]|] eqn:E2; [|done].
    cbn. destruct nfa1 as [nfa1|]; [|done]. destruct nfa2 as [nfa2|]; [|done].
    cbn. intros [= <- <-].
    eapply Hconcat; [by eapply fromAST_thompson|by eapply fromAST_thompson|
                     by apply IH1|by apply IH2]. }
  destruct (str_eqb tok AST.UNION_kw).
  { destruct kids as [|kid1 kids]; [done|]. apply Forall_cons in IH as [IH1 IH].
    destruct (NFA.fromAST shared kid1 idx) as [[nfa1 idx1]|] eqn:E1; [|done].
    cbn. destruct kids as [|kid2 kids]; [done|]. apply Forall_cons in IH as [IH2 _].
    destruct (NFA.fromAST shared kid2 idx1) as [[nfa2 idx2]|] eqn:E2; [|done].
    cbn. destruct nfa1 as [nfa1|]; [|done]. destruct nfa2 as [nfa2|]; [|done].
    cbn. intros [= <- <-].
    eapply Hunion; [by eapply fromAST_thompson|by eapply fromAST_thompson|
                    by apply IH1|by apply IH2]. }
  done.
Qed.

(** Both ends of every transition are ids of the range. *)
Lemma thompson_ends_range lo hi nfa :
  thompson lo hi nfa →
  Forall (λ t, (lo ≤ t.1.1 < hi) ∧ (lo ≤ t.2 < hi)) (nfa_transitions nfa).
Proof.
  intros [_ _ _ Hrange _ _ Hends]. eapply Forall_impl; [exact Hends|].
  intros t [H1 H2]. rewrite Forall_forall in Hrange. split; by apply Hrange.
Qed.

Lemma seq_split lo mid hi :
  lo ≤ mid → mid ≤ hi → seq lo (hi - lo) = seq lo (mid - lo) ++ seq mid (hi - mid).
Proof.
  intros H1 H2. replace (hi - lo) with ((mid - lo) + (hi - mid)) by lia.
  rewrite seq_app. do 2 f_equal. lia.
Qed.

Lemma seq_two idx : seq idx 2 = [idx; idx + 1].
Proof. simpl. do 2 f_equal. lia. Qed.

Lemma Forall_conj3 {A} (P Q R : A → Prop) (l : list A) :
  Forall P l → Forall Q l → Forall R l → Forall (λ x, P x ∧ Q x ∧ R x) l.
Proof. rewrite !Forall_forall. auto. Qed.

(** What the facts on the arguments give for the transitions they bring. *)
Ltac inner_transitions Hrange Hin Hout :=
  eapply Forall_impl; [exact (Forall_conj3 _ _ _ _ Hrange Hin Hout)|];
  let t := fresh "t" in intros t ((? & ?) & ? & ?); simpl in *; lia.

Ltac shape_tac :=
  repeat match goal with
  | |- Forall _ (_ :: _) => apply Forall_cons; split
  | |- Forall _ (_ ++ _) => apply Forall_app; split
  | |- Forall _ [] => apply Forall_nil_2
  | |- _ ≠ _ => simpl in *; lia
  end.

Lemma atomNFA_shape shared ch idx :
  thompsonShape idx (idx + 2) (NFA.atomNFA shared ch idx).1.
Proof.
  constructor; simpl.
  - replace (idx + 2 - idx) with 2 by lia. by rewrite seq_two.
  - lia.
  - shape_tac.
  - shape_tac.
Qed.

Section Shape.
Variable shared : gmap nat (gset nat).

Lemma starNFA_shape nfa lo idx :
  thompson lo idx nfa → thompsonShape lo idx nfa →
  thompsonShape lo (idx + 2) (NFA.starNFA shared nfa idx).1.
Proof.
  intros Ht [S1 S2 S3 S4]. pose proof (thompson_ends_range _ _ _ Ht) as Hr.
  destruct Ht as [H1 H2 [H3 H3'] _ _ _ _].
  constructor; simpl.
  - rewrite (seq_split lo idx (idx + 2)) by lia.
    replace (idx + 2 - idx) with 2 by lia. rewrite seq_two, S1.
    apply (Permutation_app_comm [idx; idx + 1]).
  - lia.
  - shape_tac. inner_transitions Hr S3 S4.
  - shape_tac. inner_transitions Hr S3 S4.
Qed.

Lemma plusNFA_shape nfa lo idx :
  thompson lo idx nfa → thompsonShape lo idx nfa →
  thompsonShape lo (idx + 2) (NFA.plusNFA shared nfa idx).1.
Proof.
  intros Ht [S1 S2 S3 S4]. pose proof (thompson_ends_range _ _ _ Ht) as Hr.
  destruct Ht as [H1 H2 [H3 H3'] _ _ _ _].
  constructor; simpl.
  - rewrite (seq_split lo idx (idx + 2)) by lia.
    replace (idx + 2 - idx) with 2 by lia. rewrite seq_two, S1.
    apply (Permutation_app_comm [idx; idx + 1]).
  - lia.
  - shape_tac. inner_transitions Hr S3 S4.
  - shape_tac. inner_transitions Hr S3 S4.
Qed.

Lemma maybeNFA_shape nfa lo idx :
  thompson lo idx nfa → thompsonShape lo idx nfa →
  thompsonShape lo idx (NFA.maybeNFA shared nfa).
Proof.
  intros Ht [S1 S2 S3 S4]. constructor; simpl; [done..| |].
  - apply Forall_cons. split; [simpl; congruence|done].
  - apply Forall_cons. split; [simpl; congruence|done].
Qed.

Lemma concatNFA_shape nfa1 nfa2 lo mid hi :
  thompson lo mid nfa1 → thompson mid hi nfa2 →
  thompsonShape lo mid nfa1 → thompsonShape mid hi nfa2 →
  thompsonShape lo hi (NFA.concatNFA shared nfa1 nfa2).
Proof.
  intros Ht1 Ht2 [S1 S2 S3 S4] [T1 T2 T3 T4].
  pose proof (thompson_ends_range _ _ _ Ht1) as Hr1.
  pose proof (thompson_ends_range _ _ _ Ht2) as Hr2.
  destruct Ht1 as [H1 H2 [H3 H3'] _ _ _ _]. destruct Ht2 as [G1 G2 [G3 G3'] _ _ _ _].
  constructor; simpl.
  - rewrite (seq_split lo mid hi) by lia. by rewrite S1, T1.
  - lia.
  - shape_tac; [inner_transitions Hr1 S3 S4|inner_transitions Hr2 T3 T4].
  - shape_tac; [inner_transitions Hr1 S3 S4|inner_transitions Hr2 T3 T4].
Qed.

Lemma unionNFA_shape nfa1 nfa2 lo mid hi :
  thompson lo mid nfa1 → thompson mid hi nfa2 →
  thompsonShape lo mid nfa1 → thompsonShape mid hi nfa2 →
  thompsonShape lo (hi + 2) (NFA.unionNFA shared nfa1 nfa2 hi).1.
Proof.
  intros Ht1 Ht2 [S1 S2 S3 S4] [T1 T2 T3 T4].
  pose proof (thompson_ends_range _ _ _ Ht1) as Hr1.
  pose proof (thompson_ends_range _ _ _ Ht2) as Hr2.
  destruct Ht1 as [H1 H2 [H3 H3'] _ _ _ _]. destruct Ht2 as [G1 G2 [G3 G3'] _ _ _ _].
  constructor; simpl.
  - rewrite (seq_split lo hi (hi + 2)), (seq_split lo mid hi) by lia.
    replace (hi + 2 - hi) with 2 by lia. rewrite seq_two, S1, T1.
    apply (Permutation_app_comm [hi; hi + 1]).
  - lia.
  - shape_tac; [inner_transitions Hr1 S3 S4|inner_transitions Hr2 T3 T4].
  - shape_tac; [inner_transitions Hr1 S3 S4|inner_transitions Hr2 T3 T4].
Qed.
End Shape.

(** X7. Every automaton [fromAST] builds, with [curr_state_idx] going from
    [idx] to [idx'], has as its states the ids from [idx] to [idx' - 1],
    each exactly once (from 0 on under [NFA.fromPrenex]); its initial and
    its accept state differ, no transition enters the initial state and
    none leaves the accept state. *)
Theorem fromAST_states_are_fresh_ids
    (shared : gmap nat (gset nat)) (root : Node) (idx idx' : nat) (nfa : NFA) :
  NFA.fromAST shared root idx = Ok (Some nfa, idx') →
  nfa_states nfa ≡ₚ seq idx (idx' - idx) ∧
  NoDup (nfa_states nfa) ∧
  nfa_q0 nfa ≠ nfa_qf nfa ∧
  (∀ q c, (q, c, nfa_q0 nfa) ∉ nfa_transitions nfa) ∧
  (∀ c q, (nfa_qf nfa, c, q) ∉ nfa_transitions nfa).
Proof.
  intros H.
  apply (fromAST_combinators shared thompsonShape) in H as [S1 S2 S3 S4].
  - split_and!; [done| |done| |].
    + rewrite S1. apply NoDup_seq.
    + intros q c Hin. eapply Forall_forall in S3; [|exact Hin]. done.
    + intros c q Hin. eapply Forall_forall in S4; [|exact Hin]. done.
  - apply atomNFA_shape.
  - apply starNFA_shape.
  - apply plusNFA_shape.
  - apply maybeNFA_shape.
  - apply concatNFA_shape.
  - apply unionNFA_shape.
Qed.

Lemma fromAST_states_are_fresh_ids_witness :
  let root := mkNode (py "UNION") 2
                [AST.createNode (py "a");
                 mkNode (py "STAR") 1 [AST.createNode (py "b")]] in
  ∃ nfa,
    NFA.fromAST ∅ root 0 = Ok (Some nfa, 8) ∧
    nfa_states nfa ≡ₚ seq 0 (8 - 0) ∧
    NoDup (nfa_states nfa) ∧
    nfa_q0 nfa ≠ nfa_qf nfa ∧
    (∀ q c, (q, c, nfa_q0 nfa) ∉ nfa_transitions nfa) ∧
    (∀ c q, (nfa_qf nfa, c, q) ∉ nfa_transitions nfa).
Proof.
  intros root.
  destruct (NFA.fromAST ∅ root 0) as [[[nfa|] hi]|] eqn:E;
    try (vm_compute in E; discriminate).
  assert (hi = 8) as -> by (vm_compute in E; congruence).
  exists nfa. split; [done|]. exact (fromAST_states_are_fresh_ids ∅ root 0 8 nfa E).
Defined.

(** ** The trees that give an automaton ([NFA.isAtom], [NFA.fromAST], [DFA.fromPrenex]) *)

Lemma keyword_not_atom tok :
  tok ∈ [AST.STAR_kw; AST.PLUS_kw; AST.MAYBE_kw; AST.CONCAT_kw; AST.UNION_kw] →
  NFA.isAtom tok = false.
Proof.
  intros H. repeat (apply elem_of_cons in H as [->|H]; [by vm_compute|]).
  by apply elem_of_nil in H.
Qed.

Lemma regexTree_fromAST shared root :
  regexTree root → ∀ idx, ∃ nfa idx', NFA.fromAST shared root idx = Ok (Some nfa, idx').
Proof.
  induction 1 as [tok n kids Hatom|tok n kid kids Htok Hkid IH
                 |tok n kid1 kid2 kids Htok Hkid1 IH1 Hkid2 IH2]; intros idx;
    rewrite fromAST_unfold; cbn [token children].
  - rewrite Hatom. cbn. eauto.
  - rewrite keyword_not_atom by set_solver.
    destruct (IH idx) as (nfa & idx' & ->). cbn.
    repeat (apply elem_of_cons in Htok as [->|Htok]; [vm_compute str_eqb; cbn; eauto|]).
    by apply elem_of_nil in Htok.
  - rewrite keyword_not_atom by set_solver.
    destruct (IH1 idx) as (nfa1 & idx1 & ->). cbn.
    destruct (IH2 idx1) as (nfa2 & idx2 & ->). cbn.
    repeat (apply elem_of_cons in Htok as [->|Htok]; [vm_compute str_eqb; cbn; eauto|]).
    by apply elem_of_nil in Htok.
Qed.

Lemma str_eqb_eq a b : str_eqb a b = true → a = b.
Proof. unfold str_eqb. by intros ?%bool_decide_eq_true. Qed.

Lemma fromAST_regexTree shared root : ∀ idx nfa idx',
  NFA.fromAST shared root idx = Ok (Some nfa, idx') → regexTree root.
Proof.
  induction root as [tok n kids IH] using Node_ind'. intros idx nfa idx'.
  rewrite fromAST_unfold. cbn [token children].
  destruct (NFA.isAtom tok) eqn:Eatom.
  { intros _. by constructor. }
  destruct (str_eqb tok AST.STAR_kw) eqn:E1.
  { apply str_eqb_eq in E1 as ->.
    destruct kids as [|kid kids]; [done|]. apply Forall_cons in IH as [IH _].
    destruct (NFA.fromAST shared kid idx) as [[[nfa1|] idx1]|] eqn:E; [|done..].
    intros _. apply regexTree_unary; [set_solver|by eapply IH]. }
  destruct (str_eqb tok AST.PLUS_kw) eqn:E2.
  { apply str_eqb_eq in E2 as ->.
    destruct kids as [|kid kids]; [done|]. apply Forall_cons in IH as [IH _].
    destruct (NFA.fromAST shared kid idx) as [[[nfa1|] idx1]|] eqn:E; [|done..].
    intros _. apply regexTree_unary; [set_solver|by eapply IH]. }
  destruct (str_eqb tok AST.MAYBE_kw) eqn:E3.
  { apply str_eqb_eq in E3 as ->.
    destruct kids as [|kid kids]; [done|]. apply Forall_cons in IH as [IH _].
    destruct (NFA.fromAST shared kid idx) as [[[nfa1|] idx1]|] eqn:E; [|done..].
    intros _. apply regexTree_unary; [set_solver|by eapply IH]. }
  destruct (str_eqb tok AST.CONCAT_kw) eqn:E4.
  { apply str_eqb_eq in E4 as ->.
    destruct kids as [|kid1 kids]; [done|]. apply Forall_cons in IH as [IH1 IH].
    destruct (NFA.fromAST shared kid1 idx) as [[nfa1 idx1]|] eqn:Ek1; [|done].
    cbn. destruct kids as [|kid2 kids]; [done|]. apply Forall_cons in IH as [IH2 _].
    destruct (NFA.fromAST shared kid2 idx1) as [[nfa2 idx2]|] eqn:Ek2; [|done].
    cbn. destruct nfa1 as [nfa1|]; [|done]. destruct nfa2 as [nfa2|]; [|done].
    intros _. apply regexTree_binary; [set_solver|by eapply IH1|by eapply IH2]. }
  destruct (str_eqb tok AST.UNION_kw) eqn:E5.
  { apply str_eqb_eq in E5 as ->.
    destruct kids as [|kid1 kids]; [done|]. apply Forall_cons in IH as [IH1 IH].
    destruct (NFA.fromAST shared kid1 idx) as [[nfa1 idx1]|] eqn:Ek1; [|done].
    cbn. destruct kids as [|kid2 kids]; [done|]. apply Forall_cons in IH as [IH2 _].
    destruct (NFA.fromAST shared kid2 idx1) as [[nfa2 idx2]|] eqn:Ek2; [|done].
    cbn. destruct nfa1 as [nfa1|]; [|done]. destruct nfa2 as [nfa2|]; [|done].
    intros _. apply regexTree_binary; [set_solver|by eapply IH1|by eapply IH2]. }
  done.
Qed.

(** X8. [fromAST] returns an automaton exactly for the trees that have an
    atom (one character, a quoted character, [eps] or [void]) at every leaf
    it reaches, a child under each repetition keyword and two children
    under [CONCAT] and [UNION].  On every other tree it returns [None]
    (unknown token at the root) or raises (unknown token or missing child
    further down), whatever the value of [curr_state_idx]. *)
Theorem fromAST_builds_exactly_the_regex_trees
    (shared : gmap nat (gset nat)) (root : Node) (idx : nat) :
  (∃ nfa idx', NFA.fromAST shared root idx = Ok (Some nfa, idx')) ↔ regexTree root.
Proof.
  split.
  - intros (nfa & idx' & H). by eapply fromAST_regexTree.
  - intros H. by apply regexTree_fromAST.
Qed.

(** X9. The whole construction returns on every prenex string whose tree
    is of that kind: the depth-first searches for the closures, the
    worklist loop of the subset construction and the numbering all end
    without an exception, whatever the dictionary of closures held
    before. *)
Theorem fromPrenex_returns_on_regex_trees
    (shared : gmap nat (gset nat)) (prenex : pystr) (root : Node) :
  AST.parse prenex = Ok (Some root) → regexTree root →
  ∃ nfa dfa,
    NFA.fromPrenex shared prenex = Ok nfa ∧
    DFA.fromNFA nfa = Ok dfa ∧
    DFA.fromPrenex shared prenex = Ok dfa.
Proof.
  intros Hparse Htree.
  destruct (regexTree_fromAST shared root Htree 0) as (nfa0 & hi & H0).
  destruct (fromRoot_total shared root nfa0 hi H0) as (nfa & Hnfa & _).
  pose proof (fromRoot_built shared root nfa Hnfa) as Hb.
  destruct (subsets_total nfa Hb) as [dfaS Hs].
  destruct (fromNFA_renumbered nfa dfaS Hs) as (dfaN & m & dfa & _ & Hdfa & _).
  exists nfa, dfa. unfold DFA.fromPrenex, NFA.fromPrenex. rewrite Hparse.
  cbn [mbind result_bind]. rewrite Hnfa. by cbn [mbind result_bind].
Qed.

Lemma fromPrenex_returns_on_regex_trees_witness :
  ∃ nfa dfa,
    NFA.fromPrenex ∅ (py "CONCAT a STAR ' '") = Ok nfa ∧
    DFA.fromNFA nfa = Ok dfa ∧
    DFA.fromPrenex ∅ (py "CONCAT a STAR ' '") = Ok dfa.
Proof.
  apply (fromPrenex_returns_on_regex_trees ∅ (py "CONCAT a STAR ' '")
           (mkNode (py "CONCAT") 2
              [AST.createNode (py "a");
               mkNode (py "STAR") 1 [AST.createNode (py " ")]])).
  - vm_compute. reflexivity.
  - apply regexTree_binary; [set_solver| |].
    + by apply regexTree_atom.
    + apply regexTree_unary; [set_solver|]. by apply regexTree_atom.
Defined.

(** ** Acceptance by the nondeterministic automaton ([NFA.accepts]) *)

Lemma foldl_anyCall_raise (call : nat → result bool) e l :
  foldl (λ acc next_state,
           found ← acc; if (found : bool) then Ok true else call next_state)
        (Raise e) l = Raise e.
Proof. by induction l. Qed.

Lemma anyCall_nested expr l :
  NFA.anyCall (NFA.acceptsHelperNested expr) l =
  match l with [] => Ok false | _ :: _ => Raise TypeError end.
Proof.
  destruct l as [|x l]; [done|]. unfold NFA.anyCall. cbn [foldl mbind result_bind].
  unfold NFA.acceptsHelperNested at 1. apply foldl_anyCall_raise.
Qed.

Lemma existsb_isFinal nfa (closure : gset nat) :
  existsb (NFA.isFinal nfa) (elements closure) = bool_decide (nfa_qf nfa ∈ closure).
Proof.
  apply eq_true_iff_eq. rewrite existsb_exists, bool_decide_eq_true. split.
  - intros (x & Hx%list_elem_of_In%elem_of_elements & Hf).
    unfold NFA.isFinal in Hf. by apply bool_decide_eq_true in Hf as <-.
  - intros Hin. exists (nfa_qf nfa). split.
    + by apply list_elem_of_In, elem_of_elements.
    + unfold NFA.isFinal. by apply bool_decide_eq_true_2.
Qed.

(** X10. [NFA.accepts] answers only where its helper needs no nested call.
    On the empty string it tells whether the initial state is the accept
    state or has it in its recorded closure ([KeyError] if no closure is
    recorded).  On a string that is not empty it returns [False] when the
    initial state has no transition on the first character and no epsilon
    transition, and raises [TypeError] otherwise, the nested call being
    made with an argument missing; so it never returns [True] on a string
    that is not empty. *)
Theorem NFA_accepts_answers_without_nested_call (nfa : NFA) :
  NFA.accepts nfa [] =
    (if bool_decide (nfa_q0 nfa = nfa_qf nfa) then Ok true
     else match epsilonClosures nfa !! nfa_q0 nfa with
          | Some closure => Ok (bool_decide (nfa_qf nfa ∈ closure))
          | None => Raise KeyError
          end) ∧
  (∀ c rest,
     NFA.accepts nfa (c :: rest) =
       if bool_decide (NFA.next nfa (nfa_q0 nfa) [c] = ∅
                       ∧ NFA.next nfa (nfa_q0 nfa) EPS = ∅)
       then Ok false else Raise TypeError) ∧
  (∀ str, NFA.accepts nfa str = Ok true → str = []).
Proof.
  assert (∀ c rest,
     NFA.accepts nfa (c :: rest) =
       if bool_decide (NFA.next nfa (nfa_q0 nfa) [c] = ∅
                       ∧ NFA.next nfa (nfa_q0 nfa) EPS = ∅)
       then Ok false else Raise TypeError) as Hcons.
  { intros c rest. unfold NFA.accepts, NFA.acceptsHelper. rewrite !anyCall_nested.
    destruct (elements (NFA.next nfa (nfa_q0 nfa) [c])) as [|x l] eqn:E1.
    - apply elements_empty_iff in E1. apply leibniz_equiv in E1.
      cbn [mbind result_bind].
      destruct (elements (NFA.next nfa (nfa_q0 nfa) EPS)) as [|y l] eqn:E2.
      + apply elements_empty_iff in E2. apply leibniz_equiv in E2.
        by rewrite bool_decide_eq_true_2.
      + rewrite bool_decide_eq_false_2; [done|]. intros [_ H].
        rewrite H, elements_empty in E2. done.
    - rewrite bool_decide_eq_false_2; [done|]. intros [H _].
      rewrite H, elements_empty in E1. done. }
  split_and!; [|done|].
  - unfold NFA.accepts, NFA.acceptsHelper, NFA.isFinal. case_bool_decide; [done|].
    destruct (epsilonClosures nfa !! nfa_q0 nfa) as [closure|]; [|done].
    cbn [of_option mbind result_bind]. f_equal. apply existsb_isFinal.
  - intros [|c rest]; [done|]. rewrite Hcons. by case_bool_decide.
Qed.

(** ** Renaming the states ([DFA.map]) *)

Section Rename.
Context {S T : Type} `{EqDecision S} `{EqDecision T}.
(** A function that keeps no state of its own and sends different states
    to different values, as [lambda x: x + counter] on numbers; what it
    does with [None] is left open. *)
Variable f : option S → unit → result (T * unit).
Variable h : S → T.
Hypothesis f_h : ∀ x, f (Some x) () = Ok (h x, ()).
Hypothesis h_inj : ∀ x y, h x = h y → x = y.

Lemma mapList_rename (l : list S) : DFA.mapList f l () = Ok (h <$> l, ()).
Proof.
  induction l as [|x l IH]; [done|]. cbn [DFA.mapList]. rewrite f_h.
  cbn [mbind result_bind]. rewrite IH. done.
Qed.

Lemma mapTransitions_rename (l : list (S * pystr * S)) :
  DFA.mapTransitions f l () = Ok ((λ t, (h t.1.1, t.1.2, h t.2)) <$> l, ()).
Proof.
  induction l as [|[[q0 c] q1] l IH]; [done|]. cbn [DFA.mapTransitions].
  rewrite f_h. cbn [mbind result_bind]. rewrite f_h. cbn [mbind result_bind].
  rewrite IH. done.
Qed.

Lemma map_rename (dfa : DFA S) sink :
  dfa_sink dfa = Some sink →
  DFA.map f dfa () =
  Ok (mkDFA (h (dfa_q0 dfa)) (h <$> dfa_qfs dfa) (h <$> dfa_states dfa)
        ((λ t, (h t.1.1, t.1.2, h t.2)) <$> dfa_transitions dfa)
        (Some (h sink)), ()).
Proof.
  intros Hsink. unfold DFA.map. rewrite f_h. cbn [mbind result_bind].
  rewrite mapList_rename. cbn [mbind result_bind].
  rewrite mapList_rename. cbn [mbind result_bind].
  rewrite mapTransitions_rename. cbn [mbind result_bind].
  rewrite Hsink, f_h. done.
Qed.

Lemma lookupTransition_rename (l : list (S * pystr * S)) state ch :
  DFA.lookupTransition ((λ t, (h t.1.1, t.1.2, h t.2)) <$> l) (h state) ch
  = h <$> DFA.lookupTransition l state ch.
Proof.
  induction l as [|[[q0 c] q1] l IH]; [done|]. rewrite fmap_cons.
  cbn [DFA.lookupTransition fst snd].
  destruct (decide (q0 = state)) as [->|Hne].
  - rewrite !bool_decide_eq_true_2 by done. cbn [andb].
    destruct (str_eqb c ch); [done|apply IH].
  - rewrite (bool_decide_eq_false_2 (q0 = state)) by done.
    rewrite bool_decide_eq_false_2 by (intros Heq%h_inj; done).
    cbn [andb]. apply IH.
Qed.

Lemma isFinal_rename (qfs : list S) state :
  bool_decide (h state ∈ h <$> qfs) = bool_decide (state ∈ qfs).
Proof.
  apply bool_decide_ext. rewrite list_elem_of_fmap. split.
  - intros (y & Hy%h_inj & Hin). by subst.
  - intros Hin. by exists state.
Qed.

Lemma acceptsFrom_rename (dfa : DFA S) sink w : ∀ state,
  DFA.acceptsFrom
    (mkDFA (h (dfa_q0 dfa)) (h <$> dfa_qfs dfa) (h <$> dfa_states dfa)
       ((λ t, (h t.1.1, t.1.2, h t.2)) <$> dfa_transitions dfa) sink)
    (h state) w
  = DFA.acceptsFrom dfa state w.
Proof.
  induction w as [|c w IH]; intros state; cbn [DFA.acceptsFrom].
  - unfold DFA.isFinal. cbn [dfa_qfs]. apply isFinal_rename.
  - unfold DFA.next. cbn [dfa_transitions]. rewrite lookupTransition_rename.
    destruct (DFA.lookupTransition (dfa_transitions dfa) state [c]) as [state'|];
      [apply IH|done].
Qed.

(** X13. Renaming the states of an automaton that has a sink with a
    function that sends different states to different values, as
    [Lexer.__init__] does with [lambda x: x + counter], changes none of
    its answers: [map] returns an automaton with as many states, whose
    sink is the renamed sink and which accepts a word exactly when the
    original one does. *)
Theorem map_keeps_the_language (dfa : DFA S) (sink : S) :
  dfa_sink dfa = Some sink →
  ∃ mapped,
    DFA.map f dfa () = Ok (mapped, ()) ∧
    dfa_sink mapped = Some (h sink) ∧
    length (dfa_states mapped) = length (dfa_states dfa) ∧
    ∀ w, DFA.accepts mapped w = DFA.accepts dfa w.
Proof.
  intros Hsink. eexists. split; [by apply map_rename|]. split; [done|]. split.
  - cbn. by rewrite length_fmap.
  - intros w. unfold DFA.accepts. cbn [dfa_q0]. apply acceptsFrom_rename.
Qed.
End Rename.

Lemma map_keeps_the_language_witness :
  let dfa := mkDFA 0 [1] [0; 1; 2] [(0, py "a", 1); (1, py "a", 2); (2, py "a", 2)]
               (Some 2) in
  ∃ mapped,
    DFA.map (λ x (_ : unit),
               match x with
               | Some x => Ok (x + 7, ())
               | None => Raise TypeError
               end) dfa () = Ok (mapped, ()) ∧
    dfa_sink mapped = Some (2 + 7) ∧
    length (dfa_states mapped) = length (dfa_states dfa) ∧
    ∀ w, DFA.accepts mapped w = DFA.accepts dfa w.
Proof.
  intros dfa.
  apply (map_keeps_the_language _ (λ x, x + 7) (λ x, eq_refl)); [intros x y; lia|done].
Defined.

(** ** The language of the automaton [fromNFA] returns *)

(** *** The group a group leads to *)

Lemma elem_of_stepSet nfa group ch x :
  x ∈ stepSet nfa group ch ↔
  ∃ s t, s ∈ group ∧ t ∈ NFA.next nfa s ch ∧ x ∈ closureOf nfa t.
Proof.
  unfold stepSet. rewrite elem_of_union_list. split.
  - intros (X & HX & Hx). apply list_elem_of_fmap in HX as (t & -> & Ht).
    apply elem_of_elements, elem_of_union_list in Ht as (Y & HY & Ht).
    apply list_elem_of_fmap in HY as (s & -> & Hs). apply elem_of_elements in Hs.
    by exists s, t.
  - intros (s & t & Hs & Ht & Hx). exists (closureOf nfa t). split; [|done].
    apply list_elem_of_fmap. exists t. split; [done|].
    apply elem_of_elements, elem_of_union_list. exists (NFA.next nfa s ch).
    split; [|done]. apply list_elem_of_fmap. exists s. split; [done|].
    by apply elem_of_elements.
Qed.

Lemma innerFold_closures nfa (l : list nat) : ∀ g g',
  foldl (λ acc next_state,
           next_state_group ← acc;
           closure ← of_option KeyError (epsilonClosures nfa !! next_state);
           Ok (next_state_group ∪ closure)) (Ok g) l = Ok g' →
  ∀ x, x ∈ g' ↔ x ∈ g ∨ ∃ t, t ∈ l ∧ x ∈ closureOf nfa t.
Proof.
  induction l as [|t l IH]; intros g g'; cbn [foldl].
  - intros [= <-] x. split; [auto|]. intros [?|(t & Ht%elem_of_nil & _)]; done.
  - cbn [mbind result_bind].
    destruct (epsilonClosures nfa !! t) as [c|] eqn:E; cbn [of_option mbind result_bind].
    + intros Hf x. rewrite (IH _ _ Hf), elem_of_union. split.
      * intros [[Hx|Hx]|(t' & Ht' & Hx)]; [auto| |].
        -- right. exists t. split; [by left|]. unfold closureOf. by rewrite E.
        -- right. exists t'. split; [by right|done].
      * intros [Hx|(t' & [->|Ht']%elem_of_cons & Hx)]; [auto| |].
        -- left. right. unfold closureOf in Hx. by rewrite E in Hx.
        -- right. by exists t'.
    + intros Hf. exfalso. clear -Hf. induction l as [|y l IHl]; [done|]. by apply IHl.
Qed.

Lemma nextStateGroup_stepSet nfa last_group ch group :
  DFA.nextStateGroup nfa last_group ch = Ok group →
  ∃ G, DFA.strToSet last_group = Ok G ∧ group = stepSet nfa G ch.
Proof.
  unfold DFA.nextStateGroup. destruct (DFA.strToSet last_group) as [G|]; [|done].
  cbn [mbind result_bind]. intros Hf. exists G. split; [done|].
  assert (∀ l g g',
    foldl (λ acc state,
             next_state_group ← acc;
             foldl (λ acc next_state,
                      next_state_group ← acc;
                      closure ← of_option KeyError (epsilonClosures nfa !! next_state);
                      Ok (next_state_group ∪ closure))
                   (Ok next_state_group) (elements (NFA.next nfa state ch)))
          (Ok g) l = Ok g' →
    ∀ x, x ∈ g' ↔ x ∈ g ∨ ∃ s t, s ∈ l ∧ t ∈ NFA.next nfa s ch ∧ x ∈ closureOf nfa t)
    as Houter.
  { induction l as [|s l IH]; intros g g'; cbn [foldl].
    - intros [= <-] x. split; [auto|]. intros [?|(s & t & Hs%elem_of_nil & _)]; done.
    - cbn [mbind result_bind].
      destruct (foldl _ (Ok g) (elements (NFA.next nfa s ch))) as [g1|] eqn:E.
      + intros Hf' x. rewrite (IH _ _ Hf'), (innerFold_closures _ _ _ _ E). split.
        * intros [[Hx|(t & Ht%elem_of_elements & Hx)]|(s' & t & Hs' & Ht & Hx)]; [auto| |].
          -- right. exists s, t. split; [by left|done].
          -- right. exists s', t. split; [by right|done].
        * intros [Hx|(s' & t & [->|Hs']%elem_of_cons & Ht & Hx)]; [auto| |].
          -- left. right. exists t. split; [by apply elem_of_elements|done].
          -- right. by exists s', t.
      + intros Hf'. exfalso. clear -Hf'. induction l as [|y l IHl]; [done|]. by apply IHl. }
  apply set_eq. intros x. rewrite (Houter _ _ _ Hf), elem_of_stepSet. split.
  - intros [Hx%elem_of_empty|(s & t & Hs%elem_of_elements & Ht & Hx)]; [done|]. by exists s, t.
  - intros (s & t & Hs & Ht & Hx). right. exists s, t. split; [by apply elem_of_elements|done].
Qed.

(** *** What the worklist loop writes *)

Lemma visit_edges nfa alphabet last_group states transitions ch states' transitions' :
  edges nfa alphabet states transitions →
  last_group ∈ states → ch ∈ alphabet →
  DFA.visit nfa last_group (Ok (states, transitions)) ch = Ok (states', transitions') →
  edges nfa alphabet states' transitions' ∧ states `prefix_of` states'.
Proof.
  intros Hedges Hlast Hch. unfold DFA.visit. cbn [mbind result_bind].
  destruct (DFA.nextStateGroup nfa last_group ch) as [group|] eqn:E; [|done].
  apply nextStateGroup_stepSet in E as (G & HG & ->). cbn. intros [= <- <-].
  assert (states `prefix_of`
            (if bool_decide (DFA.setToStr (stepSet nfa G ch) ∉ states)
             then states ++ [DFA.setToStr (stepSet nfa G ch)] else states)) as Hpre.
  { case_bool_decide; [by apply prefix_app_r|done]. }
  split; [|done]. intros g c g' [Hin|Hin%list_elem_of_singleton]%elem_of_app.
  - destruct (Hedges g c g' Hin) as (H1 & H2 & H3 & H4).
    destruct Hpre as [k ->]. split_and!; [set_solver|set_solver|done..].
  - injection Hin as -> -> ->. split_and!.
    + destruct Hpre as [k ->]. set_solver.
    + case_bool_decide as Hn; [set_solver|done].
    + done.
    + by exists G.
Qed.

Lemma row_edges nfa alphabet last_group : ∀ chs states transitions states' transitions',
  edges nfa alphabet states transitions →
  last_group ∈ states → chs ⊆ alphabet →
  foldl (DFA.visit nfa last_group) (Ok (states, transitions)) chs
    = Ok (states', transitions') →
  edges nfa alphabet states' transitions'.
Proof.
  induction chs as [|ch chs IH]; intros states transitions states' transitions' He Hl Hsub;
    cbn [foldl].
  - by intros [= <- <-].
  - destruct (DFA.visit nfa last_group (Ok (states, transitions)) ch)
      as [[states1 transitions1]|e] eqn:E.
    + apply visit_edges with (alphabet := alphabet) in E as [E1 E2];
        [|done|done|set_solver].
      apply IH; [done| |set_solver]. destruct E2 as [k ->]. set_solver.
    + intros Hf. exfalso. clear -Hf. induction chs as [|c chs IHc]; [done|].
      by apply IHc.
Qed.

Lemma exploreStep_edges nfa alphabet st :
  edgesFrontier nfa alphabet st →
  edgesFrontier nfa alphabet (DFA.exploreStep nfa alphabet st).
Proof.
  destruct st as [[[i states] transitions]|e]; [|done]. intros He.
  unfold DFA.exploreStep. cbn [mbind result_bind].
  destruct (states !! i) as [last_group|] eqn:Ei; [|done].
  destruct (foldl _ _ alphabet) as [[states1 transitions1]|] eqn:E; [|done].
  cbn. eapply row_edges; [exact He| |done|exact E].
  by eapply list_elem_of_lookup_2.
Qed.

Lemma explore_edges nfa alphabet q0_group states transitions :
  DFA.explore nfa alphabet q0_group = Ok (states, transitions) →
  edges nfa alphabet states transitions ∧ head states = Some q0_group.
Proof.
  unfold DFA.explore.
  pose proof (exploreRounds_ind nfa alphabet
                (λ st, edgesFrontier nfa alphabet st ∧
                       match st with
                       | Ok (_, states, _) => head states = Some q0_group
                       | Raise _ => True
                       end)) as Hinv.
  specialize (Hinv ltac:(
    intros st [H1 H2]; split; [by apply exploreStep_edges|];
    destruct st as [[[i sts] ts]|e]; [|done];
    destruct (DFA.exploreStep nfa alphabet (Ok (i, sts, ts))) as [[[i' sts'] ts']|e'] eqn:E;
      [|done];
    unfold DFA.exploreStep in E; cbn [mbind result_bind] in E;
    destruct (sts !! i) as [lg|] eqn:Ei; [|by injection E as <- <- <-];
    destruct (foldl _ _ alphabet) as [[s1 t1]|] eqn:E'; [|done];
    cbn in E; injection E as <- <- <-;
    apply row_grows in E' as ([k ->] & _ & _);
    by destruct sts)).
  specialize (Hinv (size (DFA.universe nfa)) (Ok (0, [q0_group], []))).
  destruct (DFA.exploreRounds _ _ _ _) as [[[i states1] transitions1]|e]; [|done].
  cbn [mbind result_bind]. destruct (states1 !! i); [done|]. intros [= <- <-].
  apply Hinv. split; [|done]. intros g ch g' Hin. by apply elem_of_nil in Hin.
Qed.

(** *** Walks of the automaton over group names *)

Lemma lookupTransition_elem {S} `{EqDecision S}
    (transitions : list (S * pystr * S)) state ch state' :
  DFA.lookupTransition transitions state ch = Some state' →
  (state, ch, state') ∈ transitions.
Proof.
  induction transitions as [|[[s c] s'] l IH]; [done|]. cbn [DFA.lookupTransition].
  destruct (bool_decide (s = state) && str_eqb c ch) eqn:E.
  - apply andb_true_iff in E as [->%bool_decide_eq_true Hc]. unfold str_eqb in Hc.
    apply bool_decide_eq_true in Hc as ->. intros [= ->]. by left.
  - intros H. right. by apply IH.
Qed.

Lemma subsets_edges nfa dfaS :
  DFA.subsets nfa = Ok dfaS →
  edges nfa (DFA.getAlphabet nfa) (dfa_states dfaS) (dfa_transitions dfaS) ∧
  dfa_q0 dfaS ∈ dfa_states dfaS ∧
  ∃ c0, epsilonClosures nfa !! nfa_q0 nfa = Some c0 ∧ dfa_q0 dfaS = DFA.setToStr c0.
Proof.
  unfold DFA.subsets.
  destruct (epsilonClosures nfa !! nfa_q0 nfa) as [c0|]; [|done].
  cbn [of_option mbind result_bind].
  destruct (DFA.explore nfa _ _) as [[states transitions]|] eqn:E; [|done].
  cbn. intros [= <-]. cbn. apply explore_edges in E as [E1 E2].
  split_and!; [done| |by exists c0]. destruct states; [done|]. injection E2 as ->. by left.
Qed.

Lemma stepSet_empty nfa ch : stepSet nfa ∅ ch = ∅.
Proof.
  apply set_eq. intros x. rewrite elem_of_stepSet. split; [|by intros ?%elem_of_empty].
  by intros (s & t & Hs%elem_of_empty & _).
Qed.

Lemma simulate_empty nfa w : simulate nfa ∅ w = ∅.
Proof.
  induction w as [|c w IH]; [done|]. unfold simulate in *. cbn [foldl].
  by rewrite stepSet_empty.
Qed.

Lemma stepSet_outside nfa group (c : N) :
  [c] ∉ DFA.getAlphabet nfa → stepSet nfa group [c] = ∅.
Proof.
  intros Hc. apply set_eq. intros x. rewrite elem_of_stepSet.
  split; [|by intros ?%elem_of_empty]. intros (s & t & _ & Ht & _). destruct Hc.
  apply elem_of_getAlphabet. split; [done|].
  unfold NFA.next in Ht. apply elem_of_list_to_set, list_elem_of_fmap in Ht
    as ([[q0 c'] q1] & -> & Hin).
  apply list_elem_of_filter in Hin as [[_ Heq] Hin]. cbn in Heq. subst c'.
  by exists q0, q1.
Qed.

(** From the name of a group, the automaton over names accepts a word
    exactly when the set the group leads to over the word holds [qf]. *)
Lemma acceptsFrom_simulate nfa dfaS :
  built nfa → DFA.subsets nfa = Ok dfaS →
  ∀ w group, DFA.setToStr group ∈ dfa_states dfaS →
    DFA.acceptsFrom dfaS (DFA.setToStr group) w
    = bool_decide (nfa_qf nfa ∈ simulate nfa group w).
Proof.
  intros Hb Hs. destruct (subsets_edges nfa dfaS Hs) as (Hedges & _ & _).
  induction w as [|c w IH]; intros group Hin; cbn [DFA.acceptsFrom].
  - destruct (subsets_final nfa dfaS _ Hb Hs Hin) as (G & HG & Hfin).
    rewrite strToSet_setToStr in HG. injection HG as <-.
    unfold DFA.isFinal. by apply bool_decide_ext.
  - change (simulate nfa group (c :: w)) with (simulate nfa (stepSet nfa group [c]) w).
    unfold DFA.next.
    destruct (DFA.lookupTransition (dfa_transitions dfaS) (DFA.setToStr group) [c])
      as [g'|] eqn:E.
    + apply lookupTransition_elem, Hedges in E as (_ & Hg' & _ & G & HG & ->).
      rewrite strToSet_setToStr in HG. injection HG as <-. by apply IH.
    + assert ([c] ∉ DFA.getAlphabet nfa) as Hc.
      { intros Hc. destruct (subsets_rows nfa dfaS Hs _ [c] Hin Hc) as [g' Hg'].
        apply lookupTransition_is_Some in Hg'. rewrite E in Hg'. by destruct Hg'. }
      rewrite stepSet_outside, simulate_empty by done.
      by rewrite bool_decide_eq_false_2 by apply not_elem_of_empty.
Qed.

(** *** Numbering keeps the walks *)

Lemma lookupTransition_numbered m ts ts' g n ch :
  mapperOk m → Forall2 (numberedTransition m) ts ts' → numbered m g n →
  match DFA.lookupTransition ts g ch with
  | Some g' => ∃ n', DFA.lookupTransition ts' n ch = Some n' ∧ numbered m g' n'
  | None => DFA.lookupTransition ts' n ch = None
  end.
Proof.
  intros Hm Hts Hgn. induction Hts as [|[[g0 c] g1] [[n0 c'] n1] ts ts' Ht _ IH]; [done|].
  destruct Ht as (H0 & Hc & H1). cbn in H0, Hc, H1. subst c'.
  cbn [DFA.lookupTransition].
  assert (bool_decide (n0 = n) = bool_decide (g0 = g)) as ->.
  { apply bool_decide_ext. split.
    - intros ->. assert (Some g0 = Some g) as [= ->]; [|done].
      by eapply (mapper_inj m Hm).
    - intros ->. unfold numbered in *. congruence. }
  destruct (bool_decide (g0 = g) && str_eqb c ch); [by exists n1|done].
Qed.

Lemma isFinal_numbered m qfs qfs' g n :
  mapperOk m → Forall2 (numbered m) qfs qfs' → numbered m g n →
  bool_decide (n ∈ qfs') = bool_decide (g ∈ qfs).
Proof.
  intros Hm Hqfs Hgn. apply bool_decide_ext. split.
  - intros [j Hj]%list_elem_of_lookup_1.
    destruct (Forall2_lookup_r _ _ _ _ _ Hqfs Hj) as (g' & Hg' & Hgn').
    assert (Some g' = Some g) as [= ->] by (by eapply (mapper_inj m Hm)).
    by eapply list_elem_of_lookup_2.
  - intros [j Hj]%list_elem_of_lookup_1.
    destruct (Forall2_lookup_l _ _ _ _ _ Hqfs Hj) as (n' & Hn' & Hgn').
    unfold numbered in *. rewrite Hgn in Hgn'. injection Hgn' as <-.
    by eapply list_elem_of_lookup_2.
Qed.

Lemma acceptsFrom_numbered m (dfaS : DFA pystr) (dfa : DFA nat) :
  mapperOk m →
  Forall2 (numberedTransition m) (dfa_transitions dfaS) (dfa_transitions dfa) →
  Forall2 (numbered m) (dfa_qfs dfaS) (dfa_qfs dfa) →
  ∀ w g n, numbered m g n →
    DFA.acceptsFrom dfa n w = DFA.acceptsFrom dfaS g w.
Proof.
  intros Hm Hts Hqfs. induction w as [|c w IH]; intros g n Hgn; cbn [DFA.acceptsFrom].
  - unfold DFA.isFinal. by eapply isFinal_numbered.
  - unfold DFA.next.
    pose proof (lookupTransition_numbered m _ _ g n [c] Hm Hts Hgn) as Hl.
    destruct (DFA.lookupTransition (dfa_transitions dfaS) g [c]) as [g'|].
    + destruct Hl as (n' & -> & Hn'). by apply IH.
    + by rewrite Hl.
Qed.

(** *** Runs of the nondeterministic automaton *)

Lemma nfaRun_rtc nfa s s' w x :
  rtc (epsStep nfa) s s' → nfaRun nfa s' w x → nfaRun nfa s w x.
Proof. induction 1 as [|a b c Hab _ IH]; [done|]. intros H. eapply nfaRun_eps; eauto. Qed.

Lemma charRun_nfaRun nfa w : ∀ s x, charRun nfa s w x → nfaRun nfa s w x.
Proof.
  induction w as [|c w IH]; intros s x; cbn [charRun].
  - intros ->. constructor.
  - intros (t & y & Ht & Hty & Hy). eapply nfaRun_chr; [done|].
    eapply nfaRun_rtc; [done|]. by apply IH.
Qed.

Lemma nfaRun_charRun nfa s w x :
  nfaRun nfa s w x ↔ ∃ s', rtc (epsStep nfa) s s' ∧ charRun nfa s' w x.
Proof.
  split.
  - induction 1 as [s|s t w x Ht _ (s' & Hs' & Hrun)|s c t w x Ht _ (s' & Hs' & Hrun)].
    + by exists s.
    + exists s'. split; [|done]. by eapply rtc_l.
    + exists s. split; [done|]. cbn [charRun]. by exists t, s'.
  - intros (s' & Hs' & Hrun). eapply nfaRun_rtc; [done|]. by apply charRun_nfaRun.
Qed.

Lemma simulate_charRun nfa :
  (∀ t, t ∈ targets nfa → ∀ x, x ∈ closureOf nfa t ↔ rtc (epsStep nfa) t x) →
  ∀ w group x, x ∈ simulate nfa group w ↔ ∃ s, s ∈ group ∧ charRun nfa s w x.
Proof.
  intros Hcl. induction w as [|c w IH]; intros group x.
  - cbn. split; [by exists x|]. by intros (s & Hs & ->).
  - change (simulate nfa group (c :: w)) with (simulate nfa (stepSet nfa group [c]) w).
    rewrite IH. cbn [charRun]. split.
    + intros (y & (s & t & Hs & Ht & Hy)%elem_of_stepSet & Hrun). exists s.
      split; [done|]. exists t, y. split_and!; [done| |done].
      apply Hcl; [|done]. by eapply next_targets.
    + intros (s & Hs & t & y & Ht & Hty & Hrun). exists y. split; [|done].
      apply elem_of_stepSet. exists s, t. split_and!; [done..|].
      apply Hcl; [|done]. by eapply next_targets.
Qed.

(** The dictionary of the automaton [NFA.fromPrenex] returns records, for
    each of its states, the states reached by epsilon transitions. *)
Lemma fromRoot_closures shared root nfa :
  NFA.fromRoot shared (Some root) = Ok nfa →
  ∀ s, s ∈ nfa_states nfa →
    ∃ c, epsilonClosures nfa !! s = Some c ∧ ∀ x, x ∈ c ↔ rtc (epsStep nfa) s x.
Proof.
  unfold NFA.fromRoot.
  destruct (NFA.fromAST shared root 0) as [[[nfa0|] hi]|] eqn:E; [|done..].
  cbn. intros Hw s Hs.
  pose proof (withClosures_spec _ _ Hw) as (_ & _ & Hst & Htr & _).
  rewrite Hst in Hs. destruct (withClosures_lookup _ _ Hw s Hs) as (c & Hc & Hcomp).
  exists c. split; [done|]. intros x.
  rewrite (computeEpsilonClosure_reach _ _ _ Hcomp).
  assert (epsStep nfa = epsStep nfa0) as ->; [|done].
  unfold epsStep, NFA.next. by rewrite Htr.
Qed.

Lemma fromNFA_language shared root nfa :
  NFA.fromRoot shared (Some root) = Ok nfa →
  ∃ dfa, DFA.fromNFA nfa = Ok dfa ∧
    ∀ word, DFA.accepts dfa word = true ↔ nfaAccepts nfa word.
Proof.
  intros Hroot. pose proof (fromRoot_built _ _ _ Hroot) as Hb.
  pose proof (fromRoot_closures _ _ _ Hroot) as Hcl.
  destruct (subsets_total nfa Hb) as [dfaS Hs].
  destruct (fromNFA_renumbered nfa dfaS Hs)
    as (dfaN & m & dfa & Hr & Hf & Hq0 & Hqfs & _ & Htr & _).
  destruct (renumber_spec dfaS) as (dfaN' & m' & Hr' & Hm & _ & Hfinals & Htrans & Hn0 & _).
  rewrite Hr in Hr'. injection Hr' as <- <-.
  exists dfa. split; [done|]. intros word.
  destruct (subsets_edges nfa dfaS Hs) as (_ & Hin0 & c0 & Hc0 & Hname).
  unfold DFA.accepts.
  rewrite (acceptsFrom_numbered m dfaS dfa Hm) with (g := dfa_q0 dfaS);
    [|by rewrite Htr|by rewrite Hqfs|by rewrite Hq0].
  rewrite Hname in *. rewrite (acceptsFrom_simulate nfa dfaS Hb Hs) by done.
  rewrite bool_decide_eq_true.
  assert (nfa_q0 nfa ∈ nfa_states nfa) as Hq0s by (by destruct Hb as [[]]).
  destruct (Hcl _ Hq0s) as (c0' & Hc0' & Hreach0). rewrite Hc0 in Hc0'.
  injection Hc0' as <-.
  rewrite simulate_charRun.
  - unfold nfaAccepts. rewrite nfaRun_charRun. split.
    + intros (s & Hs0%Hreach0 & Hrun). by exists s.
    + intros (s & Hs0%Hreach0 & Hrun). by exists s.
  - intros t Ht x. apply built_targets in Ht; [|done].
    destruct (Hcl t Ht) as (c & Hc & Hreach). unfold closureOf. rewrite Hc. apply Hreach.
Qed.

(** X14. The subset construction is correct.  For the automaton
    [NFA.fromPrenex] builds from a tree, [fromNFA] returns a deterministic
    automaton that accepts a word exactly when the nondeterministic one has
    a run from its initial state to its accept state that spells the word,
    a transition on a character spelling that character and an epsilon
    transition nothing. *)
Theorem fromNFA_accepts_the_words_of_the_nfa
    (shared : gmap nat (gset nat)) (root : Node) (nfa : NFA) :
  NFA.fromRoot shared (Some root) = Ok nfa →
  ∃ dfa, DFA.fromNFA nfa = Ok dfa ∧
    ∀ word, DFA.accepts dfa word = true ↔ nfaAccepts nfa word.
Proof. apply fromNFA_language. Qed.

Lemma fromNFA_accepts_the_words_of_the_nfa_witness :
  match NFA.fromPrenex ∅ (py "CONCAT a STAR b") with
  | Ok nfa =>
    ∃ dfa, DFA.fromNFA nfa = Ok dfa ∧
      ∀ word, DFA.accepts dfa word = true ↔ nfaAccepts nfa word
  | Raise _ => False
  end.
Proof.
  unfold NFA.fromPrenex.
  destruct (AST.parse (py "CONCAT a STAR b")) as [[root|]|] eqn:Ep;
    [|vm_compute in Ep; discriminate..].
  cbn [mbind result_bind].
  destruct (NFA.fromRoot ∅ (Some root)) as [nfa|e] eqn:E.
  - exact (fromNFA_accepts_the_words_of_the_nfa ∅ root nfa E).
  - vm_compute in Ep. injection Ep as <-. vm_compute in E. discriminate.
Defined.

(** ** The tokens [lex] emits *)

Lemma endpointsFrom_accepts dfa rest : ∀ idx st x,
  x ∈ endpointsFrom dfa rest idx st →
  idx ≤ x < idx + length rest ∧
  DFA.acceptsFrom dfa st (take (x + 1 - idx) rest) = true.
Proof.
  induction rest as [|c rest IH]; intros idx st x; cbn [endpointsFrom].
  { by intros ?%elem_of_nil. }
  destruct (DFA.next dfa st [c]) as [st'|] eqn:E; [|by intros ?%elem_of_nil].
  intros [Hx|Hx]%elem_of_app.
  - case_bool_decide as Hfin; [|by apply elem_of_nil in Hx].
    apply list_elem_of_singleton in Hx as ->. cbn [length]. split; [lia|].
    replace (idx + 1 - idx) with 1 by lia. cbn [take DFA.acceptsFrom]. rewrite E.
    rewrite take_0. cbn. unfold DFA.isFinal. by apply bool_decide_eq_true_2.
  - case_bool_decide; [by apply elem_of_nil in Hx|].
    apply IH in Hx as [Hr Hacc]. cbn [length]. split; [lia|].
    replace (x + 1 - idx) with (S (x + 1 - S idx)) by lia.
    cbn [take DFA.acceptsFrom]. by rewrite E.
Qed.

Lemma dictAppend_matchesOf dfas word start tok dfa x m :
  (tok, dfa) ∈ dfas → x ∈ endpoints dfa word start →
  matchesOf dfas word start m → matchesOf dfas word start (dictAppend tok x m).
Proof.
  intros Hin Hx. unfold matchesOf. induction 1 as [|[k xs] m Hxs Hm IH].
  - repeat constructor. by exists dfa.
  - cbn [dictAppend]. case_bool_decide as Hk; constructor; try done.
    cbn in *. subst k. apply Forall_app. split; [done|]. repeat constructor. by exists dfa.
Qed.

Lemma appendAll_matchesOf dfas word start tok dfa l : ∀ m,
  (tok, dfa) ∈ dfas → l ⊆ endpoints dfa word start →
  matchesOf dfas word start m → matchesOf dfas word start (appendAll tok l m).
Proof.
  induction l as [|x l IH]; intros m Hin Hl Hm; [done|].
  unfold appendAll. cbn [foldl]. apply IH; [done|set_solver|].
  eapply dictAppend_matchesOf; [done|set_solver|done].
Qed.

Lemma fold_matchesOf dfas word start todo : ∀ m,
  todo ⊆ dfas → matchesOf dfas word start m →
  matchesOf dfas word start
    (foldl (λ m entry, appendAll entry.1 (endpoints entry.2 word start) m) m todo).
Proof.
  induction todo as [|[tok dfa] todo IH]; intros m Hsub Hm; [done|].
  cbn [foldl fst snd]. apply IH; [set_solver|].
  eapply appendAll_matchesOf; [|reflexivity|done]. apply Hsub. by left.
Qed.

Lemma scan_matchesOf (self : Lexer) word start :
  matchesOf (dfas self) word start
    (Lexer.scan (length (dfas self)) (dfas self) word start [] 0 0).1.
Proof.
  rewrite scan_matches by lia. apply fold_matchesOf; [done|constructor].
Qed.

Lemma take_take_drop_app {A} (l : list A) n k :
  take n l ++ take k (drop n l) = take (n + k) l.
Proof.
  revert l. induction n as [|n IH]; intros l; [by rewrite drop_0|].
  destruct l as [|x l]; [cbn; by rewrite take_nil|]. cbn. by rewrite IH.
Qed.

(** What a round that emits a token emits. *)
Lemma round_emitted self word start emitted start' :
  start < length word →
  Lexer.round self word start = inl (emitted, start') →
  start < start' ≤ length word ∧
  emitted.2 = take (start' - start) (drop start word) ∧
  emittedBy self emitted.
Proof.
  intros Hlt. unfold Lexer.round.
  pose proof (scan_matchesFrom self word start) as Hfrom.
  pose proof (scan_matchesOf self word start) as Hof.
  destruct (Lexer.scan _ _ _ _ _ _ _) as [matches failed]. cbn [fst] in Hfrom, Hof.
  rewrite getLongestMatch_longest. case_bool_decide as Hlen; [done|].
  assert (Exists (λ e : pystr * list nat, e.2 ≠ []) matches) as Hex.
  { destruct matches as [|e matches]; [done|]. left.
    by apply Forall_cons in Hfrom as [[? _] _]. }
  destruct (longest_spec matches Hex) as (pre & tok & l & post & -> & -> & Hin & _).
  intros [= <- <-]. cbn [snd fst].
  set (idx := maxAll (pre ++ (tok, l) :: post)) in *.
  unfold matchesOf in Hof. rewrite Forall_app, Forall_cons in Hof.
  destruct Hof as (_ & Hl & _). cbn in Hl. rewrite Forall_forall in Hl.
  destruct (Hl idx Hin) as (dfa & Hdfa & Hend).
  unfold endpoints in Hend. apply endpointsFrom_accepts in Hend as [Hrange Hacc].
  rewrite length_drop in Hrange.
  replace (idx + 1 - start) with (S (idx - start)) in * by lia.
  split; [lia|]. split; [done|]. split.
  - destruct (drop start word) eqn:Ed; [|done].
    apply (f_equal length) in Ed. rewrite length_drop in Ed. simpl in Ed. lia.
  - by exists tok, dfa.
Qed.

Lemma lexLoop_emitted self word fuel : ∀ start out output,
  start ≤ length word →
  concat out.*2 = take start word →
  Forall (emittedBy self) out →
  Lexer.lexLoop fuel self word start out = Ok (Tokens output) →
  concat output.*2 = word ∧ Forall (emittedBy self) output.
Proof.
  induction fuel as [|fuel IH]; intros start out output Hle Hcat Hall; [done|].
  cbn [Lexer.lexLoop]. case_bool_decide as Hlt.
  - destruct (Lexer.round self word start) as [[emitted start']|msg] eqn:Er; [|done].
    apply round_emitted in Er as (Hs & Hlex & Hem); [|done].
    apply IH; [lia| |].
    + rewrite fmap_app, concat_app, Hcat. cbn. rewrite app_nil_r, Hlex.
      rewrite take_take_drop_app. f_equal. lia.
    + apply Forall_app. split; [done|]. apply Forall_cons. split; [done|apply Forall_nil_2].
  - intros [= <-]. split; [|done]. rewrite Hcat. apply take_ge. lia.
Qed.

(** X17. When [lex] returns a list of tokens, the lexemes put end to end
    are the input: nothing of the word is skipped or read twice, and no
    lexeme is empty. *)
Theorem lex_lexemes_are_the_input (self : Lexer) (word : pystr)
    (output : list (option pystr * pystr)) :
  Lexer.lex self word = Ok (Tokens output) →
  concat output.*2 = word ∧ Forall (λ e, e.2 ≠ []) output.
Proof.
  intros H. apply lexLoop_emitted in H as [H1 H2]; [|lia|done|done].
  split; [done|]. eapply Forall_impl; [exact H2|]. by intros e [? _].
Qed.

(** X18. Every token [lex] emits carries a category of the lexer, and an
    automaton recorded under that category accepts its lexeme. *)
Theorem lex_tokens_are_accepted_by_their_category (self : Lexer) (word : pystr)
    (output : list (option pystr * pystr)) :
  Lexer.lex self word = Ok (Tokens output) →
  Forall (λ e, ∃ tok dfa, e.1 = Some tok ∧ (tok, dfa) ∈ dfas self
                          ∧ DFA.accepts dfa e.2 = true) output.
Proof.
  intros H. apply lexLoop_emitted in H as [H1 H2]; [|lia|done|done].
  eapply Forall_impl; [exact H2|]. by intros e [_ ?].
Qed.

Lemma lex_lexemes_are_the_input_witness :
  let self := mkLexer 0 [(py "A", mkDFA 0 [1] [0; 1; 2]
                                    [(0, py "a", 1); (1, py "a", 2); (2, py "a", 2)]
                                    (Some 2))] in
  let output := [(Some (py "A"), py "a"); (Some (py "A"), py "a")] in
  Lexer.lex self (py "aa") = Ok (Tokens output) ∧
  concat output.*2 = py "aa" ∧ Forall (λ e, e.2 ≠ []) output.
Proof.
  intros self output. split; [vm_compute; reflexivity|].
  apply (lex_lexemes_are_the_input self (py "aa") output). vm_compute. reflexivity.
Defined.

Lemma lex_tokens_are_accepted_by_their_category_witness :
  let self := mkLexer 0 [(py "A", mkDFA 0 [1] [0; 1; 2]
                                    [(0, py "a", 1); (1, py "a", 2); (2, py "a", 2)]
                                    (Some 2))] in
  let output := [(Some (py "A"), py "a"); (Some (py "A"), py "a")] in
  Forall (λ e, ∃ tok dfa, e.1 = Some tok ∧ (tok, dfa) ∈ dfas self
                          ∧ DFA.accepts dfa e.2 = true) output.
Proof.
  intros self output.
  apply (lex_tokens_are_accepted_by_their_category self (py "aa") output).
  vm_compute. reflexivity.
Defined.

(** ** The automata of the lexer ([Lexer.__init__]) *)

Lemma fromNFA_has_sink nfa dfa : DFA.fromNFA nfa = Ok dfa → is_Some (dfa_sink dfa).
Proof.
  intros Hf. destruct (DFA.subsets nfa) as [dfaS|e] eqn:Hs;
    [|by unfold DFA.fromNFA in Hf; rewrite Hs in Hf].
  destruct (fromNFA_renumbered nfa dfaS Hs) as (dfaN & m & dfa' & _ & Hf' & _ & _ & _ & _ & H).
  rewrite Hf in Hf'. by injection Hf' as <-.
Qed.

Lemma dictSet_fresh {K V} `{EqDecision K} (k : K) (v : V) d :
  k ∉ d.*1 → dictSet k v d = d ++ [(k, v)].
Proof.
  induction d as [|[k' v'] d IH]; [done|]. rewrite fmap_cons, not_elem_of_cons.
  intros [Hne Hk]. cbn [dictSet]. rewrite bool_decide_eq_false_2 by done.
  by rewrite IH.
Qed.

Lemma foldl_build_raise e l : foldl Lexer.build (Raise e) l = Raise e.
Proof. by induction l. Qed.

Lemma build_entry counter acc shared tok regex counter' acc' shared' :
  Lexer.build (Ok (counter, acc, shared)) (tok, regex) = Ok (counter', acc', shared') →
  ∃ dfa, acc' = dictSet tok dfa acc ∧ compiledFrom (tok, dfa) (tok, regex).
Proof.
  unfold Lexer.build. cbn [mbind result_bind].
  destruct (Parser.toPrenex regex) as [prenex|] eqn:E1; [|done]. cbn [mbind result_bind].
  destruct (NFA.fromPrenex shared prenex) as [nfa|] eqn:E2; [|done].
  cbn [mbind result_bind].
  destruct (DFA.fromNFA nfa) as [dfa0|] eqn:E3; [|done]. cbn [mbind result_bind].
  destruct (fromNFA_has_sink _ _ E3) as [sink Hsink].
  rewrite (map_rename _ (λ x, x + counter) (λ x, eq_refl) dfa0 sink Hsink).
  cbn [mbind result_bind]. intros [= <- <- <-]. eexists. split; [done|].
  split; [done|]. exists shared, dfa0. split.
  - unfold compile, DFA.fromPrenex. cbn [snd]. rewrite E1. cbn [mbind result_bind].
    rewrite E2. by cbn [mbind result_bind].
  - intros word. cbn [snd]. unfold DFA.accepts. cbn [dfa_q0].
    apply (acceptsFrom_rename (λ x, x + counter)). intros x y. lia.
Qed.

Lemma foldl_build_entries l : ∀ counter acc shared counter' dfas shared',
  foldl Lexer.build (Ok (counter, acc, shared)) l = Ok (counter', dfas, shared') →
  NoDup (acc.*1 ++ l.*1) →
  ∃ new, dfas = acc ++ new ∧ Forall2 compiledFrom new l.
Proof.
  induction l as [|[tok regex] l IH]; intros counter acc shared counter' dfas shared';
    cbn [foldl].
  - intros [= <- <- <-] _. exists []. by rewrite app_nil_r.
  - destruct (Lexer.build (Ok (counter, acc, shared)) (tok, regex))
      as [[[c1 acc1] sh1]|e] eqn:E; [|by rewrite foldl_build_raise].
    apply build_entry in E as (dfa & -> & Hc). intros Hf Hnd.
    rewrite fmap_cons in Hnd. cbn [fst] in Hnd.
    assert (tok ∉ acc.*1) as Hfresh.
    { apply NoDup_app in Hnd as (_ & Hdisj & _). intros Hin.
      apply (Hdisj tok Hin). by left. }
    rewrite dictSet_fresh in Hf by done.
    apply IH in Hf as (new & -> & Hnew).
    + exists ((tok, dfa) :: new). rewrite <- app_assoc. split; [done|]. by constructor.
    + rewrite fmap_app, <- app_assoc. cbn. done.
Qed.

Lemma compiledFrom_escape entry cfg :
  compiledFrom entry (escapeEntry cfg) →
  entry.1 = cfg.1 ∧
  ∃ shared dfa, compile shared (Lexer.escape cfg.2) = Ok dfa ∧
                ∀ word, DFA.accepts entry.2 word = DFA.accepts dfa word.
Proof. by destruct cfg. Qed.

Lemma init_entries
    (shared shared' : gmap nat (gset nat)) (configurations_ref : nat) (h : store)
    (d : configs) (self : Lexer) :
  h !! configurations_ref = Some d →
  NoDup d.*1 →
  (Lexer.init shared configurations_ref h).2 = Ok (self, shared') →
  (dfas self).*1 = d.*1 ∧
  NoDup (dfas self).*1 ∧
  Forall2 (λ entry cfg,
             ∃ shared dfa,
               compile shared (Lexer.escape cfg.2) = Ok dfa ∧
               ∀ word, DFA.accepts entry.2 word = DFA.accepts dfa word)
          (dfas self) d.
Proof.
  intros Hl Hnd. pose proof (init_store shared _ _ _ Hl Hnd) as Hstore.
  unfold Lexer.init in *. rewrite Hl in *. cbn [fst snd] in *.
  rewrite Hstore, lookup_insert_eq.
  destruct (foldl Lexer.build _ _) as [[[c ds] sh]|e] eqn:E; [|done].
  cbn. intros [= <- <-]. cbn [dfas].
  apply foldl_build_entries in E as (new & -> & Hnew).
  - cbn [app]. assert (new.*1 = d.*1) as Hkeys.
    { clear -Hnew. revert new Hnew. induction d as [|cfg d IH]; intros new Hnew.
      - by apply Forall2_nil_inv_r in Hnew as ->.
      - apply Forall2_cons_inv_r in Hnew as (e & new' & [He _]%compiledFrom_escape & Hnew' & ->).
        rewrite !fmap_cons, He. f_equal. by apply IH. }
    split_and!; [done|by rewrite Hkeys|].
    clear -Hnew. revert new Hnew. induction d as [|cfg d IH]; intros new Hnew.
    + apply Forall2_nil_inv_r in Hnew as ->. constructor.
    + apply Forall2_cons_inv_r in Hnew as (e & new' & [_ He]%compiledFrom_escape & Hnew' & ->).
      constructor; [done|by apply IH].
  - cbn. rewrite <- list_fmap_compose.
    by rewrite (list_fmap_ext (fst ∘ escapeEntry) fst d) by (by intros ? [??]).
Qed.

(** X19. When the constructor returns, [self.dfas] holds one automaton
    per entry of the dictionary it was given, under the same categories in
    the same order, so that no category of the lexer occurs twice; and the
    automaton of a category, its states moved up by the counter, accepts
    exactly the words the automaton compiled from the escaped regex of the
    category accepts. *)
Theorem init_compiles_every_category
    (shared shared' : gmap nat (gset nat)) (configurations_ref : nat) (h : store)
    (d : configs) (self : Lexer) :
  h !! configurations_ref = Some d →
  NoDup d.*1 →
  (Lexer.init shared configurations_ref h).2 = Ok (self, shared') →
  (dfas self).*1 = d.*1 ∧
  NoDup (dfas self).*1 ∧
  Forall2 (λ entry cfg,
             ∃ shared dfa,
               compile shared (Lexer.escape cfg.2) = Ok dfa ∧
               ∀ word, DFA.accepts entry.2 word = DFA.accepts dfa word)
          (dfas self) d.
Proof. apply init_entries. Qed.

Lemma init_compiles_every_category_witness :
  let d := [(py "IF", py "if"); (py "STAR", py "\*")] in
  match (Lexer.init ∅ 0 {[0 := d]}).2 with
  | Ok (self, _) =>
    (dfas self).*1 = d.*1 ∧
    NoDup (dfas self).*1 ∧
    Forall2 (λ entry cfg,
               ∃ shared dfa,
                 compile shared (Lexer.escape cfg.2) = Ok dfa ∧
                 ∀ word, DFA.accepts entry.2 word = DFA.accepts dfa word)
            (dfas self) d
  | Raise _ => False
  end.
Proof.
  intros d.
  destruct (Lexer.init ∅ 0 {[0 := d]}).2 as [[self shared']|e] eqn:E.
  - apply (init_compiles_every_category ∅ shared' 0 {[0 := d]} d self);
      [reflexivity| |exact E].
    apply (bool_decide_unpack _). vm_compute. exact I.
  - vm_compute in E. discriminate.
Defined.

(** ** The numbers of the states ([DFAMapper], [DFA.fromNFA]) *)

Lemma get_mapping_keys K x m n m' :
  mapperKeys K m → x ∈ K → DFA.get_mapping x m = Ok (n, m') → mapperKeys K m'.
Proof.
  intros [Hc Hd] Hx. unfold DFA.get_mapping.
  destruct (mapping m !! x) as [k|] eqn:E.
  - by intros [= <- <-].
  - intros [= <- <-]. split; cbn.
    + rewrite map_size_insert_None by done. lia.
    + rewrite dom_insert. set_solver.
Qed.

Lemma mapList_keys K l : ∀ m ns m',
  mapperKeys K m → (∀ x, x ∈ l → Some x ∈ K) →
  DFA.mapList DFA.get_mapping l m = Ok (ns, m') → mapperKeys K m'.
Proof.
  induction l as [|g l IH]; intros m ns m' Hm Hl; cbn [DFA.mapList].
  - by intros [= <- <-].
  - destruct (DFA.get_mapping (Some g) m) as [[n m1]|] eqn:E1; [|done].
    cbn [mbind result_bind].
    destruct (DFA.mapList DFA.get_mapping l m1) as [[ns1 m2]|] eqn:E2; [|done].
    cbn. intros [= <- <-]. eapply IH; [|by intros x Hx; apply Hl; right|done].
    apply (get_mapping_keys K (Some g) m n m1); [done| |done]. apply Hl. by left.
Qed.

Lemma mapTransitions_keys K l : ∀ m ts m',
  mapperKeys K m → (∀ t, t ∈ l → Some t.1.1 ∈ K ∧ Some t.2 ∈ K) →
  DFA.mapTransitions DFA.get_mapping l m = Ok (ts, m') → mapperKeys K m'.
Proof.
  induction l as [|[[g c] g'] l IH]; intros m ts m' Hm Hl; cbn [DFA.mapTransitions].
  - by intros [= <- <-].
  - destruct (Hl (g, c, g')) as [Hg Hg']; [by left|]. cbn in Hg, Hg'.
    destruct (DFA.get_mapping (Some g) m) as [[n m1]|] eqn:E1; [|done].
    cbn [mbind result_bind].
    destruct (DFA.get_mapping (Some g') m1) as [[n' m2]|] eqn:E2; [|done].
    cbn [mbind result_bind].
    destruct (DFA.mapTransitions DFA.get_mapping l m2) as [[ts1 m3]|] eqn:E3; [|done].
    cbn. intros [= <- <-]. eapply IH; [|intros x Hx; apply (Hl x); by right|done].
    apply (get_mapping_keys K (Some g') m1 n' m2); [|done|done].
    by apply (get_mapping_keys K (Some g) m n m1).
Qed.

(** A list of [n] different numbers below [n] holds each of them. *)
Lemma below_Permutation (l : list nat) n :
  NoDup l → Forall (λ x, x < n) l → length l = n → l ≡ₚ seq 0 n.
Proof.
  intros Hnd Hlt Hlen. apply submseteq_length_Permutation.
  - apply NoDup_submseteq; [done|]. intros x Hx. apply elem_of_seq.
    rewrite Forall_forall in Hlt. specialize (Hlt x Hx). lia.
  - rewrite length_seq. lia.
Qed.

Lemma renumber_dense (dfaS : DFA pystr) dfaN m :
  DFA.renumber dfaS = Ok (dfaN, m) →
  NoDup (dfa_states dfaS) →
  dfa_q0 dfaS ∈ dfa_states dfaS →
  dfa_qfs dfaS ⊆ dfa_states dfaS →
  (∀ t, t ∈ dfa_transitions dfaS → t.1.1 ∈ dfa_states dfaS ∧ t.2 ∈ dfa_states dfaS) →
  dfa_sink dfaS = None →
  dfa_q0 dfaN = 0 ∧
  dfa_states dfaN ≡ₚ seq 0 (length (dfa_states dfaN)) ∧
  dfa_sink dfaN = Some (length (dfa_states dfaN)).
Proof.
  intros Hr Hnd Hq0 Hqfs Hends Hsink.
  destruct (renumber_spec dfaS) as (dfaN' & m' & Hr' & Hm & Hstates & _ & _ & _ & _).
  rewrite Hr in Hr'. injection Hr' as <- <-.
  set (K := list_to_set (Some <$> dfa_states dfaS) : gset (option pystr)).
  assert (∀ g, g ∈ dfa_states dfaS → Some g ∈ K) as HK.
  { intros g Hg. apply elem_of_list_to_set, list_elem_of_fmap. by exists g. }
  unfold DFA.renumber, DFA.map in Hr.
  assert (DFA.get_mapping (Some (dfa_q0 dfaS)) (mkMapper 0 ∅)
          = Ok (0, mkMapper 1 (<[Some (dfa_q0 dfaS) := 0]> ∅))) as E0 by done.
  assert (mapperKeys K (mkMapper 0 ∅)) as H0.
  { split; cbn; [by rewrite map_size_empty|by rewrite dom_empty; set_solver]. }
  pose proof (get_mapping_keys K _ _ _ _ H0 (HK _ Hq0) E0) as H1.
  rewrite E0 in Hr. cbn [mbind result_bind] in Hr.
  destruct (DFA.mapList DFA.get_mapping (dfa_qfs dfaS) _) as [[qfs m2]|] eqn:E2; [|done].
  cbn [mbind result_bind] in Hr.
  pose proof (mapList_keys K _ _ _ _ H1 (λ x Hx, HK x (Hqfs x Hx)) E2) as H2.
  destruct (DFA.mapList DFA.get_mapping (dfa_states dfaS) m2) as [[sts m3]|] eqn:E3;
    [|done].
  cbn [mbind result_bind] in Hr.
  pose proof (mapList_keys K _ _ _ _ H2 HK E3) as H3.
  destruct (DFA.mapTransitions DFA.get_mapping (dfa_transitions dfaS) m3)
    as [[ts m4]|] eqn:E4; [|done].
  cbn [mbind result_bind] in Hr.
  assert (mapperKeys K m4) as [Hc4 Hd4].
  { eapply mapTransitions_keys; [exact H3| |exact E4].
    intros t Ht. destruct (Hends t Ht). split; by apply HK. }
  rewrite Hsink in Hr. unfold DFA.get_mapping in Hr.
  assert (mapping m4 !! None = None) as Hnone.
  { apply not_elem_of_dom. intros Hin%Hd4.
    apply elem_of_list_to_set, list_elem_of_fmap in Hin as (g & Hg & _). done. }
  rewrite Hnone in Hr. cbn in Hr. injection Hr as <- <-. cbn in *.
  assert (length sts = length (dfa_states dfaS)) as Hlen.
  { symmetry. by eapply Forall2_length. }
  assert (counter m4 = length (dfa_states dfaS)) as Hcount.
  { rewrite Hc4. assert (dom (mapping m4) = K) as Hdom.
    { apply set_eq. intros x. split; [apply Hd4|].
      intros Hx. apply elem_of_list_to_set, list_elem_of_fmap in Hx as (g & -> & Hg).
      apply list_elem_of_lookup_1 in Hg as [j Hj].
      destruct (Forall2_lookup_l _ _ _ _ _ Hstates Hj) as (n & _ & Hn).
      unfold numbered in Hn. cbn in Hn. rewrite lookup_insert_ne in Hn by done.
      by apply elem_of_dom. }
    rewrite <- size_dom, Hdom. unfold K.
    rewrite size_list_to_set, length_fmap; [done|].
    apply NoDup_fmap; [|done]. by intros ?? [=]. }
  split_and!; [done| |by rewrite Hlen, Hcount].
  apply below_Permutation; [| |done].
  - apply NoDup_alt. intros i j n Hi Hj.
    destruct (Forall2_lookup_r _ _ _ _ _ Hstates Hi) as (g & Hg & Hgn).
    destruct (Forall2_lookup_r _ _ _ _ _ Hstates Hj) as (g' & Hg' & Hgn').
    assert (Some g = Some g') as [= <-] by (by eapply (mapper_inj _ Hm)).
    by eapply NoDup_lookup.
  - apply Forall_forall. intros n [j Hj]%list_elem_of_lookup_1.
    destruct (Forall2_lookup_r _ _ _ _ _ Hstates Hj) as (g & Hg & Hgn).
    pose proof (mapper_lt _ Hm _ _ Hgn) as Hlt. cbn in Hlt.
    unfold numbered in Hgn. cbn in Hgn. rewrite lookup_insert_ne in Hgn by done.
    destruct (decide (n = counter m4)) as [->|Hne]; [|lia].
    exfalso. assert (Some g = None) as Heq; [|done].
    eapply (mapper_inj _ Hm); cbn; [|apply lookup_insert_eq].
    by rewrite lookup_insert_ne.
Qed.

Lemma subsets_shape nfa dfaS :
  DFA.subsets nfa = Ok dfaS →
  NoDup (dfa_states dfaS) ∧ dfa_qfs dfaS ⊆ dfa_states dfaS.
Proof.
  unfold DFA.subsets.
  destruct (epsilonClosures nfa !! nfa_q0 nfa) as [c0|] eqn:E0; [|done].
  cbn [of_option mbind result_bind].
  destruct (DFA.explore nfa _ _) as [[states transitions]|] eqn:E; [|done].
  cbn. intros [= <-]. cbn.
  apply (explore_named nfa _ (DFA.universe nfa)) in E as [_ H2].
  - split; [done|]. intros g Hg. by apply list_elem_of_filter in Hg as [_ Hg].
  - intros t c _. apply lookup_universe.
  - exists c0. split; [by eapply lookup_universe|done].
Qed.

(** X15. Whatever automaton [fromNFA] returns, its initial state is 0 and
    its states are the numbers from 0 up to their count, each once; the
    sink is one of them or, when the scan finds none, the count itself (so
    the number [len(dfa.states) + 1] of the branch that would add a sink is
    never used). *)
Theorem fromNFA_numbers_the_states_from_zero (nfa : NFA) (dfa : DFA nat) :
  DFA.fromNFA nfa = Ok dfa →
  dfa_q0 dfa = 0 ∧
  dfa_states dfa ≡ₚ seq 0 (length (dfa_states dfa)) ∧
  ∃ sink, dfa_sink dfa = Some sink ∧ sink ≤ length (dfa_states dfa).
Proof.
  unfold DFA.fromNFA. destruct (DFA.subsets nfa) as [dfaS|] eqn:Hs; [|done].
  cbn [mbind result_bind].
  destruct (DFA.renumber dfaS) as [[dfaN m]|] eqn:Hr; [|done].
  cbn [mbind result_bind].
  destruct (subsets_shape _ _ Hs) as [Hnd Hqfs].
  destruct (subsets_edges _ _ Hs) as (Hedges & Hq0 & _).
  apply renumber_dense in Hr as (H0 & Hperm & Hsink); [|done..| |by eapply subsets_sink].
  - unfold DFA.setSink. destruct (List.find _ _) as [state|] eqn:Efind.
    + cbn. intros [= <-]. cbn. split_and!; [done..|]. exists state. split; [done|].
      apply find_some in Efind as [Hin _]. apply list_elem_of_In in Hin.
      rewrite Hperm in Hin. apply elem_of_seq in Hin. lia.
    + unfold DFA.addSink. rewrite Hsink. intros [= <-]. split_and!; [done..|].
      by exists (length (dfa_states dfaN)).
  - intros [[g ch] g'] Hin. destruct (Hedges g ch g' Hin) as (? & ? & _). done.
Qed.

Lemma fromNFA_numbers_the_states_from_zero_witness :
  match NFA.fromPrenex ∅ (py "STAR a") with
  | Ok nfa =>
    match DFA.fromNFA nfa with
    | Ok dfa =>
      dfa_q0 dfa = 0 ∧
      dfa_states dfa ≡ₚ seq 0 (length (dfa_states dfa)) ∧
      ∃ sink, dfa_sink dfa = Some sink ∧ sink ≤ length (dfa_states dfa)
    | Raise _ => False
    end
  | Raise _ => False
  end.
Proof.
  destruct (NFA.fromPrenex ∅ (py "STAR a")) as [nfa|e] eqn:E1;
    [|vm_compute in E1; discriminate].
  destruct (DFA.fromNFA nfa) as [dfa|e] eqn:E2.
  - exact (fromNFA_numbers_the_states_from_zero nfa dfa E2).
  - vm_compute in E1. injection E1 as <-. vm_compute in E2. discriminate.
Defined.

(** ** The position a failed round reports (the [except] branch of [Lexer.lex]) *)









(** ** Ranges and quoted characters ([Parser.preprocess]) *)

Lemma glue_range (lst : N) (js : list N) : ∀ a,
  (∀ chr, Parser.needsConcat a (Character chr) = false) →
  glue (a :: concat ((λ j, [Character [j]; Op UNION]) <$> js)
          ++ [Character [lst]; Op R_BRACK])
  = a :: concat ((λ j, [Character [j]; Op UNION]) <$> js)
      ++ [Character [lst]; Op R_BRACK].
Proof.
  induction js as [|j js IH]; intros a Ha.
  - cbn [fmap list_fmap concat app]. rewrite glue_cons2, Ha. by rewrite glue_cons2.
  - rewrite fmap_cons. cbn [concat app]. rewrite glue_cons2, Ha. cbn [app]. f_equal.
    rewrite glue_cons2. cbn [Parser.needsConcat isCharacter is_op andb app].
    replace (bool_decide (Character [j] = Op R_BRACK)) with false by done.
    replace (bool_decide (Character [j] = Op STAR)) with false by done.
    replace (bool_decide (Character [j] = Op PLUS)) with false by done.
    replace (bool_decide (Character [j] = Op MAYBE)) with false by done.
    cbn [andb app]. f_equal. by apply IH.
Qed.

(** X21. A range.  Five characters that begin with an opening square
    bracket and hold no [eps] are read as a range from the second
    character to the fourth: the result is an opening bracket, every
    character from the code point of the second up to the one before the
    fourth, each followed by [UNION], the fourth character and a closing
    bracket, with no [CONCAT] added.  The third and the fifth character are
    not looked at, and when the fourth does not come after the second the
    range holds the fourth alone.  With fewer than three characters after
    the bracket, [preprocess] raises [IndexError]. *)
Theorem preprocess_expands_a_range (first mid lst close : N) (short : pystr) :
  (Str.contains EPS [91%N; first; mid; lst; close] = false →
     Parser.preprocess [91%N; first; mid; lst; close]
       = Ok (Op L_BRACK
               :: concat ((λ j, [Character [j]; Op UNION]) <$> Parser.ordRange first lst)
               ++ [Character [lst]; Op R_BRACK])) ∧
  ((lst ≤ first)%N → Parser.ordRange first lst = []) ∧
  (length short < 3 → Parser.preprocess (91%N :: short) = Raise IndexError).
Proof.
  split_and!.
  - intros Heps. unfold Parser.preprocess. rewrite replace_absent by done.
    assert (Parser.classify 0 [91%N; first; mid; lst; close]
            = Ok (Op L_BRACK
                    :: concat ((λ j, [Character [j]; Op UNION]) <$> Parser.ordRange first lst)
                    ++ [Character [lst]; Op R_BRACK])) as ->.
    { change (Parser.classify 0 [91%N; first; mid; lst; close])
        with (Ok ([Op L_BRACK]
                    ++ concat ((λ j, [Character [j]; Op UNION]) <$> Parser.ordRange first lst)
                    ++ [Character [lst]; Op R_BRACK] ++ [])).
      by rewrite app_nil_r. }
    cbn [mbind result_bind]. rewrite addConcatOp_glue. f_equal. by apply glue_range.
  - intros Hle. unfold Parser.ordRange.
    replace (N.to_nat lst - N.to_nat first) with 0 by lia. done.
  - intros Hlen. unfold Parser.preprocess.
    assert (Str.contains EPS (91%N :: short) = false) as Heps.
    { change (Str.contains EPS (91%N :: short)) with (Str.contains EPS short).
      apply contains_short. simpl. lia. }
    rewrite replace_absent by done.
    destruct short as [|a [|b [|c short]]]; cbn in Hlen; try lia; reflexivity.
Qed.

Lemma preprocess_expands_a_range_witness :
  Parser.preprocess (py "[a-c]")
    = Ok [Op L_BRACK; Character [97%N]; Op UNION; Character [98%N]; Op UNION;
          Character [99%N]; Op R_BRACK].
Proof.
  apply (proj1 (preprocess_expands_a_range 97 45 99 93 [])). reflexivity.
Defined.

(** *** A quoted character *)

Lemma whitespace_dec (x : N) :
  {x = newline} + {x = tab} + {x = carriage} + {x = space}
  + {x ≠ newline ∧ x ≠ tab ∧ x ≠ carriage ∧ x ≠ space}.
Proof.
  destruct (decide (x = newline)); [by left; left; left; left|].
  destruct (decide (x = tab)); [by left; left; left; right|].
  destruct (decide (x = carriage)); [by left; left; right|].
  destruct (decide (x = space)); [by left; right|]. by right.
Qed.

Lemma preprocess_quoted x close :
  Parser.preprocess [quote; x; close] = Ok [Parser.quoted x].
Proof.
  unfold Parser.preprocess.
  assert (Str.replace EPS [epsilon] [quote; x; close] = [quote; x; close]) as ->.
  { rewrite replace_cons. cbn [Str.startswith EPS].
    rewrite (bool_decide_eq_false_2 (101%N = quote)) by done. cbn [andb].
    by rewrite replace_short by (simpl; lia). }
  done.
Qed.

Lemma toPrenex_quoted x close :
  x ≠ epsilon →
  ∃ prenex, Parser.toPrenex [quote; x; close] = Ok prenex ∧
            AST.customSplit prenex = [[x]].
Proof.
  intros Hx. unfold Parser.toPrenex. rewrite preprocess_quoted.
  cbn [mbind result_bind].
  destruct (whitespace_dec x) as [[[[->| ->]| ->]| ->]|(H1 & H2 & H3 & H4)].
  - eexists. split; [vm_compute; reflexivity|by vm_compute].
  - eexists. split; [vm_compute; reflexivity|by vm_compute].
  - eexists. split; [vm_compute; reflexivity|by vm_compute].
  - eexists. split; [vm_compute; reflexivity|by vm_compute].
  - unfold Parser.quoted. rewrite !bool_decide_eq_false_2 by done.
    exists [x]. split.
    + unfold Parser.toPrenexHelper.
      change (Parser.shuntAll _ [] []) with (Ok ([] : list Operator, [Character [x]])).
      cbn [mbind result_bind length].
      rewrite (bool_decide_eq_false_2 (0 < 0)) by lia.
      change (concat _) with [x; space].
      rewrite (replace_short [space; newline; space]) by (simpl; lia).
      rewrite (replace_short [space; carriage; space]) by (simpl; lia).
      rewrite (replace_short [space; tab; space]) by (simpl; lia).
      cbn [removelast].
      unfold Str.replace. cbn [Str.replace_go Str.startswith].
      rewrite bool_decide_eq_false_2; [done|]. congruence.
    + rewrite customSplit_map. cbn [AST.splitLoop].
      rewrite (bool_decide_eq_false_2 (x = space)) by done. cbn [andb].
      by destruct (bool_decide (x = quote)).
Qed.

Lemma next_single (nfa : NFA) (x : N) s ch t :
  nfa_transitions nfa = [(0, [x], 1)] →
  t ∈ NFA.next nfa s ch ↔ s = 0 ∧ ch = [x] ∧ t = 1.
Proof.
  intros Htr. unfold NFA.next. rewrite Htr, elem_of_list_to_set, list_elem_of_fmap.
  split.
  - intros ([[q0 c] q1] & -> & [[Hs Hc] Hin%list_elem_of_singleton]%list_elem_of_filter).
    cbn in *. by injection Hin as -> -> ->.
  - intros (-> & -> & ->). exists (0, [x], 1). split; [done|].
    apply list_elem_of_filter. split; [done|]. by left.
Qed.

Lemma single_language (nfa : NFA) (x : N) word :
  nfa_q0 nfa = 0 → nfa_qf nfa = 1 → nfa_transitions nfa = [(0, [x], 1)] →
  nfaAccepts nfa word ↔ word = [x].
Proof.
  intros Hq0 Hqf Htr. unfold nfaAccepts. rewrite Hq0, Hqf. split.
  - intros Hrun. inversion Hrun as [|s t w y Ht Hrest|s c t w y Ht Hrest]; subst.
    + apply (next_single nfa x) in Ht as (_ & [=] & _); done.
    + apply (next_single nfa x) in Ht as (_ & [= ->] & ->); [|done].
      inversion Hrest as [|s t w' y Ht' _|s c' t w' y Ht' _]; subst; [done|..].
      * apply (next_single nfa x) in Ht' as ([=] & _); done.
      * apply (next_single nfa x) in Ht' as ([=] & _); done.
  - intros ->. eapply nfaRun_chr; [|constructor]. by apply (next_single nfa x).
Qed.

(** X22. A character between quotes is a literal, whatever the character
    except the symbol [ε]: an operator glyph, a bracket, the quote itself,
    a space or a newline.  The regex of the three characters compiles,
    whatever the dictionary of closures held before, to an automaton that
    accepts the one-character string and nothing else; the character in
    the place of the closing quote is not looked at. *)
Theorem quoted_character_is_a_literal
    (shared : gmap nat (gset nat)) (x close : N) :
  x ≠ epsilon → acceptsOnly shared [quote; x; close] x.
Proof.
  intros Hx. destruct (toPrenex_quoted x close Hx) as (prenex & Hprenex & Hsplit).
  assert (AST.parse prenex = Ok (Some (mkNode [x] 0 []))) as Hparse.
  { unfold AST.parse, AST.fromPrenex. rewrite Hsplit.
    cbn [length AST.fromPrenexFuel AST.createNode num_children token children].
    by rewrite arity_char. }
  assert (regexTree (mkNode [x] 0 [])) as Htree by (by apply regexTree_atom).
  destruct (regexTree_fromAST shared _ Htree 0) as (nfa0 & hi & H0).
  destruct (fromRoot_total shared _ nfa0 hi H0) as (nfa & Hnfa & Hq0 & Hqf & _ & Htr).
  rewrite fromAST_unfold in H0. cbn in H0. injection H0 as <- <-.
  cbn in Hq0, Hqf, Htr.
  destruct (fromNFA_language shared _ nfa Hnfa) as (dfa & Hdfa & Hlang).
  exists dfa. split.
  - unfold compile, DFA.fromPrenex, NFA.fromPrenex. rewrite Hprenex.
    cbn [mbind result_bind]. rewrite Hparse. cbn [mbind result_bind].
    rewrite Hnfa. by cbn [mbind result_bind].
  - intros word. apply eq_true_iff_eq.
    rewrite Hlang, bool_decide_eq_true. by apply single_language.
Qed.

Lemma quoted_character_is_a_literal_witness :
  acceptsOnly ∅ (py "'*'") 42%N.
Proof. apply (quoted_character_is_a_literal ∅ 42%N quote). done. Defined.

(** ** Runs of Thompson automata ([NFA.fromAST] and its combinators) *)

Lemma elem_of_next nfa s ch t :
  t ∈ NFA.next nfa s ch ↔ (s, ch, t) ∈ nfa_transitions nfa.
Proof.
  unfold NFA.next. rewrite elem_of_list_to_set, list_elem_of_fmap. split.
  - intros ([[s' ch'] t'] & -> & [[Hs Hc] Hin]%list_elem_of_filter).
    simpl in *. by subst.
  - intros Hin. exists (s, ch, t). split; [done|].
    apply list_elem_of_filter. by split.
Qed.

Lemma nfaRun_run nfa s w x : nfaRun nfa s w x ↔ run (nfa_transitions nfa) s w x.
Proof.
  split.
  - induction 1 as [s|s t w x Ht _ IH|s c t w x Ht _ IH].
    + apply run_nil.
    + eapply run_eps; [by apply elem_of_next|done].
    + eapply run_chr; [by apply elem_of_next|done].
  - induction 1 as [s|s t w x Ht _ IH|s c t w x Ht _ IH].
    + apply nfaRun_nil.
    + eapply nfaRun_eps; [by apply elem_of_next|done].
    + eapply nfaRun_chr; [by apply elem_of_next|done].
Qed.

Lemma run_mono T T' s w x : T ⊆ T' → run T s w x → run T' s w x.
Proof.
  intros Hsub. induction 1 as [s|s t w x Ht _ IH|s c t w x Ht _ IH].
  - apply run_nil.
  - eapply run_eps; [by apply Hsub|done].
  - eapply run_chr; [by apply Hsub|done].
Qed.

Lemma run_app T s w1 t w2 x : run T s w1 t → run T t w2 x → run T s (w1 ++ w2) x.
Proof.
  intros H1 H2. induction H1 as [s|s t' w t Ht _ IH|s c t' w t Ht _ IH].
  - done.
  - eapply run_eps; [done|by apply IH].
  - simpl. eapply run_chr; [done|by apply IH].
Qed.

(** Nothing is read from a state no transition leaves. *)
Lemma run_stuck T x w y : (∀ l t, (x, l, t) ∉ T) → run T x w y → w = [] ∧ y = x.
Proof.
  intros Hx. inversion 1 as [|s t w' x' Ht|s c t w' x' Ht]; subst.
  - done.
  - by apply Hx in Ht.
  - by apply Hx in Ht.
Qed.

(** A run that starts in a part of the automaton no transition leaves is a
    run of that part. *)
Lemma run_inside T T' (inside : nat → Prop) :
  (∀ s l t, inside s → (s, l, t) ∈ T' → (s, l, t) ∈ T ∧ inside t) →
  ∀ s w x, run T' s w x → inside s → run T s w x.
Proof.
  intros Hin. induction 1 as [s|s t w x Ht _ IH|s c t w x Ht _ IH]; intros Hs.
  - apply run_nil.
  - destruct (Hin _ _ _ Hs Ht). eapply run_eps; [done|by apply IH].
  - destruct (Hin _ _ _ Hs Ht). eapply run_chr; [done|by apply IH].
Qed.

(** A run that leaves a part of the automaton whose only way out is its
    accept state goes through that state. *)
Lemma run_exit T T' (inside : nat → Prop) qf :
  (∀ s l t, inside s → s ≠ qf → (s, l, t) ∈ T' → (s, l, t) ∈ T ∧ inside t) →
  ∀ s w x, run T' s w x → inside s → ¬ inside x →
    ∃ w1 w2, w = w1 ++ w2 ∧ run T s w1 qf ∧ run T' qf w2 x.
Proof.
  intros Hin. induction 1 as [s|s t w x Ht Hrun IH|s c t w x Ht Hrun IH];
    intros Hs Hx.
  - done.
  - destruct (decide (s = qf)) as [->|Hne].
    { exists [], w. split_and!; [done|apply run_nil|by eapply run_eps]. }
    destruct (Hin _ _ _ Hs Hne Ht) as [Ht' Hti].
    destruct (IH Hti Hx) as (w1 & w2 & -> & H1 & H2).
    exists w1, w2. split_and!; [done|by eapply run_eps|done].
  - destruct (decide (s = qf)) as [->|Hne].
    { exists [], (c :: w). split_and!; [done|apply run_nil|by eapply run_chr]. }
    destruct (Hin _ _ _ Hs Hne Ht) as [Ht' Hti].
    destruct (IH Hti Hx) as (w1 & w2 & -> & H1 & H2).
    exists (c :: w1), w2. split_and!; [done|by eapply run_chr|done].
Qed.

(** The runs through the loop [starNFA] and [plusNFA] put around an
    automaton: from its accept state back to its initial state, or on to
    the new accept state. *)
Lemma run_loop T T' (inside : nat → Prop) q0 qf qf' :
  (∀ s l t, inside s → s ≠ qf → (s, l, t) ∈ T' → (s, l, t) ∈ T ∧ inside t) →
  (∀ l t, (qf, l, t) ∈ T' → l = EPS ∧ (t = q0 ∨ t = qf')) →
  (∀ l t, (qf', l, t) ∉ T') →
  inside q0 → ¬ inside qf' →
  ∀ s w x, run T' s w x → x = qf' → inside s →
    ∃ w1 w2, w = w1 ++ w2 ∧ run T s w1 qf ∧ starOf (λ w, run T q0 w qf) w2.
Proof.
  intros Hin Hqf Hstuck Hq0 Hqf'.
  induction 1 as [s|s t w x Ht Hrun IH|s c t w x Ht Hrun IH]; intros -> Hs.
  - done.
  - destruct (decide (s = qf)) as [->|Hne].
    + destruct (Hqf _ _ Ht) as [_ [->| ->]].
      * destruct (IH eq_refl Hq0) as (w1 & w2 & -> & H1 & H2).
        exists [], (w1 ++ w2). split_and!; [done|apply run_nil|].
        by apply starOf_app.
      * apply run_stuck in Hrun as [-> _]; [|done].
        exists [], []. split_and!; [done|apply run_nil|apply starOf_nil].
    + destruct (Hin _ _ _ Hs Hne Ht) as [Ht' Hti].
      destruct (IH eq_refl Hti) as (w1 & w2 & -> & H1 & H2).
      exists w1, w2. split_and!; [done|by eapply run_eps|done].
  - destruct (decide (s = qf)) as [->|Hne].
    + by destruct (Hqf _ _ Ht) as [? _].
    + destruct (Hin _ _ _ Hs Hne Ht) as [Ht' Hti].
      destruct (IH eq_refl Hti) as (w1 & w2 & -> & H1 & H2).
      exists (c :: w1), w2. split_and!; [done|by eapply run_chr|done].
Qed.

(** Back through the loop: from the accept state of the inner automaton,
    any number of its words lead to the new accept state. *)
Lemma loop_run T T' q0 qf qf' :
  T ⊆ T' → (qf, EPS, q0) ∈ T' → (qf, EPS, qf') ∈ T' →
  ∀ w, starOf (λ w, run T q0 w qf) w → run T' qf w qf'.
Proof.
  intros Hsub Hback Hout. induction 1 as [|w1 w2 H1 _ IH].
  - eapply run_eps; [done|apply run_nil].
  - eapply run_eps; [exact Hback|].
    eapply run_app; [by eapply run_mono|done].
Qed.

Lemma starOf_ext (L L' : pystr → Prop) w :
  (∀ w, L w ↔ L' w) → starOf L w ↔ starOf L' w.
Proof.
  intros H. split; induction 1 as [|w1 w2 H1 _ IH].
  - apply starOf_nil.
  - apply starOf_app; [by apply H|done].
  - apply starOf_nil.
  - apply starOf_app; [by apply H|done].
Qed.

Lemma thompson_frame lo hi nfa :
  thompson lo hi nfa → thompsonShape lo hi nfa →
  frame lo hi (nfa_q0 nfa) (nfa_qf nfa) (nfa_transitions nfa).
Proof.
  intros Ht [S1 S2 S3 S4]. pose proof (thompson_ends_range _ _ _ Ht) as Hr.
  destruct Ht as [H1 H2 H3 _ _ _ _].
  rewrite Forall_forall in Hr, S3, S4. constructor.
  - done.
  - lia.
  - done.
  - intros s l t Hin. exact (Hr _ Hin).
  - intros s l Hin. by apply (S3 _ Hin).
  - intros l t Hin. by apply (S4 _ Hin).
Qed.

Lemma fromAST_frame shared root idx nfa idx' :
  NFA.fromAST shared root idx = Ok (Some nfa, idx') →
  frame idx idx' (nfa_q0 nfa) (nfa_qf nfa) (nfa_transitions nfa).
Proof.
  intros H. apply thompson_frame; [by eapply fromAST_thompson|].
  revert H. apply (fromAST_combinators shared thompsonShape).
  - apply atomNFA_shape.
  - apply starNFA_shape.
  - apply plusNFA_shape.
  - apply maybeNFA_shape.
  - apply concatNFA_shape.
  - apply unionNFA_shape.
Qed.

(** ** The words of Thompson automata *)

(** Splits a transition of a combinator into the ones it adds and the ones
    of its arguments, and closes the cases the ranges exclude. *)
Ltac transition_cases H :=
  set_unfold in H; destruct_or! H; simplify_eq.

Ltac frame_out :=
  try lia;
  try match goal with
      | F : frame _ _ _ _ ?T, H : (_, _, _) ∈ ?T |- _ =>
        first [ by apply (frame_accept _ _ _ _ _ F) in H
              | by apply (frame_initial _ _ _ _ _ F) in H
              | apply (frame_ends _ _ _ _ _ F) in H; lia ]
      end.

Lemma atom_language ch idx w :
  run [(idx, ch, idx + 1)] idx w (idx + 1) ↔
  (ch = EPS ∧ w = []) ∨ (∃ c, ch = [c] ∧ w = [c]).
Proof.
  assert (∀ l t, (idx + 1, l, t) ∉ [(idx, ch, idx + 1)]) as Hstuck.
  { intros l t H. transition_cases H. lia. }
  split.
  - intros Hw. inversion Hw as [|s t w' x' Ht Hrun|s c t w' x' Ht Hrun]; subst.
    + lia.
    + transition_cases Ht. apply run_stuck in Hrun as [-> _]; [|done]. by left.
    + transition_cases Ht. apply run_stuck in Hrun as [-> _]; [|done].
      right. by exists c.
  - intros [[-> ->]|(c & -> & ->)].
    + eapply run_eps; [by left|apply run_nil].
    + eapply run_chr; [by left|apply run_nil].
Qed.

Section Combinators.
Variables (lo hi : nat) (q0 qf : nat) (T : list (nat * pystr * nat)).
Hypothesis F : frame lo hi q0 qf T.

Lemma star_language idx w :
  hi ≤ idx →
  run ([(idx, EPS, q0); (qf, EPS, idx + 1); (idx, EPS, idx + 1); (qf, EPS, q0)] ++ T)
      idx w (idx + 1) ↔
  starOf (λ w, run T q0 w qf) w.
Proof.
  intros Hidx. pose proof (frame_q0 _ _ _ _ _ F) as Rq0. pose proof (frame_qf _ _ _ _ _ F) as Rqf.
  set (T' := _ ++ T).
  assert (∀ l t, (idx + 1, l, t) ∉ T') as Hstuck.
  { intros l t Hin. transition_cases Hin; try lia.
    apply (frame_ends _ _ _ _ _ F) in Hin. lia. }
  assert (∀ s w, run T' s w (idx + 1) → lo ≤ s < hi →
            ∃ w1 w2, w = w1 ++ w2 ∧ run T s w1 qf
                     ∧ starOf (λ w, run T q0 w qf) w2) as Hloop.
  { intros s w' Hrun Hs.
    refine (run_loop T T' (λ s, lo ≤ s < hi) q0 qf (idx + 1) _ _ Hstuck _ _
              s w' (idx + 1) Hrun eq_refl Hs); [| |lia|lia].
    - intros s' l t Hs' Hne Hin. transition_cases Hin; try lia.
      split; [done|]. apply (frame_ends _ _ _ _ _ F) in Hin. lia.
    - intros l t Hin. transition_cases Hin; try lia; try by auto.
      by apply (frame_accept _ _ _ _ _ F) in Hin. }
  split.
  - intros Hw. inversion Hw as [|s t w' x' Ht Hrun|s c t w' x' Ht Hrun]; subst.
    + lia.
    + transition_cases Ht; try lia.
      * destruct (Hloop _ _ Hrun) as (w1 & w2 & -> & H1 & H2); [done|].
        by apply starOf_app.
      * apply run_stuck in Hrun as [-> _]; [|done]. apply starOf_nil.
      * apply (frame_ends _ _ _ _ _ F) in Ht. lia.
    + transition_cases Ht. apply (frame_ends _ _ _ _ _ F) in Ht. lia.
  - intros [|w1 w2 H1 H2].
    + eapply run_eps; [|apply run_nil]. subst T'. set_solver.
    + eapply run_eps with (t := q0); [subst T'; set_solver|].
      eapply run_app; [eapply run_mono; [|exact H1]; subst T'; set_solver|].
      eapply loop_run; [| | |exact H2]; subst T'; set_solver.
Qed.

Lemma plus_language idx w :
  hi ≤ idx →
  run ([(idx, EPS, q0); (qf, EPS, idx + 1); (qf, EPS, q0)] ++ T) idx w (idx + 1) ↔
  ∃ w1 w2, w = w1 ++ w2 ∧ run T q0 w1 qf ∧ starOf (λ w, run T q0 w qf) w2.
Proof.
  intros Hidx. pose proof (frame_q0 _ _ _ _ _ F) as Rq0. pose proof (frame_qf _ _ _ _ _ F) as Rqf.
  set (T' := _ ++ T).
  assert (∀ l t, (idx + 1, l, t) ∉ T') as Hstuck.
  { intros l t Hin. transition_cases Hin; try lia.
    apply (frame_ends _ _ _ _ _ F) in Hin. lia. }
  split.
  - intros Hw. inversion Hw as [|s t w' x' Ht Hrun|s c t w' x' Ht Hrun]; subst.
    + lia.
    + transition_cases Ht; try lia.
      * refine (run_loop T T' (λ s, lo ≤ s < hi) q0 qf (idx + 1) _ _ Hstuck _ _
                  q0 w (idx + 1) Hrun eq_refl _); [| |lia|lia|lia].
        -- intros s' l t Hs' Hne Hin. transition_cases Hin; try lia.
           split; [done|]. apply (frame_ends _ _ _ _ _ F) in Hin. lia.
        -- intros l t Hin. transition_cases Hin; try lia; try by auto.
           by apply (frame_accept _ _ _ _ _ F) in Hin.
      * apply (frame_ends _ _ _ _ _ F) in Ht. lia.
    + transition_cases Ht. apply (frame_ends _ _ _ _ _ F) in Ht. lia.
  - intros (w1 & w2 & -> & H1 & H2).
    eapply run_eps with (t := q0); [subst T'; set_solver|].
    eapply run_app; [eapply run_mono; [|exact H1]; subst T'; set_solver|].
    eapply loop_run; [| | |exact H2]; subst T'; set_solver.
Qed.

Lemma maybe_language w :
  run ([(q0, EPS, qf)] ++ T) q0 w qf ↔ w = [] ∨ run T q0 w qf.
Proof.
  pose proof (frame_distinct _ _ _ _ _ F) as Hne.
  set (T' := _ ++ T).
  assert (∀ l t, (qf, l, t) ∉ T') as Hstuck.
  { intros l t Hin. transition_cases Hin.
    by apply (frame_accept _ _ _ _ _ F) in Hin. }
  assert (∀ s l t, s ≠ q0 → (s, l, t) ∈ T' → (s, l, t) ∈ T ∧ t ≠ q0) as Hin.
  { intros s l t Hs Hin. transition_cases Hin. split; [done|].
    intros ->. by apply (frame_initial _ _ _ _ _ F) in Hin. }
  split.
  - intros Hw. inversion Hw as [|s t w' x' Ht Hrun|s c t w' x' Ht Hrun]; subst.
    + done.
    + transition_cases Ht.
      * apply run_stuck in Hrun as [-> _]; [|done]. by left.
      * right. eapply run_eps; [done|].
        apply (run_inside T T' (λ s, s ≠ q0)); [done|done|].
        intros ->. by apply (frame_initial _ _ _ _ _ F) in Ht.
    + transition_cases Ht.
      right. eapply run_chr; [done|].
      apply (run_inside T T' (λ s, s ≠ q0)); [done|done|].
      intros ->. by apply (frame_initial _ _ _ _ _ F) in Ht.
  - intros [->|Hrun].
    + eapply run_eps; [|apply run_nil]. subst T'. set_solver.
    + eapply run_mono; [|done]. subst T'. set_solver.
Qed.
End Combinators.

Section Binary.
Variables (lo mid hi : nat) (q1 f1 q2 f2 : nat) (T1 T2 : list (nat * pystr * nat)).
Hypothesis F1 : frame lo mid q1 f1 T1.
Hypothesis F2 : frame mid hi q2 f2 T2.

Lemma concat_language w :
  run ([(f1, EPS, q2)] ++ T1 ++ T2) q1 w f2 ↔
  ∃ w1 w2, w = w1 ++ w2 ∧ run T1 q1 w1 f1 ∧ run T2 q2 w2 f2.
Proof.
  pose proof (frame_q0 _ _ _ _ _ F1) as Rq1. pose proof (frame_qf _ _ _ _ _ F1) as Rf1.
  pose proof (frame_q0 _ _ _ _ _ F2) as Rq2. pose proof (frame_qf _ _ _ _ _ F2) as Rf2.
  set (T' := _ ++ T1 ++ T2).
  split.
  - intros Hrun.
    apply (run_exit T1 T' (λ s, lo ≤ s < mid) f1) in Hrun
      as (w1 & w2 & -> & H1 & H2); [| |lia|lia].
    2:{ intros s l t Hs Hne Hin. transition_cases Hin.
        - split; [done|]. apply (frame_ends _ _ _ _ _ F1) in Hin. lia.
        - apply (frame_ends _ _ _ _ _ F2) in Hin. lia. }
    exists w1, w2. split_and!; [done|done|].
    assert (run T' q2 w2 f2) as Hrest.
    { inversion H2 as [|s t w' x' Ht Hrun|s c t w' x' Ht Hrun]; subst.
      - lia.
      - transition_cases Ht; [done| |].
        + by apply (frame_accept _ _ _ _ _ F1) in Ht.
        + apply (frame_ends _ _ _ _ _ F2) in Ht. lia.
      - transition_cases Ht.
        + by apply (frame_accept _ _ _ _ _ F1) in Ht.
        + apply (frame_ends _ _ _ _ _ F2) in Ht. lia. }
    apply (run_inside T2 T' (λ s, mid ≤ s < hi)); [|done|lia].
    intros s l t Hs Hin. transition_cases Hin; try lia.
    + apply (frame_ends _ _ _ _ _ F1) in Hin. lia.
    + split; [done|]. apply (frame_ends _ _ _ _ _ F2) in Hin. lia.
  - intros (w1 & w2 & -> & H1 & H2).
    eapply run_app; [eapply run_mono; [|exact H1]; subst T'; set_solver|].
    eapply run_eps with (t := q2); [subst T'; set_solver|].
    eapply run_mono; [|exact H2]. subst T'. set_solver.
Qed.

Lemma union_language idx w :
  hi ≤ idx →
  run ([(idx, EPS, q1); (idx, EPS, q2); (f1, EPS, idx + 1); (f2, EPS, idx + 1)]
         ++ T1 ++ T2) idx w (idx + 1) ↔
  run T1 q1 w f1 ∨ run T2 q2 w f2.
Proof.
  intros Hidx.
  pose proof (frame_q0 _ _ _ _ _ F1) as Rq1. pose proof (frame_qf _ _ _ _ _ F1) as Rf1.
  pose proof (frame_q0 _ _ _ _ _ F2) as Rq2. pose proof (frame_qf _ _ _ _ _ F2) as Rf2.
  set (T' := _ ++ T1 ++ T2).
  assert (∀ l t, (idx + 1, l, t) ∉ T') as Hstuck.
  { intros l t Hin. transition_cases Hin; try lia.
    - apply (frame_ends _ _ _ _ _ F1) in Hin. lia.
    - apply (frame_ends _ _ _ _ _ F2) in Hin. lia. }
  assert (∀ w, run T' q1 w (idx + 1) → run T1 q1 w f1) as Hleft.
  { intros w' Hrun.
    apply (run_exit T1 T' (λ s, lo ≤ s < mid) f1) in Hrun
      as (w1 & w2 & -> & H1 & H2); [| |lia|lia].
    2:{ intros s l t Hs Hne Hin. transition_cases Hin; frame_out.
        split; [done|]. apply (frame_ends _ _ _ _ _ F1) in Hin. lia. }
    inversion H2 as [|s t w' x' Ht Hrun|s c t w' x' Ht Hrun]; subst.
    - lia.
    - transition_cases Ht; frame_out.
      apply run_stuck in Hrun as [-> _]; [|done]. by rewrite app_nil_r.
    - transition_cases Ht; frame_out. }
  assert (∀ w, run T' q2 w (idx + 1) → run T2 q2 w f2) as Hright.
  { intros w' Hrun.
    apply (run_exit T2 T' (λ s, mid ≤ s < hi) f2) in Hrun
      as (w1 & w2 & -> & H1 & H2); [| |lia|lia].
    2:{ intros s l t Hs Hne Hin. transition_cases Hin; frame_out.
        split; [done|]. apply (frame_ends _ _ _ _ _ F2) in Hin. lia. }
    inversion H2 as [|s t w' x' Ht Hrun|s c t w' x' Ht Hrun]; subst.
    - lia.
    - transition_cases Ht; frame_out.
      apply run_stuck in Hrun as [-> _]; [|done]. by rewrite app_nil_r.
    - transition_cases Ht; frame_out. }
  split.
  - intros Hw. inversion Hw as [|s t w' x' Ht Hrun|s c t w' x' Ht Hrun]; subst.
    + lia.
    + transition_cases Ht; frame_out.
      * left. by apply Hleft.
      * right. by apply Hright.
    + transition_cases Ht; frame_out.
  - intros [Hrun|Hrun].
    + eapply run_eps with (t := q1); [subst T'; set_solver|].
      rewrite <- (app_nil_r w).
      eapply run_app; [eapply run_mono; [|exact Hrun]; subst T'; set_solver|].
      eapply run_eps; [|apply run_nil]. subst T'. set_solver.
    + eapply run_eps with (t := q2); [subst T'; set_solver|].
      rewrite <- (app_nil_r w).
      eapply run_app; [eapply run_mono; [|exact Hrun]; subst T'; set_solver|].
      eapply run_eps; [|apply run_nil]. subst T'. set_solver.
Qed.
End Binary.

(** ** The automaton of a tree accepts the words of the tree *)

Lemma lang_unfold root w :
  lang root w =
  if NFA.isAtom (token root) then
    (token root = EPS ∧ w = []) ∨ (∃ c, token root = [c] ∧ w = [c])
  else if str_eqb (token root) AST.STAR_kw then
    match children root with
    | kid :: _ => starOf (lang kid) w
    | [] => False
    end
  else if str_eqb (token root) AST.PLUS_kw then
    match children root with
    | kid :: _ => ∃ w1 w2, w = w1 ++ w2 ∧ lang kid w1 ∧ starOf (lang kid) w2
    | [] => False
    end
  else if str_eqb (token root) AST.MAYBE_kw then
    match children root with
    | kid :: _ => w = [] ∨ lang kid w
    | [] => False
    end
  else if str_eqb (token root) AST.CONCAT_kw then
    match children root with
    | kid1 :: kid2 :: _ => ∃ w1 w2, w = w1 ++ w2 ∧ lang kid1 w1 ∧ lang kid2 w2
    | _ => False
    end
  else if str_eqb (token root) AST.UNION_kw then
    match children root with
    | kid1 :: kid2 :: _ => lang kid1 w ∨ lang kid2 w
    | _ => False
    end
  else False.
Proof. by destruct root. Qed.

Lemma fromAST_runs shared root : ∀ idx nfa idx',
  NFA.fromAST shared root idx = Ok (Some nfa, idx') →
  ∀ w, run (nfa_transitions nfa) (nfa_q0 nfa) w (nfa_qf nfa) ↔ lang root w.
Proof.
  induction root as [tok n kids IH] using Node_ind'. intros idx nfa idx' H w.
  revert H. rewrite fromAST_unfold, lang_unfold. cbn [token children].
  destruct (NFA.isAtom tok).
  { intros [= <- <-]. apply atom_language. }
  destruct (str_eqb tok AST.STAR_kw).
  { destruct kids as [|kid kids]; [done|]. apply Forall_cons in IH as [IH _].
    destruct (NFA.fromAST shared kid idx) as [[[nfa1|] idx1]|] eqn:E1; [|done..].
    cbn. intros [= <- <-]. cbn.
    etrans; [exact (star_language _ _ _ _ _ (fromAST_frame _ _ _ _ _ E1) idx1 w
                      (le_n _))|].
    apply starOf_ext. intros w'. by eapply IH. }
  destruct (str_eqb tok AST.PLUS_kw).
  { destruct kids as [|kid kids]; [done|]. apply Forall_cons in IH as [IH _].
    destruct (NFA.fromAST shared kid idx) as [[[nfa1|] idx1]|] eqn:E1; [|done..].
    cbn. intros [= <- <-]. cbn.
    etrans; [exact (plus_language _ _ _ _ _ (fromAST_frame _ _ _ _ _ E1) idx1 w
                      (le_n _))|].
    split; intros (w1 & w2 & -> & H1 & H2); exists w1, w2; (split; [done|]).
    - split; [by eapply IH|]. eapply starOf_ext; [|exact H2].
      intros w'. symmetry. by eapply IH.
    - split; [by eapply IH|]. eapply starOf_ext; [|exact H2].
      intros w'. by eapply IH. }
  destruct (str_eqb tok AST.MAYBE_kw).
  { destruct kids as [|kid kids]; [done|]. apply Forall_cons in IH as [IH _].
    destruct (NFA.fromAST shared kid idx) as [[[nfa1|] idx1]|] eqn:E1; [|done..].
    cbn. intros [= <- <-]. cbn.
    etrans; [exact (maybe_language _ _ _ _ _ (fromAST_frame _ _ _ _ _ E1) w)|].
    by rewrite (IH _ _ _ E1). }
  destruct (str_eqb tok AST.CONCAT_kw).
  { destruct kids as [|kid1 kids]; [done|]. apply Forall_cons in IH as [IH1 IH].
    destruct (NFA.fromAST shared kid1 idx) as [[nfa1 idx1]|] eqn:E1; [|done].
    cbn. destruct kids as [|kid2 kids]; [done|]. apply Forall_cons in IH as [IH2 _].
    destruct (NFA.fromAST shared kid2 idx1) as [[nfa2 idx2]|] eqn:E2; [|done].
    cbn. destruct nfa1 as [nfa1|]; [|done]. destruct nfa2 as [nfa2|]; [|done].
    cbn. intros [= <- <-]. cbn.
    etrans; [exact (concat_language _ _ _ _ _ _ _ _ _ (fromAST_frame _ _ _ _ _ E1)
                      (fromAST_frame _ _ _ _ _ E2) w)|].
    split; intros (w1 & w2 & -> & H1 & H2); exists w1, w2; (split; [done|]).
    - split; [by eapply IH1|by eapply IH2].
    - split; [by eapply IH1|by eapply IH2]. }
  destruct (str_eqb tok AST.UNION_kw).
  { destruct kids as [|kid1 kids]; [done|]. apply Forall_cons in IH as [IH1 IH].
    destruct (NFA.fromAST shared kid1 idx) as [[nfa1 idx1]|] eqn:E1; [|done].
    cbn. destruct kids as [|kid2 kids]; [done|]. apply Forall_cons in IH as [IH2 _].
    destruct (NFA.fromAST shared kid2 idx1) as [[nfa2 idx2]|] eqn:E2; [|done].
    cbn. destruct nfa1 as [nfa1|]; [|done]. destruct nfa2 as [nfa2|]; [|done].
    cbn. intros [= <- <-]. cbn.
    etrans; [exact (union_language _ _ _ _ _ _ _ _ _ (fromAST_frame _ _ _ _ _ E1)
                      (fromAST_frame _ _ _ _ _ E2) idx2 w (le_n _))|].
    by rewrite (IH1 _ _ _ E1), (IH2 _ _ _ E2). }
  done.
Qed.

Lemma fromAST_words shared root idx nfa idx' :
  NFA.fromAST shared root idx = Ok (Some nfa, idx') →
  ∀ w, nfaAccepts nfa w ↔ lang root w.
Proof.
  intros H w. unfold nfaAccepts. rewrite nfaRun_run. by eapply fromAST_runs.
Qed.

(** X23. Thompson's construction as [fromAST] carries it out is correct:
    the automaton built for a tree has a path from its initial to its
    accept state spelling a word exactly when the tree stands for the word
    ([eps] for the empty word, a character for itself, [STAR], [PLUS],
    [MAYBE], [CONCAT] and [UNION] for repetition, repetition at least once,
    option, concatenation and union). *)
Theorem fromAST_accepts_the_words_of_the_tree
    (shared : gmap nat (gset nat)) (root : Node) (idx idx' : nat) (nfa : NFA) :
  NFA.fromAST shared root idx = Ok (Some nfa, idx') →
  ∀ word, nfaAccepts nfa word ↔ lang root word.
Proof. apply fromAST_words. Qed.

Lemma fromAST_accepts_the_words_of_the_tree_witness :
  let root := mkNode (py "CONCAT") 2
                [AST.createNode (py "a");
                 mkNode (py "STAR") 1 [AST.createNode (py "b")]] in
  ∃ nfa, NFA.fromAST ∅ root 0 = Ok (Some nfa, 6) ∧
         ∀ word, nfaAccepts nfa word ↔ lang root word.
Proof.
  eexists. split; [reflexivity|].
  apply (fromAST_accepts_the_words_of_the_tree ∅ _ 0 6). reflexivity.
Defined.

Lemma fromPrenex_words shared prenex root :
  AST.parse prenex = Ok (Some root) → regexTree root →
  ∃ dfa, DFA.fromPrenex shared prenex = Ok dfa ∧
    ∀ word, DFA.accepts dfa word = true ↔ lang root word.
Proof.
  intros Hparse Htree.
  destruct (regexTree_fromAST shared root Htree 0) as (nfa0 & hi & H0).
  destruct (fromRoot_total shared root nfa0 hi H0) as (nfa & Hnfa & Hq0 & Hqf & _ & Htr).
  destruct (fromNFA_language shared root nfa Hnfa) as (dfa & Hdfa & Hacc).
  exists dfa. split.
  - unfold DFA.fromPrenex, NFA.fromPrenex. rewrite Hparse.
    cbn [mbind result_bind]. rewrite Hnfa. by cbn [mbind result_bind].
  - intros word. rewrite Hacc, <- (fromAST_words _ _ _ _ _ H0).
    unfold nfaAccepts. by rewrite !nfaRun_run, Hq0, Hqf, Htr.
Qed.

(** X24. The deterministic automaton [DFA.fromPrenex] builds from a prenex
    string accepts exactly the words its tree stands for: parsing,
    Thompson's construction, the closures, the subset construction, the
    numbering and the sink together keep the language of the expression. *)
Theorem fromPrenex_accepts_the_words_of_the_expression
    (shared : gmap nat (gset nat)) (prenex : pystr) (root : Node) :
  AST.parse prenex = Ok (Some root) → regexTree root →
  ∃ dfa, DFA.fromPrenex shared prenex = Ok dfa ∧
    ∀ word, DFA.accepts dfa word = true ↔ lang root word.
Proof. apply fromPrenex_words. Qed.

Lemma fromPrenex_accepts_the_words_of_the_expression_witness :
  let root := mkNode (py "UNION") 2
                [mkNode (py "a") 0 []; mkNode (py "PLUS") 1 [mkNode (py "b") 0 []]] in
  ∃ dfa, DFA.fromPrenex ∅ (py "UNION a PLUS b") = Ok dfa ∧
    ∀ word, DFA.accepts dfa word = true ↔ lang root word.
Proof.
  apply (fromPrenex_accepts_the_words_of_the_expression ∅ (py "UNION a PLUS b")).
  - reflexivity.
  - apply regexTree_binary; [set_solver| |].
    + by apply regexTree_atom.
    + apply regexTree_unary; [set_solver|]. by apply regexTree_atom.
Defined.

(** ** The tokens of the lexer and the expressions of its categories *)

(** When [DFA.fromPrenex] returns, the prenex string has a tree, and the
    automaton accepts the words of that tree. *)
Lemma fromPrenex_tree shared prenex dfa :
  DFA.fromPrenex shared prenex = Ok dfa →
  ∃ root, AST.parse prenex = Ok (Some root) ∧ regexTree root ∧
    ∀ word, DFA.accepts dfa word = true ↔ lang root word.
Proof.
  intros H.
  assert (∃ root nfa0 hi, AST.parse prenex = Ok (Some root)
                          ∧ NFA.fromAST shared root 0 = Ok (Some nfa0, hi))
    as (root & nfa0 & hi & Hparse & H0).
  { revert H. unfold DFA.fromPrenex, NFA.fromPrenex.
    destruct (AST.parse prenex) as [[root|]|];
      cbn [mbind result_bind NFA.fromRoot]; [|done..].
    destruct (NFA.fromAST shared root 0) as [[[nfa0|] hi]|] eqn:E; cbn; [|done..].
    intros _. by exists root, nfa0, hi. }
  assert (regexTree root) as Htree by (by eapply fromAST_regexTree).
  destruct (fromPrenex_words shared prenex root Hparse Htree) as (dfa' & Hdfa & Hacc).
  rewrite H in Hdfa. injection Hdfa as <-. by exists root.
Qed.

Lemma lex_regex shared shared' configurations_ref h d self word output :
  h !! configurations_ref = Some d →
  NoDup d.*1 →
  (Lexer.init shared configurations_ref h).2 = Ok (self, shared') →
  Lexer.lex self word = Ok (Tokens output) →
  Forall (λ e, ∃ tok regex prenex root,
            e.1 = Some tok ∧ (tok, regex) ∈ d ∧
            Parser.toPrenex (Lexer.escape regex) = Ok prenex ∧
            AST.parse prenex = Ok (Some root) ∧
            lang root e.2) output.
Proof.
  intros Hl Hnd Hinit Hlex.
  destruct (init_entries _ _ _ _ _ _ Hl Hnd Hinit) as (Hkeys & _ & Hall).
  apply lexLoop_emitted in Hlex as [_ Hem]; [|lia|done|done].
  eapply Forall_impl; [exact Hem|]. intros e (_ & tok & dfa & He & Hin & Hacc).
  apply list_elem_of_lookup_1 in Hin as [i Hi].
  destruct (Forall2_lookup_l _ _ _ _ _ Hall Hi) as ([tok' regex] & Hd & sh & dfa0 & Hc & Heq).
  assert (tok' = tok) as ->.
  { assert ((dfas self).*1 !! i = Some tok) as H1 by (by rewrite list_lookup_fmap, Hi).
    assert (d.*1 !! i = Some tok') as H2 by (by rewrite list_lookup_fmap, Hd).
    rewrite Hkeys, H2 in H1. by injection H1. }
  cbn [fst snd] in Hc, Heq. unfold compile in Hc.
  destruct (Parser.toPrenex (Lexer.escape regex)) as [prenex|] eqn:Ep; [|done].
  cbn [mbind result_bind] in Hc.
  destruct (fromPrenex_tree _ _ _ Hc) as (root & Hparse & _ & Hlang).
  exists tok, regex, prenex, root. split_and!; [done| |done|done|].
  - by eapply list_elem_of_lookup_2.
  - apply Hlang. by rewrite <- Heq.
Qed.

(** X25. The tokens of a lexer built by the constructor match the
    expressions of their categories: when [lex] returns a list of tokens,
    every token carries a category of the configurations, and its lexeme is
    one of the words the tree stands for that is parsed from the prenex
    form [toPrenex] gives the escaped regex of that category. *)
Theorem lex_tokens_match_the_regex_of_their_category
    (shared shared' : gmap nat (gset nat)) (configurations_ref : nat) (h : store)
    (d : configs) (self : Lexer) (word : pystr)
    (output : list (option pystr * pystr)) :
  h !! configurations_ref = Some d →
  NoDup d.*1 →
  (Lexer.init shared configurations_ref h).2 = Ok (self, shared') →
  Lexer.lex self word = Ok (Tokens output) →
  Forall (λ e, ∃ tok regex prenex root,
            e.1 = Some tok ∧ (tok, regex) ∈ d ∧
            Parser.toPrenex (Lexer.escape regex) = Ok prenex ∧
            AST.parse prenex = Ok (Some root) ∧
            lang root e.2) output.
Proof. apply lex_regex. Qed.

Lemma lex_tokens_match_the_regex_of_their_category_witness :
  let d := [(py "AB", py "ab"); (py "C", py "c*")] in
  match (Lexer.init ∅ 0 {[0 := d]}).2 with
  | Ok (self, _) =>
    match Lexer.lex self (py "abcc") with
    | Ok (Tokens output) =>
      output = [(Some (py "AB"), py "ab"); (Some (py "C"), py "cc")] ∧
      Forall (λ e, ∃ tok regex prenex root,
                e.1 = Some tok ∧ (tok, regex) ∈ d ∧
                Parser.toPrenex (Lexer.escape regex) = Ok prenex ∧
                AST.parse prenex = Ok (Some root) ∧
                lang root e.2) output
    | _ => False
    end
  | Raise _ => False
  end.
Proof.
  intros d.
  destruct (Lexer.init ∅ 0 {[0 := d]}).2 as [[self shared']|e] eqn:E;
    [|vm_compute in E; discriminate].
  destruct (Lexer.lex self (py "abcc")) as [[output|msg]|e] eqn:El.
  - split.
    + vm_compute in E. injection E as <- _. vm_compute in El. by injection El as <-.
    + apply (lex_tokens_match_the_regex_of_their_category
               ∅ shared' 0 {[0 := d]} d self (py "abcc") output);
        [reflexivity| |exact E|exact El].
      apply (bool_decide_unpack _). vm_compute. exact I.
  - vm_compute in E. injection E as <- _. vm_compute in El. discriminate.
  - vm_compute in E. injection E as <- _. vm_compute in El. discriminate.
Defined.

(** ** Reading a prenex string back as a tree *)

Lemma parse_preorder toks root rest :
  wellFormed root → Forall plainOrQuoted toks →
  unquote <$> toks = preorder root ++ rest →
  AST.parse (Str.join [space] toks) = Ok (Some root).
Proof.
  intros Hwf Hall Htoks. unfold AST.parse. rewrite customSplit_map.
  destruct toks as [|tok toks]; [by destruct root|].
  apply Forall_cons in Hall as [Htok Hall]. rewrite splitLoop_join by done.
  cbn [app]. rewrite Htoks. unfold AST.fromPrenex.
  rewrite fromPrenexFuel_complete; [by destruct root|done|].
  pose proof (height_le_preorder root). rewrite length_app. lia.
Qed.

(** X26. Reading a prenex string back.  When the tokens of the prefix form
    of a tree all of whose declared children are built (each node before
    its children, a character that is a space written between quotes) are
    joined with spaces, the constructor of [AST], [fromPrenex] and
    [getRoot] return that tree; tokens after the prefix form are left
    unread, and [getRoot] does not return [None]. *)
Theorem parse_reads_back_the_prefix_form
    (toks : list pystr) (root : Node) (rest : list pystr) :
  wellFormed root → Forall plainOrQuoted toks →
  unquote <$> toks = preorder root ++ rest →
  AST.parse (Str.join [space] toks) = Ok (Some root).
Proof. apply parse_preorder. Qed.

Lemma parse_reads_back_the_prefix_form_witness :
  AST.parse (py "UNION a ' ' b")
    = Ok (Some (mkNode (py "UNION") 2 [mkNode (py "a") 0 []; mkNode (py " ") 0 []])).
Proof.
  apply (parse_reads_back_the_prefix_form
           [py "UNION"; py "a"; py "' '"; py "b"] _ [py "b"]).
  - apply (wellFormed_node (py "UNION")
             [mkNode (py "a") 0 []; mkNode (py " ") 0 []]); [done|].
    apply Forall_cons. split; [by apply (wellFormed_node (py "a") [])|].
    apply Forall_cons. split; [by apply (wellFormed_node (py " ") [])|].
    apply Forall_nil_2.
  - apply Forall_cons. split;
      [left; split; apply (bool_decide_unpack _); vm_compute; exact I|].
    apply Forall_cons. split;
      [left; split; apply (bool_decide_unpack _); vm_compute; exact I|].
    apply Forall_cons. split; [right; exists space; split; [done|reflexivity]|].
    apply Forall_cons. split;
      [left; split; apply (bool_decide_unpack _); vm_compute; exact I|].
    apply Forall_nil_2.
  - reflexivity.
Defined.

(** ** What [lex] selects and emits *)

(** The round that finds no candidate fails. *)
Lemma round_none (self : Lexer) word start_idx :
  NoDup (dfas self).*1 →
  Forall (λ entry, endpoints entry.2 word start_idx = []) (dfas self) →
  ∃ msg, Lexer.round self word start_idx = inr msg.
Proof.
  intros Hnd Hall. unfold Lexer.round.
  pose proof (scan_recorded self word start_idx Hnd) as Hscan.
  destruct (Lexer.scan _ _ _ _ _ _ _) as [matches failed]. cbn [fst] in Hscan.
  subst matches.
  assert (recorded (dfas self) word start_idx = []) as ->.
  { clear Hnd. unfold recorded. induction Hall as [|entry l He _ IH]; [done|].
    cbn [omap list_omap]. rewrite He. exact IH. }
  rewrite getLongestMatch_longest. rewrite bool_decide_eq_true_2 by done. eauto.
Qed.

Lemma endpoints_range dfa word start idx :
  idx ∈ endpoints dfa word start → start ≤ idx < length word.
Proof.
  unfold endpoints. intros H. destruct (decide (start ≤ length word)) as [Hle|Hgt].
  - apply endpointsFrom_accepts in H as [Hr _]. rewrite length_drop in Hr. lia.
  - rewrite drop_ge in H by lia. by apply elem_of_nil in H.
Qed.

Lemma selected_candidate self word start e :
  selected self word start e →
  Exists (λ entry, endpoints entry.2 word start ≠ []) (dfas self).
Proof.
  intros (earlier & tok & dfa & later & idx & Hdfas & Hidx & _).
  apply Exists_exists. exists (tok, dfa). split; [rewrite Hdfas; set_solver|].
  cbn [snd]. intros Hnil. rewrite Hnil in Hidx. by apply elem_of_nil in Hidx.
Qed.

Lemma selected_length self word start e :
  selected self word start e → 0 < length e.2 ∧ start + length e.2 ≤ length word.
Proof.
  intros (earlier & tok & dfa & later & idx & _ & Hidx%endpoints_range & _ & _ & ->).
  cbn [snd]. rewrite length_take, length_drop. lia.
Qed.

Section Select.
Variable self : Lexer.
Hypothesis keys : NoDup (dfas self).*1.

Lemma no_candidate word start :
  ¬ Exists (λ entry, endpoints entry.2 word start ≠ []) (dfas self) →
  Forall (λ entry, endpoints entry.2 word start = []) (dfas self).
Proof.
  intros Hall. apply not_Exists_Forall in Hall; [|intros x; apply _].
  eapply Forall_impl; [exact Hall|]. intros x Hx. by apply dec_stable.
Qed.

(** What a round emits is the selected token, and the next round starts
    behind its lexeme. *)
Lemma round_selected word start e start' :
  Lexer.round self word start = inl (e, start') →
  selected self word start e ∧ start' = start + length e.2.
Proof.
  intros Hround.
  destruct (decide (Exists (λ entry : pystr * DFA nat,
                              endpoints entry.2 word start ≠ []) (dfas self)))
    as [Hex|Hall].
  - destruct (round_longest _ _ _ keys Hex)
      as (earlier & tok & dfa & later & idx & Hdfas & Hidx & Hmax & Hearlier & Hr).
    rewrite Hr in Hround. injection Hround as <- <-.
    split; [by exists earlier, tok, dfa, later, idx|].
    apply endpoints_range in Hidx. cbn [snd]. rewrite length_take, length_drop. lia.
  - apply no_candidate in Hall.
    destruct (round_none _ _ _ keys Hall) as [msg Hmsg]. by rewrite Hmsg in Hround.
Qed.

(** The selected token is what the round emits: no other token is
    selected at the position. *)
Lemma selected_round word start e :
  selected self word start e →
  Lexer.round self word start = inl (e, start + length e.2).
Proof.
  intros Hsel. pose proof (selected_candidate _ _ _ _ Hsel) as Hex.
  destruct Hsel as (earlier & tok & dfa & later & idx & Hdfas & Hidx & Hmax
                    & Hearlier & ->).
  destruct (round_longest _ _ _ keys Hex)
    as (earlier' & tok' & dfa' & later' & idx' & Hdfas' & Hidx' & Hmax' & Hearlier' & Hr).
  assert ((tok, dfa) ∈ dfas self) as Hin by (rewrite Hdfas; set_solver).
  assert ((tok', dfa') ∈ dfas self) as Hin' by (rewrite Hdfas'; set_solver).
  assert (idx' = idx) as ->.
  { rewrite Forall_forall in Hmax, Hmax'.
    specialize (Hmax _ Hin'). specialize (Hmax' _ Hin). cbn [snd] in Hmax, Hmax'.
    rewrite Forall_forall in Hmax, Hmax'.
    specialize (Hmax _ Hidx'). specialize (Hmax' _ Hidx). lia. }
  assert (length earlier = length earlier') as Hpos.
  { destruct (Nat.lt_trichotomy (length earlier) (length earlier')) as [Hl|[Hl|Hl]];
      [exfalso|done|exfalso].
    - assert (dfas self !! length earlier = Some (tok, dfa)) as Hl1
        by (by rewrite Hdfas, list_lookup_middle).
      rewrite Hdfas', lookup_app_l in Hl1 by done.
      apply list_elem_of_lookup_2 in Hl1.
      eapply Forall_forall in Hearlier'; [|exact Hl1]. done.
    - assert (dfas self !! length earlier' = Some (tok', dfa')) as Hl1
        by (by rewrite Hdfas', list_lookup_middle).
      rewrite Hdfas, lookup_app_l in Hl1 by done.
      apply list_elem_of_lookup_2 in Hl1.
      eapply Forall_forall in Hearlier; [|exact Hl1]. done. }
  rewrite Hdfas in Hdfas'. apply app_inj_1 in Hdfas' as [_ [= <- <- _]]; [|done].
  rewrite Hr. apply endpoints_range in Hidx. cbn [snd].
  rewrite length_take, length_drop. do 2 f_equal. lia.
Qed.

Lemma selections_inv word start new stop :
  selections self word start new stop →
  (new = [] ∧ stop = start) ∨
  (∃ e output, new = e :: output ∧ start < length word ∧
     selected self word start e ∧
     selections self word (start + length e.2) output stop).
Proof.
  destruct 1 as [|start e output stop Hlt He Hrest]; [by left|].
  right. by exists e, output.
Qed.

Lemma selections_snoc word start output stop e :
  selections self word start output stop →
  stop < length word → selected self word stop e →
  selections self word start (output ++ [e]) (stop + length e.2).
Proof.
  induction 1 as [start|start e' output stop Hlt He' _ IH]; intros Hstop He.
  - apply selections_cons; [done|done|apply selections_nil].
  - cbn [app]. apply selections_cons; [done|done|by apply IH].
Qed.

(** The loop of [lex] returns the tokens of the run of selections that
    reaches the end of the word, and a message when the run reaches a
    position where no category records a candidate. *)
Lemma lexLoop_selections word fuel : ∀ start out,
  length word - start < fuel →
  (∀ output,
     Lexer.lexLoop fuel self word start out = Ok (Tokens output) ↔
     ∃ new stop, output = out ++ new ∧ selections self word start new stop
                 ∧ length word ≤ stop) ∧
  ((∃ msg, Lexer.lexLoop fuel self word start out = Ok (Message msg)) ↔
   ∃ new stop, selections self word start new stop ∧ stop < length word ∧
     Forall (λ entry, endpoints entry.2 word stop = []) (dfas self)).
Proof.
  induction fuel as [|fuel IH]; intros start out Hfuel; [lia|].
  cbn [Lexer.lexLoop]. case_bool_decide as Hlt.
  - destruct (Lexer.round self word start) as [[e start']|msg] eqn:Er.
    + destruct (round_selected _ _ _ _ Er) as [Hsel ->].
      destruct (selected_length _ _ _ _ Hsel) as [Hpos Hend].
      destruct (IH (start + length e.2) (out ++ [e])) as [IHt IHm]; [lia|].
      split.
      * intros output. rewrite IHt. split.
        -- intros (new & stop & -> & Hnew & Hstop). exists (e :: new), stop.
           rewrite <- app_assoc. split_and!; [done| |done].
           by apply selections_cons.
        -- intros (new & stop & -> & Hnew & Hstop).
           apply selections_inv in Hnew
             as [[-> ->]|(e' & output' & -> & _ & Hsel' & Hrest)]; [lia|].
           pose proof (selected_round _ _ _ Hsel') as Hr'. rewrite Er in Hr'.
           injection Hr' as <- _. exists output', stop.
           by rewrite <- app_assoc.
      * rewrite IHm. split.
        -- intros (new & stop & Hnew & Hstop & Hnone). exists (e :: new), stop.
           split_and!; [|done..]. by apply selections_cons.
        -- intros (new & stop & Hnew & Hstop & Hnone).
           apply selections_inv in Hnew
             as [[-> ->]|(e' & output' & -> & _ & Hsel' & Hrest)].
           ++ apply selected_candidate, Exists_exists in Hsel as (entry & Hin & Hne).
              eapply Forall_forall in Hnone; [|exact Hin]. done.
           ++ pose proof (selected_round _ _ _ Hsel') as Hr'. rewrite Er in Hr'.
              injection Hr' as <- _. by exists output', stop.
    + assert (Forall (λ entry, endpoints entry.2 word start = []) (dfas self)) as Hnone.
      { apply no_candidate. intros Hex.
        destruct (round_longest _ _ _ keys Hex) as (? & ? & ? & ? & ? & _ & _ & _ & _ & Hr).
        by rewrite Hr in Er. }
      split.
      * intros output. split; [done|]. intros (new & stop & _ & Hnew & Hstop).
        apply selections_inv in Hnew
          as [[-> ->]|(e' & output' & -> & _ & Hsel' & Hrest)]; [lia|].
        pose proof (selected_round _ _ _ Hsel') as Hr'. by rewrite Er in Hr'.
      * split; [|by eauto]. intros _. exists [], start.
        split_and!; [apply selections_nil|done|done].
  - split.
    + intros output. split.
      * intros [= <-]. exists [], start. rewrite app_nil_r.
        split_and!; [done|apply selections_nil|lia].
      * intros (new & stop & -> & Hnew & Hstop).
        apply selections_inv in Hnew
          as [[-> ->]|(e' & output' & -> & Hlt' & _)]; [|done].
        by rewrite app_nil_r.
    + split; [by intros [msg ?]|]. intros (new & stop & Hnew & Hstop & _).
      apply selections_inv in Hnew as [[-> ->]|(e' & output' & -> & Hlt' & _)]; done.
Qed.

Lemma lex_selections word :
  (∀ output,
     Lexer.lex self word = Ok (Tokens output) ↔
     ∃ stop, selections self word 0 output stop ∧ length word ≤ stop) ∧
  ((∃ msg, Lexer.lex self word = Ok (Message msg)) ↔
   ∃ output stop, selections self word 0 output stop ∧ stop < length word ∧
     Forall (λ entry, endpoints entry.2 word stop = []) (dfas self)) ∧
  (∀ output stop,
     selections self word 0 output stop → stop < length word →
     Exists (λ entry, endpoints entry.2 word stop ≠ []) (dfas self) →
     ∃ e, selected self word stop e ∧
          selections self word 0 (output ++ [e]) (stop + length e.2)).
Proof.
  destruct (lexLoop_selections word (S (length word)) 0 []) as [Ht Hm]; [lia|].
  split_and!.
  - intros output. unfold Lexer.lex. rewrite Ht. split.
    + intros (new & stop & -> & H). by exists stop.
    + intros (stop & H). by exists output, stop.
  - exact Hm.
  - intros output stop Hrun Hstop Hex.
    destruct (round_longest _ _ _ keys Hex)
      as (earlier & tok & dfa & later & idx & Hdfas & Hidx & Hmax & Hearlier & _).
    eexists. split; [by exists earlier, tok, dfa, later, idx|].
    apply selections_snoc; [done|done|]. by exists earlier, tok, dfa, later, idx.
Qed.
End Select.

(** C3. What [lex] returns is made of the selections.  For a lexer whose
    categories are distinct, [lex] returns a list of tokens exactly when
    the list is the run of selections from the start of the word to its
    end: every token ends at the greatest endpoint any category recorded
    at the position where the token before it ended, its category is the
    first one of the configuration that recorded that endpoint, and the
    next token starts behind it.  [lex] returns a message exactly when the
    run reaches a position inside the word where no category records a
    candidate; at every position the run reaches where some category
    records one, a token is selected and the run goes on with it. *)
Theorem lex_emits_longest_then_earliest (self : Lexer) (word : pystr) :
  NoDup (dfas self).*1 →
  (∀ output,
     Lexer.lex self word = Ok (Tokens output) ↔
     ∃ stop, selections self word 0 output stop ∧ length word ≤ stop) ∧
  ((∃ msg, Lexer.lex self word = Ok (Message msg)) ↔
   ∃ output stop, selections self word 0 output stop ∧ stop < length word ∧
     Forall (λ entry, endpoints entry.2 word stop = []) (dfas self)) ∧
  (∀ output stop,
     selections self word 0 output stop → stop < length word →
     Exists (λ entry, endpoints entry.2 word stop ≠ []) (dfas self) →
     ∃ e, selected self word stop e ∧
          selections self word 0 (output ++ [e]) (stop + length e.2)).
Proof. intros Hkeys. by apply lex_selections. Qed.

Lemma lex_emits_longest_then_earliest_witness :
  ∃ self,
    lexerOf [(py "IF", py "if"); (py "ID", py "[f-i]+")] = Ok self ∧
    Lexer.lex self (py "iffi") = Ok (Tokens [(Some (py "ID"), py "iffi")]) ∧
    Lexer.lex self (py "if") = Ok (Tokens [(Some (py "IF"), py "if")]) ∧
    (∀ output,
       Lexer.lex self (py "if") = Ok (Tokens output) ↔
       ∃ stop, selections self (py "if") 0 output stop ∧ length (py "if") ≤ stop) ∧
    ((∃ msg, Lexer.lex self (py "if") = Ok (Message msg)) ↔
     ∃ output stop, selections self (py "if") 0 output stop ∧ stop < length (py "if") ∧
       Forall (λ entry, endpoints entry.2 (py "if") stop = []) (dfas self)) ∧
    (∀ output stop,
       selections self (py "if") 0 output stop → stop < length (py "if") →
       Exists (λ entry, endpoints entry.2 (py "if") stop ≠ []) (dfas self) →
       ∃ e, selected self (py "if") stop e ∧
            selections self (py "if") 0 (output ++ [e]) (stop + length e.2)).
Proof.
  eexists. split; [vm_compute; reflexivity|]. split; [vm_compute; reflexivity|].
  split; [vm_compute; reflexivity|].
  apply lex_emits_longest_then_earliest.
  apply (bool_decide_unpack _). vm_compute. exact I.
Defined.

(** ** The longest-match rule ([Lexer.lex]) *)

Lemma acceptsFrom_sink dfa sink :
  absorbing dfa → dfa_sink dfa = Some sink →
  ∀ w, DFA.acceptsFrom dfa sink w = false.
Proof.
  intros Habs Hsink. destruct (Habs sink Hsink) as [Hfin Hloop].
  induction w as [|c w IH]; cbn [DFA.acceptsFrom].
  - unfold DFA.isFinal. by apply bool_decide_eq_false_2.
  - by destruct (Hloop [c]) as [-> | ->].
Qed.

(** The walk of [lex] stops at the sink, and loses no match by it. *)
Lemma endpointsFrom_complete dfa rest :
  absorbing dfa → ∀ idx st n,
  n < length rest →
  DFA.acceptsFrom dfa st (take (S n) rest) = true →
  idx + n ∈ endpointsFrom dfa rest idx st.
Proof.
  intros Habs. induction rest as [|c rest IH]; intros idx st n Hn; cbn in Hn; [lia|].
  cbn [take DFA.acceptsFrom endpointsFrom].
  destruct (DFA.next dfa st [c]) as [st'|] eqn:E; [|done].
  destruct n as [|n].
  - rewrite take_0. cbn [DFA.acceptsFrom]. unfold DFA.isFinal.
    intros Hfin%bool_decide_eq_true. rewrite bool_decide_eq_true_2 by done.
    rewrite Nat.add_0_r. apply elem_of_app. left. by left.
  - intros Hacc. apply elem_of_app. right. case_bool_decide as Hsink.
    + by rewrite (acceptsFrom_sink dfa st') in Hacc.
    + replace (idx + S n) with (S idx + n) by lia. apply IH; [lia|done].
Qed.

Lemma endpoints_accepts dfa word start idx :
  absorbing dfa →
  idx ∈ endpoints dfa word start ↔
  start ≤ idx < length word ∧
  DFA.accepts dfa (take (idx + 1 - start) (drop start word)) = true.
Proof.
  intros Habs. unfold endpoints, DFA.accepts. split.
  - intros H. destruct (decide (start ≤ length word)) as [Hle|Hgt].
    + apply endpointsFrom_accepts in H as [Hr Hacc].
      rewrite length_drop in Hr. split; [lia|done].
    + rewrite drop_ge in H by lia. by apply elem_of_nil in H.
  - intros [Hr Hacc].
    replace idx with (start + (idx - start)) at 1 by lia.
    apply endpointsFrom_complete; [done|rewrite length_drop; lia|].
    by replace (S (idx - start)) with (idx + 1 - start) by lia.
Qed.

Section Munch.
Variable self : Lexer.
Hypothesis keys : NoDup (dfas self).*1.
Hypothesis sinks : Forall (λ entry, absorbing entry.2) (dfas self).

Lemma absorbing_entry tok dfa : (tok, dfa) ∈ dfas self → absorbing dfa.
Proof. intros Hin. rewrite Forall_forall in sinks. exact (sinks _ Hin). Qed.

(** What a round emits is the token of the longest-match rule. *)
Lemma round_munch word start e start' :
  start < length word →
  Lexer.round self word start = inl (e, start') →
  maximalMunch self (drop start word) e ∧ start' = start + length e.2.
Proof.
  intros Hlt Hround.
  destruct (round_emitted _ _ _ _ _ Hlt Hround) as (Hs' & He2 & Hne & _).
  assert (Exists (λ entry, endpoints entry.2 word start ≠ []) (dfas self)) as Hex.
  { destruct (decide (Exists (λ entry : pystr * DFA nat,
                                endpoints entry.2 word start ≠ []) (dfas self)))
      as [Hex|Hall]; [done|exfalso].
    apply not_Exists_Forall in Hall; [|intros x; apply _].
    apply Forall_impl with (Q := λ entry, endpoints entry.2 word start = []) in Hall;
      [|intros x Hx; by apply dec_stable].
    destruct (round_none _ _ _ keys Hall) as [msg Hmsg]. by rewrite Hmsg in Hround. }
  destruct (round_longest _ _ _ keys Hex)
    as (earlier & tok & dfa & later & idx & Hdfas & Hidx & Hmax & Hearlier & Hr).
  rewrite Hr in Hround. injection Hround as <- <-. cbn [fst snd] in *.
  assert ((tok, dfa) ∈ dfas self) as Hin by (rewrite Hdfas; set_solver).
  apply (endpoints_accepts dfa word start idx (absorbing_entry _ _ Hin)) in Hidx
    as [Hrange Hacc].
  assert (length (take (idx + 1 - start) (drop start word)) = idx + 1 - start) as Hlen.
  { rewrite length_take, length_drop. lia. }
  split; [|rewrite Hlen; lia].
  exists earlier, tok, dfa, later. cbn [fst snd]. rewrite Hlen.
  split_and!; [done|done|done|apply prefix_take|done| |].
  - apply Forall_forall. intros [tok2 dfa2] Hin2.
    eapply Forall_forall in Hearlier; [|exact Hin2]. cbn [snd] in *.
    apply not_true_is_false. intros Hacc2. apply Hearlier.
    apply endpoints_accepts; [|done].
    apply (absorbing_entry tok2). rewrite Hdfas. set_solver.
  - apply Forall_forall. intros [tok2 dfa2] Hin2 n Hn. cbn [snd].
    rewrite length_drop in Hn.
    apply not_true_is_false. intros Hacc2.
    assert (start + n - 1 ∈ endpoints dfa2 word start) as Hend.
    { apply endpoints_accepts; [by eapply absorbing_entry|]. split; [lia|].
      by replace (start + n - 1 + 1 - start) with n by lia. }
    rewrite Forall_forall in Hmax. specialize (Hmax _ Hin2). cbn [snd] in Hmax.
    rewrite Forall_forall in Hmax. specialize (Hmax _ Hend). lia.
Qed.
(** The token of the longest-match rule is what the round emits. *)
Lemma munch_round word start e :
  maximalMunch self (drop start word) e →
  Lexer.round self word start = inl (e, start + length e.2).
Proof.
  intros (earlier & tok & dfa & later & Hdfas & He1 & Hne & [k Hk] & Hacc
          & Hearlier & Hlonger).
  destruct e as [e1 lexeme]. cbn [fst snd] in *. subst e1.
  assert (∃ n, n = length lexeme) as [n Hn_def] by eauto. rewrite <- Hn_def.
  assert (0 < n) as Hn by (destruct lexeme; [done|cbn in Hn_def; lia]).
  assert (length (drop start word) = n + length k) as Hlen
    by (by rewrite Hk, length_app, Hn_def).
  rewrite length_drop in Hlen.
  assert (lexeme = take n (drop start word)) as Hlex
    by (by rewrite Hk, Hn_def, take_app_length).
  assert ((tok, dfa) ∈ dfas self) as Hin by (rewrite Hdfas; set_solver).
  assert (start + n - 1 ∈ endpoints dfa word start) as Hidx.
  { apply endpoints_accepts; [by eapply absorbing_entry|]. split; [lia|].
    replace (start + n - 1 + 1 - start) with n by lia. by rewrite <- Hlex. }
  assert (Exists (λ entry, endpoints entry.2 word start ≠ []) (dfas self)) as Hex.
  { apply Exists_exists. exists (tok, dfa). split; [done|]. cbn [snd].
    intros Hnil. rewrite Hnil in Hidx. by apply elem_of_nil in Hidx. }
  destruct (round_longest _ _ _ keys Hex)
    as (earlier' & tok' & dfa' & later' & idx & Hdfas' & Hidx' & Hmax & Hearlier' & Hr).
  assert ((tok', dfa') ∈ dfas self) as Hin' by (rewrite Hdfas'; set_solver).
  pose proof Hidx' as Hacc'.
  apply (endpoints_accepts dfa' word start idx (absorbing_entry _ _ Hin')) in Hacc'
    as [Hrange Hacc'].
  assert (idx = start + n - 1) as ->.
  { assert (start + n - 1 ≤ idx).
    { rewrite Forall_forall in Hmax. specialize (Hmax _ Hin). cbn [snd] in Hmax.
      rewrite Forall_forall in Hmax. by apply Hmax. }
    destruct (decide (idx = start + n - 1)) as [|Hneq]; [done|exfalso].
    rewrite Forall_forall in Hlonger. specialize (Hlonger _ Hin' (idx + 1 - start)).
    cbn [snd] in Hlonger. rewrite Hlonger in Hacc'; [done|].
    rewrite length_drop, <- Hn_def. lia. }
  replace (start + n - 1 + 1 - start) with n in * by lia.
  rewrite <- Hlex in *.
  assert (length earlier = length earlier') as Hpos.
  { destruct (Nat.lt_trichotomy (length earlier) (length earlier')) as [Hl|[Hl|Hl]];
      [exfalso|done|exfalso].
    - assert (dfas self !! length earlier = Some (tok, dfa)) as Hl1
        by (by rewrite Hdfas, list_lookup_middle).
      rewrite Hdfas', lookup_app_l in Hl1 by done.
      apply list_elem_of_lookup_2 in Hl1.
      eapply Forall_forall in Hearlier'; [|exact Hl1]. done.
    - assert (dfas self !! length earlier' = Some (tok', dfa')) as Hl1
        by (by rewrite Hdfas', list_lookup_middle).
      rewrite Hdfas, lookup_app_l in Hl1 by done.
      apply list_elem_of_lookup_2 in Hl1.
      eapply Forall_forall in Hearlier; [|exact Hl1]. cbn [snd] in Hearlier.
      by rewrite Hearlier in Hacc'. }
  rewrite Hdfas in Hdfas'. apply app_inj_1 in Hdfas' as [_ [= <- <- _]]; [|done].
  rewrite Hr. do 2 f_equal. lia.
Qed.
Lemma munches_inv rest new :
  munches self rest new →
  (rest = [] ∧ new = []) ∨
  (∃ e rest' output', rest = e.2 ++ rest' ∧ new = e :: output' ∧
     maximalMunch self rest e ∧ munches self rest' output').
Proof.
  destruct 1 as [|e rest' output' He Hrest]; [by left|].
  right. by exists e, rest', output'.
Qed.

Lemma munch_nonempty rest e : maximalMunch self rest e → rest ≠ [].
Proof.
  intros (_ & _ & _ & _ & _ & _ & Hne & [k ->] & _). by destruct (e.2).
Qed.

(** The loop of [lex] returns the tokens exactly when the rest of the
    word is cut by the longest-match rule into them. *)
Lemma lexLoop_munches word fuel : ∀ start out output,
  start ≤ length word → length word - start < fuel →
  Lexer.lexLoop fuel self word start out = Ok (Tokens output) ↔
  ∃ new, output = out ++ new ∧ munches self (drop start word) new.
Proof.
  induction fuel as [|fuel IH]; intros start out output Hle Hfuel; [lia|].
  cbn [Lexer.lexLoop]. case_bool_decide as Hlt.
  - assert (drop start word ≠ []) as Hrest.
    { intros Hnil%(f_equal length). rewrite length_drop in Hnil. cbn in Hnil. lia. }
    destruct (Lexer.round self word start) as [[e start']|msg] eqn:Er.
    + destruct (round_munch _ _ _ _ Hlt Er) as [Hm ->].
      pose proof Hm as (_ & _ & _ & _ & _ & _ & Hne & [k Hk] & _).
      assert (0 < length e.2) as Hpos by (destruct (e.2); [done|cbn; lia]).
      assert (length (drop start word) = length e.2 + length k) as Hlen
        by (by rewrite Hk, length_app).
      rewrite length_drop in Hlen.
      assert (drop (start + length e.2) word = k) as Hdrop.
      { rewrite <- drop_drop, Hk. by rewrite drop_app_length. }
      rewrite IH by lia. rewrite Hdrop. split.
      * intros (new & -> & Hnew). exists (e :: new). rewrite <- app_assoc.
        split; [done|]. rewrite Hk. apply munches_cons; [by rewrite <- Hk|done].
      * intros (new & -> & Hnew).
        apply munches_inv in Hnew as [[Hnil _]|(e' & rest' & output' & Hr & -> & Hm' & Ho)];
          [done|].
        pose proof (munch_round _ _ _ Hm') as Hr'. rewrite Er in Hr'.
        injection Hr' as <- _. rewrite Hk in Hr. apply app_inv_head in Hr as <-.
        exists output'. by rewrite <- app_assoc.
    + split; [done|]. intros (new & _ & Hnew).
      apply munches_inv in Hnew as [[Hnil _]|(e' & rest' & output' & Hr & -> & Hm' & Ho)];
        [done|].
      pose proof (munch_round _ _ _ Hm') as Hr'. by rewrite Er in Hr'.
  - rewrite drop_ge by lia. split.
    + intros [= <-]. exists []. rewrite app_nil_r. split; [done|constructor].
    + intros (new & -> & Hnew).
      apply munches_inv in Hnew as [[_ ->]|(e' & rest' & output' & Hr & -> & Hm' & Ho)].
      * by rewrite app_nil_r.
      * by apply munch_nonempty in Hm'.
Qed.

Lemma lex_munches word :
  (∀ output, Lexer.lex self word = Ok (Tokens output) ↔ munches self word output) ∧
  ((∃ msg, Lexer.lex self word = Ok (Message msg)) ↔
   ¬ ∃ output, munches self word output).
Proof.
  assert (∀ output, Lexer.lex self word = Ok (Tokens output) ↔ munches self word output)
    as Hiff.
  { intros output. unfold Lexer.lex. rewrite lexLoop_munches by lia.
    rewrite drop_0. split; [by intros (new & -> & H)|]. intros H. by exists output. }
  split; [done|]. split.
  - intros [msg Hmsg] [output Hout]. apply Hiff in Hout. by rewrite Hmsg in Hout.
  - intros Hno. destruct (lexLoop_total self word (S (length word)) 0 []) as [out Hout];
      [lia|].
    destruct out as [output|msg]; [|by exists msg].
    destruct Hno. exists output. by apply Hiff.
Qed.
End Munch.

(** X27. [lex] cuts the word by the longest-match rule.  For a lexer whose
    categories are distinct and whose automata have a dead end as sink,
    [lex] returns a list of tokens exactly when the word is cut into them
    by taking, again and again, the longest prefix of what is left that
    the automaton of some category accepts, under the first category whose
    automaton accepts it; and it returns a message exactly when the word
    cannot be cut that way. *)
Theorem lex_cuts_by_the_longest_match (self : Lexer) (word : pystr) :
  NoDup (dfas self).*1 →
  Forall (λ entry, absorbing entry.2) (dfas self) →
  (∀ output, Lexer.lex self word = Ok (Tokens output) ↔ munches self word output) ∧
  ((∃ msg, Lexer.lex self word = Ok (Message msg)) ↔
   ¬ ∃ output, munches self word output).
Proof. intros Hkeys Hsinks. by apply lex_munches. Qed.

Lemma lex_cuts_by_the_longest_match_witness :
  let a := mkDFA 0 [1] [0; 1; 2] [(0, py "a", 1); (1, py "a", 2); (2, py "a", 2)]
             (Some 2) in
  let self := mkLexer 0 [(py "A", a)] in
  (∀ output, Lexer.lex self (py "aa") = Ok (Tokens output)
             ↔ munches self (py "aa") output) ∧
  ((∃ msg, Lexer.lex self (py "aa") = Ok (Message msg)) ↔
   ¬ ∃ output, munches self (py "aa") output).
Proof.
  intros a self. apply (lex_cuts_by_the_longest_match self (py "aa")).
  - apply (bool_decide_unpack _). vm_compute. exact I.
  - apply Forall_cons. split; [|apply Forall_nil_2].
    intros sink [= <-]. split.
    + intros Hin%list_elem_of_singleton. discriminate.
    + intros ch. unfold DFA.next. cbn. destruct (str_eqb _ ch); auto.
Defined.

(** ** The sinks of the automata of the lexer *)

(** The sink [fromNFA] sets is a dead end: the state the scan finds loops
    on every symbol that labels a transition at all, and the number that
    stands for [None] has no transition and is not final. *)
Lemma fromNFA_absorbing nfa dfa : DFA.fromNFA nfa = Ok dfa → absorbing dfa.
Proof.
  unfold DFA.fromNFA. destruct (DFA.subsets nfa) as [dfaS|e] eqn:Hs; [|done].
  cbn [mbind result_bind].
  destruct (renumber_spec dfaS)
    as (dfaN & m & Hr & Hm & Hstates & Hqfs & Htrans & _ & sk & Hsk & Hnone).
  destruct (subsets_edges nfa dfaS Hs) as (Hedges & _ & _).
  rewrite Hr. cbn [mbind result_bind]. rewrite (subsets_sink _ _ Hs) in Hnone.
  unfold DFA.setSink. destruct (List.find _ _) as [state|] eqn:Efind.
  - cbn. intros [= <-] sink [= <-].
    apply find_some in Efind as [_ Hsink].
    unfold DFA.isSink in Hsink. apply andb_true_iff in Hsink as [Hloop Hfin].
    split.
    + apply negb_true_iff in Hfin. unfold DFA.isFinal in Hfin.
      by apply bool_decide_eq_false in Hfin.
    + intros ch. unfold DFA.next. cbn [dfa_transitions].
      destruct (DFA.lookupTransition (dfa_transitions dfaN) state ch) as [t|] eqn:E;
        [right|by left].
      pose proof (lookupTransition_elem _ _ _ _ E) as [k Hk]%list_elem_of_lookup_1.
      destruct (Forall2_lookup_r _ _ _ _ _ Htrans Hk) as ([[g c] g'] & Hin & _ & Hc & _).
      cbn in Hc. subst c. apply list_elem_of_lookup_2, Hedges in Hin as (_ & _ & Hch & _).
      rewrite forallb_forall in Hloop. apply list_elem_of_In, Hloop in Hch.
      apply bool_decide_eq_true in Hch. unfold DFA.next in Hch. by rewrite <- Hch, E.
  - unfold DFA.addSink. rewrite Hsk. intros [= <-] sink Hsink.
    rewrite Hsk in Hsink. injection Hsink as <-. split.
    + intros [j Hj]%list_elem_of_lookup_1.
      destruct (Forall2_lookup_r _ _ _ _ _ Hqfs Hj) as (g & _ & Hg).
      by pose proof (mapper_inj m Hm _ _ _ Hg Hnone).
    + intros ch. left. apply lookupTransition_None. apply Forall_forall.
      intros [[n c] n'] [k Hk]%list_elem_of_lookup_1. cbn. intros ->.
      destruct (Forall2_lookup_r _ _ _ _ _ Htrans Hk) as ([[g c'] g'] & _ & Hg & _).
      cbn in Hg. by pose proof (mapper_inj m Hm _ _ _ Hg Hnone).
Qed.

(** Moving the states up keeps the sink a dead end. *)
Lemma rename_absorbing (dfa : DFA nat) sink counter :
  absorbing dfa → dfa_sink dfa = Some sink →
  absorbing (mkDFA (dfa_q0 dfa + counter) ((λ x, x + counter) <$> dfa_qfs dfa)
               ((λ x, x + counter) <$> dfa_states dfa)
               ((λ t, (t.1.1 + counter, t.1.2, t.2 + counter)) <$> dfa_transitions dfa)
               (Some (sink + counter))).
Proof.
  intros Habs Hsink. destruct (Habs sink Hsink) as [Hfin Hloop].
  assert (∀ x y, x + counter = y + counter → x = y) as Hinj by (intros; lia).
  intros sink' [= <-]. cbn [dfa_qfs]. split.
  - intros Hin. apply Hfin.
    pose proof (isFinal_rename (λ x, x + counter) Hinj (dfa_qfs dfa) sink) as Heq.
    rewrite bool_decide_eq_true_2 in Heq by done. symmetry in Heq.
    by apply bool_decide_eq_true in Heq.
  - intros ch. unfold DFA.next in *. cbn [dfa_transitions].
    rewrite (lookupTransition_rename (λ x, x + counter) Hinj).
    destruct (Hloop ch) as [-> | ->]; [by left|by right].
Qed.

Lemma dictSet_Forall {K V} `{EqDecision K} (P : V → Prop) (k : K) (v : V) d :
  P v → Forall (λ entry, P entry.2) d → Forall (λ entry, P entry.2) (dictSet k v d).
Proof.
  intros Hv. induction 1 as [|[k' v'] d Hv' Hd IH]; cbn [dictSet].
  - by repeat constructor.
  - case_bool_decide; constructor; done.
Qed.

Lemma build_absorbing counter acc shared tok regex counter' acc' shared' :
  Lexer.build (Ok (counter, acc, shared)) (tok, regex) = Ok (counter', acc', shared') →
  Forall (λ entry, absorbing entry.2) acc → Forall (λ entry, absorbing entry.2) acc'.
Proof.
  unfold Lexer.build. cbn [mbind result_bind].
  destruct (Parser.toPrenex regex) as [prenex|] eqn:E1; [|done]. cbn [mbind result_bind].
  destruct (NFA.fromPrenex shared prenex) as [nfa|] eqn:E2; [|done].
  cbn [mbind result_bind].
  destruct (DFA.fromNFA nfa) as [dfa0|] eqn:E3; [|done]. cbn [mbind result_bind].
  destruct (fromNFA_has_sink _ _ E3) as [sink Hsink].
  rewrite (map_rename _ (λ x, x + counter) (λ x, eq_refl) dfa0 sink Hsink).
  cbn [mbind result_bind]. intros [= <- <- <-] Hacc.
  apply (dictSet_Forall absorbing); [|done].
  apply rename_absorbing; [by eapply fromNFA_absorbing|done].
Qed.

Lemma foldl_build_absorbing l : ∀ counter acc shared counter' dfas shared',
  foldl Lexer.build (Ok (counter, acc, shared)) l = Ok (counter', dfas, shared') →
  Forall (λ entry, absorbing entry.2) acc → Forall (λ entry, absorbing entry.2) dfas.
Proof.
  induction l as [|[tok regex] l IH]; intros counter acc shared counter' dfas shared';
    cbn [foldl].
  - by intros [= <- <- <-].
  - destruct (Lexer.build (Ok (counter, acc, shared)) (tok, regex))
      as [[[c1 acc1] sh1]|e] eqn:E; [|by rewrite foldl_build_raise].
    intros Hf Hacc. eapply IH; [exact Hf|]. by eapply build_absorbing.
Qed.

Lemma init_absorbing shared configurations_ref h self shared' :
  (Lexer.init shared configurations_ref h).2 = Ok (self, shared') →
  Forall (λ entry, absorbing entry.2) (dfas self).
Proof.
  unfold Lexer.init. destruct (h !! configurations_ref) as [d|]; [|done].
  cbn [snd]. destruct (_ !! configurations_ref) as [d'|]; [|done].
  destruct (foldl Lexer.build _ _) as [[[c ds] sh]|e] eqn:E; [|done].
  cbn. intros [= <- <-]. cbn [dfas].
  eapply foldl_build_absorbing; [exact E|constructor].
Qed.

(** X28. The lexer the constructor builds cuts by the longest-match rule.
    Every automaton it stores has a dead end as sink (not final, and left
    by no transition that leads elsewhere), so the walk of [lex] that
    stops at the sink misses no match; and [lex] returns a list of tokens
    exactly when the word is cut into them by taking, again and again, the
    longest prefix of what is left that the automaton of some category
    accepts, under the first such category of the configurations. *)
Theorem init_lexer_cuts_by_the_longest_match
    (shared shared' : gmap nat (gset nat)) (configurations_ref : nat) (h : store)
    (d : configs) (self : Lexer) :
  h !! configurations_ref = Some d →
  NoDup d.*1 →
  (Lexer.init shared configurations_ref h).2 = Ok (self, shared') →
  Forall (λ entry, absorbing entry.2) (dfas self) ∧
  ∀ word output,
    Lexer.lex self word = Ok (Tokens output) ↔ munches self word output.
Proof.
  intros Hl Hnd Hinit. pose proof (init_absorbing _ _ _ _ _ Hinit) as Habs.
  destruct (init_entries _ _ _ _ _ _ Hl Hnd Hinit) as (_ & Hkeys & _).
  split; [done|]. intros word. by apply lex_munches.
Qed.

Lemma init_lexer_cuts_by_the_longest_match_witness :
  let d := [(py "IF", py "if"); (py "ID", py "[f-i]+")] in
  match (Lexer.init ∅ 0 {[0 := d]}).2 with
  | Ok (self, _) =>
    Forall (λ entry, absorbing entry.2) (dfas self) ∧
    ∀ word output,
      Lexer.lex self word = Ok (Tokens output) ↔ munches self word output
  | Raise _ => False
  end.
Proof.
  intros d.
  destruct (Lexer.init ∅ 0 {[0 := d]}).2 as [[self shared']|e] eqn:E.
  - apply (init_lexer_cuts_by_the_longest_match ∅ shared' 0 {[0 := d]} d self);
      [reflexivity| |exact E].
    apply (bool_decide_unpack _). vm_compute. exact I.
  - vm_compute in E. discriminate.
Defined.

